(** * JSONX: a shallow embedding of the decoder and the encoder

    The Go package [jsonx] decodes an extended JSON syntax into a tree of
    [interface{}] values and encodes such a tree back to text.  This file
    embeds the decoder (the cursor, the lexical grammars, the recursive
    descent) and the encoder, and proves properties of both.

    Conventions of the embedding:
    - [[]byte] is [list byte] with [byte := ascii]; a Go [string] is a
      [String.string]; [string(b)] is [string_of_list_ascii].
    - a [Decoder] is created by [NewDecoder] with [end = len(data)] and only
      its [pos] changes afterwards: [data] is a parameter of every method and
      the cursor is passed explicitly.  [AllocString] only switches between
      two ways of building the same substring and is left out.
    - indexing [d.data[i]] and slicing [d.data[a:b]] panic in Go when out of
      range; the embedding returns [Panic] there, so that the absence of
      panics is a theorem and not a convention.
    - [float64] is IEEE 754 binary64 as specified by [SpecFloat]. *)

From Stdlib Require Import ZArith NArith Arith Bool Ascii String List Lia.
From Stdlib Require Import Floats.SpecFloat.
From Stdlib Require Import Sorting.Permutation Sorting.Sorted.
Import ListNotations.

Open Scope string_scope.
Open Scope nat_scope.
Set Warnings "-register-all".

Abbreviation gostring := String.string (only parsing).
Abbreviation byte := ascii (only parsing).

(** ** Bytes *)

Definition code (c : byte) : N := N_of_ascii c.

(** [lo <= c && c <= hi] on bytes. *)
Definition inrange (lo hi c : byte) : bool :=
  (code lo <=? code c)%N && (code c <=? code hi)%N.

Definition is_digit (c : byte) : bool := inrange "0" "9" c.
Definition is_lower (c : byte) : bool := inrange "a" "z" c.
Definition is_upper (c : byte) : bool := inrange "A" "Z" c.

Definition NUL : byte := "000"%char.
Definition TAB : byte := "009"%char.
Definition LF : byte := "010"%char.
Definition FF : byte := "012"%char.
Definition CR : byte := "013"%char.
Definition SPACE : byte := " "%char.
Definition QUOTE : byte := "034"%char.
Definition BACKSLASH : byte := "\"%char.

Definition bytes_of (s : gostring) : list byte := list_ascii_of_string s.

(** ** float64 *)

Definition float64 := spec_float.

Definition f64_mul : float64 -> float64 -> float64 := SFmul 53 1024.
Definition f64_add : float64 -> float64 -> float64 := SFadd 53 1024.
Definition f64_neg : float64 -> float64 := SFopp.
(** [float64(n)] for an integer [n]. *)
Definition f64_of_Z (n : Z) : float64 := binary_normalize 53 1024 n 0 false.
Definition f64_zero : float64 := S754_zero false.

(** ** Errors *)

(** The three predefined errors are pointers that callers compare by
    identity: each is a constructor of its own, distinct from a
    [SyntaxError] built at the point of failure. *)
Inductive goerror :=
| SyntaxError (msg : gostring) (Offset : Z)
| ExtraDataError (Offset : Z)
| ErrUnexpectedEOF
| ErrInvalidHexEscape
| ErrStringEscape
| ParseError (msg : gostring)            (* the error of time.Parse *)
| UnsupportedType (msg : gostring).      (* fmt.Errorf of the encoder *)

Definition Error (e : goerror) : gostring :=
  match e with
  | SyntaxError msg _ => msg
  | ExtraDataError _ => "Extra data after top-level value"
  | ErrUnexpectedEOF => "unexpected end of JSON input"
  | ErrInvalidHexEscape => "invalid hexadecimal escape sequence"
  | ErrStringEscape => "encountered an invalid escape sequence in a string"
  | ParseError msg => msg
  | UnsupportedType msg => msg
  end.

Definition Offset_of (e : goerror) : option Z :=
  match e with
  | SyntaxError _ o => Some o
  | ExtraDataError o => Some o
  | ErrUnexpectedEOF | ErrInvalidHexEscape | ErrStringEscape => Some (-1)%Z
  | ParseError _ | UnsupportedType _ => None
  end.

(** ** The Go standard library, as far as the package calls it *)

(** Functions of the standard library (and two helpers of the package whose
    file is not part of the sources at hand, [unquoteBytes] and [quoteChar])
    that are taken as parameters.  Integer parsing and formatting, sorting
    and UTF-8 are modelled below instead. *)
Class GoLib := {
  Time : Type;
  IP : Type;
  (** strconv.ParseFloat(s, 64): the value, or [err.Error()]. *)
  ParseFloat : gostring -> float64 + gostring;
  (** strconv.FormatFloat(v, 'g', -1, 64). *)
  FormatFloat : float64 -> gostring;
  (** time.Parse(time.RFC3339, s). *)
  time_Parse : gostring -> Time + gostring;
  (** t.Format(time.RFC3339). *)
  time_Format : Time -> gostring;
  (** net.ParseIP(s); [None] is the nil IP. *)
  ParseIP : gostring -> option IP;
  (** ip.String() and ip.To4(). *)
  IP_String : IP -> gostring;
  IP_To4 : IP -> option IP;
  (** unquoteBytes(s, buf): the unescaped bytes, or [None] for [ok = false]. *)
  unquoteBytes : list byte -> option (list byte);
  (** quoteChar(c): the byte as it is shown in an error message. *)
  quoteChar : byte -> gostring;
  (** base64.StdEncoding applied to a whole byte slice. *)
  base64 : list byte -> gostring
}.

(** *** strconv: integers *)

Module strconv.

(** strconv.Quote, exact on printable ASCII; other bytes are kept as they
    are (Go would write an escape for them). *)
Fixpoint quote_body (s : gostring) : gostring :=
  match s with
  | EmptyString => EmptyString
  | String c s' =>
      if (Ascii.eqb c QUOTE || Ascii.eqb c BACKSLASH)%bool
      then String BACKSLASH (String c (quote_body s'))
      else String c (quote_body s')
  end.

Definition Quote (s : gostring) : gostring :=
  String QUOTE (quote_body s ++ String QUOTE EmptyString).

Inductive numerr := ErrSyntax | ErrRange.

(** (&NumError{Func, Num, Err}).Error() *)
Definition NumError (fn num : gostring) (e : numerr) : gostring :=
  "strconv." ++ fn ++ ": parsing " ++ Quote num ++ ": " ++
  match e with ErrSyntax => "invalid syntax" | ErrRange => "value out of range" end.

(** The digit loop of ParseUint in base 10: [n] is the value so far, kept
    below 2^64; [(2^64 - 1) / 10 + 1] is the first [n] for which [n*10]
    overflows. *)
Fixpoint uint_loop (maxVal : Z) (s : gostring) (n : Z) : Z + numerr :=
  match s with
  | EmptyString => inl n
  | String c s' =>
      if is_digit c then
        let d := Z.of_N (code c - code "0") in
        if (n >=? (2 ^ 64 - 1) / 10 + 1)%Z then inr ErrRange
        else
          let n := (n * 10)%Z in
          let n1 := (n + d)%Z in
          if ((n1 >=? 2 ^ 64) || (n1 >? maxVal))%Z%bool then inr ErrRange
          else uint_loop maxVal s' n1
      else inr ErrSyntax
  end.

Definition parse_uint (s : gostring) (bitSize : Z) : Z + numerr :=
  match s with
  | EmptyString => inr ErrSyntax
  | _ => uint_loop (2 ^ bitSize - 1) s 0
  end.

(** strconv.ParseUint(s, 10, bitSize) *)
Definition ParseUint (s : gostring) (bitSize : Z) : Z + gostring :=
  match parse_uint s bitSize with
  | inl n => inl n
  | inr e => inr (NumError "ParseUint" s e)
  end.

(** The body of ParseInt, the name of the calling function a parameter:
    Atoi reports its errors under its own name. *)
Definition parse_int (fn : gostring) (s0 : gostring) (bitSize : Z) : Z + gostring :=
  match s0 with
  | EmptyString => inr (NumError fn s0 ErrSyntax)
  | String c s' =>
      let neg := Ascii.eqb c "-" in
      let s := if (Ascii.eqb c "+" || neg)%bool then s' else s0 in
      let cutoff := (2 ^ (bitSize - 1))%Z in
      let ranged un :=
        if (negb neg && (un >=? cutoff)%Z)%bool then inr (NumError fn s0 ErrRange)
        else if (neg && (un >? cutoff)%Z)%bool then inr (NumError fn s0 ErrRange)
        else inl (if neg then (- un)%Z else un) in
      match parse_uint s bitSize with
      | inr ErrSyntax => inr (NumError fn s0 ErrSyntax)
      | inr ErrRange => ranged (2 ^ bitSize - 1)%Z
      | inl un => ranged un
      end
  end.

(** strconv.ParseInt(s, 10, bitSize) *)
Definition ParseInt (s : gostring) (bitSize : Z) : Z + gostring :=
  parse_int "ParseInt" s bitSize.

(** strconv.Atoi(s), on a platform whose [int] has 64 bits. *)
Definition Atoi (s : gostring) : Z + gostring := parse_int "Atoi" s 64.

(** Decimal digits of a natural number, most significant first. *)
Fixpoint digits_fuel (fuel : nat) (n : Z) (acc : gostring) : gostring :=
  match fuel with
  | O => acc
  | S fuel' =>
      let acc' := String (ascii_of_N (code "0" + Z.to_N (n mod 10))) acc in
      if (n <? 10)%Z then acc' else digits_fuel fuel' (n / 10)%Z acc'
  end.

(** strconv.FormatUint(v, 10) *)
Definition FormatUint (v : Z) : gostring :=
  digits_fuel (S (Z.to_nat (Z.log2 v))) v EmptyString.

(** strconv.FormatInt(v, 10), and strconv.Itoa *)
Definition FormatInt (v : Z) : gostring :=
  if (v <? 0)%Z then String "-" (FormatUint (- v)) else FormatUint v.

End strconv.

(** ** Values *)

(** The integer types of Go that the package distinguishes. *)
Inductive ikind :=
| KInt | KInt8 | KInt16 | KInt32 | KInt64
| KUint | KUint8 | KUint16 | KUint32 | KUint64.

Definition signed (k : ikind) : bool :=
  match k with
  | KInt | KInt8 | KInt16 | KInt32 | KInt64 => true
  | _ => false
  end.

(** Width in bits; [int] and [uint] have 64 bits. *)
Definition bits (k : ikind) : Z :=
  match k with
  | KInt8 | KUint8 => 8
  | KInt16 | KUint16 => 16
  | KInt32 | KUint32 => 32
  | KInt | KInt64 | KUint | KUint64 => 64
  end.

Definition fits (k : ikind) (n : Z) : Prop :=
  if signed k then (- 2 ^ (bits k - 1) <= n < 2 ^ (bits k - 1))%Z
  else (0 <= n < 2 ^ bits k)%Z.

Definition type_name (k : ikind) : gostring :=
  match k with
  | KInt => "int" | KInt8 => "int8" | KInt16 => "int16"
  | KInt32 => "int32" | KInt64 => "int64"
  | KUint => "uint" | KUint8 => "uint8" | KUint16 => "uint16"
  | KUint32 => "uint32" | KUint64 => "uint64"
  end.

Section Values.
Context {L : GoLib}.

(** The dynamic values held by an [interface{}] that the package produces
    or accepts; [VUnsupported T] stands for a value of any other type [T]. *)
Inductive value :=
| VNil
| VBool (b : bool)
| VFloat64 (f : float64)
| VString (s : gostring)
| VArray (a : list value)                      (* []interface{} *)
| VMap (m : list (gostring * value))           (* map[string]interface{} *)
| VInteger (k : ikind) (n : Z)                 (* int, int8, ..., uint64 *)
| VTime (t : Time)                             (* time.Time *)
| VIP (ip : IP)                                (* net.IP *)
| VTCPAddr (ip : IP) (port : Z)                (* net.TCPAddr *)
| VBytes (b : list byte)                       (* []byte *)
| VUnsupported (T : gostring).

(** A Go map holds one entry per key; the order of the association list
    stands for the order in which [range] happens to visit the entries. *)

(** [m[k]]: the entry of the key, [nil] when there is none. *)
Fixpoint map_get (m : list (gostring * value)) (k : gostring) : value :=
  match m with
  | [] => VNil
  | (k', v) :: m' => if String.eqb k' k then v else map_get m' k
  end.

(** [m[k] = v]: overwrite the entry of the key or add one. *)
Fixpoint map_set (m : list (gostring * value)) (k : gostring) (v : value)
  : list (gostring * value) :=
  match m with
  | [] => [(k, v)]
  | (k', v') :: m' =>
      if String.eqb k' k then (k, v) :: m' else (k', v') :: map_set m' k v
  end.

End Values.

(** ** The decoder *)

(** What a method of the decoder does: it returns a value and leaves the
    cursor at [pos], returns an error (the cursor is where it was when the
    error was made), panics on an index out of range, or, for the methods
    that recurse, exhausts the fuel of the model. *)
Inductive res (A : Type) :=
| Ok (a : A) (pos : nat)
| Err (e : goerror) (pos : nat)
| Panic
| OutOfFuel.
Arguments Ok {A} a pos.
Arguments Err {A} e pos.
Arguments Panic {A}.
Arguments OutOfFuel {A}.

Notation "'let*' ( x , p ) := e 'in' k" :=
  (match e with
   | Ok x p => k
   | Err err p' => Err err p'
   | Panic => Panic
   | OutOfFuel => OutOfFuel
   end)
  (at level 10, x pattern, p name, e at level 100, k at level 200).

Definition fmap {A B} (f : A -> B) (r : res A) : res B :=
  let* (a, p) := r in Ok (f a) p.

Module Decoder.
Section Methods.
Context {L : GoLib}.
Variable data : list byte.

(** [d.end], set to [len(data)] by NewDecoder. *)
Definition end_ : nat := length data.

(** [d.data[i]] *)
Definition index (i : nat) (pos : nat) : res byte :=
  match nth_error data i with
  | Some c => Ok c pos
  | None => Panic
  end.

(** [string(d.data[a:b])] *)
Definition slice (a b : nat) (pos : nat) : res (list byte) :=
  if (a <=? b) && (b <=? length data)
  then Ok (firstn (b - a) (skipn a data)) pos
  else Panic.

(** emit syntax errors *)
Definition error {A} (c : byte) (context : gostring) (pos : nat) : res A :=
  if pos <? end_
  then Err (SyntaxError ("invalid character " ++ quoteChar c ++ " " ++ context)
                        (Z.of_nat pos + 1)) pos
  else Err ErrUnexpectedEOF pos.

(** next return the next byte in the input *)
Definition next (pos : nat) : res byte :=
  if pos <? end_ then
    let pos := S pos in
    if pos <? end_ then index pos pos else Ok NUL pos
  else Ok NUL pos.

Definition is_space (c : byte) : bool :=
  Ascii.eqb c SPACE || Ascii.eqb c TAB || Ascii.eqb c LF || Ascii.eqb c CR.

(** returns the next char after white spaces; one unit of fuel per
    [goto loop]. *)
Fixpoint skipSpaces_loop (fuel : nat) (pos : nat) : res byte :=
  if pos =? end_ then Ok NUL pos
  else
    let* (c, pos) := index pos pos in
    if is_space c then
      match fuel with
      | O => OutOfFuel
      | S fuel' => skipSpaces_loop fuel' (S pos)
      end
    else Ok c pos.

Definition skipSpaces (pos : nat) : res byte :=
  skipSpaces_loop (end_ - pos) pos.

Definition is_atom_start (c : byte) : bool :=
  is_lower c || is_upper c || Ascii.eqb c "_".

Definition is_atom_char (c : byte) : bool :=
  is_lower c || is_upper c || Ascii.eqb c "_" || is_digit c.

(** The inner loop of [atom]. *)
Fixpoint atom_loop (fuel : nat) (pos : nat) : res unit :=
  if pos <? end_ then
    let* (c, pos) := index pos pos in
    if is_atom_char c then
      match fuel with
      | O => OutOfFuel
      | S fuel' => atom_loop fuel' (S pos)
      end
    else Ok tt pos
  else Ok tt pos.

Definition atom (pos : nat) : res gostring :=
  let start := pos in
  if pos <? end_ then
    let* (c, pos) := index pos pos in
    if is_atom_start c then
      let pos := S pos in
      let* (_, pos) := atom_loop (end_ - pos) pos in
      let* (s, pos) := slice start pos pos in
      Ok (string_of_list_ascii s) pos
    else error c "looking for atom" pos
  else error NUL "looking for atom" pos.

Definition is_hex (c : byte) : bool :=
  is_digit c || inrange "a" "f" c || inrange "A" "F" c.

(** The loop at the label [escape_u], after its [d.pos++]: [i] counts the
    iterations that are left. *)
Fixpoint escape_u (i : nat) (pos : nat) : res unit :=
  match i with
  | O => Ok tt pos
  | S i' =>
      if pos <? end_ then
        let* (c, pos) := index pos pos in
        if is_hex c then escape_u i' (S pos)
        else error c "in \u hexadecimal character escape" pos
      else Err ErrInvalidHexEscape pos
  end.

Definition is_simple_escape (c : byte) : bool :=
  Ascii.eqb c "b" || Ascii.eqb c "f" || Ascii.eqb c "n" || Ascii.eqb c "r" ||
  Ascii.eqb c "t" || Ascii.eqb c BACKSLASH || Ascii.eqb c "/" || Ascii.eqb c QUOTE.

(** The loop at the label [scan] of [string]; one unit of fuel per
    iteration. *)
Fixpoint string_scan (fuel : nat) (unquote : bool) (start : nat) (pos : nat)
  : res gostring :=
  if end_ <=? pos then Err ErrUnexpectedEOF pos
  else
    let continue unquote pos :=
      match fuel with
      | O => OutOfFuel
      | S fuel' => string_scan fuel' unquote start pos
      end in
    let* (c, pos) := index pos pos in
    if Ascii.eqb c QUOTE then
      let* (raw, pos) := slice start pos pos in
      if unquote then
        match unquoteBytes raw with
        | None => Err ErrStringEscape pos
        | Some b => Ok (string_of_list_ascii b) (S pos)
        end
      else Ok (string_of_list_ascii raw) (S pos)
    else if Ascii.eqb c BACKSLASH then
      let pos := S pos in
      if end_ <=? pos then Err ErrUnexpectedEOF pos
      else
        let* (c, pos) := index pos pos in
        if Ascii.eqb c "u" then
          let* (_, pos) := escape_u 3 (S pos) in
          continue true pos
        else if is_simple_escape c then continue true (S pos)
        else error c "in string escape code" pos
    else if (code c <? 32)%N then error c "in string literal" pos
    else continue (unquote || (127 <? code c)%N) (S pos).

(** string called by [any] or [object] (for map keys) after reading the
    opening quote *)
Definition string (pos : nat) : res gostring :=
  let pos := S pos in
  string_scan (end_ - pos) false pos pos.

(** The loop [for ; c >= '0' && c <= '9'; c = d.next()] of [number] that
    accumulates [n = 10*n + float64(c-'0')], each operation rounded on its
    own. *)
Fixpoint digits_loop (fuel : nat) (n : float64) (c : byte) (pos : nat)
  : res (float64 * byte) :=
  if is_digit c then
    match fuel with
    | O => OutOfFuel
    | S fuel' =>
        let n := f64_add (f64_mul (f64_of_Z 10) n)
                         (f64_of_Z (Z.of_N (code c - code "0"))) in
        let* (c, pos) := next pos in
        digits_loop fuel' n c pos
    end
  else Ok (n, c) pos.

(** The loop [for ...; '0' <= c && c <= '9'; { c = d.next() }] of [number],
    entered with the byte that the init statement has read. *)
Fixpoint skip_digits (fuel : nat) (c : byte) (pos : nat) : res byte :=
  if is_digit c then
    match fuel with
    | O => OutOfFuel
    | S fuel' => let* (c, pos) := next pos in skip_digits fuel' c pos
    end
  else Ok c pos.

(** The three phases of [number] that move the cursor.  Each takes the
    byte [c] under the cursor and returns the byte it has last read. *)

(** digits first *)
Definition number_digits (c : byte) (pos : nat) : res (float64 * byte) :=
  if Ascii.eqb c "0" then
    let* (c, pos) := next pos in Ok (f64_zero, c) pos
  else if inrange "1" "9" c then digits_loop (S (end_ - pos)) f64_zero c pos
  else Ok (f64_zero, c) pos.

(** . followed by 1 or more digits; the result tells whether [isFloat] was
    set. *)
Definition number_fraction (c : byte) (pos : nat) : res (bool * byte) :=
  if Ascii.eqb c "." then
    let pos := S pos in
    if end_ <=? pos then Err ErrUnexpectedEOF pos
    else
      let* (c, pos) := index pos pos in
      if (code c <? code "0")%N && (code "9" <? code c)%N
      then error c "after decimal point in numeric literal" pos
      else
        let* (c, pos) := next pos in
        let* (c, pos) := skip_digits (S (end_ - pos)) c pos in
        Ok (true, c) pos
  else Ok (false, c) pos.

(** e or E followed by an optional - or + and 1 or more digits; the result
    is [isFloat] afterwards. *)
Definition number_exponent (isFloat : bool) (c : byte) (pos : nat) : res bool :=
  if Ascii.eqb c "e" || Ascii.eqb c "E" then
    let* (c, pos) := next pos in
    let* (_, pos) :=
      if Ascii.eqb c "+" || Ascii.eqb c "-" then
        let* (c, pos) := next pos in
        if (code c <? code "0")%N || (code "9" <? code c)%N
        then error c "in exponent of numeric literal" pos
        else Ok tt pos
      else Ok tt pos in
    let* (c, pos) := next pos in
    let* (_, pos) := skip_digits (S (end_ - pos)) c pos in
    Ok true pos
  else Ok isFloat pos.

(** The scanning part of [number]: the accumulated [n] and [isFloat]. *)
Definition number_scan (pos : nat) : res (float64 * bool) :=
  let* (c, pos) := index pos pos in
  let* (nc, pos) := number_digits c pos in
  let* (fc, pos) := number_fraction (snd nc) pos in
  let* (isFloat, pos) := number_exponent (fst fc) (snd fc) pos in
  Ok (fst nc, isFloat) pos.

(** number called by [any] after reading number between 0 to 9: the scan,
    then the conversion of the scanned text if it was marked as a float. *)
Definition number (pos : nat) : res float64 :=
  let start := pos in
  let* (ni, pos) := number_scan pos in
  if snd ni then
    let* (sn, pos) := slice start pos pos in
    match ParseFloat (string_of_list_ascii sn) with
    | inl n => Ok n pos
    | inr msg => Err (SyntaxError msg (Z.of_nat pos)) pos
    end
  else Ok (fst ni) pos.

(** The loop of [bracketExpr] that takes the bytes up to the next [)]. *)
Fixpoint bracket_raw (fuel : nat) (start : nat) (pos : nat) : res gostring :=
  if pos <? end_ then
    let* (c, pos) := index pos pos in
    if Ascii.eqb c ")" then
      let* (ret, pos) := slice start pos pos in
      Ok (string_of_list_ascii ret) (S pos)
    else
      match fuel with
      | O => OutOfFuel
      | S fuel' => bracket_raw fuel' start (S pos)
      end
  else error SPACE "looking for )" pos.

Definition bracketExpr (pos : nat) : res gostring :=
  let* (c, pos) := skipSpaces pos in
  if negb (Ascii.eqb c "(") then error c "looking for (" pos
  else
    let pos := S pos in
    let* (c, pos) := skipSpaces pos in
    let start := pos in
    if Ascii.eqb c QUOTE then
      let* (s, pos) := string pos in
      let* (c, pos) := skipSpaces pos in
      if negb (Ascii.eqb c ")") then error c "looking for )" pos
      else Ok s (S pos)
    else bracket_raw (end_ - pos) start pos.

(** The parser that each of [int], [int8], ..., [uint64] applies to the
    text between the brackets. *)
Definition parse_integer (k : ikind) (intStr : gostring) : Z + gostring :=
  match k with
  | KInt => strconv.Atoi intStr
  | KInt8 | KInt16 | KInt32 | KInt64 => strconv.ParseInt intStr (bits k)
  | KUint | KUint64 => strconv.ParseUint intStr 64
  | KUint8 | KUint16 | KUint32 => strconv.ParseUint intStr (bits k)
  end.

(** The common body of the ten methods [int], [int8], ..., [uint64], which
    differ in the parser they call and in the type of the result. *)
Definition integer (k : ikind) (pos : nat) : res value :=
  let* (intStr, pos) := bracketExpr pos in
  match parse_integer k intStr with
  | inl n => Ok (VInteger k n) pos
  | inr msg => Err (SyntaxError msg (Z.of_nat pos)) pos
  end.

Definition int := integer KInt.
Definition int8 := integer KInt8.
Definition int16 := integer KInt16.
Definition int32 := integer KInt32.
Definition int64 := integer KInt64.
Definition uint := integer KUint.
Definition uint8 := integer KUint8.
Definition uint16 := integer KUint16.
Definition uint32 := integer KUint32.
Definition uint64 := integer KUint64.

Definition datetime (pos : nat) : res value :=
  let* (str, pos) := bracketExpr pos in
  match time_Parse str with
  | inl t => Ok (VTime t) pos
  | inr msg => Err (ParseError msg) pos
  end.

Definition ip (pos : nat) : res value :=
  let* (str, pos) := bracketExpr pos in
  match ParseIP str with
  | Some ip => Ok (VIP ip) pos
  | None => error SPACE "invalid ip" pos
  end.

(** strings.IndexByte; [None] is -1. *)
Fixpoint IndexByte (s : gostring) (c : byte) : option nat :=
  match s with
  | EmptyString => None
  | String c' s' =>
      if Ascii.eqb c' c then Some 0
      else match IndexByte s' c with Some i => Some (S i) | None => None end
  end.

(** [str[a:b]] and [str[a:]], for bounds that are in range where [ipport]
    uses them. *)
Definition substr (s : gostring) (a b : nat) : gostring := substring a (b - a) s.
Definition suffix (s : gostring) (a : nat) : gostring :=
  substring a (String.length s - a) s.

Definition ipport (pos : nat) : res value :=
  let* (str, pos) := bracketExpr pos in
  let fail {A} msg : res A := Err (SyntaxError msg (Z.of_nat pos + 1)) pos in
  match str with
  | EmptyString => error SPACE "invalid ipport" pos
  | String c0 _ =>
      let* (split, pos) :=
        if Ascii.eqb c0 "[" then (* [ipv6]:port *)
          match IndexByte (suffix str 1) "]" with
          | None => fail "invalid ipv6, missing ]"
          | Some p =>
              let p := S p in
              let ipstr := substr str 1 p in
              let p := S p in
              if (String.length str <=? p) ||
                 negb (match String.get p str with
                       | Some c => Ascii.eqb c ":" | None => false end)
              then fail "missing : after ipv6"
              else Ok (ipstr, p) pos
          end
        else (* ipv4:port *)
          match IndexByte str ":" with
          | None => fail "missing : after ipv4"
          | Some p => Ok (substr str 0 p, p) pos
          end in
      let ipstr := fst split in
      let p := S (snd split) in
      if String.length str <=? p then fail "missing port after :"
      else
        let portstr := suffix str p in
        match ParseIP ipstr with
        | None => fail ("malformed IP: " ++ ipstr)
        | Some ip =>
            match strconv.Atoi portstr with
            | inr _ => fail ("malformed port: " ++ portstr)
            | inl port => Ok (VTCPAddr ip port) pos
            end
        end
  end.

Definition objectKey (pos : nat) : res gostring :=
  if end_ <=? pos then Err ErrUnexpectedEOF pos
  else
    let* (c, pos) := index pos pos in
    if Ascii.eqb c QUOTE then string pos else atom pos.

(** The typed-literal methods by the name of the type. *)
Definition typed_literal (atom : gostring) : option (nat -> res value) :=
  if String.eqb atom "int" then Some int
  else if String.eqb atom "datetime" then Some datetime
  else if String.eqb atom "ip" then Some ip
  else if String.eqb atom "ipport" then Some ipport
  else if String.eqb atom "int8" then Some int8
  else if String.eqb atom "int16" then Some int16
  else if String.eqb atom "int32" then Some int32
  else if String.eqb atom "int64" then Some int64
  else if String.eqb atom "uint" then Some uint
  else if String.eqb atom "uint8" then Some uint8
  else if String.eqb atom "uint16" then Some uint16
  else if String.eqb atom "uint32" then Some uint32
  else if String.eqb atom "uint64" then Some uint64
  else None.

(** [any] used to decode any valid JSONX value; [array_scan] and
    [object_scan] are the loops of [array] and [object], entered after the
    opening bracket, with the elements read so far.  The three call each
    other; every call takes one unit of fuel. *)
Fixpoint any (fuel : nat) (pos : nat) : res value :=
  match fuel with
  | O => OutOfFuel
  | S fuel =>
      if end_ <=? pos then error NUL "looking for beginning of value" pos
      else
        let* (c, pos) := index pos pos in
        if Ascii.eqb c QUOTE then fmap VString (string pos)
        else if is_digit c then fmap VFloat64 (number pos)
        else if Ascii.eqb c "-" then
          let pos := S pos in
          if end_ <=? pos then Err ErrUnexpectedEOF pos
          else
            let* (c, pos) := index pos pos in
            if (code c <? code "0")%N && (code "9" <? code c)%N
            then error c "in negative numeric literal" pos
            else
              let* (n, pos) := number pos in
              Ok (VFloat64 (f64_neg n)) pos
        else if Ascii.eqb c "[" then fmap VArray (array_scan fuel [] (S pos))
        else if Ascii.eqb c "{" then fmap VMap (object_scan fuel [] (S pos))
        else
          let* (atom, pos) := atom pos in
          if String.eqb atom "true" then Ok (VBool true) pos
          else if String.eqb atom "false" then Ok (VBool false) pos
          else if String.eqb atom "null" then Ok VNil pos
          else
            match typed_literal atom with
            | Some method => method pos
            | None => error c "looking for beginning of value" pos
            end
  end

with array_scan (fuel : nat) (array : list value) (pos : nat)
  : res (list value) :=
  match fuel with
  | O => OutOfFuel
  | S fuel =>
      let* (c, pos) := skipSpaces pos in
      if Ascii.eqb c "]" then Ok array (S pos)
      else
        let* (v, pos) := any fuel pos in
        let array := (array ++ [v])%list in
        (* next token must be ',' or ']' *)
        let* (c, pos) := skipSpaces pos in
        if Ascii.eqb c "," then array_scan fuel array (S pos)
        else if Ascii.eqb c "]" then Ok array (S pos)
        else error c "after array element" pos
  end

with object_scan (fuel : nat) (obj : list (gostring * value)) (pos : nat)
  : res (list (gostring * value)) :=
  match fuel with
  | O => OutOfFuel
  | S fuel =>
      let* (c, pos) := skipSpaces pos in
      if Ascii.eqb c "}" then Ok obj (S pos)
      else
        (* read key *)
        let* (k, pos) := objectKey pos in
        (* read colon before value *)
        let* (c, pos) := skipSpaces pos in
        if negb (Ascii.eqb c ":") then error c "after object key" pos
        else
          let pos := S pos in
          (* read and assign value *)
          let* (_, pos) := skipSpaces pos in
          let* (v, pos) := any fuel pos in
          let obj := map_set obj k v in
          (* next token must be ',' or '}' *)
          let* (c, pos) := skipSpaces pos in
          if Ascii.eqb c "}" then Ok obj (S pos)
          else if Ascii.eqb c "," then object_scan fuel obj (S pos)
          else error c "after object key:value pair" pos
  end.

(** array accept valid JSON array value; the '[' token already scanned *)
Definition array (fuel : nat) (pos : nat) : res (list value) :=
  array_scan fuel [] (S pos).

(** object accept valid JSON object value; the '{' token already scanned *)
Definition object (fuel : nat) (pos : nat) : res (list (gostring * value)) :=
  object_scan fuel [] (S pos).

End Methods.
End Decoder.

(** What an exported function does: it returns a value and an error (or
    [nil], here [None]), or it panics, or the model runs out of fuel. *)
Inductive outcome (A : Type) :=
| Returns (v : A) (err : option goerror)
| Panics
| Exhausted.
Arguments Returns {A} v err.
Arguments Panics {A}.
Arguments Exhausted {A}.

Section Decode.
Context {L : GoLib}.

(** The tail shared by Decode, DecodeObject and DecodeArray: the error of
    the parse, or else extra data after trailing spaces. *)
Definition finish {A} (data : list byte) (nil : A) (r : res A) : outcome A :=
  match r with
  | Err e _ => Returns nil (Some e)
  | Panic => Panics
  | OutOfFuel => Exhausted
  | Ok val pos =>
      match Decoder.skipSpaces data pos with
      | Ok _ pos =>
          if pos <? Decoder.end_ data
          then Returns val (Some (ExtraDataError (Z.of_nat pos)))
          else Returns val None
      | Err e _ => Returns nil (Some e)
      | Panic => Panics
      | OutOfFuel => Exhausted
      end
  end.

(** Decoder.Decode on NewDecoder(data), with fuel for the recursion. *)
Definition Decode_fuel (fuel : nat) (data : list byte) : outcome value :=
  finish data VNil
    (let* (_, pos) := Decoder.skipSpaces data 0 in Decoder.any data fuel pos).

(** Decoder.DecodeObject; [None] is the nil map. *)
Definition DecodeObject_fuel (fuel : nat) (data : list byte)
  : outcome (option (list (gostring * value))) :=
  finish data None
    (let* (c, pos) := Decoder.skipSpaces data 0 in
     if negb (Ascii.eqb c "{")
     then Decoder.error data c "looking for beginning of object" pos
     else fmap Some (Decoder.object data fuel pos)).

(** Decoder.DecodeArray; [None] is the nil slice. *)
Definition DecodeArray_fuel (fuel : nat) (data : list byte)
  : outcome (option (list value)) :=
  finish data None
    (let* (c, pos) := Decoder.skipSpaces data 0 in
     if negb (Ascii.eqb c "[")
     then Decoder.error data c "looking for beginning of array" pos
     else fmap Some (Decoder.array data fuel pos)).

(** Fuel that is enough for every input (see [any_total]). *)
Definition enough (data : list byte) : nat := 2 * length data + 2.

Definition Decode (data : list byte) : outcome value :=
  Decode_fuel (enough data) data.
Definition DecodeObject (data : list byte) := DecodeObject_fuel (enough data) data.
Definition DecodeArray (data : list byte) := DecodeArray_fuel (enough data) data.

End Decode.

(** ** The encoder *)

(** *** UTF-8, as [range] over a string and [WriteRune] use it *)

Module utf8.

Definition RuneError : N := 65533.   (* U+FFFD *)

Definition cont (c : byte) : bool := inrange "128" "191" c.
Definition low6 (c : byte) : N := N.land (code c) 63.

(** utf8.DecodeRuneInString on a non-empty string: the rune and its width.
    A byte that does not start a well-formed sequence is RuneError of
    width 1. *)
Definition DecodeRune (s : gostring) : N * nat :=
  match s with
  | EmptyString => (RuneError, 0)
  | String b0 s1 =>
      let c0 := code b0 in
      if (c0 <? 128)%N then (c0, 1)
      else if (c0 <? 194)%N || (244 <? c0)%N then (RuneError, 1)
      else
        match s1 with
        | EmptyString => (RuneError, 1)
        | String b1 s2 =>
            let lo := if (c0 =? 224)%N then 160%N
                      else if (c0 =? 240)%N then 144%N else 128%N in
            let hi := if (c0 =? 237)%N then 159%N
                      else if (c0 =? 244)%N then 143%N else 191%N in
            if negb ((lo <=? code b1)%N && (code b1 <=? hi)%N) then (RuneError, 1)
            else if (c0 <? 224)%N
            then (N.lor (N.shiftl (N.land c0 31) 6) (low6 b1), 2)
            else
              match s2 with
              | EmptyString => (RuneError, 1)
              | String b2 s3 =>
                  if negb (cont b2) then (RuneError, 1)
                  else if (c0 <? 240)%N
                  then (N.lor (N.shiftl (N.land c0 15) 12)
                          (N.lor (N.shiftl (low6 b1) 6) (low6 b2)), 3)
                  else
                    match s3 with
                    | EmptyString => (RuneError, 1)
                    | String b3 _ =>
                        if negb (cont b3) then (RuneError, 1)
                        else (N.lor (N.shiftl (N.land c0 7) 18)
                                (N.lor (N.shiftl (low6 b1) 12)
                                   (N.lor (N.shiftl (low6 b2) 6) (low6 b3))), 4)
                    end
              end
        end
  end.

Fixpoint drop (n : nat) (s : gostring) : gostring :=
  match n, s with
  | S n', String _ s' => drop n' s'
  | _, _ => s
  end.

(** The runes that [for _, c := range s] visits. *)
Fixpoint runes_fuel (fuel : nat) (s : gostring) : list N :=
  match fuel, s with
  | S fuel', String _ _ =>
      let rw := DecodeRune s in
      fst rw :: runes_fuel fuel' (drop (snd rw) s)
  | _, _ => []
  end.

Definition runes (s : gostring) : list N := runes_fuel (String.length s) s.

Definition byte_of (n : N) : byte := ascii_of_N n.

(** utf8.EncodeRune, the bytes that WriteRune appends. *)
Definition EncodeRune (r : N) : list byte :=
  if (r <=? 127)%N then [byte_of r]
  else if (r <=? 2047)%N then
    [byte_of (N.lor 192 (N.shiftr r 6)); byte_of (N.lor 128 (N.land r 63))]
  else
    let r := if (1114111 <? r)%N || ((55296 <=? r)%N && (r <=? 57343)%N)
             then RuneError else r in
    if (r <=? 65535)%N then
      [byte_of (N.lor 224 (N.shiftr r 12));
       byte_of (N.lor 128 (N.land (N.shiftr r 6) 63));
       byte_of (N.lor 128 (N.land r 63))]
    else
      [byte_of (N.lor 240 (N.shiftr r 18));
       byte_of (N.lor 128 (N.land (N.shiftr r 12) 63));
       byte_of (N.lor 128 (N.land (N.shiftr r 6) 63));
       byte_of (N.lor 128 (N.land r 63))].

End utf8.

(** *** sort.Strings *)

Module sort.

Fixpoint insert (k : gostring) (l : list gostring) : list gostring :=
  match l with
  | [] => [k]
  | k' :: l' => if String.leb k k' then k :: l else k' :: insert k l'
  end.

(** sort.Strings: the strings in increasing order, bytewise.  (Which
    algorithm sorts them cannot be observed on strings.) *)
Fixpoint Strings (l : list gostring) : list gostring :=
  match l with
  | [] => []
  | k :: l' => insert k (Strings l')
  end.

End sort.

Definition MAX_SAFE_INTEGER : Z := 2 ^ 53 - 1.
Definition MIN_SAFE_INTEGER : Z := - (2 ^ 53 - 1).

(** What a method of the encoder leaves in the buffer of Marshal, or the
    error it returns.  The buffer in memory never fails to write. *)
Inductive eres :=
| EOk (out : list byte)
| EErr (e : goerror).

Module Encoder.

Record config := { pretty : bool; prefix : gostring; indent : gostring }.

Section Methods.
Context {L : GoLib}.
Variable e : config.

Definition writeIndent (level : nat) : list byte :=
  (LF :: bytes_of (prefix e) ++ concat (repeat (bytes_of (indent e)) level))%list.

(** The bytes written for one rune of [encodeString]. *)
Definition encodeRune (c : N) : list byte :=
  let escaped := (c =? 92)%N || (c =? 34)%N || (c =? 13)%N || (c =? 10)%N
                 || (c =? 12)%N || (c =? 9)%N in
  let c := if (c =? 13)%N then code "r"
           else if (c =? 10)%N then code "n"
           else if (c =? 12)%N then code "f"
           else if (c =? 9)%N then code "t" else c in
  ((if escaped then [BACKSLASH] else []) ++ utf8.EncodeRune c)%list.

Definition encodeString (str : gostring) : list byte :=
  (QUOTE :: flat_map encodeRune (utf8.runes str) ++ [QUOTE])%list.

(** The loop of [encodeKey] over [key[1:]]. *)
Fixpoint key_rest (s : gostring) : bool :=
  match s with
  | EmptyString => true
  | String c s' => (is_lower c || is_upper c || is_digit c) && key_rest s'
  end.

Definition encodeKey (key : gostring) : list byte :=
  match key with
  | String c rest =>
      if (is_lower c || is_upper c) && key_rest rest
      then bytes_of key
      else encodeString key
  | EmptyString => encodeString key
  end.

(** [name(text)], the shape of encodeInt, encodeUInt, encodeInt8, ... *)
Definition call (name text : gostring) : list byte :=
  (bytes_of name ++ "("%char :: bytes_of text ++ [")"%char])%list.

Definition encodeInt (v : Z) := call "int" (strconv.FormatInt v).
Definition encodeUInt (v : Z) := call "uint" (strconv.FormatUint v).
Definition encodeInt8 (v : Z) := call "int8" (strconv.FormatInt v).
Definition encodeInt16 (v : Z) := call "int16" (strconv.FormatInt v).
Definition encodeInt32 (v : Z) := call "int32" (strconv.FormatInt v).
Definition encodeUInt8 (v : Z) := call "uint8" (strconv.FormatUint v).
Definition encodeUInt16 (v : Z) := call "uint16" (strconv.FormatUint v).
Definition encodeUInt32 (v : Z) := call "uint32" (strconv.FormatUint v).

Definition encodeInt64 (v : Z) : list byte :=
  let q := if (v >? MAX_SAFE_INTEGER)%Z || (v <? MIN_SAFE_INTEGER)%Z
           then [QUOTE] else [] in
  (bytes_of "int64(" ++ q ++ bytes_of (strconv.FormatInt v) ++ q ++ [")"%char])%list.

Definition encodeUInt64 (v : Z) : list byte :=
  let q := if (v >? MAX_SAFE_INTEGER)%Z then [QUOTE] else [] in
  (bytes_of "uint64(" ++ q ++ bytes_of (strconv.FormatUint v) ++ q ++ [")"%char])%list.

Definition encodeInteger (k : ikind) (v : Z) : list byte :=
  match k with
  | KInt => encodeInt v | KInt8 => encodeInt8 v | KInt16 => encodeInt16 v
  | KInt32 => encodeInt32 v | KInt64 => encodeInt64 v
  | KUint => encodeUInt v | KUint8 => encodeUInt8 v | KUint16 => encodeUInt16 v
  | KUint32 => encodeUInt32 v | KUint64 => encodeUInt64 v
  end.

Definition encodeFloat64 (v : float64) : list byte := bytes_of (FormatFloat v).

(** [name("text")], the shape of encodeTime, encodeIP, encodeIPPort and
    encodeBytes. *)
Definition call_quoted (name text : gostring) : list byte :=
  (bytes_of name ++ "("%char :: QUOTE :: bytes_of text ++ [QUOTE; ")"%char])%list.

Definition encodeTime (t : Time) : list byte :=
  call_quoted "datetime" (time_Format t).

Definition encodeIP (ip : IP) : list byte :=
  call_quoted "ip" (IP_String ip).

Definition encodeIPPort (ip : IP) (port : Z) : list byte :=
  match IP_To4 ip with
  | Some ip4 =>
      call_quoted "ipport" (IP_String ip4 ++ ":" ++ strconv.FormatInt port)
  | None =>
      call_quoted "ipport" ("[" ++ IP_String ip ++ "]:" ++ strconv.FormatInt port)
  end.

Definition encodeBytes (b : list byte) : list byte :=
  call_quoted "bytes" (base64 b).

(** The loop shared by [encodeMap] and [encodeArray]: the elements one after
    the other, a comma (and in pretty mode a new line) before each but the
    first; the first element that fails ends the loop with its error. *)
Fixpoint elements (level : nat) (first : bool) (items : list eres) : eres :=
  match items with
  | [] => EOk []
  | item :: rest =>
      let sep := if first then []
                 else (","%char :: (if pretty e then writeIndent level else []))%list in
      match item with
      | EErr err => EErr err
      | EOk out =>
          match elements level false rest with
          | EErr err => EErr err
          | EOk outs => EOk (sep ++ out ++ outs)%list
          end
      end
  end.

(** An opening bracket, the elements one level deeper, a closing bracket. *)
Definition bracketed (level : nat) (open close : byte) (items : list eres) : eres :=
  match elements (S level) true items with
  | EErr err => EErr err
  | EOk outs =>
      EOk (open :: (if pretty e then writeIndent (S level) else []) ++ outs ++
           (if pretty e then writeIndent level else []) ++ [close])%list
  end.

(** One [key: value] pair of [encodeMap], given the encoding of the value. *)
Definition pair (k : gostring) (v : eres) : eres :=
  match v with
  | EErr err => EErr err
  | EOk out =>
      EOk (encodeKey k ++ ":"%char :: (if pretty e then [SPACE] else []) ++ out)%list
  end.

(** [encodeMap], given for each key the encoding of [m[k]]. *)
Definition encodeMap_with (encode_at : gostring -> eres) (level : nat)
    (range_keys : list gostring) : eres :=
  let keys := sort.Strings range_keys in
  bracketed level "{" "}" (map (fun k => pair k (encode_at k)) keys).

(** [encodeArray], given the encodings of the elements. *)
Definition encodeArray_with (level : nat) (items : list eres) : eres :=
  bracketed level "[" "]" items.

(** [level] is [e.level] on entry. *)
Fixpoint encodeValue (level : nat) (v : value) {struct v} : eres :=
  match v with
  | VString s => EOk (encodeString s)
  | VMap m =>
      encodeMap_with
        ((fix encode_at (m : list (gostring * value)) (k : gostring) : eres :=
            match m with
            | [] => EOk (bytes_of "null")
            | (k', v) :: m' =>
                if String.eqb k' k then encodeValue (S level) v else encode_at m' k
            end) m)
        level (map fst m)
  | VArray a => encodeArray_with level (map (encodeValue (S level)) a)
  | VBytes b => EOk (encodeBytes b)
  | VInteger k n => EOk (encodeInteger k n)
  | VNil => EOk (bytes_of "null")
  | VBool b => EOk (bytes_of (if b then "true" else "false"))
  | VTime t => EOk (encodeTime t)
  | VIP ip => EOk (encodeIP ip)
  | VTCPAddr ip port => EOk (encodeIPPort ip port)
  | VFloat64 f => EOk (encodeFloat64 f)
  | VUnsupported T => EErr (UnsupportedType ("Unsupported value type: " ++ T))
  end.

Definition encodeMap (level : nat) (m : list (gostring * value)) : eres :=
  encodeValue level (VMap m).

End Methods.
End Encoder.

Section Marshal.
Context {L : GoLib}.

Definition Marshal (v : value) : eres :=
  Encoder.encodeValue
    {| Encoder.pretty := false; Encoder.prefix := ""; Encoder.indent := "" |} 0 v.

Definition MarshalIndent (v : value) (prefix indent : gostring) : eres :=
  Encoder.encodeValue
    {| Encoder.pretty := true; Encoder.prefix := prefix; Encoder.indent := indent |} 0 v.

End Marshal.

(** ** A reference library for the examples *)

(** Executable stand-ins for the members of [GoLib], used where an example,
    a witness or a counterexample needs the decoder or the encoder to run.
    [ParseFloat], [FormatFloat], [unquoteBytes] and [quoteChar] follow the Go
    functions on the inputs described at each; dates and addresses are kept
    as their text, without validation, and no example depends on them. *)
Module GoRef.

(** *** strconv.ParseFloat on decimal text *)

(** The correctly rounded binary64 of the positive fraction [p / q]. *)
Definition round_ratio (p q : Z) : float64 :=
  let '(m, e, l) := SFdiv_core_binary 53 1024 p 0 q 0 in
  binary_round_aux 53 1024 false m e l.

(** The binary64 nearest to [m * 10^e10], for [m >= 0]. *)
Definition decimal_to_f64 (m e10 : Z) : float64 :=
  if (m =? 0)%Z then S754_zero false
  else if (0 <=? e10)%Z then round_ratio (m * 10 ^ e10) 1
  else round_ratio m (10 ^ (- e10)).

(** A run of decimal digits at the head of [s]: its value, its length and
    what follows. *)
Fixpoint digits_run (s : gostring) (acc : Z) (n : nat) : Z * nat * gostring :=
  match s with
  | String c s' =>
      if is_digit c
      then digits_run s' (acc * 10 + Z.of_N (code c - code "0"))%Z (S n)
      else (acc, n, s)
  | EmptyString => (acc, n, s)
  end.

Definition syntax_error (s : gostring) : gostring :=
  strconv.NumError "ParseFloat" s strconv.ErrSyntax.

(** strconv.ParseFloat(s, 64) for unsigned decimal text: digits, an optional
    point, an optional exponent; at least one digit in the mantissa and one
    in the exponent.  Every other text is a syntax error here; [number]
    passes no text that Go would read as a hexadecimal float, an infinity or
    a NaN. *)
Definition ParseFloat (s : gostring) : float64 + gostring :=
  let '(ip, ni, r1) := digits_run s 0 0 in
  let '(m, nf, r2) :=
    match r1 with
    | String "." r => digits_run r ip 0
    | _ => (ip, 0, r1)
    end in
  if ni + nf =? 0 then inr (syntax_error s)
  else
    let finish (e : Z) :=
      let e10 := (e - Z.of_nat nf)%Z in
      if (m =? 0)%Z then inl (S754_zero false)
      else if (400 <? e10 + Z.of_nat (ni + nf))%Z
      then inr (strconv.NumError "ParseFloat" s strconv.ErrRange)
      else if (e10 + Z.of_nat (ni + nf) <? -400)%Z then inl (S754_zero false)
      else
        match decimal_to_f64 m e10 with
        | S754_infinity _ => inr (strconv.NumError "ParseFloat" s strconv.ErrRange)
        | f => inl f
        end in
    match r2 with
    | EmptyString => finish 0%Z
    | String c r =>
        if Ascii.eqb c "e" || Ascii.eqb c "E" then
          let '(neg, r) :=
            match r with
            | String "+" r' => (false, r')
            | String "-" r' => (true, r')
            | _ => (false, r)
            end in
          match digits_run r 0 0 with
          | (_, O, _) => inr (syntax_error s)
          | (e, _, EmptyString) => finish (if neg then (- e)%Z else e)
          | _ => inr (syntax_error s)
          end
        else inr (syntax_error s)
    end.

(** *** strconv.FormatFloat(f, 'g', -1, 64) *)

(** The largest [k] with [10^k <= p / q], searched upwards from an
    estimate below it. *)
Fixpoint log10_up (fuel : nat) (p q k : Z) : Z :=
  match fuel with
  | O => k
  | S fuel' =>
      let next := (k + 1)%Z in
      let le := if (0 <=? next)%Z then (q * 10 ^ next <=? p)%Z
                else (q <=? p * 10 ^ (- next))%Z in
      if le then log10_up fuel' p q next else k
  end.

Definition floor_log10 (p q : Z) : Z :=
  log10_up 8 p q (((Z.log2 p - Z.log2 q - 1) * 30103) / 100000 - 1)%Z.

(** [p / q] scaled by [10^(-k)] and rounded to the nearest integer, ties to
    even. *)
Definition scaled_round (p q k : Z) : Z :=
  let '(num, den) := if (0 <=? k)%Z then (p, q * 10 ^ k)%Z else (p * 10 ^ (- k), q)%Z in
  let d := (num / den)%Z in
  let r := (2 * (num mod den))%Z in
  if (r <? den)%Z then d
  else if (den <? r)%Z then (d + 1)%Z
  else if Z.even d then d else (d + 1)%Z.

(** The shortest decimal [d * 10^k] that reads back as [f = p / q]: the
    first number of digits for which the nearest decimal does. *)
Fixpoint shortest (fuel : nat) (n : Z) (f : float64) (p q lg : Z) : Z * Z :=
  let k := (lg - n + 1)%Z in
  let d := scaled_round p q k in
  match fuel with
  | O => (d, k)
  | S fuel' =>
      if SFeqb (decimal_to_f64 d k) f then (d, k)
      else shortest fuel' (n + 1)%Z f p q lg
  end.

Fixpoint strip_zeros (fuel : nat) (d k : Z) : Z * Z :=
  match fuel with
  | O => (d, k)
  | S fuel' =>
      if ((d mod 10 =? 0) && negb (d =? 0))%Z%bool
      then strip_zeros fuel' (d / 10)%Z (k + 1)%Z else (d, k)
  end.

Fixpoint zeros (n : nat) : gostring :=
  match n with O => "" | S n' => String "0" (zeros n') end.

(** %e and %f of the digits [ds] with the decimal point after [dp] of
    them. *)
Definition fmtE (ds : gostring) (dp : Z) : gostring :=
  let exp := (dp - 1)%Z in
  let mant := match ds with
              | String c EmptyString => ds
              | String c rest => String c (String "." rest)
              | EmptyString => "0"
              end in
  let es := strconv.FormatUint (Z.abs exp) in
  mant ++ "e" ++ (if (exp <? 0)%Z then "-" else "+") ++
  (if (Z.abs exp <? 10)%Z then "0" else "") ++ es.

Definition fmtF (ds : gostring) (dp : Z) : gostring :=
  let nd := Z.of_nat (String.length ds) in
  if (dp <=? 0)%Z then "0." ++ zeros (Z.to_nat (- dp)) ++ ds
  else if (nd <=? dp)%Z then ds ++ zeros (Z.to_nat (dp - nd))
  else substring 0 (Z.to_nat dp) ds ++ "." ++
       substring (Z.to_nat dp) (Z.to_nat (nd - dp)) ds.

Definition FormatFloat (f : float64) : gostring :=
  match f with
  | S754_nan => "NaN"
  | S754_infinity s => if s then "-Inf" else "+Inf"
  | S754_zero s => if s then "-0" else "0"
  | S754_finite s m e =>
      let '(p, q) := if (0 <=? e)%Z then (Zpos m * 2 ^ e, 1)%Z
                     else (Zpos m, 2 ^ (- e))%Z in
      let lg := floor_log10 p q in
      let '(d, k) := shortest 17 1 (S754_finite false m e) p q lg in
      let '(d, k) := strip_zeros 20 d k in
      let ds := strconv.FormatUint d in
      let dp := (k + Z.of_nat (String.length ds))%Z in
      let exp := (dp - 1)%Z in
      (if s then "-" else "") ++
      (if ((exp <? -4) || (6 <=? exp))%Z%bool then fmtE ds dp else fmtF ds dp)
  end.

(** *** unquoteBytes *)

Definition hexval (c : byte) : option N :=
  if is_digit c then Some (code c - code "0")%N
  else if inrange "a" "f" c then Some (code c - code "a" + 10)%N
  else if inrange "A" "F" c then Some (code c - code "A" + 10)%N
  else None.

(** getu4: the code unit of a [\uXXXX] at the head of [s]. *)
Definition getu4 (s : list byte) : option N :=
  match s with
  | b :: u :: h1 :: h2 :: h3 :: h4 :: _ =>
      if Ascii.eqb b BACKSLASH && Ascii.eqb u "u" then
        match hexval h1, hexval h2, hexval h3, hexval h4 with
        | Some a, Some b, Some c, Some d => Some (((a * 16 + b) * 16 + c) * 16 + d)%N
        | _, _, _, _ => None
        end
      else None
  | _ => None
  end.

Definition is_surrogate (r : N) : bool := (55296 <=? r)%N && (r <? 57344)%N.

(** utf16.DecodeRune *)
Definition utf16_DecodeRune (r1 r2 : N) : N :=
  if (55296 <=? r1)%N && (r1 <? 56320)%N && (56320 <=? r2)%N && (r2 <? 57344)%N
  then ((r1 - 55296) * 1024 + (r2 - 56320) + 65536)%N
  else utf8.RuneError.

(** Modelled from the spec: [unquoteBytes], the helper of [string] that the
    sources at hand do not contain.  It turns the text between the quotes
    into the bytes of the string: a single-byte escape becomes the byte it
    names, a [\u] escape the UTF-8 of its code point (a surrogate pair is
    combined, an unpaired surrogate becomes U+FFFD), a byte that does not
    belong to well-formed UTF-8 becomes U+FFFD, everything else is copied.
    It fails on an unknown escape, a raw quote or a control byte. *)
Fixpoint unquote_fuel (fuel : nat) (s : list byte) : option (list byte) :=
  match fuel with
  | O => match s with [] => Some [] | _ => None end
  | S fuel' =>
      let continue (out : list byte) (rest : list byte) :=
        match unquote_fuel fuel' rest with
        | Some b => Some (out ++ b)%list
        | None => None
        end in
      match s with
      | [] => Some []
      | c :: rest =>
          if Ascii.eqb c BACKSLASH then
            match rest with
            | [] => None
            | e :: rest' =>
                if Ascii.eqb e QUOTE || Ascii.eqb e BACKSLASH || Ascii.eqb e "/"
                   || Ascii.eqb e "'" then continue [e] rest'
                else if Ascii.eqb e "b" then continue ["008"%char] rest'
                else if Ascii.eqb e "f" then continue [FF] rest'
                else if Ascii.eqb e "n" then continue [LF] rest'
                else if Ascii.eqb e "r" then continue [CR] rest'
                else if Ascii.eqb e "t" then continue [TAB] rest'
                else if Ascii.eqb e "u" then
                  match getu4 s with
                  | None => None
                  | Some rr =>
                      let rest6 := skipn 6 s in
                      if is_surrogate rr then
                        let dec := match getu4 rest6 with
                                   | Some rr1 => utf16_DecodeRune rr rr1
                                   | None => utf8.RuneError
                                   end in
                        if (dec =? utf8.RuneError)%N
                        then continue (utf8.EncodeRune utf8.RuneError) rest6
                        else continue (utf8.EncodeRune dec) (skipn 6 rest6)
                      else continue (utf8.EncodeRune rr) rest6
                  end
                else None
            end
          else if Ascii.eqb c QUOTE || (code c <? 32)%N then None
          else if (code c <? 128)%N then continue [c] rest
          else
            let rw := utf8.DecodeRune (string_of_list_ascii s) in
            continue (utf8.EncodeRune (fst rw)) (skipn (snd rw) s)
      end
  end.

Definition unquoteBytes (s : list byte) : option (list byte) :=
  unquote_fuel (length s) s.

(** *** quoteChar *)

Definition hexdigit (n : N) : byte :=
  if (n <? 10)%N then utf8.byte_of (code "0" + n) else utf8.byte_of (code "a" + n - 10).

(** quoteChar formats c as a quoted character literal, as in encoding/json:
    the two quotes are special; otherwise the byte as strconv.Quote writes
    it, between single quotes.  Bytes from 128 on are shown by their
    [\u00XX] escape here (Go prints the printable ones among them as they
    are). *)
Definition quoteChar (c : byte) : gostring :=
  let n := code c in
  let hex2 := String (hexdigit (n / 16)) (String (hexdigit (n mod 16)) "") in
  let body :=
    if Ascii.eqb c "'" then "\'"
    else if Ascii.eqb c QUOTE then String QUOTE ""
    else if Ascii.eqb c BACKSLASH then "\\"
    else if (n =? 7)%N then "\a" else if (n =? 8)%N then "\b"
    else if (n =? 12)%N then "\f" else if (n =? 10)%N then "\n"
    else if (n =? 13)%N then "\r" else if (n =? 9)%N then "\t"
    else if (n =? 11)%N then "\v"
    else if (n <? 32)%N || (n =? 127)%N then "\x" ++ hex2
    else if (n <? 128)%N then String c ""
    else "\u00" ++ hex2 in
  "'" ++ body ++ "'".

#[export] Instance lib : GoLib :=
  Build_GoLib
    gostring                          (* Time: the text of the date *)
    gostring                          (* IP: the text of the address *)
    ParseFloat
    FormatFloat
    (fun s => inl s)                  (* time.Parse *)
    (fun t => t)                      (* t.Format *)
    (fun s => Some s)                 (* net.ParseIP *)
    (fun ip => ip)                    (* ip.String *)
    (fun ip => match Decoder.IndexByte ip ":" with   (* ip.To4 *)
               | None => Some ip
               | Some _ => None
               end)
    unquoteBytes
    quoteChar
    (fun b => string_of_list_ascii b) (* base64 *).

End GoRef.

(** * Facts about the decoder *)

(** ** The cursor stays in the buffer *)

(** A result that respects the buffer: a returned cursor lies between the
    given position and the end; no panic; fuel was enough. *)
Definition bounded {A} (data : list byte) (lo : nat) (r : res A) : Prop :=
  match r with
  | Ok _ p => lo <= p <= Decoder.end_ data
  | Err _ _ => True
  | Panic | OutOfFuel => False
  end.

(** The same, with a cursor that has moved. *)
Definition advanced {A} (data : list byte) (lo : nat) (r : res A) : Prop :=
  bounded data (S lo) r.

Lemma advanced_bounded {A} data lo (r : res A) :
  advanced data lo r -> bounded data lo r.
Proof. destruct r; simpl; auto; lia. Qed.

Lemma bounded_weaken {A} data lo lo' (r : res A) :
  lo' <= lo -> bounded data lo r -> bounded data lo' r.
Proof. destruct r; simpl; auto; lia. Qed.

Lemma bounded_fmap {A B} (f : A -> B) data lo (r : res A) :
  bounded data lo r -> bounded data lo (fmap f r).
Proof. destruct r; simpl; auto. Qed.

(** Case analysis on the result of a call, given that it is [bounded]: the
    call returned, or it failed and so does the caller. *)
Ltac on_call H :=
  unfold advanced in H;
  match type of H with
  | bounded _ _ ?r =>
      destruct r eqn:?; simpl in H;
      [ | try (unfold advanced; simpl; exact I) | contradiction | contradiction ]
  end.

(** ** The equations of the parser *)

Section Equations.
Context {L : GoLib}.
Variable data : list byte.

Lemma any_S fuel pos :
  Decoder.any data (S fuel) pos =
  if Decoder.end_ data <=? pos
  then Decoder.error data NUL "looking for beginning of value" pos
  else
    let* (c, pos) := Decoder.index data pos pos in
    if Ascii.eqb c QUOTE then fmap VString (Decoder.string data pos)
    else if is_digit c then fmap VFloat64 (Decoder.number data pos)
    else if Ascii.eqb c "-" then
      let pos := S pos in
      if Decoder.end_ data <=? pos then Err ErrUnexpectedEOF pos
      else
        let* (c, pos) := Decoder.index data pos pos in
        if ((code c <? code "0")%N && (code "9" <? code c)%N)%bool
        then Decoder.error data c "in negative numeric literal" pos
        else
          let* (n, pos) := Decoder.number data pos in
          Ok (VFloat64 (f64_neg n)) pos
    else if Ascii.eqb c "[" then fmap VArray (Decoder.array_scan data fuel [] (S pos))
    else if Ascii.eqb c "{" then fmap VMap (Decoder.object_scan data fuel [] (S pos))
    else
      let* (atom, pos) := Decoder.atom data pos in
      if String.eqb atom "true" then Ok (VBool true) pos
      else if String.eqb atom "false" then Ok (VBool false) pos
      else if String.eqb atom "null" then Ok VNil pos
      else
        match Decoder.typed_literal data atom with
        | Some method => method pos
        | None => Decoder.error data c "looking for beginning of value" pos
        end.
Proof. reflexivity. Qed.

Lemma array_scan_S fuel array pos :
  Decoder.array_scan data (S fuel) array pos =
  let* (c, pos) := Decoder.skipSpaces data pos in
  if Ascii.eqb c "]" then Ok array (S pos)
  else
    let* (v, pos) := Decoder.any data fuel pos in
    let array := (array ++ [v])%list in
    let* (c, pos) := Decoder.skipSpaces data pos in
    if Ascii.eqb c "," then Decoder.array_scan data fuel array (S pos)
    else if Ascii.eqb c "]" then Ok array (S pos)
    else Decoder.error data c "after array element" pos.
Proof. reflexivity. Qed.

Lemma object_scan_S fuel obj pos :
  Decoder.object_scan data (S fuel) obj pos =
  let* (c, pos) := Decoder.skipSpaces data pos in
  if Ascii.eqb c "}" then Ok obj (S pos)
  else
    let* (k, pos) := Decoder.objectKey data pos in
    let* (c, pos) := Decoder.skipSpaces data pos in
    if negb (Ascii.eqb c ":") then Decoder.error data c "after object key" pos
    else
      let pos := S pos in
      let* (_, pos) := Decoder.skipSpaces data pos in
      let* (v, pos) := Decoder.any data fuel pos in
      let obj := map_set obj k v in
      let* (c, pos) := Decoder.skipSpaces data pos in
      if Ascii.eqb c "}" then Ok obj (S pos)
      else if Ascii.eqb c "," then Decoder.object_scan data fuel obj (S pos)
      else Decoder.error data c "after object key:value pair" pos.
Proof. reflexivity. Qed.

End Equations.

Section Cursor.
Context {L : GoLib}.
Variable data : list byte.
Local Abbreviation end_ := (Decoder.end_ data) (only parsing).

Lemma index_some i pos :
  i < end_ -> exists c, nth_error data i = Some c /\ Decoder.index data i pos = Ok c pos.
Proof.
  intros H. unfold Decoder.index, Decoder.end_ in *.
  destruct (nth_error data i) eqn:E; eauto.
  apply nth_error_None in E. lia.
Qed.

Lemma index_inv i pos c p :
  Decoder.index data i pos = Ok c p -> nth_error data i = Some c /\ p = pos /\ i < end_.
Proof.
  unfold Decoder.index. destruct (nth_error data i) eqn:E; [|discriminate].
  intros [= <- <-]. repeat split; auto.
  apply nth_error_Some. congruence.
Qed.

Lemma error_bounded {A} c ctx pos lo : bounded data lo (@Decoder.error L data A c ctx pos).
Proof. unfold Decoder.error. destruct (pos <? end_); exact I. Qed.

Lemma next_spec pos :
  pos <= end_ ->
  exists c p, Decoder.next data pos = Ok c p /\ pos <= p <= end_ /\
              (pos < end_ -> p = S pos) /\
              (p < end_ -> nth_error data p = Some c) /\ (p = end_ -> c = NUL).
Proof.
  intros H. unfold Decoder.next.
  destruct (Nat.ltb_spec pos end_) as [Hlt|Hge].
  - destruct (Nat.ltb_spec (S pos) end_) as [Hlt'|Hge'].
    + destruct (index_some (S pos) (S pos) Hlt') as (c & Hc & ->).
      exists c, (S pos). repeat split; auto; try lia.
    + exists NUL, (S pos). repeat split; auto; lia.
  - exists NUL, pos. repeat split; auto; lia.
Qed.

Lemma next_bounded pos : pos <= end_ -> bounded data pos (Decoder.next data pos).
Proof.
  intros H. destruct (next_spec pos H) as (c & p & -> & Hp & _). exact Hp.
Qed.

(** [skipSpaces] stops at the end of the input, returning 0, or at the first
    byte that is not a space, returning that byte; it skips only spaces. *)
Lemma skipSpaces_loop_spec fuel pos :
  pos <= end_ -> end_ - pos <= fuel ->
  exists c p, Decoder.skipSpaces_loop data fuel pos = Ok c p /\ pos <= p <= end_ /\
    (forall i b, pos <= i < p -> nth_error data i = Some b -> Decoder.is_space b = true) /\
    ((p = end_ /\ c = NUL) \/
     (p < end_ /\ nth_error data p = Some c /\ Decoder.is_space c = false)).
Proof.
  revert pos. induction fuel as [|fuel IH]; intros pos Hle Hfuel.
  - assert (pos = end_) by lia. subst pos. simpl. rewrite Nat.eqb_refl.
    exists NUL, end_. repeat split; auto; try lia.
  - simpl. destruct (Nat.eqb_spec pos end_) as [->| Hne].
    + exists NUL, end_. repeat split; auto; try lia.
    + destruct (index_some pos pos) as (c & Hc & ->); [lia|].
      destruct (Decoder.is_space c) eqn:Hsp.
      * destruct (IH (S pos)) as (c' & p & -> & Hp & Hall & Hend); [lia|lia|].
        exists c', p. repeat split; auto; try lia.
        intros i b Hi Hb. destruct (Nat.eq_dec i pos) as [->|].
        -- congruence.
        -- apply (Hall i b); auto. lia.
      * exists c, pos. repeat split; auto; try lia.
        right. repeat split; auto. lia.
Qed.

Lemma skipSpaces_spec pos :
  pos <= end_ ->
  exists c p, Decoder.skipSpaces data pos = Ok c p /\ pos <= p <= end_ /\
    (forall i b, pos <= i < p -> nth_error data i = Some b -> Decoder.is_space b = true) /\
    ((p = end_ /\ c = NUL) \/
     (p < end_ /\ nth_error data p = Some c /\ Decoder.is_space c = false)).
Proof. intros H. apply skipSpaces_loop_spec; auto. Qed.

Lemma skipSpaces_bounded pos : pos <= end_ -> bounded data pos (Decoder.skipSpaces data pos).
Proof.
  intros H. destruct (skipSpaces_spec pos H) as (c & p & -> & Hp & _). exact Hp.
Qed.


Lemma slice_ok a b pos :
  a <= b <= end_ ->
  Decoder.slice data a b pos = Ok (firstn (b - a) (skipn a data)) pos.
Proof.
  intros [H1 H2]. unfold Decoder.slice, Decoder.end_ in *.
  destruct (Nat.leb_spec a b); [|lia].
  destruct (Nat.leb_spec b (length data)); [|lia]. reflexivity.
Qed.

Lemma atom_loop_bounded fuel pos :
  pos <= end_ -> end_ - pos <= fuel ->
  bounded data pos (Decoder.atom_loop data fuel pos).
Proof.
  revert pos. induction fuel as [|fuel IH]; intros pos Hle Hfuel; simpl.
  - destruct (Nat.ltb_spec pos end_); [lia|]. simpl. lia.
  - destruct (Nat.ltb_spec pos end_); [|simpl; lia].
    destruct (index_some pos pos) as (c & Hc & ->); [lia|].
    destruct (Decoder.is_atom_char c); [|simpl; lia].
    apply bounded_weaken with (lo := S pos); [lia|]. apply IH; lia.
Qed.

Lemma atom_advanced pos :
  pos <= end_ -> advanced data pos (Decoder.atom data pos).
Proof.
  intros Hle. unfold Decoder.atom.
  destruct (Nat.ltb_spec pos end_); [|apply error_bounded].
  destruct (index_some pos pos) as (c & Hc & ->); [lia|].
  destruct (Decoder.is_atom_start c); [|apply error_bounded].
  pose proof (atom_loop_bounded (end_ - S pos) (S pos) ltac:(lia) ltac:(lia)) as Hb.
  on_call Hb.
  rewrite slice_ok by lia. unfold advanced; simpl. lia.
Qed.

Lemma escape_u_bounded i pos :
  pos <= end_ -> bounded data pos (Decoder.escape_u data i pos).
Proof.
  revert pos. induction i as [|i IH]; intros pos Hle; simpl; [lia|].
  destruct (Nat.ltb_spec pos end_); [|exact I].
  destruct (index_some pos pos) as (c & Hc & ->); [lia|].
  destruct (Decoder.is_hex c); [|apply error_bounded].
  apply bounded_weaken with (lo := S pos); [lia|]. apply IH; lia.
Qed.

Lemma string_scan_advanced fuel unquote start pos :
  start <= pos -> pos <= end_ -> end_ - pos <= fuel ->
  advanced data pos (Decoder.string_scan data fuel unquote start pos).
Proof.
  revert unquote pos. induction fuel as [|fuel IH]; intros unquote pos Hs Hle Hfuel.
  - cbn [Decoder.string_scan]. destruct (Nat.leb_spec end_ pos); [exact I|lia].
  - cbn [Decoder.string_scan]. destruct (Nat.leb_spec end_ pos); [exact I|].
    destruct (index_some pos pos) as (c & Hc & ->); [lia|].
    destruct (Ascii.eqb c QUOTE).
    { rewrite slice_ok by lia. destruct unquote.
      - destruct (unquoteBytes _); unfold advanced; simpl; auto; lia.
      - unfold advanced; simpl; lia. }
    destruct (Ascii.eqb c BACKSLASH).
    { destruct (Nat.leb_spec end_ (S pos)); [exact I|].
      destruct (index_some (S pos) (S pos)) as (c' & Hc' & ->); [lia|].
      destruct (Ascii.eqb c' "u").
      - pose proof (escape_u_bounded 3 (S (S pos)) ltac:(lia)) as Hb.
        on_call Hb.
        apply bounded_weaken with (lo := S pos0); [lia|].
        apply IH; lia.
      - destruct (Decoder.is_simple_escape c'); [|apply error_bounded].
        apply bounded_weaken with (lo := S (S (S pos))); [lia|].
        apply IH; lia. }
    destruct (code c <? 32)%N; [apply error_bounded|].
    apply bounded_weaken with (lo := S (S pos)); [lia|].
    apply IH; lia.
Qed.

Lemma string_advanced pos :
  pos < end_ -> advanced data pos (Decoder.string data pos).
Proof.
  intros H. unfold Decoder.string.
  apply bounded_weaken with (lo := S (S pos)); [lia|].
  apply string_scan_advanced; lia.
Qed.

Lemma digits_loop_bounded fuel n c pos :
  pos <= end_ -> S (end_ - pos) <= fuel ->
  bounded data pos (Decoder.digits_loop data fuel n c pos) /\
  (is_digit c = true -> pos < end_ ->
   advanced data pos (Decoder.digits_loop data fuel n c pos)).
Proof.
  revert n c pos. induction fuel as [|fuel IH]; intros n c pos Hle Hfuel; [lia|].
  cbn [Decoder.digits_loop]. destruct (is_digit c) eqn:Hd; [|split; [simpl; lia|discriminate]].
  destruct (next_spec pos Hle) as (c' & p & -> & Hp & Hnext & Hin & Hend).
  destruct (Nat.eq_dec pos end_) as [->|Hne].
  - assert (p = Decoder.end_ data) by lia. subst p. rewrite (Hend eq_refl).
    destruct fuel; simpl; split; try lia.
  - rewrite Hnext in * by lia.
    destruct (IH (f64_add (f64_mul (f64_of_Z 10) n)
                    (f64_of_Z (Z.of_N (code c - code "0")))) c' (S pos)) as [Hb _];
      [lia|lia|].
    split; [apply bounded_weaken with (lo := S pos); auto|intros; exact Hb].
Qed.

Lemma skip_digits_bounded fuel c pos :
  pos <= end_ -> S (end_ - pos) <= fuel ->
  bounded data pos (Decoder.skip_digits data fuel c pos).
Proof.
  revert c pos. induction fuel as [|fuel IH]; intros c pos Hle Hfuel; [lia|].
  cbn [Decoder.skip_digits]. destruct (is_digit c) eqn:Hd; [|simpl; lia].
  destruct (next_spec pos Hle) as (c' & p & -> & Hp & Hnext & Hin & Hend).
  destruct (Nat.eq_dec pos end_) as [->|Hne].
  - assert (p = Decoder.end_ data) by lia. subst p. rewrite (Hend eq_refl).
    destruct fuel; simpl; lia.
  - rewrite Hnext in * by lia.
    apply bounded_weaken with (lo := S pos); [lia|]. apply IH; lia.
Qed.

Lemma digit_cases c :
  is_digit c = true -> Ascii.eqb c "0" = true \/ inrange "1" "9" c = true.
Proof.
  intros Hd. destruct (Ascii.eqb c "0") eqn:E0; [now left|right].
  apply Ascii.eqb_neq in E0.
  unfold is_digit, inrange in *.
  apply andb_true_iff in Hd. destruct Hd as [H1 H2]. rewrite H2, andb_true_r.
  apply N.leb_le in H1. apply N.leb_le.
  assert (code c <> code "0").
  { intros Heq. apply E0. unfold code in Heq.
    rewrite <- (ascii_N_embedding c), Heq. reflexivity. }
  change (code "0") with 48%N in *. change (code "1") with 49%N. lia.
Qed.

Lemma number_digits_bounded c pos :
  pos < end_ ->
  bounded data pos (Decoder.number_digits data c pos) /\
  (is_digit c = true -> advanced data pos (Decoder.number_digits data c pos)).
Proof.
  intros Hlt. unfold Decoder.number_digits.
  destruct (Ascii.eqb c "0") eqn:E0.
  - destruct (next_spec pos ltac:(lia)) as (c' & p & -> & Hp & Hn & _).
    rewrite Hn in * by lia. unfold advanced; simpl. lia.
  - destruct (inrange "1" "9" c) eqn:E19.
    + destruct (digits_loop_bounded (S (end_ - pos)) f64_zero c pos) as [Hb Ha];
        [lia|lia|].
      split; [exact Hb|]. intros Hd. apply Ha; auto.
    + split; [simpl; lia|]. intros Hd.
      destruct (digit_cases c Hd); congruence.
Qed.

Lemma number_fraction_bounded c pos :
  pos <= end_ -> bounded data pos (Decoder.number_fraction data c pos).
Proof.
  intros Hle. unfold Decoder.number_fraction.
  destruct (Ascii.eqb c "."); [|simpl; lia].
  destruct (Nat.leb_spec end_ (S pos)); [exact I|].
  destruct (index_some (S pos) (S pos)) as (c1 & Hc1 & ->); [lia|].
  destruct (_ && _)%bool; [apply error_bounded|].
  destruct (next_spec (S pos) ltac:(lia)) as (c2 & p2 & -> & Hp2 & _).
  pose proof (skip_digits_bounded (S (end_ - p2)) c2 p2 ltac:(lia) ltac:(lia)) as Hs.
  on_call Hs. simpl. lia.
Qed.

Lemma number_exponent_bounded isFloat c pos :
  pos <= end_ -> bounded data pos (Decoder.number_exponent data isFloat c pos).
Proof.
  intros Hle. unfold Decoder.number_exponent.
  destruct (Ascii.eqb c "e" || Ascii.eqb c "E")%bool; [|simpl; lia].
  destruct (next_spec pos ltac:(lia)) as (c2 & p2 & -> & Hp2 & _).
  assert (Hsign : bounded data p2
    (if (Ascii.eqb c2 "+" || Ascii.eqb c2 "-")%bool
     then
       let* (c3, pos3) := Decoder.next data p2 in
       if ((code c3 <? code "0")%N || (code "9" <? code c3)%N)%bool
       then @Decoder.error L data unit c3 "in exponent of numeric literal" pos3
       else Ok tt pos3
     else Ok tt p2)).
  { destruct (Ascii.eqb c2 "+" || Ascii.eqb c2 "-")%bool; [|simpl; lia].
    destruct (next_spec p2 ltac:(lia)) as (c3 & p3 & -> & Hp3 & _).
    destruct (_ || _)%bool; [apply error_bounded|simpl; lia]. }
  on_call Hsign.
  destruct (next_spec pos0 ltac:(lia)) as (c4 & p4 & -> & Hp4 & _).
  pose proof (skip_digits_bounded (S (end_ - p4)) c4 p4 ltac:(lia) ltac:(lia)) as Hs.
  on_call Hs. simpl. lia.
Qed.

(** [number] is entered on a byte of the input; when that byte is a digit
    the cursor moves. *)
Lemma number_scan_bounded pos :
  pos < end_ ->
  bounded data pos (Decoder.number_scan data pos) /\
  (forall c, nth_error data pos = Some c -> is_digit c = true ->
             advanced data pos (Decoder.number_scan data pos)).
Proof.
  intros Hlt. unfold Decoder.number_scan.
  destruct (index_some pos pos Hlt) as (c & Hc & ->).
  destruct (number_digits_bounded c pos Hlt) as [Hb Ha].
  assert (Hrest : forall (nc : float64 * byte) p, pos <= p <= end_ ->
    bounded data p
      (let* (fc, pos1) := Decoder.number_fraction data (snd nc) p in
       let* (isFloat, pos2) := Decoder.number_exponent data (fst fc) (snd fc) pos1 in
       Ok (fst nc, isFloat) pos2)).
  { intros nc p Hp.
    pose proof (number_fraction_bounded (snd nc) p ltac:(lia)) as Hf. on_call Hf.
    pose proof (number_exponent_bounded (fst a) (snd a) pos0 ltac:(lia)) as He.
    on_call He. simpl. lia. }
  split.
  - on_call Hb. apply bounded_weaken with (lo := pos0); [lia|]. apply Hrest. lia.
  - intros c' Hc' Hd. assert (c' = c) by congruence. subst c'.
    specialize (Ha Hd). on_call Ha.
    apply bounded_weaken with (lo := pos0); [lia|]. apply Hrest. lia.
Qed.

Lemma number_bounded pos :
  pos < end_ ->
  bounded data pos (Decoder.number data pos) /\
  (forall c, nth_error data pos = Some c -> is_digit c = true ->
             advanced data pos (Decoder.number data pos)).
Proof.
  intros Hlt. destruct (number_scan_bounded pos Hlt) as [Hb Ha].
  assert (Hconv : forall (ni : float64 * bool) p, pos <= p <= end_ ->
    bounded data p
      (if snd ni
       then let* (sn, pos1) := Decoder.slice data pos p p in
            match ParseFloat (string_of_list_ascii sn) with
            | inl n => Ok n pos1
            | inr msg => Err (SyntaxError msg (Z.of_nat pos1)) pos1
            end
       else Ok (fst ni) p)).
  { intros ni p Hp. destruct (snd ni); [|simpl; lia].
    rewrite slice_ok by lia. destruct (ParseFloat _); simpl; auto; lia. }
  unfold Decoder.number. split.
  - on_call Hb. apply bounded_weaken with (lo := pos0); [lia|]. apply Hconv; lia.
  - intros c Hc Hd. specialize (Ha c Hc Hd). on_call Ha.
    apply bounded_weaken with (lo := pos0); [lia|]. apply Hconv; lia.
Qed.

Lemma bracket_raw_advanced fuel start pos :
  start <= pos -> pos <= end_ -> end_ - pos <= fuel ->
  advanced data pos (Decoder.bracket_raw data fuel start pos).
Proof.
  revert pos. induction fuel as [|fuel IH]; intros pos Hs Hle Hfuel;
    cbn [Decoder.bracket_raw].
  - destruct (Nat.ltb_spec pos end_); [lia|apply error_bounded].
  - destruct (Nat.ltb_spec pos end_); [|apply error_bounded].
    destruct (index_some pos pos) as (c & Hc & ->); [lia|].
    destruct (Ascii.eqb c ")").
    + rewrite slice_ok by lia. unfold advanced; simpl; lia.
    + apply bounded_weaken with (lo := S (S pos)); [lia|]. apply IH; lia.
Qed.

Lemma bracketExpr_advanced pos :
  pos <= end_ -> advanced data pos (Decoder.bracketExpr data pos).
Proof.
  intros Hle. unfold Decoder.bracketExpr.
  destruct (skipSpaces_spec pos Hle) as (c & p & -> & Hp & _ & Hc).
  destruct (Ascii.eqb c "(") eqn:Ec; [|apply error_bounded]. cbn [negb].
  assert (Hlt : p < end_).
  { destruct Hc as [[_ ->]|[? _]]; [discriminate|auto]. }
  destruct (skipSpaces_spec (S p) ltac:(lia)) as (c1 & p1 & -> & Hp1 & _ & Hc1).
  destruct (Ascii.eqb c1 QUOTE) eqn:Eq.
  - assert (Hlt1 : p1 < end_).
    { destruct Hc1 as [[_ ->]|[? _]]; [discriminate|auto]. }
    pose proof (string_advanced p1 Hlt1) as Hs. on_call Hs.
    destruct (skipSpaces_spec pos0 ltac:(lia)) as (c2 & p2 & -> & Hp2 & _ & Hc2).
    destruct (Ascii.eqb c2 ")") eqn:Ec2; [|apply error_bounded]. cbn [negb].
    assert (p2 < end_).
    { destruct Hc2 as [[_ ->]|[? _]]; [discriminate|auto]. }
    unfold advanced; simpl; lia.
  - apply bounded_weaken with (lo := S p1); [lia|].
    apply bracket_raw_advanced; lia.
Qed.

Lemma integer_advanced k pos :
  pos <= end_ -> advanced data pos (Decoder.integer data k pos).
Proof.
  intros Hle. unfold Decoder.integer.
  pose proof (bracketExpr_advanced pos Hle) as Hb. on_call Hb.
  destruct (Decoder.parse_integer k a); unfold advanced; simpl; auto.
Qed.

Lemma datetime_advanced pos :
  pos <= end_ -> advanced data pos (Decoder.datetime data pos).
Proof.
  intros Hle. unfold Decoder.datetime.
  pose proof (bracketExpr_advanced pos Hle) as Hb. on_call Hb.
  destruct (time_Parse a); unfold advanced; simpl; auto.
Qed.

Lemma ip_advanced pos :
  pos <= end_ -> advanced data pos (Decoder.ip data pos).
Proof.
  intros Hle. unfold Decoder.ip.
  pose proof (bracketExpr_advanced pos Hle) as Hb. on_call Hb.
  destruct (ParseIP a); [unfold advanced; simpl; auto|apply error_bounded].
Qed.

Lemma ipport_advanced pos :
  pos <= end_ -> advanced data pos (Decoder.ipport data pos).
Proof.
  intros Hle. unfold Decoder.ipport.
  pose proof (bracketExpr_advanced pos Hle) as Hb. on_call Hb.
  destruct a as [|c0 a']; [apply error_bounded|].
  destruct (Ascii.eqb c0 "[").
  - destruct (Decoder.IndexByte _ _); [|exact I].
    destruct (_ || _)%bool; [exact I|]. cbn [fst snd].
    destruct (_ <=? _); [exact I|].
    destruct (ParseIP _); [|exact I].
    destruct (strconv.Atoi _); unfold advanced; simpl; auto.
  - destruct (Decoder.IndexByte _ _); [|exact I]. cbn [fst snd].
    destruct (_ <=? _); [exact I|].
    destruct (ParseIP _); [|exact I].
    destruct (strconv.Atoi _); unfold advanced; simpl; auto.
Qed.

Lemma typed_literal_advanced name method pos :
  Decoder.typed_literal data name = Some method ->
  pos <= end_ -> advanced data pos (method pos).
Proof.
  unfold Decoder.typed_literal. intros H Hle.
  repeat match type of H with
  | (if ?b then _ else _) = _ => destruct b
  end; try discriminate; injection H as <-;
  first [ apply integer_advanced | apply datetime_advanced
        | apply ip_advanced | apply ipport_advanced ]; assumption.
Qed.

Lemma objectKey_advanced pos :
  pos <= end_ -> advanced data pos (Decoder.objectKey data pos).
Proof.
  intros Hle. unfold Decoder.objectKey.
  destruct (Nat.leb_spec end_ pos); [exact I|].
  destruct (index_some pos pos) as (c & Hc & ->); [lia|].
  destruct (Ascii.eqb c QUOTE); [apply string_advanced; lia|apply atom_advanced; lia].
Qed.

Lemma stop_byte_lt c p (x : byte) :
  (p = end_ /\ c = NUL) \/ (p < end_ /\ nth_error data p = Some c /\ Decoder.is_space c = false) ->
  Ascii.eqb c x = true -> x <> NUL -> p < end_.
Proof.
  intros [[_ ->]|[H _]] Hx Hn; auto.
  apply Ascii.eqb_eq in Hx. congruence.
Qed.

(** With fuel for two calls per byte that is left, the parser returns, and
    [any] moves the cursor when it succeeds. *)
Lemma parse_bounded fuel :
  (forall pos, pos <= end_ -> 2 * (end_ - pos) + 1 <= fuel ->
     advanced data pos (Decoder.any data fuel pos)) /\
  (forall arr pos, pos <= end_ -> 2 * (end_ - pos) + 2 <= fuel ->
     bounded data pos (Decoder.array_scan data fuel arr pos)) /\
  (forall obj pos, pos <= end_ -> 2 * (end_ - pos) + 2 <= fuel ->
     bounded data pos (Decoder.object_scan data fuel obj pos)).
Proof.
  induction fuel as [|fuel (IHany & IHarr & IHobj)].
  { repeat split; intros; lia. }
  repeat split.
  - (* any *)
    intros pos Hle Hfuel. rewrite any_S; cbv zeta.
    destruct (Nat.leb_spec end_ pos); [apply error_bounded|].
    destruct (index_some pos pos) as (c & Hc & ->); [lia|].
    destruct (Ascii.eqb c QUOTE).
    { apply bounded_fmap. apply string_advanced. lia. }
    destruct (is_digit c) eqn:Hd.
    { apply bounded_fmap. destruct (number_bounded pos) as [_ Ha]; [lia|].
      exact (Ha c Hc Hd). }
    destruct (Ascii.eqb c "-").
    { destruct (Nat.leb_spec end_ (S pos)); [exact I|].
      destruct (index_some (S pos) (S pos)) as (c1 & Hc1 & ->); [lia|].
      destruct (_ && _)%bool; [apply error_bounded|].
      destruct (number_bounded (S pos)) as [Hb _]; [lia|].
      on_call Hb. unfold advanced; simpl. lia. }
    destruct (Ascii.eqb c "[").
    { apply bounded_fmap. apply IHarr; lia. }
    destruct (Ascii.eqb c "{").
    { apply bounded_fmap. apply IHobj; lia. }
    pose proof (atom_advanced pos Hle) as Hat. on_call Hat.
    destruct (String.eqb a "true"); [unfold advanced; simpl; lia|].
    destruct (String.eqb a "false"); [unfold advanced; simpl; lia|].
    destruct (String.eqb a "null"); [unfold advanced; simpl; lia|].
    destruct (Decoder.typed_literal data a) as [method|] eqn:Em;
      [|apply error_bounded].
    apply bounded_weaken with (lo := S pos0); [lia|].
    apply (typed_literal_advanced a method pos0 Em). lia.
  - (* array_scan *)
    intros arr pos Hle Hfuel. rewrite array_scan_S; cbv zeta.
    destruct (skipSpaces_spec pos Hle) as (c & p & -> & Hp & _ & Hc).
    destruct (Ascii.eqb c "]") eqn:Ec.
    { pose proof (stop_byte_lt c p "]" Hc Ec ltac:(discriminate)). simpl. lia. }
    pose proof (IHany p ltac:(lia) ltac:(lia)) as Hv. on_call Hv.
    destruct (skipSpaces_spec pos0 ltac:(lia)) as (c1 & p1 & -> & Hp1 & _ & Hc1).
    destruct (Ascii.eqb c1 ",") eqn:Ec1.
    { pose proof (stop_byte_lt c1 p1 "," Hc1 Ec1 ltac:(discriminate)).
      apply bounded_weaken with (lo := S p1); [lia|]. apply IHarr; lia. }
    destruct (Ascii.eqb c1 "]") eqn:Ec2; [|apply error_bounded].
    pose proof (stop_byte_lt c1 p1 "]" Hc1 Ec2 ltac:(discriminate)). simpl. lia.
  - (* object_scan *)
    intros obj pos Hle Hfuel. rewrite object_scan_S; cbv zeta.
    destruct (skipSpaces_spec pos Hle) as (c & p & -> & Hp & _ & Hc).
    destruct (Ascii.eqb c "}") eqn:Ec.
    { pose proof (stop_byte_lt c p "}" Hc Ec ltac:(discriminate)). simpl. lia. }
    pose proof (objectKey_advanced p ltac:(lia)) as Hk. on_call Hk.
    destruct (skipSpaces_spec pos0 ltac:(lia)) as (c1 & p1 & -> & Hp1 & _ & Hc1).
    destruct (Ascii.eqb c1 ":") eqn:Ec1; [|apply error_bounded]. cbn [negb].
    pose proof (stop_byte_lt c1 p1 ":" Hc1 Ec1 ltac:(discriminate)).
    destruct (skipSpaces_spec (S p1) ltac:(lia)) as (c2 & p2 & -> & Hp2 & _ & Hc2).
    pose proof (IHany p2 ltac:(lia) ltac:(lia)) as Hv. on_call Hv.
    destruct (skipSpaces_spec pos1 ltac:(lia)) as (c3 & p3 & -> & Hp3 & _ & Hc3).
    destruct (Ascii.eqb c3 "}") eqn:Ec3.
    { pose proof (stop_byte_lt c3 p3 "}" Hc3 Ec3 ltac:(discriminate)). simpl. lia. }
    destruct (Ascii.eqb c3 ",") eqn:Ec4; [|apply error_bounded].
    pose proof (stop_byte_lt c3 p3 "," Hc3 Ec4 ltac:(discriminate)).
    apply bounded_weaken with (lo := S p3); [lia|]. apply IHobj; lia.
Qed.

Lemma any_total fuel pos :
  pos <= end_ -> 2 * (end_ - pos) + 1 <= fuel ->
  advanced data pos (Decoder.any data fuel pos).
Proof. apply parse_bounded. Qed.

End Cursor.

(** ** The exported functions return *)

Section Totality.
Context {L : GoLib}.
Variable data : list byte.

Lemma finish_returns {A} (nil : A) (r : res A) :
  bounded data 0 r -> exists v err, finish data nil r = Returns v err.
Proof.
  intros Hb. unfold finish. on_call Hb; [|eauto].
  destruct (skipSpaces_spec data pos ltac:(lia)) as (c & p & -> & _).
  destruct (p <? Decoder.end_ data); eauto.
Qed.

Lemma enough_any pos : 2 * (Decoder.end_ data - pos) + 1 <= enough data.
Proof. unfold enough, Decoder.end_. lia. Qed.

Lemma Decode_parse_bounded :
  bounded data 0
    (let* (_, pos) := Decoder.skipSpaces data 0 in Decoder.any data (enough data) pos).
Proof.
  destruct (skipSpaces_spec data 0 ltac:(lia)) as (c & p & -> & Hp & _).
  apply bounded_weaken with (lo := p); [lia|].
  apply advanced_bounded. apply any_total; [lia|apply enough_any].
Qed.

Lemma Decode_returns : exists v err, Decode data = Returns v err.
Proof. apply finish_returns. apply Decode_parse_bounded. Qed.

Lemma DecodeObject_returns : exists v err, DecodeObject data = Returns v err.
Proof.
  apply finish_returns.
  destruct (skipSpaces_spec data 0 ltac:(lia)) as (c & p & -> & Hp & _ & Hc).
  destruct (Ascii.eqb c "{") eqn:Ec; cbn [negb]; [|apply error_bounded].
  pose proof (stop_byte_lt data c p "{" Hc Ec ltac:(discriminate)).
  apply bounded_fmap. apply bounded_weaken with (lo := S p); [lia|].
  apply parse_bounded; [lia|]. unfold enough, Decoder.end_ in *. lia.
Qed.

Lemma DecodeArray_returns : exists v err, DecodeArray data = Returns v err.
Proof.
  apply finish_returns.
  destruct (skipSpaces_spec data 0 ltac:(lia)) as (c & p & -> & Hp & _ & Hc).
  destruct (Ascii.eqb c "[") eqn:Ec; cbn [negb]; [|apply error_bounded].
  pose proof (stop_byte_lt data c p "[" Hc Ec ltac:(discriminate)).
  apply bounded_fmap. apply bounded_weaken with (lo := S p); [lia|].
  apply parse_bounded; [lia|]. unfold enough, Decoder.end_ in *. lia.
Qed.

End Totality.

(** C10. For every input, empty, truncated or arbitrary, Decode,
    DecodeObject and DecodeArray return a value and an error: no index or
    slice of the buffer is out of range (the model would answer [Panics]) and
    the recursion ends (it would answer [Exhausted]).  On the empty input the
    three return the error of an unexpected end. *)
Theorem decode_functions_always_return :
  forall (L : GoLib) (data : list byte),
    (exists v err, Decode data = Returns v err) /\
    (exists v err, DecodeObject data = Returns v err) /\
    (exists v err, DecodeArray data = Returns v err) /\
    Decode [] = Returns VNil (Some ErrUnexpectedEOF) /\
    DecodeObject [] = Returns None (Some ErrUnexpectedEOF) /\
    DecodeArray [] = Returns None (Some ErrUnexpectedEOF).
Proof.
  intros L data. repeat split.
  - apply Decode_returns.
  - apply DecodeObject_returns.
  - apply DecodeArray_returns.
Qed.

(** C1. Decode parses one value and skips the spaces after it.  If the
    parse fails, Decode returns nil and the error of the parse.  If it
    succeeds with the cursor at [pos], every byte from [pos] up to some [p]
    is a space, and either [p] is the end of the input and Decode returns the
    value with no error, or the byte at [p] is not a space and Decode returns
    the value together with an ExtraDataError whose Offset is [p].  For the
    input [{test: 1} blah] the value is the object with the one entry
    test = 1.0 and the offset is 10, where [blah] starts. *)
Theorem Decode_non_greedy :
  forall (L : GoLib) (data : list byte),
    match (let* (_, pos) := Decoder.skipSpaces data 0 in
           Decoder.any data (enough data) pos) with
    | Ok val pos =>
        exists p, pos <= p <= length data /\
          (forall i b, pos <= i < p -> nth_error data i = Some b ->
                       Decoder.is_space b = true) /\
          ((p = length data /\ Decode data = Returns val None) \/
           (exists c, nth_error data p = Some c /\ Decoder.is_space c = false /\
              Decode data = Returns val (Some (ExtraDataError (Z.of_nat p)))))
    | Err e _ => Decode data = Returns VNil (Some e)
    | Panic | OutOfFuel => False
    end /\
    Decode (bytes_of "{test: 1} blah") =
      Returns (VMap [("test", VFloat64 (f64_of_Z 1))]) (Some (ExtraDataError 10)) /\
    skipn 10 (bytes_of "{test: 1} blah") = bytes_of "blah".
Proof.
  intros L data. split; [|split; reflexivity].
  pose proof (Decode_parse_bounded data) as Hb.
  unfold Decode, Decode_fuel.
  destruct (let* (_, pos) := Decoder.skipSpaces data 0 in
            Decoder.any data (enough data) pos) as [val pos|e pos| |] eqn:E;
    simpl in Hb; try contradiction; [|reflexivity].
  unfold finish.
  destruct (skipSpaces_spec data pos ltac:(lia)) as (c & p & -> & Hp & Hsp & Hc).
  exists p. split; [exact Hp|]. split; [exact Hsp|].
  destruct Hc as [[-> ->]|(Hlt & Hc & Hns)].
  - left. split; [reflexivity|]. unfold Decoder.end_. rewrite Nat.ltb_irrefl. reflexivity.
  - right. exists c. repeat split; auto.
    destruct (Nat.ltb_spec p (Decoder.end_ data)); [reflexivity|lia].
Qed.

(** ** Errors and their offsets *)

(** A string literal that starts with a double quote. *)
Definition quoted_text (s : gostring) : list byte := QUOTE :: bytes_of s.

(** *** Every failure of the decoder *)

(** The error of [Decoder.error] with the cursor before the end. *)
Definition invalid_character {L : GoLib} (c : byte) (context : gostring) (p : nat)
  : goerror :=
  SyntaxError ("invalid character " ++ quoteChar c ++ " " ++ context)
              (Z.of_nat p + 1).

(** The contexts in which the decoder reports the byte under the cursor. *)
Definition contexts : list gostring :=
  [ "looking for atom"; "in \u hexadecimal character escape";
    "in string escape code"; "in string literal";
    "in negative numeric literal"; "after decimal point in numeric literal";
    "in exponent of numeric literal"; "looking for ("; "looking for )";
    "after array element"; "after object key"; "after object key:value pair";
    "looking for beginning of object"; "looking for beginning of array" ].

(** The messages of the checks that [ipport] makes itself. *)
Definition ipport_message (msg : gostring) : Prop :=
  In msg [ "invalid ipv6, missing ]"; "missing : after ipv6";
           "missing : after ipv4"; "missing port after :" ] \/
  exists s, msg = "malformed IP: " ++ s \/ msg = "malformed port: " ++ s.

Section Failures.
Context {L : GoLib}.
Variable data : list byte.
Local Abbreviation end_ := (Decoder.end_ data) (only parsing).

(** [string(d.data[a:b])] *)
Definition text_between (a b : nat) : gostring :=
  string_of_list_ascii (firstn (b - a) (skipn a data)).

(** The bytes from [a] up to [b] can all be part of a bare word, and the
    byte at [b], if there is one, cannot. *)
Definition atom_run (a b : nat) : Prop :=
  (forall i c, a <= i < b -> nth_error data i = Some c ->
               Decoder.is_atom_char c = true) /\
  (forall c, nth_error data b = Some c -> Decoder.is_atom_char c = false).

(** The cursor [p] is just after a closing bracket. *)
Definition closes (p : nat) : Prop :=
  exists q, p = S q /\ nth_error data q = Some ")"%char.

(** [failure e p]: the error [e], made with the cursor at [p], is one of
    the errors that the decoder makes at that place of this input. *)
Inductive failure : goerror -> nat -> Prop :=
| unexpected_byte c context p :
    (* d.error(c, context) on the byte under the cursor *)
    p < length data -> nth_error data p = Some c -> In context contexts ->
    failure (invalid_character c context p) p
| unexpected_end p :
    (* the input ends where a byte is needed *)
    length data <= p ->
    failure ErrUnexpectedEOF p
| unknown_word start c p :
    (* a bare word from [start] up to the cursor that is no keyword and no
       type name; the error names the first byte of the word *)
    nth_error data start = Some c -> start < p -> p < length data ->
    atom_run start p ->
    text_between start p <> "true" -> text_between start p <> "false" ->
    text_between start p <> "null" ->
    Decoder.typed_literal data (text_between start p) = None ->
    failure (invalid_character c "looking for beginning of value" p) p
| invalid_address start s context p :
    (* ip(...) or ipport(...) whose text is no address; the error names a
       space *)
    Decoder.bracketExpr data start = Ok s p -> closes p -> p < length data ->
    (context = "invalid ip" /\ ParseIP s = None) \/
    (context = "invalid ipport" /\ s = ""%string) ->
    failure (invalid_character SPACE context p) p
| ipport_rejected start s msg p :
    (* a check of ipport on the text between the brackets *)
    Decoder.bracketExpr data start = Ok s p -> closes p ->
    s <> ""%string -> ipport_message msg ->
    failure (SyntaxError msg (Z.of_nat p + 1)) p
| incomplete_hex_escape i p :
    (* backslash, u and fewer than three more bytes *)
    nth_error data i = Some BACKSLASH -> nth_error data (S i) = Some "u"%char ->
    p = length data -> p <= i + 4 ->
    failure ErrInvalidHexEscape p
| string_rejected start p :
    (* unquoteBytes rejects the text between the quotes *)
    nth_error data start = Some QUOTE -> start < p ->
    nth_error data p = Some QUOTE ->
    unquoteBytes (firstn (p - S start) (skipn (S start) data)) = None ->
    failure ErrStringEscape p
| number_rejected start msg p :
    (* strconv.ParseFloat rejects the scanned text *)
    start <= p -> p <= length data ->
    ParseFloat (text_between start p) = inr msg ->
    failure (SyntaxError msg (Z.of_nat p)) p
| integer_rejected k start s msg p :
    (* the integer parser rejects the text between the brackets *)
    Decoder.bracketExpr data start = Ok s p -> closes p ->
    Decoder.parse_integer k s = inr msg ->
    failure (SyntaxError msg (Z.of_nat p)) p
| time_rejected start s msg p :
    (* time.Parse rejects the text between the brackets *)
    Decoder.bracketExpr data start = Ok s p -> closes p ->
    time_Parse s = inr msg ->
    failure (ParseError msg) p.

(** What a method leaves behind: a result that satisfies [Q], or a
    [failure] with the cursor inside the input or at its end. *)
Definition checked {A} (Q : A -> nat -> Prop) (r : res A) : Prop :=
  match r with
  | Ok a p => Q a p
  | Err e p => failure e p /\ p <= end_
  | Panic | OutOfFuel => True
  end.

Lemma checked_weaken {A} (Q Q' : A -> nat -> Prop) (r : res A) :
  (forall a p, Q a p -> Q' a p) -> checked Q r -> checked Q' r.
Proof. destruct r; simpl; auto. Qed.

Lemma checked_fmap {A B} (f : A -> B) (Q : B -> nat -> Prop) (r : res A) :
  checked (fun a p => Q (f a) p) r -> checked Q (fmap f r).
Proof. destruct r; simpl; auto. Qed.

End Failures.

(** Case analysis on the result of a call that is [checked]: the call
    returned, or it failed and so does the caller. *)
Ltac on_check H :=
  match type of H with
  | checked _ _ ?r =>
      destruct r eqn:?; cbn [checked] in H;
      [ | exact H | exact I | exact I ]
  end.

Ltac known_context := unfold contexts; simpl; tauto.

Section FailureOfEachMethod.
Context {L : GoLib}.
Variable data : list byte.
Local Abbreviation end_ := (Decoder.end_ data) (only parsing).

Lemma error_checked {A} (Q : A -> nat -> Prop) c context pos :
  pos <= end_ -> (pos < end_ -> nth_error data pos = Some c) ->
  In context contexts ->
  checked data Q (Decoder.error data c context pos).
Proof.
  intros Hle Hc Hctx. unfold Decoder.error.
  destruct (Nat.ltb_spec pos end_) as [Hlt|Hge]; simpl.
  - split; [|lia]. apply unexpected_byte; auto.
  - split; [|lia]. apply unexpected_end. exact Hge.
Qed.

Lemma error_past_input {A} (Q : A -> nat -> Prop) c context pos :
  end_ <= pos -> pos <= end_ ->
  checked data Q (Decoder.error data c context pos).
Proof.
  intros Hge Hle. unfold Decoder.error.
  destruct (Nat.ltb_spec pos end_); [lia|]. simpl.
  split; [|lia]. apply unexpected_end. exact Hge.
Qed.

(** The byte that [skipSpaces] or [next] has returned is the byte under
    the cursor, when the cursor is before the end. *)
Lemma stop_byte c p :
  (p = end_ /\ c = NUL) \/
  (p < end_ /\ nth_error data p = Some c /\ Decoder.is_space c = false) ->
  p < end_ -> nth_error data p = Some c.
Proof. intros [[-> _]|(_ & H & _)] Hlt; [lia|exact H]. Qed.

Lemma atom_loop_checked fuel pos :
  pos <= end_ ->
  checked data (fun _ p => pos <= p <= end_ /\
                 (forall i c, pos <= i < p -> nth_error data i = Some c ->
                              Decoder.is_atom_char c = true) /\
                 (forall c, nth_error data p = Some c ->
                            Decoder.is_atom_char c = false))
    (Decoder.atom_loop data fuel pos).
Proof.
  revert pos. induction fuel as [|fuel IH]; intros pos Hle; simpl.
  - destruct (Nat.ltb_spec pos end_) as [Hlt|Hge].
    + destruct (index_some data pos pos Hlt) as (c & Hc & ->).
      destruct (Decoder.is_atom_char c) eqn:Hat; simpl; [exact I|].
      repeat split; try lia. intros c' Hc'. congruence.
    + simpl. repeat split; try lia.
      intros c Hc. assert (nth_error data pos <> None) by congruence.
      apply nth_error_Some in H. unfold Decoder.end_ in *. lia.
  - destruct (Nat.ltb_spec pos end_) as [Hlt|Hge].
    + destruct (index_some data pos pos Hlt) as (c & Hc & ->).
      destruct (Decoder.is_atom_char c) eqn:Hat.
      * specialize (IH (S pos) ltac:(lia)).
        revert IH. apply checked_weaken. intros _ p (Hp & Hrun & Hstop).
        repeat split; try lia; auto.
        intros i c' Hi Hc'. destruct (Nat.eq_dec i pos) as [->|Hne].
        -- congruence.
        -- apply (Hrun i c'); auto. lia.
      * simpl. repeat split; try lia. intros c' Hc'. congruence.
    + simpl. repeat split; try lia.
      intros c Hc. assert (nth_error data pos <> None) by congruence.
      apply nth_error_Some in H. unfold Decoder.end_ in *. lia.
Qed.

Lemma atom_start_char c :
  Decoder.is_atom_start c = true -> Decoder.is_atom_char c = true.
Proof.
  unfold Decoder.is_atom_start, Decoder.is_atom_char. intros ->. reflexivity.
Qed.

Lemma atom_checked pos :
  pos <= end_ ->
  checked data (fun a p => pos < p /\ p <= end_ /\ a = text_between data pos p /\
                           atom_run data pos p)
    (Decoder.atom data pos).
Proof.
  intros Hle. unfold Decoder.atom.
  destruct (Nat.ltb_spec pos end_) as [Hlt|Hge];
    [|apply error_past_input; lia].
  destruct (index_some data pos pos Hlt) as (c & Hc & ->).
  destruct (Decoder.is_atom_start c) eqn:Hst;
    [|apply error_checked; [lia|auto|known_context]].
  pose proof (atom_loop_checked (end_ - S pos) (S pos) ltac:(lia)) as Hl.
  on_check Hl. destruct Hl as (Hp & Hrun & Hstop).
  rewrite slice_ok by lia. simpl.
  repeat split; try lia; auto.
  intros i c' Hi Hc'. destruct (Nat.eq_dec i pos) as [->|Hne].
  - assert (c' = c) by congruence. subst. apply atom_start_char; auto.
  - apply (Hrun i c'); auto. lia.
Qed.

(** [escape_u] fails on a byte that is no hexadecimal digit, or at the end
    of the input, which is then less than [i] bytes away. *)
Lemma escape_u_cases i pos :
  pos <= end_ ->
  match Decoder.escape_u data i pos with
  | Ok _ p => pos <= p <= end_
  | Err e p =>
      (failure data e p /\ p <= end_) \/
      (e = ErrInvalidHexEscape /\ p = end_ /\ end_ < pos + i)
  | Panic | OutOfFuel => True
  end.
Proof.
  revert pos. induction i as [|i IH]; intros pos Hle; simpl; [lia|].
  destruct (Nat.ltb_spec pos end_) as [Hlt|Hge].
  - destruct (index_some data pos pos Hlt) as (c & Hc & ->).
    destruct (Decoder.is_hex c).
    + specialize (IH (S pos) ltac:(lia)).
      destruct (Decoder.escape_u data i (S pos)); auto; [lia|].
      destruct IH as [H|(He & Hp & Hlen)]; [left; exact H|right].
      repeat split; auto. lia.
    + pose proof (@error_checked unit (fun _ p => pos <= p <= end_) c
                    "in \u hexadecimal character escape" pos
                    ltac:(lia) ltac:(auto) ltac:(known_context)) as H.
      destruct (Decoder.error data c _ pos); simpl in H; auto.
  - right. repeat split; lia.
Qed.

(** The scan of a string literal whose opening quote is at [start - 1]. *)
Lemma string_scan_checked fuel unquote q pos :
  nth_error data q = Some QUOTE -> q < pos -> pos <= end_ ->
  checked data (fun _ p => pos < p /\ p <= end_)
    (Decoder.string_scan data fuel unquote (S q) pos).
Proof.
  intros Hq. revert unquote pos.
  assert (Hstep : forall fuel,
    (forall unquote pos, q < pos -> pos <= end_ ->
       checked data (fun _ p => pos < p /\ p <= end_)
         (match fuel with
          | O => OutOfFuel
          | S fuel' => Decoder.string_scan data fuel' unquote (S q) pos
          end)) ->
    forall unquote pos, q < pos -> pos <= end_ ->
      checked data (fun _ p => pos < p /\ p <= end_)
        (Decoder.string_scan data fuel unquote (S q) pos)).
  { intros fuel0 Hcont unquote pos Hs Hle.
    destruct fuel0 as [|fuel0]; cbn [Decoder.string_scan].
    all: destruct (Nat.leb_spec end_ pos) as [Hge|Hlt];
      [simpl; split; [apply unexpected_end; exact Hge|lia]|].
    all: destruct (index_some data pos pos Hlt) as (c & Hc & ->).
    all: destruct (Ascii.eqb c QUOTE) eqn:Eq.
    all: try (apply Ascii.eqb_eq in Eq; subst c;
              rewrite slice_ok by lia; destruct unquote;
              [ destruct (unquoteBytes _) eqn:Eu; simpl;
                [lia| split; [apply (string_rejected data q pos); auto; lia|lia]]
              | simpl; lia ]).
    all: destruct (Ascii.eqb c BACKSLASH) eqn:Eb.
    all: try (apply Ascii.eqb_eq in Eb; subst c;
              destruct (Nat.leb_spec end_ (S pos)) as [Hge1|Hlt1];
              [simpl; split; [apply unexpected_end; exact Hge1|lia]|];
              destruct (index_some data (S pos) (S pos) Hlt1) as (c' & Hc' & ->);
              destruct (Ascii.eqb c' "u") eqn:Eu;
              [ apply Ascii.eqb_eq in Eu; subst c';
                pose proof (escape_u_cases 3 (S (S pos)) ltac:(lia)) as He;
                destruct (Decoder.escape_u data 3 (S (S pos))) as [[] p'|e p'| |];
                [ | | exact I | exact I ];
                [ specialize (Hcont true p' ltac:(lia) ltac:(lia));
                  revert Hcont; apply checked_weaken; intros; lia
                | destruct He as [H|(-> & Hp & Hlen)]; simpl; [exact H|];
                  split; [|lia];
                  apply (incomplete_hex_escape data pos p'); auto;
                  unfold Decoder.end_ in *; lia ]
              | destruct (Decoder.is_simple_escape c');
                [ specialize (Hcont true (S (S pos)) ltac:(lia) ltac:(lia));
                  revert Hcont; apply checked_weaken; intros; lia
                | apply error_checked; [lia|auto|known_context] ] ]).
    all: destruct (code c <? 32)%N;
      [apply error_checked; [lia|auto|known_context]|].
    all: specialize (Hcont (unquote || (127 <? code c)%N)%bool (S pos)
                       ltac:(lia) ltac:(lia));
      revert Hcont; apply checked_weaken; intros; lia. }
  induction fuel as [|fuel IH]; intros unquote pos Hs Hle.
  - apply Hstep; auto. intros; exact I.
  - apply Hstep; auto.
Qed.

Lemma string_checked pos :
  nth_error data pos = Some QUOTE ->
  checked data (fun _ p => pos < p /\ p <= end_) (Decoder.string data pos).
Proof.
  intros Hq. unfold Decoder.string.
  assert (Hlt : pos < end_).
  { apply nth_error_Some. congruence. }
  pose proof (string_scan_checked (end_ - S pos) false pos (S pos) Hq
                ltac:(lia) ltac:(lia)) as H.
  revert H. apply checked_weaken. intros; lia.
Qed.

End FailureOfEachMethod.

Section FailureOfTheParser.
Context {L : GoLib}.
Variable data : list byte.
Local Abbreviation end_ := (Decoder.end_ data) (only parsing).
Local Abbreviation within pos := (fun _ p => pos <= p /\ p <= end_) (only parsing).

Lemma digits_loop_checked fuel n c pos :
  pos <= end_ -> (pos = end_ -> c = NUL) ->
  checked data (fun nc p => pos <= p /\ p <= end_ /\ (p = end_ -> snd nc = NUL))
    (Decoder.digits_loop data fuel n c pos).
Proof.
  revert n c pos. induction fuel as [|fuel IH]; intros n c pos Hle Hc;
    cbn [Decoder.digits_loop]; destruct (is_digit c); simpl;
    try (repeat split; auto; lia).
  destruct (next_spec data pos Hle) as (c' & p & -> & Hp & _ & _ & Hend).
  specialize (IH (f64_add (f64_mul (f64_of_Z 10) n)
                    (f64_of_Z (Z.of_N (code c - code "0")))) c' p
                 ltac:(lia) Hend).
  revert IH. apply checked_weaken. intros nc q (H1 & H2 & H3).
  repeat split; auto; lia.
Qed.

Lemma skip_digits_checked fuel c pos :
  pos <= end_ ->
  checked data (within pos) (Decoder.skip_digits data fuel c pos).
Proof.
  revert c pos. induction fuel as [|fuel IH]; intros c pos Hle;
    cbn [Decoder.skip_digits]; destruct (is_digit c); simpl; try lia; auto.
  destruct (next_spec data pos Hle) as (c' & p & -> & Hp & _).
  specialize (IH c' p ltac:(lia)).
  revert IH. apply checked_weaken. intros; lia.
Qed.

(** The byte that [number_digits] returns at the end of the input is the
    0 of [next], so no decimal point. *)
Lemma number_digits_checked c pos :
  pos < end_ ->
  checked data (fun nc p => pos <= p /\ p <= end_ /\ (p = end_ -> snd nc = NUL))
    (Decoder.number_digits data c pos).
Proof.
  intros Hlt. unfold Decoder.number_digits.
  destruct (Ascii.eqb c "0").
  - destruct (next_spec data pos ltac:(lia)) as (c' & p & -> & Hp & _ & _ & Hend).
    simpl. repeat split; auto; lia.
  - destruct (inrange "1" "9" c); [|simpl; repeat split; lia].
    apply digits_loop_checked; lia.
Qed.

Lemma number_fraction_checked c pos :
  pos <= end_ -> (pos = end_ -> c = NUL) ->
  checked data (within pos) (Decoder.number_fraction data c pos).
Proof.
  intros Hle Hend. unfold Decoder.number_fraction.
  destruct (Ascii.eqb c ".") eqn:Ec; [|simpl; lia].
  assert (Hlt0 : pos < end_).
  { destruct (Nat.eq_dec pos end_) as [Heq|Hne]; [|lia].
    rewrite (Hend Heq) in Ec. discriminate. }
  destruct (Nat.leb_spec end_ (S pos)) as [Hge|Hlt].
  { simpl. split; [apply unexpected_end; exact Hge|lia]. }
  destruct (index_some data (S pos) (S pos) Hlt) as (c1 & Hc1 & ->).
  destruct (_ && _)%bool; [apply error_checked; [lia|auto|known_context]|].
  destruct (next_spec data (S pos) ltac:(lia)) as (c2 & p2 & -> & Hp2 & _).
  pose proof (skip_digits_checked (S (end_ - p2)) c2 p2 ltac:(lia)) as Hs.
  on_check Hs. simpl. lia.
Qed.

Lemma number_exponent_checked isFloat c pos :
  pos <= end_ ->
  checked data (within pos) (Decoder.number_exponent data isFloat c pos).
Proof.
  intros Hle. unfold Decoder.number_exponent.
  destruct (Ascii.eqb c "e" || Ascii.eqb c "E")%bool; [|simpl; lia].
  destruct (next_spec data pos Hle) as (c2 & p2 & -> & Hp2 & _).
  assert (Hsign : checked data (within p2)
    (if (Ascii.eqb c2 "+" || Ascii.eqb c2 "-")%bool
     then
       let* (c3, pos3) := Decoder.next data p2 in
       if ((code c3 <? code "0")%N || (code "9" <? code c3)%N)%bool
       then @Decoder.error L data unit c3 "in exponent of numeric literal" pos3
       else Ok tt pos3
     else Ok tt p2)).
  { destruct (Ascii.eqb c2 "+" || Ascii.eqb c2 "-")%bool; [|simpl; lia].
    destruct (next_spec data p2 ltac:(lia)) as (c3 & p3 & -> & Hp3 & _ & Hc3 & _).
    destruct (_ || _)%bool; [|simpl; lia].
    apply error_checked; [lia|exact Hc3|known_context]. }
  on_check Hsign.
  destruct (next_spec data pos0 ltac:(lia)) as (c4 & p4 & -> & Hp4 & _).
  pose proof (skip_digits_checked (S (end_ - p4)) c4 p4 ltac:(lia)) as Hs.
  on_check Hs. simpl. lia.
Qed.

Lemma number_scan_checked pos :
  pos < end_ ->
  checked data (within pos) (Decoder.number_scan data pos).
Proof.
  intros Hlt. unfold Decoder.number_scan.
  destruct (index_some data pos pos Hlt) as (c & Hc & ->).
  pose proof (number_digits_checked c pos ltac:(lia)) as Hd. on_check Hd.
  destruct Hd as (Hd1 & Hd2 & Hd3).
  pose proof (number_fraction_checked (snd a) pos0 ltac:(lia) Hd3) as Hf.
  on_check Hf.
  pose proof (number_exponent_checked (fst a0) (snd a0) pos1 ltac:(lia)) as He.
  on_check He. simpl. lia.
Qed.

Lemma number_checked pos :
  pos < end_ ->
  checked data (within pos) (Decoder.number data pos).
Proof.
  intros Hlt. unfold Decoder.number.
  pose proof (number_scan_checked pos Hlt) as Hs. on_check Hs.
  destruct (snd a); [|simpl; lia].
  rewrite slice_ok by lia.
  destruct (ParseFloat _) as [n|msg] eqn:Ef; simpl; [lia|].
  split; [|lia].
  apply (number_rejected data pos msg pos0); [lia|unfold Decoder.end_ in *; lia|].
  exact Ef.
Qed.

Lemma bracket_raw_checked fuel start pos :
  start <= pos -> pos <= end_ ->
  checked data (fun _ p => pos < p /\ p <= end_ /\ closes data p)
    (Decoder.bracket_raw data fuel start pos).
Proof.
  revert pos. induction fuel as [|fuel IH]; intros pos Hs Hle;
    cbn [Decoder.bracket_raw].
  all: destruct (Nat.ltb_spec pos end_) as [Hlt|Hge];
    [|apply error_past_input; lia].
  all: destruct (index_some data pos pos Hlt) as (c & Hc & ->).
  all: destruct (Ascii.eqb c ")") eqn:Ec;
    [ apply Ascii.eqb_eq in Ec; subst c; rewrite slice_ok by lia; simpl;
      repeat split; try lia; exists pos; auto | ].
  - exact I.
  - specialize (IH (S pos) ltac:(lia) ltac:(lia)).
    revert IH. apply checked_weaken. intros _ p (H1 & H2 & H3).
    repeat split; auto; lia.
Qed.

Lemma bracketExpr_checked pos :
  pos <= end_ ->
  checked data (fun _ p => pos < p /\ p <= end_ /\ closes data p)
    (Decoder.bracketExpr data pos).
Proof.
  intros Hle. unfold Decoder.bracketExpr.
  destruct (skipSpaces_spec data pos Hle) as (c & p & -> & Hp & _ & Hc).
  destruct (Ascii.eqb c "(") eqn:Ec; cbn [negb];
    [|apply error_checked; [lia|apply stop_byte; exact Hc|known_context]].
  pose proof (stop_byte_lt data c p "(" Hc Ec ltac:(discriminate)) as Hlt.
  destruct (skipSpaces_spec data (S p) ltac:(lia)) as (c1 & p1 & -> & Hp1 & _ & Hc1).
  destruct (Ascii.eqb c1 QUOTE) eqn:Eq.
  - pose proof (stop_byte_lt data c1 p1 QUOTE Hc1 Eq ltac:(discriminate)) as Hlt1.
    pose proof (stop_byte data c1 p1 Hc1 Hlt1) as Hq.
    apply Ascii.eqb_eq in Eq. subst c1.
    pose proof (string_checked data p1 Hq) as Hs. on_check Hs.
    destruct (skipSpaces_spec data pos0 ltac:(lia)) as (c2 & p2 & -> & Hp2 & _ & Hc2).
    destruct (Ascii.eqb c2 ")") eqn:Ec2; cbn [negb];
      [|apply error_checked; [lia|apply stop_byte; exact Hc2|known_context]].
    pose proof (stop_byte_lt data c2 p2 ")" Hc2 Ec2 ltac:(discriminate)) as Hlt2.
    pose proof (stop_byte data c2 p2 Hc2 Hlt2) as Hb.
    apply Ascii.eqb_eq in Ec2. subst c2.
    simpl. repeat split; try lia. exists p2; auto.
  - pose proof (bracket_raw_checked (end_ - p1) p1 p1 ltac:(lia) ltac:(lia)) as Hr.
    revert Hr. apply checked_weaken. intros _ q (H1 & H2 & H3).
    repeat split; auto; lia.
Qed.

Lemma integer_checked k pos :
  pos <= end_ -> checked data (within pos) (Decoder.integer data k pos).
Proof.
  intros Hle. unfold Decoder.integer.
  pose proof (bracketExpr_checked pos Hle) as Hb.
  destruct (Decoder.bracketExpr data pos) as [s p|e p| |] eqn:Heq;
    cbn [checked] in Hb; [|exact Hb|exact I|exact I].
  destruct Hb as (Hp & Hpe & Hcl).
  destruct (Decoder.parse_integer k s) as [n|msg] eqn:Ep; simpl; [lia|].
  split; [|lia]. apply (integer_rejected data k pos s msg p); auto.
Qed.

Lemma datetime_checked pos :
  pos <= end_ -> checked data (within pos) (Decoder.datetime data pos).
Proof.
  intros Hle. unfold Decoder.datetime.
  pose proof (bracketExpr_checked pos Hle) as Hb.
  destruct (Decoder.bracketExpr data pos) as [s p|e p| |] eqn:Heq;
    cbn [checked] in Hb; [|exact Hb|exact I|exact I].
  destruct Hb as (Hp & Hpe & Hcl).
  destruct (time_Parse s) as [t|msg] eqn:Ep; simpl; [lia|].
  split; [|lia]. apply (time_rejected data pos s msg p); auto.
Qed.

(** The error that [ip] and [ipport] make for a text that is no address:
    it names a space, whatever the byte under the cursor. *)
Lemma address_error_checked {A} (Q : A -> nat -> Prop) start s context p :
  Decoder.bracketExpr data start = Ok s p -> closes data p -> p <= end_ ->
  (context = "invalid ip" /\ ParseIP s = None) \/
  (context = "invalid ipport" /\ s = ""%string) ->
  checked data Q (Decoder.error data SPACE context p).
Proof.
  intros Heq Hcl Hle Hctx. unfold Decoder.error.
  destruct (Nat.ltb_spec p end_) as [Hlt|Hge]; simpl; (split; [|lia]).
  - apply (invalid_address data start s context p); auto.
  - apply unexpected_end. exact Hge.
Qed.

Lemma ip_checked pos :
  pos <= end_ -> checked data (within pos) (Decoder.ip data pos).
Proof.
  intros Hle. unfold Decoder.ip.
  pose proof (bracketExpr_checked pos Hle) as Hb.
  destruct (Decoder.bracketExpr data pos) as [s p|e p| |] eqn:Heq;
    cbn [checked] in Hb; [|exact Hb|exact I|exact I].
  destruct Hb as (Hp & Hpe & Hcl).
  destruct (ParseIP s) as [a|] eqn:Ep; simpl; [lia|].
  apply (address_error_checked _ pos s); auto.
Qed.

Lemma ipport_checked pos :
  pos <= end_ -> checked data (within pos) (Decoder.ipport data pos).
Proof.
  intros Hle. unfold Decoder.ipport.
  pose proof (bracketExpr_checked pos Hle) as Hb.
  destruct (Decoder.bracketExpr data pos) as [s p|e p| |] eqn:Heq;
    cbn [checked] in Hb; [|exact Hb|exact I|exact I].
  destruct Hb as (Hp & Hpe & Hcl).
  destruct s as [|c0 s'].
  { apply (address_error_checked _ pos ""%string); auto. }
  assert (Hfail : forall msg, ipport_message msg ->
            failure data (SyntaxError msg (Z.of_nat p + 1)) p /\ p <= end_).
  { intros msg Hmsg. split; [|lia].
    apply (ipport_rejected data pos (String c0 s') msg p); auto. discriminate. }
  assert (Hfixed : forall msg,
            In msg [ "invalid ipv6, missing ]"; "missing : after ipv6";
                     "missing : after ipv4"; "missing port after :" ] ->
            ipport_message msg) by (intros; left; assumption).
  destruct (Ascii.eqb c0 "[").
  - destruct (Decoder.IndexByte _ _); [|apply Hfail, Hfixed; simpl; tauto].
    destruct (_ || _)%bool; [apply Hfail, Hfixed; simpl; tauto|].
    cbn [fst snd].
    destruct (_ <=? _); [apply Hfail, Hfixed; simpl; tauto|].
    destruct (ParseIP _); [|apply Hfail; right; eexists; left; reflexivity].
    destruct (strconv.Atoi _); simpl;
      [lia|apply Hfail; right; eexists; right; reflexivity].
  - destruct (Decoder.IndexByte _ _); [|apply Hfail, Hfixed; simpl; tauto].
    cbn [fst snd].
    destruct (_ <=? _); [apply Hfail, Hfixed; simpl; tauto|].
    destruct (ParseIP _); [|apply Hfail; right; eexists; left; reflexivity].
    destruct (strconv.Atoi _); simpl;
      [lia|apply Hfail; right; eexists; right; reflexivity].
Qed.

Lemma typed_literal_checked name method pos :
  Decoder.typed_literal data name = Some method ->
  pos <= end_ -> checked data (within pos) (method pos).
Proof.
  unfold Decoder.typed_literal. intros H Hle.
  repeat match type of H with
  | (if ?b then _ else _) = _ => destruct b
  end; try discriminate; injection H as <-;
  first [ apply integer_checked | apply datetime_checked
        | apply ip_checked | apply ipport_checked ]; assumption.
Qed.

Lemma objectKey_checked pos :
  pos <= end_ -> checked data (within pos) (Decoder.objectKey data pos).
Proof.
  intros Hle. unfold Decoder.objectKey.
  destruct (Nat.leb_spec end_ pos) as [Hge|Hlt].
  { simpl. split; [apply unexpected_end; exact Hge|lia]. }
  destruct (index_some data pos pos Hlt) as (c & Hc & ->).
  destruct (Ascii.eqb c QUOTE) eqn:Eq.
  - apply Ascii.eqb_eq in Eq. subst c.
    pose proof (string_checked data pos Hc) as Hs.
    revert Hs. apply checked_weaken. intros; lia.
  - pose proof (atom_checked data pos Hle) as Ha.
    revert Ha. apply checked_weaken. intros; lia.
Qed.

(** A bare word that is no keyword and no type name. *)
Lemma unknown_word_checked {A} (Q : A -> nat -> Prop) start c p :
  nth_error data start = Some c -> start < p -> p <= end_ ->
  atom_run data start p ->
  String.eqb (text_between data start p) "true" = false ->
  String.eqb (text_between data start p) "false" = false ->
  String.eqb (text_between data start p) "null" = false ->
  Decoder.typed_literal data (text_between data start p) = None ->
  checked data Q (Decoder.error data c "looking for beginning of value" p).
Proof.
  intros Hc Hs Hle Hrun Ht Hf Hn Hty. unfold Decoder.error.
  destruct (Nat.ltb_spec p end_) as [Hlt|Hge]; simpl; (split; [|lia]).
  - apply (unknown_word data start c p); auto; apply String.eqb_neq; assumption.
  - apply unexpected_end. exact Hge.
Qed.

(** Whatever the fuel, a failure of the parser is a [failure] at its
    cursor, and a value leaves the cursor in the input. *)
Lemma parse_checked fuel :
  (forall pos, pos <= end_ ->
     checked data (within pos) (Decoder.any data fuel pos)) /\
  (forall arr pos, pos <= end_ ->
     checked data (within pos) (Decoder.array_scan data fuel arr pos)) /\
  (forall obj pos, pos <= end_ ->
     checked data (within pos) (Decoder.object_scan data fuel obj pos)).
Proof.
  induction fuel as [|fuel (IHany & IHarr & IHobj)].
  { repeat split; intros; exact I. }
  repeat split.
  - (* any *)
    intros pos Hle. rewrite any_S; cbv zeta.
    destruct (Nat.leb_spec end_ pos) as [Hge|Hlt]; [apply error_past_input; lia|].
    destruct (index_some data pos pos Hlt) as (c & Hc & ->).
    destruct (Ascii.eqb c QUOTE) eqn:Eq.
    { apply Ascii.eqb_eq in Eq. subst c. apply checked_fmap.
      pose proof (string_checked data pos Hc) as Hs.
      revert Hs. apply checked_weaken. intros; lia. }
    destruct (is_digit c) eqn:Hd.
    { apply checked_fmap. apply number_checked. exact Hlt. }
    destruct (Ascii.eqb c "-").
    { destruct (Nat.leb_spec end_ (S pos)) as [Hge1|Hlt1].
      { simpl. split; [apply unexpected_end; exact Hge1|lia]. }
      destruct (index_some data (S pos) (S pos) Hlt1) as (c1 & Hc1 & ->).
      destruct (_ && _)%bool; [apply error_checked; [lia|auto|known_context]|].
      pose proof (number_checked (S pos) Hlt1) as Hn. on_check Hn.
      simpl. lia. }
    destruct (Ascii.eqb c "[").
    { apply checked_fmap. specialize (IHarr [] (S pos) ltac:(lia)).
      revert IHarr. apply checked_weaken. intros; lia. }
    destruct (Ascii.eqb c "{").
    { apply checked_fmap. specialize (IHobj [] (S pos) ltac:(lia)).
      revert IHobj. apply checked_weaken. intros; lia. }
    pose proof (atom_checked data pos Hle) as Hat. on_check Hat.
    destruct Hat as (Hp & Hpe & -> & Hrun).
    destruct (String.eqb _ "true") eqn:Et; [simpl; lia|].
    destruct (String.eqb _ "false") eqn:Ef; [simpl; lia|].
    destruct (String.eqb _ "null") eqn:En; [simpl; lia|].
    destruct (Decoder.typed_literal data _) as [method|] eqn:Em.
    + pose proof (typed_literal_checked _ method pos0 Em Hpe) as Hm.
      revert Hm. apply checked_weaken. intros; lia.
    + apply (unknown_word_checked _ pos c pos0); auto.
  - (* array_scan *)
    intros arr pos Hle. rewrite array_scan_S; cbv zeta.
    destruct (skipSpaces_spec data pos Hle) as (c & p & -> & Hp & _ & Hc).
    destruct (Ascii.eqb c "]") eqn:Ec.
    { pose proof (stop_byte_lt data c p "]" Hc Ec ltac:(discriminate)). simpl. lia. }
    pose proof (IHany p ltac:(lia)) as Hv. on_check Hv.
    destruct (skipSpaces_spec data pos0 ltac:(lia)) as (c1 & p1 & -> & Hp1 & _ & Hc1).
    destruct (Ascii.eqb c1 ",") eqn:Ec1.
    { pose proof (stop_byte_lt data c1 p1 "," Hc1 Ec1 ltac:(discriminate)).
      specialize (IHarr (arr ++ [a])%list (S p1) ltac:(lia)).
      revert IHarr. apply checked_weaken. intros; lia. }
    destruct (Ascii.eqb c1 "]") eqn:Ec2;
      [|apply error_checked; [lia|apply stop_byte; exact Hc1|known_context]].
    pose proof (stop_byte_lt data c1 p1 "]" Hc1 Ec2 ltac:(discriminate)). simpl. lia.
  - (* object_scan *)
    intros obj pos Hle. rewrite object_scan_S; cbv zeta.
    destruct (skipSpaces_spec data pos Hle) as (c & p & -> & Hp & _ & Hc).
    destruct (Ascii.eqb c "}") eqn:Ec.
    { pose proof (stop_byte_lt data c p "}" Hc Ec ltac:(discriminate)). simpl. lia. }
    pose proof (objectKey_checked p ltac:(lia)) as Hk. on_check Hk.
    destruct (skipSpaces_spec data pos0 ltac:(lia)) as (c1 & p1 & -> & Hp1 & _ & Hc1).
    destruct (Ascii.eqb c1 ":") eqn:Ec1; cbn [negb];
      [|apply error_checked; [lia|apply stop_byte; exact Hc1|known_context]].
    pose proof (stop_byte_lt data c1 p1 ":" Hc1 Ec1 ltac:(discriminate)).
    destruct (skipSpaces_spec data (S p1) ltac:(lia)) as (c2 & p2 & -> & Hp2 & _ & Hc2).
    pose proof (IHany p2 ltac:(lia)) as Hv. on_check Hv.
    destruct (skipSpaces_spec data pos1 ltac:(lia)) as (c3 & p3 & -> & Hp3 & _ & Hc3).
    destruct (Ascii.eqb c3 "}") eqn:Ec3.
    { pose proof (stop_byte_lt data c3 p3 "}" Hc3 Ec3 ltac:(discriminate)). simpl. lia. }
    destruct (Ascii.eqb c3 ",") eqn:Ec4;
      [|apply error_checked; [lia|apply stop_byte; exact Hc3|known_context]].
    pose proof (stop_byte_lt data c3 p3 "," Hc3 Ec4 ltac:(discriminate)).
    specialize (IHobj (map_set obj a a0) (S p3) ltac:(lia)).
    revert IHobj. apply checked_weaken. intros; lia.
Qed.

(** [explained v nil e]: the error [e] that an exported function has
    returned with the value [v] is an ExtraDataError at a byte of the
    input, or the parse has failed, the value is [nil] and [e] is a
    [failure] at a cursor in the input. *)
Definition explained {A} (v nil : A) (e : goerror) : Prop :=
  (exists p, p < length data /\ e = ExtraDataError (Z.of_nat p)) \/
  (v = nil /\ exists p, p <= length data /\ failure data e p).

Lemma finish_explained {A} (nil : A) (r : res A) v e :
  checked data (fun _ p => p <= end_) r ->
  finish data nil r = Returns v (Some e) -> explained v nil e.
Proof.
  intros Hr. unfold finish.
  destruct r as [val pos|e' p'| |]; simpl in Hr; try discriminate.
  - destruct (skipSpaces_spec data pos Hr) as (c & p & -> & Hp & _).
    destruct (Nat.ltb_spec p end_) as [Hlt|Hge]; [|discriminate].
    intros [= <- <-]. left. exists p. split; auto.
  - intros [= <- <-]. right. split; auto. exists p'.
    destruct Hr. split; auto.
Qed.

Lemma Decode_explained v e :
  Decode data = Returns v (Some e) -> explained v VNil e.
Proof.
  apply finish_explained.
  destruct (skipSpaces_spec data 0 ltac:(lia)) as (c & p & -> & Hp & _).
  destruct (parse_checked (enough data)) as (Hany & _).
  specialize (Hany p ltac:(lia)). revert Hany.
  apply checked_weaken. intros; lia.
Qed.

Lemma DecodeObject_explained v e :
  DecodeObject data = Returns v (Some e) -> explained v None e.
Proof.
  apply finish_explained.
  destruct (skipSpaces_spec data 0 ltac:(lia)) as (c & p & -> & Hp & _ & Hc).
  destruct (Ascii.eqb c "{") eqn:Ec; cbn [negb];
    [|apply error_checked; [lia|apply stop_byte; exact Hc|known_context]].
  pose proof (stop_byte_lt data c p "{" Hc Ec ltac:(discriminate)).
  apply checked_fmap. unfold Decoder.object.
  destruct (parse_checked (enough data)) as (_ & _ & Hobj).
  specialize (Hobj [] (S p) ltac:(lia)). revert Hobj.
  apply checked_weaken. intros; lia.
Qed.

Lemma DecodeArray_explained v e :
  DecodeArray data = Returns v (Some e) -> explained v None e.
Proof.
  apply finish_explained.
  destruct (skipSpaces_spec data 0 ltac:(lia)) as (c & p & -> & Hp & _ & Hc).
  destruct (Ascii.eqb c "[") eqn:Ec; cbn [negb];
    [|apply error_checked; [lia|apply stop_byte; exact Hc|known_context]].
  pose proof (stop_byte_lt data c p "[" Hc Ec ltac:(discriminate)).
  apply checked_fmap. unfold Decoder.array.
  destruct (parse_checked (enough data)) as (_ & Harr & _).
  specialize (Harr [] (S p) ltac:(lia)). revert Harr.
  apply checked_weaken. intros; lia.
Qed.

(** A text that a parser of the standard library has rejected: the float
    parser and the integer parsers give a SyntaxError whose Offset is the
    cursor, time.Parse gives its own error. *)
Definition rejected_by_parser (e : goerror) (p : nat) : Prop :=
  (exists s msg, ParseFloat s = inr msg /\ e = SyntaxError msg (Z.of_nat p)) \/
  (exists k s msg, Decoder.parse_integer k s = inr msg /\
                   e = SyntaxError msg (Z.of_nat p)) \/
  (exists s msg, time_Parse s = inr msg /\ e = ParseError msg).

Lemma failure_before_end e p :
  failure data e p -> p < length data ->
  (exists c context, e = invalid_character c context p) \/
  (exists msg, ipport_message msg /\ e = SyntaxError msg (Z.of_nat p + 1)) \/
  e = ErrStringEscape \/
  rejected_by_parser e p.
Proof.
  intros H Hlt. destruct H.
  - left; eauto.
  - lia.
  - left; eauto.
  - left; eauto.
  - right; left; eauto.
  - lia.
  - right; right; left; reflexivity.
  - right; right; right; left; eauto.
  - right; right; right; right; left; eauto.
  - right; right; right; right; right; eauto.
Qed.

Lemma failure_at_end e p :
  failure data e p -> length data <= p ->
  e = ErrUnexpectedEOF \/
  e = ErrInvalidHexEscape \/
  (exists msg, ipport_message msg /\ e = SyntaxError msg (Z.of_nat p + 1)) \/
  rejected_by_parser e p.
Proof.
  intros H Hge. destruct H.
  - lia.
  - left; reflexivity.
  - lia.
  - lia.
  - right; right; left; eauto.
  - right; left; reflexivity.
  - assert (p < length data) by (apply nth_error_Some; congruence). lia.
  - right; right; right; left; eauto.
  - right; right; right; right; left; eauto.
  - right; right; right; right; right; eauto.
Qed.

End FailureOfTheParser.

(** C2, as amended.  Every failure of Decode, DecodeObject and DecodeArray
    other than extra data after the value is a [failure] at a cursor in the
    input, and so is every failure of the parser at the cursor it has
    left.  Before the end of the input such a failure is the SyntaxError of
    [Decoder.error], whose Offset is the cursor plus one, or a check of
    ipport with that Offset, unless a parser of the standard library has
    rejected a text (ErrStringEscape, a SyntaxError whose Offset is the
    cursor, or the error of time.Parse).  At the end of the input it is the
    ErrUnexpectedEOF sentinel, whose Offset is -1, unless it is the
    ErrInvalidHexEscape of an incomplete escape, a check of ipport or,
    again, the rejection of a text.  So the unterminated string and the
    unterminated array return the sentinel, and the syntax errors of the
    test suite carry the offsets 2, 9, 8, 4 and 4. *)
Theorem error_offset_convention :
  forall (L : GoLib) (data : list byte),
    (forall (A : Type) c context pos,
        pos < length data ->
        @Decoder.error L data A c context pos =
        Err (SyntaxError ("invalid character " ++ quoteChar c ++ " " ++ context)
                         (Z.of_nat pos + 1)) pos) /\
    (forall (A : Type) c context pos,
        length data <= pos ->
        @Decoder.error L data A c context pos = Err ErrUnexpectedEOF pos) /\
    Offset_of ErrUnexpectedEOF = Some (-1)%Z /\
    (forall fuel pos e p,
        pos <= length data -> Decoder.any data fuel pos = Err e p ->
        p <= length data /\ failure data e p) /\
    (forall v e, Decode data = Returns v (Some e) -> explained data v VNil e) /\
    (forall v e, DecodeObject data = Returns v (Some e) -> explained data v None e) /\
    (forall v e, DecodeArray data = Returns v (Some e) -> explained data v None e) /\
    (forall e p,
        failure data e p -> p < length data ->
        (exists c context, e = invalid_character c context p) \/
        (exists msg, ipport_message msg /\ e = SyntaxError msg (Z.of_nat p + 1)) \/
        e = ErrStringEscape \/
        rejected_by_parser e p) /\
    (forall e p,
        failure data e p -> length data <= p ->
        e = ErrUnexpectedEOF \/
        e = ErrInvalidHexEscape \/
        (exists msg, ipport_message msg /\ e = SyntaxError msg (Z.of_nat p + 1)) \/
        rejected_by_parser e p) /\
    Decode (quoted_text "as") = Returns VNil (Some ErrUnexpectedEOF) /\
    Decode (bytes_of "[1,") = Returns VNil (Some ErrUnexpectedEOF) /\
    Decode (bytes_of "[,]") =
      Returns VNil (Some (SyntaxError
        ("invalid character " ++ quoteChar "," ++ " looking for atom") 2)) /\
    Decode (bytes_of "[1, 2, 3+]") =
      Returns VNil (Some (SyntaxError
        ("invalid character " ++ quoteChar "+" ++ " after array element") 9)) /\
    Decode (bytes_of "{" ++ quoted_text "X" ++ QUOTE :: bytes_of ":12x}")%list =
      Returns VNil (Some (SyntaxError
        ("invalid character " ++ quoteChar "x" ++ " after object key:value pair") 8)) /\
    Decode (bytes_of "nul,1234") =
      Returns VNil (Some (SyntaxError
        ("invalid character " ++ quoteChar "n" ++ " looking for beginning of value") 4)) /\
    Decode (bytes_of "{a 1  }") =
      Returns VNil (Some (SyntaxError
        ("invalid character " ++ quoteChar "1" ++ " after object key") 4)).
Proof.
  intros L data.
  split.
  { intros A c context pos H. unfold Decoder.error, Decoder.end_.
    destruct (Nat.ltb_spec pos (length data)); [reflexivity|lia]. }
  split.
  { intros A c context pos H. unfold Decoder.error, Decoder.end_.
    destruct (Nat.ltb_spec pos (length data)); [lia|reflexivity]. }
  split; [reflexivity|].
  split.
  { intros fuel pos e p Hle Herr.
    destruct (parse_checked data fuel) as (Hany & _).
    specialize (Hany pos Hle). rewrite Herr in Hany.
    destruct Hany as [Hf Hp]. split; [exact Hp|exact Hf]. }
  split; [apply Decode_explained|].
  split; [apply DecodeObject_explained|].
  split; [apply DecodeArray_explained|].
  split; [apply failure_before_end|].
  split; [apply failure_at_end|].
  repeat split.
Qed.

(** [error_offset_convention] on inputs of the test suite: the two cases of
    [Decoder.error] in a three-byte input; the failure of the parser on
    [[1, 2, 3+]] with the cursor on the [+], which is before the end; the
    failures of the three functions on the unterminated array; and the
    failure of the parser at the end of that array. *)
Lemma error_offset_convention_witness :
  @Decoder.error GoRef.lib (bytes_of "[1,") unit "," "after array element" 2 =
    Err (SyntaxError "invalid character ',' after array element" 3) 2 /\
  @Decoder.error GoRef.lib (bytes_of "[1,") unit "," "after array element" 3 =
    Err ErrUnexpectedEOF 3 /\
  (8 <= 10 /\
   failure (L := GoRef.lib) (bytes_of "[1, 2, 3+]")
     (SyntaxError "invalid character '+' after array element" 9) 8) /\
  explained (L := GoRef.lib) (bytes_of "[1,")
    (@VNil GoRef.lib) VNil ErrUnexpectedEOF /\
  explained (L := GoRef.lib) (bytes_of "[1,")
    (@None (list (gostring * @value GoRef.lib))) None
    (SyntaxError "invalid character '[' looking for beginning of object" 1) /\
  explained (L := GoRef.lib) (bytes_of "[1,")
    (@None (list (@value GoRef.lib))) None ErrUnexpectedEOF /\
  ((exists c context,
      SyntaxError "invalid character '+' after array element" 9 =
      invalid_character (L := GoRef.lib) c context 8) \/
   (exists msg, ipport_message msg /\
      SyntaxError "invalid character '+' after array element" 9 =
      SyntaxError msg (Z.of_nat 8 + 1)) \/
   SyntaxError "invalid character '+' after array element" 9 = ErrStringEscape \/
   rejected_by_parser (L := GoRef.lib)
     (SyntaxError "invalid character '+' after array element" 9) 8) /\
  (ErrUnexpectedEOF = ErrUnexpectedEOF \/
   ErrUnexpectedEOF = ErrInvalidHexEscape \/
   (exists msg, ipport_message msg /\
      ErrUnexpectedEOF = SyntaxError msg (Z.of_nat 3 + 1)) \/
   rejected_by_parser (L := GoRef.lib) ErrUnexpectedEOF 3).
Proof.
  pose proof (error_offset_convention GoRef.lib (bytes_of "[1, 2, 3+]"))
    as (_ & _ & _ & Hplus & _ & _ & _ & Hbefore & _).
  pose proof (error_offset_convention GoRef.lib (bytes_of "[1,"))
    as (H1 & H2 & _ & Hany & HD & HO & HA & _ & Hend & _).
  pose proof (Hplus 30 0 _ 8 ltac:(simpl; lia) eq_refl) as Hf.
  pose proof (Hany 30 0 _ 3 ltac:(simpl; lia) eq_refl) as He.
  split; [|split; [|split; [|split; [|split; [|split; [|split]]]]]].
  - apply (H1 unit ","%char "after array element" 2). simpl. lia.
  - apply (H2 unit ","%char "after array element" 3). simpl. lia.
  - exact Hf.
  - exact (HD VNil ErrUnexpectedEOF eq_refl).
  - exact (HO None _ eq_refl).
  - exact (HA None ErrUnexpectedEOF eq_refl).
  - exact (Hbefore _ 8 (proj2 Hf) ltac:(simpl; lia)).
  - exact (Hend _ 3 (proj2 He) ltac:(simpl; lia)).
Defined.

(** A standard library whose time.Parse rejects, as Go's does, a text that
    does not start with the four digits of the year. *)
Definition time_quote (s : gostring) : gostring :=
  String QUOTE (s ++ String QUOTE "").

Definition rfc3339_year (s : gostring) : gostring + gostring :=
  match s with
  | String c _ =>
      if is_digit c then inl s
      else inr ("parsing time " ++ time_quote s ++ " as " ++
                time_quote "2006-01-02T15:04:05Z07:00" ++ ": cannot parse " ++
                time_quote s ++ " as " ++ time_quote "2006")
  | EmptyString =>
      inr ("parsing time " ++ time_quote s ++ " as " ++
           time_quote "2006-01-02T15:04:05Z07:00" ++ ": cannot parse " ++
           time_quote s ++ " as " ++ time_quote "2006")
  end.

Definition year_checked : GoLib :=
  Build_GoLib gostring gostring
    (@ParseFloat GoRef.lib) (@FormatFloat GoRef.lib)
    rfc3339_year (fun t => t)
    (fun s => Some s) (fun ip => ip) (@IP_To4 GoRef.lib)
    (@unquoteBytes GoRef.lib) (@quoteChar GoRef.lib) (@base64 GoRef.lib).

(** C2 as stated fails: a failure with the cursor at the end of the input
    is not always the ErrUnexpectedEOF sentinel.  An incomplete [\u] escape
    at the end of the input returns the ErrInvalidHexEscape sentinel, and the
    float text [0e], which the float parser rejects, returns a SyntaxError
    positioned at the end, offset 2.  So do [int(x)], whose text the integer
    parser rejects, with offset 6, and [ipport(x)], which has no colon, with
    offset 10 for an input of 9 bytes; [datetime(x)] returns the error of
    time.Parse. *)
Lemma error_at_end_counterexample :
  Decoder.any (L := GoRef.lib) (quoted_text "\u0") 9 0 =
    Err ErrInvalidHexEscape (length (quoted_text "\u0")) /\
  Decode (L := GoRef.lib) (quoted_text "\u0") = Returns VNil (Some ErrInvalidHexEscape) /\
  ErrInvalidHexEscape <> ErrUnexpectedEOF /\
  Decoder.any (L := GoRef.lib) (bytes_of "0e") 5 0 =
    Err (SyntaxError (strconv.NumError "ParseFloat" "0e" strconv.ErrSyntax) 2)
        (length (bytes_of "0e")) /\
  Decoder.any (L := GoRef.lib) (bytes_of "int(x)") 5 0 =
    Err (SyntaxError (strconv.NumError "Atoi" "x" strconv.ErrSyntax) 6)
        (length (bytes_of "int(x)")) /\
  Decoder.any (L := GoRef.lib) (bytes_of "ipport(x)") 5 0 =
    Err (SyntaxError "missing : after ipv4" 10) (length (bytes_of "ipport(x)")) /\
  Decode (L := GoRef.lib) (bytes_of "ipport(x)") =
    Returns VNil (Some (SyntaxError "missing : after ipv4" 10)) /\
  Decoder.any (L := year_checked) (bytes_of "datetime(x)") 5 0 =
    Err (ParseError ("parsing time " ++ time_quote "x" ++ " as " ++
                     time_quote "2006-01-02T15:04:05Z07:00" ++
                     ": cannot parse " ++ time_quote "x" ++ " as " ++
                     time_quote "2006"))
        (length (bytes_of "datetime(x)")).
Proof. repeat split. discriminate. Qed.

(** ** Numbers *)

(** The guard of the negative literal, [c < '0' && c > '9'], holds for no
    byte. *)
Lemma sign_guard_never_holds (c : byte) :
  ((code c <? code "0")%N && (code "9" <? code c)%N)%bool = false.
Proof.
  destruct (N.ltb_spec (code c) (code "0")); [|reflexivity].
  destruct (N.ltb_spec (code "9") (code c)); [|reflexivity].
  change (code "0") with 48%N in *. change (code "9") with 57%N in *. lia.
Qed.

(** C5, what the code does.  A [-] at the end of the input is an unexpected
    end; but a [-] followed by a byte that is not a digit is not an error:
    the guard never holds, [number] reads no digit and the value is -0. *)
Theorem minus_without_digit :
  forall (L : GoLib),
    Decode (bytes_of "-") = Returns VNil (Some ErrUnexpectedEOF) /\
    Decode (bytes_of "[-]") = Returns (VArray [VFloat64 (S754_zero true)]) None /\
    Decode (bytes_of "-x") =
      Returns (VFloat64 (S754_zero true)) (Some (ExtraDataError 1)) /\
    (forall data fuel pos c,
        nth_error data pos = Some "-"%char ->
        nth_error data (S pos) = Some c ->
        Decoder.any data (S fuel) pos =
        let* (n, p) := Decoder.number data (S pos) in Ok (VFloat64 (f64_neg n)) p).
Proof.
  intros L. repeat split.
  intros data fuel pos c Hm Hc. rewrite any_S. cbv zeta.
  assert (Hlt : S pos < Decoder.end_ data).
  { apply nth_error_Some. congruence. }
  destruct (Nat.leb_spec (Decoder.end_ data) pos); [lia|].
  unfold Decoder.index. rewrite Hm.
  change (Ascii.eqb "-" QUOTE) with false. change (is_digit "-") with false.
  change (Ascii.eqb "-" "-") with true. cbv iota.
  destruct (Nat.leb_spec (Decoder.end_ data) (S pos)); [lia|].
  rewrite Hc, sign_guard_never_holds. reflexivity.
Qed.

Section Numbers.
Context {L : GoLib}.
Variable data : list byte.



(** After a scan that set [isFloat], the result of [number] is that of the
    float parser on the scanned text; otherwise it is the accumulated [n]. *)
Lemma number_of_scan pos n isFloat p :
  Decoder.number_scan data pos = Ok (n, isFloat) p ->
  Decoder.number data pos =
  if isFloat then
    match ParseFloat (string_of_list_ascii (firstn (p - pos) (skipn pos data))) with
    | inl f => Ok f p
    | inr msg => Err (SyntaxError msg (Z.of_nat p)) p
    end
  else Ok n p.
Proof.
  intros Hs. unfold Decoder.number. rewrite Hs. cbn [fst snd].
  destruct isFloat; [|reflexivity].
  assert (Hlt : pos < Decoder.end_ data).
  { unfold Decoder.number_scan in Hs.
    destruct (Decoder.index data pos pos) eqn:E; try discriminate.
    apply index_inv in E. tauto. }
  destruct (number_scan_bounded data pos Hlt) as [Hb _].
  rewrite Hs in Hb. simpl in Hb.
  rewrite slice_ok by lia. reflexivity.
Qed.


End Numbers.



(** * Facts about the encoder *)

(** ** 64-bit integers and the safe range *)

(** C8.  encodeInt64 writes [int64(d)] with [d] the decimal text of the
    value, and puts [d] between double quotes exactly when the value is
    above 2^53-1 = 9007199254740991 or below -(2^53-1); encodeUInt64 does
    the same for [uint64(d)] exactly when the value is above 2^53-1.  At the
    bounds: 2^53-1 and -(2^53-1) are written without quotes, 2^53 and -(2^53)
    with quotes, as are the largest int64 and uint64. *)
Theorem int64_quoted_outside_safe_range :
  forall (L : GoLib) (v : Z),
    Marshal (VInteger KInt64 v) = EOk (Encoder.encodeInt64 v) /\
    Marshal (VInteger KUint64 v) = EOk (Encoder.encodeUInt64 v) /\
    ((-9007199254740991 <= v <= 9007199254740991)%Z ->
     Encoder.encodeInt64 v =
       (bytes_of "int64(" ++ bytes_of (strconv.FormatInt v) ++ bytes_of ")")%list) /\
    ((v > 9007199254740991 \/ v < -9007199254740991)%Z ->
     Encoder.encodeInt64 v =
       (bytes_of "int64(" ++ QUOTE :: bytes_of (strconv.FormatInt v) ++
        QUOTE :: bytes_of ")")%list) /\
    ((v <= 9007199254740991)%Z ->
     Encoder.encodeUInt64 v =
       (bytes_of "uint64(" ++ bytes_of (strconv.FormatUint v) ++ bytes_of ")")%list) /\
    ((v > 9007199254740991)%Z ->
     Encoder.encodeUInt64 v =
       (bytes_of "uint64(" ++ QUOTE :: bytes_of (strconv.FormatUint v) ++
        QUOTE :: bytes_of ")")%list) /\
    Encoder.encodeInt64 9007199254740991 = bytes_of "int64(9007199254740991)" /\
    Encoder.encodeInt64 (-9007199254740991) = bytes_of "int64(-9007199254740991)" /\
    Encoder.encodeInt64 9007199254740992 =
      (bytes_of "int64(" ++ quoted_text "9007199254740992" ++ QUOTE :: bytes_of ")")%list /\
    Encoder.encodeInt64 (-9007199254740992) =
      (bytes_of "int64(" ++ quoted_text "-9007199254740992" ++ QUOTE :: bytes_of ")")%list /\
    Encoder.encodeInt64 9223372036854775807 =
      (bytes_of "int64(" ++ quoted_text "9223372036854775807" ++ QUOTE :: bytes_of ")")%list /\
    Encoder.encodeUInt64 9007199254740991 = bytes_of "uint64(9007199254740991)" /\
    Encoder.encodeUInt64 18446744073709551615 =
      (bytes_of "uint64(" ++ quoted_text "18446744073709551615" ++ QUOTE :: bytes_of ")")%list.
Proof.
  intros L v.
  assert (Hmax : MAX_SAFE_INTEGER = 9007199254740991%Z) by reflexivity.
  assert (Hmin : MIN_SAFE_INTEGER = (-9007199254740991)%Z) by reflexivity.
  repeat split.
  - intros H. unfold Encoder.encodeInt64. rewrite Hmax, Hmin.
    destruct (Z.gtb_spec v 9007199254740991); [lia|].
    destruct (Z.ltb_spec v (-9007199254740991)); [lia|]. reflexivity.
  - intros H. unfold Encoder.encodeInt64. rewrite Hmax, Hmin.
    destruct (Z.gtb_spec v 9007199254740991);
      destruct (Z.ltb_spec v (-9007199254740991)); try lia; reflexivity.
  - intros H. unfold Encoder.encodeUInt64. rewrite Hmax.
    destruct (Z.gtb_spec v 9007199254740991); [lia|]. reflexivity.
  - intros H. unfold Encoder.encodeUInt64. rewrite Hmax.
    destruct (Z.gtb_spec v 9007199254740991); [|lia]. reflexivity.
Qed.

(** [int64_quoted_outside_safe_range] at 2^53 and at 5. *)
Lemma int64_quoted_outside_safe_range_witness :
  Encoder.encodeInt64 9007199254740992 =
    (bytes_of "int64(" ++ QUOTE :: bytes_of (strconv.FormatInt 9007199254740992) ++
     QUOTE :: bytes_of ")")%list /\
  Encoder.encodeUInt64 5 =
    (bytes_of "uint64(" ++ bytes_of (strconv.FormatUint 5) ++ bytes_of ")")%list.
Proof.
  destruct (int64_quoted_outside_safe_range GoRef.lib 9007199254740992)
    as (_ & _ & _ & H & _).
  destruct (int64_quoted_outside_safe_range GoRef.lib 5)
    as (_ & _ & _ & _ & H' & _).
  split; [apply H; lia|apply H'; lia].
Defined.

(** ** Keys *)

Definition is_letter (c : byte) : bool := is_lower c || is_upper c.

(** The keys that the encoder writes without quotes: a letter, then letters
    and digits. *)
Definition plain_key (key : gostring) : Prop :=
  exists c rest, key = String c rest /\ is_letter c = true /\
    Forall (fun c => is_letter c = true \/ is_digit c = true) (list_ascii_of_string rest).

(** The bareword grammar as the specification words it,
    [[A-Za-z_][A-Za-z0-9_]*]: the grammar of the decoder's [atom]. *)
Definition bareword (key : gostring) : Prop :=
  exists c rest, key = String c rest /\
    (is_letter c = true \/ c = "_"%char) /\
    Forall (fun c => is_letter c = true \/ is_digit c = true \/ c = "_"%char)
           (list_ascii_of_string rest).

Lemma key_rest_spec rest :
  Encoder.key_rest rest = true <->
  Forall (fun c => is_letter c = true \/ is_digit c = true) (list_ascii_of_string rest).
Proof.
  induction rest as [|c rest IH]; simpl.
  - split; auto.
  - rewrite andb_true_iff, IH. unfold is_letter. split.
    + intros [Hc Hr]. constructor; auto.
      apply orb_true_iff in Hc. destruct Hc; auto.
    + intros H. inversion H as [|? ? Hc Hr]; subst. split; auto.
      apply orb_true_iff. destruct Hc; auto.
Qed.

Lemma plain_key_bareword key : plain_key key -> bareword key.
Proof.
  intros (c & rest & -> & Hc & Hr). exists c, rest. repeat split; auto.
  eapply Forall_impl; [|exact Hr]. simpl. tauto.
Qed.

Lemma plain_key_no_quote key : plain_key key -> ~ In QUOTE (bytes_of key).
Proof.
  intros (c & rest & -> & Hc & Hr) [->|Hin]; [discriminate|].
  rewrite Forall_forall in Hr. destruct (Hr QUOTE Hin); discriminate.
Qed.

Lemma plain_key_dec key :
  plain_key key \/
  (~ plain_key key /\ Encoder.encodeKey key = Encoder.encodeString key).
Proof.
  destruct key as [|c rest]; simpl.
  - right. split; [|reflexivity]. intros (c & r & H & _). discriminate.
  - fold (is_letter c). destruct (is_letter c) eqn:Hc; simpl.
    + destruct (Encoder.key_rest rest) eqn:Hr.
      * left. exists c, rest. repeat split; auto. now apply key_rest_spec.
      * right. split; [|reflexivity].
        intros (c' & r' & [= <- <-] & _ & Hall).
        apply key_rest_spec in Hall. congruence.
    + right. split; [|reflexivity].
      intros (c' & r' & [= <- <-] & Hc' & _). congruence.
Qed.

Lemma encodeKey_plain key : plain_key key -> Encoder.encodeKey key = bytes_of key.
Proof.
  intros (c & rest & -> & Hc & Hr). simpl. fold (is_letter c). rewrite Hc.
  apply key_rest_spec in Hr. rewrite Hr. reflexivity.
Qed.

(** C4, as amended.  encodeKey writes the key as it is, with no quote in
    it, if and only if the key is a letter followed by letters and digits;
    otherwise, and only then, it writes the key as a quoted, escaped string,
    between two double quotes.  Every key written without quotes is a
    bareword of the decoder's grammar. *)
Theorem encodeKey_unquoted_iff_plain :
  forall (key : gostring),
    (plain_key key <->
     Encoder.encodeKey key = bytes_of key /\ ~ In QUOTE (Encoder.encodeKey key)) /\
    (~ plain_key key <->
     Encoder.encodeKey key = Encoder.encodeString key /\
     exists body, Encoder.encodeKey key = (QUOTE :: body ++ [QUOTE])%list) /\
    (plain_key key -> bareword key).
Proof.
  intros key. split; [|split].
  - split.
    + intros Hp. rewrite (encodeKey_plain key Hp).
      split; [reflexivity|apply plain_key_no_quote; exact Hp].
    + intros [He Hq]. destruct (plain_key_dec key) as [Hp|[_ Hs]]; [exact Hp|].
      exfalso. apply Hq. rewrite Hs. left. reflexivity.
  - split.
    + intros Hn. destruct (plain_key_dec key) as [Hp|[_ Hs]]; [contradiction|].
      split; [exact Hs|]. rewrite Hs. unfold Encoder.encodeString. eauto.
    + intros [_ (body & Hb)] Hp.
      apply (plain_key_no_quote key Hp).
      rewrite <- (encodeKey_plain key Hp), Hb. left. reflexivity.
  - apply plain_key_bareword.
Qed.

(** [encodeKey_unquoted_iff_plain] at the keys [k01] and [_k]. *)
Lemma encodeKey_unquoted_iff_plain_witness :
  (Encoder.encodeKey "k01" = bytes_of "k01" /\
   ~ In QUOTE (Encoder.encodeKey "k01")) /\
  Encoder.encodeKey "_k" = Encoder.encodeString "_k".
Proof.
  destruct (encodeKey_unquoted_iff_plain "k01") as ([H1 _] & _).
  destruct (encodeKey_unquoted_iff_plain "_k") as (_ & [H2 _] & _).
  split.
  - apply H1. exists "k"%char, "01". repeat split.
    repeat (apply Forall_cons; [right; reflexivity|]). apply Forall_nil.
  - apply H2. intros (c & rest & [= <- <-] & Hc & _). discriminate.
Defined.

(** C4 as stated fails: the keys [_a] and [a_b] are barewords, and the
    encoder writes them between quotes. *)
Lemma encodeKey_underscore_counterexample :
  bareword "_a" /\ bareword "a_b" /\
  Encoder.encodeKey "_a" = (quoted_text "_a" ++ [QUOTE])%list /\
  Encoder.encodeKey "a_b" = (quoted_text "a_b" ++ [QUOTE])%list /\
  Encoder.encodeKey "_a" <> bytes_of "_a" /\
  Encoder.encodeKey "a_b" <> bytes_of "a_b".
Proof.
  split; [|split; [|repeat split; discriminate]].
  - exists "_"%char, "a". repeat split; auto.
    apply Forall_cons; [left; reflexivity|apply Forall_nil].
  - exists "a"%char, "_b". repeat split; auto.
    apply Forall_cons; [right; right; reflexivity|].
    apply Forall_cons; [left; reflexivity|apply Forall_nil].
Qed.

(** ** The order of keys *)

(** *** sort.Strings sorts *)

Definition key_le (a b : gostring) : Prop := String.leb a b = true.

Lemma ascii_compare_spec (a b : byte) :
  Ascii.compare a b = (code a ?= code b)%N.
Proof. reflexivity. Qed.

Lemma key_le_trans a b c : key_le a b -> key_le b c -> key_le a c.
Proof.
  unfold key_le, String.leb.
  revert b c. induction a as [|x a IH]; intros [|y b] [|z c]; simpl; try congruence.
  rewrite !ascii_compare_spec.
  destruct (N.compare_spec (code x) (code y)) as [Hxy|Hxy|Hxy]; try congruence;
  destruct (N.compare_spec (code y) (code z)) as [Hyz|Hyz|Hyz]; try congruence;
  destruct (N.compare_spec (code x) (code z)) as [Hxz|Hxz|Hxz]; try congruence;
  try lia.
  apply IH.
Qed.

Lemma key_le_total a b : key_le a b \/ key_le b a.
Proof. apply String.leb_total. Qed.

Lemma key_le_antisym a b : key_le a b -> key_le b a -> a = b.
Proof. apply String.leb_antisym. Qed.

Lemma insert_perm k l : Permutation (k :: l) (sort.insert k l).
Proof.
  induction l as [|k' l IH]; simpl; [reflexivity|].
  destruct (String.leb k k'); [reflexivity|].
  rewrite perm_swap. now apply perm_skip.
Qed.

Lemma Strings_perm l : Permutation l (sort.Strings l).
Proof.
  induction l as [|k l IH]; simpl; [reflexivity|].
  rewrite <- insert_perm. now apply perm_skip.
Qed.

Lemma insert_sorted k l :
  StronglySorted key_le l -> StronglySorted key_le (sort.insert k l).
Proof.
  induction 1 as [|k' l Hs IH Hall]; simpl.
  - repeat constructor.
  - destruct (String.leb k k') eqn:E.
    + constructor; [constructor; auto|].
      constructor; [exact E|].
      eapply Forall_impl; [|exact Hall]. intros c Hc.
      eapply key_le_trans; [exact E|exact Hc].
    + constructor; [exact IH|].
      assert (Hk : key_le k' k).
      { destruct (key_le_total k k') as [H|H]; [unfold key_le in H; congruence|exact H]. }
      eapply Permutation_Forall; [apply insert_perm|].
      constructor; auto.
Qed.

Lemma Strings_sorted l : StronglySorted key_le (sort.Strings l).
Proof.
  induction l as [|k l IH]; simpl; [constructor|]. now apply insert_sorted.
Qed.

(** Two sorted lists with the same elements are the same list. *)
Lemma sorted_perm_unique l1 l2 :
  StronglySorted key_le l1 -> StronglySorted key_le l2 ->
  Permutation l1 l2 -> l1 = l2.
Proof.
  intros H1. revert l2. induction H1 as [|a l1 Hs1 IH Ha]; intros l2 H2 Hp.
  - apply Permutation_nil in Hp. now subst.
  - destruct H2 as [|b l2 Hs2 Hb].
    + apply Permutation_sym, Permutation_nil in Hp. discriminate.
    + assert (a = b).
      { apply key_le_antisym.
        - assert (Hin : In b (a :: l1)).
          { eapply Permutation_in; [apply Permutation_sym; exact Hp|now left]. }
          destruct Hin as [->|Hin].
          + destruct (key_le_total b b); auto.
          + rewrite Forall_forall in Ha. auto.
        - assert (Hin : In a (b :: l2)).
          { eapply Permutation_in; [exact Hp|now left]. }
          destruct Hin as [->|Hin].
          + destruct (key_le_total a a); auto.
          + rewrite Forall_forall in Hb. auto. }
      subst b. f_equal. apply IH; auto.
      eapply Permutation_cons_inv; exact Hp.
Qed.

Lemma Strings_of_perm l1 l2 :
  Permutation l1 l2 -> sort.Strings l1 = sort.Strings l2.
Proof.
  intros Hp. apply sorted_perm_unique; try apply Strings_sorted.
  rewrite <- !Strings_perm. exact Hp.
Qed.

Lemma Strings_of_sorted l : StronglySorted key_le l -> sort.Strings l = l.
Proof.
  intros H. apply sorted_perm_unique; auto using Strings_sorted.
  symmetry. apply Strings_perm.
Qed.

(** *** Values up to the order of keys *)

Section Canonical.
Context {L : GoLib}.

(** Induction on values, with the hypothesis for every element of an array
    and every entry of a map. *)
Lemma value_ind' (P : value -> Prop) :
  P VNil -> (forall b, P (VBool b)) -> (forall f, P (VFloat64 f)) ->
  (forall s, P (VString s)) ->
  (forall a, Forall P a -> P (VArray a)) ->
  (forall m, Forall (fun kv => P (snd kv)) m -> P (VMap m)) ->
  (forall k n, P (VInteger k n)) -> (forall t, P (VTime t)) ->
  (forall ip, P (VIP ip)) -> (forall ip port, P (VTCPAddr ip port)) ->
  (forall b, P (VBytes b)) -> (forall T, P (VUnsupported T)) ->
  forall v, P v.
Proof.
  intros Hnil Hbool Hf Hs Ha Hm Hi Ht Hip Htcp Hb Hu.
  fix IH 1. intros [ | b | f | s | a | m | k n | t | ip | ip port | b | T].
  - exact Hnil.
  - apply Hbool.
  - apply Hf.
  - apply Hs.
  - apply Ha. induction a as [|v a IHa]; constructor; [apply IH|exact IHa].
  - apply Hm. induction m as [|[k v] m IHm]; constructor; [apply IH|exact IHm].
  - apply Hi.
  - apply Ht.
  - apply Hip.
  - apply Htcp.
  - apply Hb.
  - apply Hu.
Qed.

(** The entries of a map in the order of their keys, each value in
    canonical form itself.  This is the order in which the encoder writes a
    map and in which the decoder, reading that text, fills the map again. *)
Fixpoint canon (v : value) : value :=
  match v with
  | VArray a => VArray (map canon a)
  | VMap m =>
      let m' := (fix entries (m : list (gostring * value)) :=
                   match m with
                   | [] => []
                   | (k, v) :: m' => (k, canon v) :: entries m'
                   end) m in
      VMap (map (fun k => (k, map_get m' k)) (sort.Strings (map fst m)))
  | _ => v
  end.

Definition canon_entries (m : list (gostring * value)) : list (gostring * value) :=
  map (fun kv => (fst kv, canon (snd kv))) m.

Lemma canon_VMap m :
  canon (VMap m) =
  VMap (map (fun k => (k, map_get (canon_entries m) k)) (sort.Strings (map fst m))).
Proof.
  simpl. f_equal.
  assert (H : (fix entries (m : list (gostring * value)) :=
                 match m with
                 | [] => []
                 | (k, v) :: m' => (k, canon v) :: entries m'
                 end) m = canon_entries m).
  { induction m as [|[k v] m IH]; simpl; [reflexivity|]. now rewrite IH. }
  now rewrite H.
Qed.

Lemma map_get_canon_entries m k :
  In k (map fst m) -> map_get (canon_entries m) k = canon (map_get m k).
Proof.
  induction m as [|[k' v] m IH]; simpl; [tauto|].
  intros [->|Hin].
  - now rewrite String.eqb_refl.
  - destruct (String.eqb k' k); auto.
Qed.

Lemma map_get_In m k : In k (map fst m) -> In (k, map_get m k) m.
Proof.
  induction m as [|[k' v] m IH]; simpl; [tauto|].
  destruct (String.eqb_spec k' k) as [->|Hne]; [now left|].
  intros [H|H]; [congruence|right; auto].
Qed.

(** [map_get] on a list of entries computed from their keys. *)
Lemma map_get_tabulate (f : gostring -> value) ks k :
  In k ks -> map_get (map (fun k => (k, f k)) ks) k = f k.
Proof.
  induction ks as [|k' ks IH]; simpl; [tauto|].
  destruct (String.eqb_spec k' k) as [->|Hne]; [reflexivity|].
  intros [H|H]; [congruence|auto].
Qed.

(** For distinct keys, [m[k]] does not depend on the order of the
    entries. *)
Lemma map_get_perm m m' k :
  NoDup (map fst m) -> Permutation m m' -> map_get m k = map_get m' k.
Proof.
  intros Hnd Hp. induction Hp as [|[k1 v1] m m' Hp IH|[k1 v1] [k2 v2] m|m1 m2 m3 H12 IH12 H23 IH23].
  - reflexivity.
  - simpl. inversion Hnd; subst. destruct (String.eqb k1 k); auto.
  - simpl. inversion Hnd as [|? ? Hnin _]; subst.
    destruct (String.eqb_spec k1 k) as [->|]; destruct (String.eqb_spec k2 k) as [->|];
      auto.
    exfalso. apply Hnin. now left.
  - rewrite IH12 by exact Hnd. apply IH23.
    eapply Permutation_NoDup; [|exact Hnd]. now apply Permutation_map.
Qed.

End Canonical.

Section KeyOrder.
Context {L : GoLib}.
Variable e : Encoder.config.

(** The value of a key is encoded where [encodeMap] needs it: the inner
    function of [encodeValue] is [m[k]] followed by [encodeValue]. *)
Lemma encodeValue_VMap level m :
  Encoder.encodeValue e level (VMap m) =
  Encoder.bracketed e level "{" "}"
    (map (fun k => Encoder.pair e k (Encoder.encodeValue e (S level) (map_get m k)))
         (sort.Strings (map fst m))).
Proof.
  cbn [Encoder.encodeValue]. unfold Encoder.encodeMap_with. f_equal.
  apply map_ext. intros k. f_equal.
  induction m as [|[k' v] m IH]; simpl; [reflexivity|].
  destruct (String.eqb k' k); auto.
Qed.

Lemma encodeValue_VArray level a :
  Encoder.encodeValue e level (VArray a) =
  Encoder.bracketed e level "[" "]" (map (Encoder.encodeValue e (S level)) a).
Proof. reflexivity. Qed.

(** A value and its canonical form have the same encoding. *)
Lemma encodeValue_canon v :
  forall level, Encoder.encodeValue e level (canon v) = Encoder.encodeValue e level v.
Proof.
  induction v as [ | | | | a IH | m IH | | | | | | ] using value_ind';
    intros level; try reflexivity.
  - cbn [canon]. rewrite !encodeValue_VArray, map_map. f_equal.
    apply map_ext_Forall. eapply Forall_impl; [|exact IH]. auto.
  - rewrite canon_VMap, !encodeValue_VMap.
    rewrite map_map. cbn [fst].
    rewrite map_id, (Strings_of_sorted _ (Strings_sorted _)).
    f_equal. apply map_ext_in. intros k Hk. f_equal.
    assert (Hin : In k (map fst m)).
    { eapply Permutation_in; [apply Permutation_sym, Strings_perm|exact Hk]. }
    rewrite (map_get_tabulate (map_get (canon_entries m))) by exact Hk.
    rewrite map_get_canon_entries by exact Hin.
    rewrite Forall_forall in IH.
    apply (IH (k, map_get m k)). now apply map_get_In.
Qed.

Lemma encodeMap_perm level m m' :
  NoDup (map fst m) -> Permutation m m' ->
  Encoder.encodeMap e level m' = Encoder.encodeMap e level m.
Proof.
  intros Hnd Hp. unfold Encoder.encodeMap. rewrite !encodeValue_VMap.
  rewrite (Strings_of_perm (map fst m') (map fst m))
    by (apply Permutation_map, Permutation_sym, Hp).
  f_equal. apply map_ext. intros k.
  now rewrite (map_get_perm m m' k Hnd Hp).
Qed.

End KeyOrder.

(** C9.  encodeMap writes one [key:value] pair for each key of the map, in
    the order that sort.Strings gives the keys, which is their increasing
    order; the order in which [range] visits the map (the order of the
    entries in the model) has no effect: two maps with the same entries in
    any two orders have the same encoding, and so have, at any depth, two
    values with the same canonical form.  This holds in the compact and in
    the pretty mode. *)
Theorem encodeMap_sorted_keys :
  forall (L : GoLib) (e : Encoder.config) (level : nat) (m : list (gostring * value)),
    Encoder.encodeMap e level m =
      Encoder.bracketed e level "{" "}"
        (map (fun k => Encoder.pair e k (Encoder.encodeValue e (S level) (map_get m k)))
             (sort.Strings (map fst m))) /\
    StronglySorted key_le (sort.Strings (map fst m)) /\
    Permutation (map fst m) (sort.Strings (map fst m)) /\
    (forall m', NoDup (map fst m) -> Permutation m m' ->
                Encoder.encodeMap e level m' = Encoder.encodeMap e level m) /\
    (forall v v', canon v = canon v' ->
                  Encoder.encodeValue e level v = Encoder.encodeValue e level v').
Proof.
  intros L e level m. repeat split.
  - apply encodeValue_VMap.
  - apply Strings_sorted.
  - apply Strings_perm.
  - intros m'. apply encodeMap_perm.
  - intros v v' H. rewrite <- (encodeValue_canon e v), H. apply encodeValue_canon.
Qed.

(** [encodeMap_sorted_keys] at a map of three keys and one of its
    rearrangements. *)
Lemma encodeMap_sorted_keys_witness :
  Encoder.encodeMap (L := GoRef.lib)
    {| Encoder.pretty := false; Encoder.prefix := ""; Encoder.indent := "" |} 0
    [("b", VNil); ("c", VBool true); ("a", VInteger KInt 1)] =
  Encoder.encodeMap (L := GoRef.lib)
    {| Encoder.pretty := false; Encoder.prefix := ""; Encoder.indent := "" |} 0
    [("c", VBool true); ("a", VInteger KInt 1); ("b", VNil)] /\
  Encoder.encodeMap (L := GoRef.lib)
    {| Encoder.pretty := false; Encoder.prefix := ""; Encoder.indent := "" |} 0
    [("c", VBool true); ("a", VInteger KInt 1); ("b", VNil)] =
  EOk (bytes_of "{a:int(1),b:null,c:true}").
Proof.
  split; [|reflexivity].
  destruct (encodeMap_sorted_keys GoRef.lib
              {| Encoder.pretty := false; Encoder.prefix := ""; Encoder.indent := "" |} 0
              [("c", VBool true); ("a", VInteger KInt 1); ("b", VNil)])
    as (_ & _ & _ & H & _).
  apply H.
  - repeat constructor; simpl; intuition discriminate.
  - apply (perm_trans (l' := [("c", VBool true); ("b", VNil); ("a", VInteger KInt 1)])).
    + apply perm_skip, perm_swap.
    + apply perm_swap.
Defined.

(** * Reading back what the encoder writes *)

(** ** The lexical grammars on a known text *)

(** The bytes after a scalar or a key in the output of the encoder: the end
    of the output, or a byte [c] of the syntax, a comma, a bracket or a
    colon. *)
Definition delimiter (c : byte) : bool :=
  Ascii.eqb c "," || Ascii.eqb c "]" || Ascii.eqb c "}" || Ascii.eqb c ":"
  || Ascii.eqb c ")".

Definition stops (post : list byte) : Prop :=
  match post with
  | [] => True
  | c :: _ => delimiter c = true
  end.

Lemma delimiter_cases c :
  delimiter c = true ->
  c = ","%char \/ c = "]"%char \/ c = "}"%char \/ c = ":"%char \/ c = ")"%char.
Proof.
  unfold delimiter. rewrite !orb_true_iff, !Ascii.eqb_eq. tauto.
Qed.

Ltac delimiter_facts H :=
  destruct (delimiter_cases _ H) as [->|[->|[->|[->| ->]]]]; reflexivity.

Lemma delimiter_not_atom_char c : delimiter c = true -> Decoder.is_atom_char c = false.
Proof. intros H. delimiter_facts H. Qed.

Lemma delimiter_not_digit c : delimiter c = true -> is_digit c = false.
Proof. intros H. delimiter_facts H. Qed.


Section Context.
Context {L : GoLib}.
Local Open Scope list_scope.

Lemma end_app (pre rest : list byte) :
  Decoder.end_ (pre ++ rest) = length pre + length rest.
Proof. unfold Decoder.end_. apply length_app. Qed.

Lemma nth_error_here (pre : list byte) c post :
  nth_error (pre ++ c :: post) (length pre) = Some c.
Proof. rewrite nth_error_app2 by lia. now rewrite Nat.sub_diag. Qed.

Lemma index_here (pre : list byte) c post pos :
  Decoder.index (pre ++ c :: post) (length pre) pos = Ok c pos.
Proof. unfold Decoder.index. now rewrite nth_error_here. Qed.

Lemma snoc_app (pre : list byte) c rest : pre ++ c :: rest = (pre ++ [c]) ++ rest.
Proof. now rewrite <- app_assoc. Qed.

Lemma length_snoc (pre : list byte) c : length (pre ++ [c]) = S (length pre).
Proof. rewrite length_app. simpl. lia. Qed.

(** [d.data[a:b]] where the text [txt] lies from [a] to [b]. *)
Lemma slice_here (pre txt post : list byte) pos :
  Decoder.slice (pre ++ txt ++ post) (length pre) (length pre + length txt) pos =
  Ok txt pos.
Proof.
  unfold Decoder.slice. rewrite !length_app.
  destruct (Nat.leb_spec (length pre) (length pre + length txt)); [|lia].
  destruct (Nat.leb_spec (length pre + length txt)
              (length pre + (length txt + length post))); [|lia].
  simpl. f_equal.
  rewrite skipn_app, skipn_all, Nat.sub_diag. simpl.
  replace (length pre + length txt - length pre) with (length txt) by lia.
  rewrite firstn_app, firstn_all, Nat.sub_diag. simpl. apply app_nil_r.
Qed.

Lemma skipSpaces_here (pre : list byte) c post :
  Decoder.is_space c = false ->
  Decoder.skipSpaces (pre ++ c :: post) (length pre) = Ok c (length pre).
Proof.
  intros Hc. unfold Decoder.skipSpaces.
  generalize (Decoder.end_ (pre ++ c :: post) - length pre). intros fuel.
  assert (Hne : (length pre =? Decoder.end_ (pre ++ c :: post)) = false).
  { apply Nat.eqb_neq. rewrite end_app. simpl. lia. }
  destruct fuel; simpl; rewrite Hne, index_here, Hc; reflexivity.
Qed.

Lemma skipSpaces_at_end (data : list byte) :
  Decoder.skipSpaces data (length data) = Ok NUL (length data).
Proof.
  unfold Decoder.skipSpaces, Decoder.end_. rewrite Nat.sub_diag. simpl.
  unfold Decoder.end_. now rewrite Nat.eqb_refl.
Qed.

(** *** Barewords *)

(** What ends a bareword: the end of the input or a byte that no bareword
    contains. *)
Definition ends_atom (post : list byte) : Prop :=
  match post with
  | [] => True
  | c :: _ => Decoder.is_atom_char c = false
  end.


Lemma atom_loop_here (w : list byte) :
  forall pre post fuel,
    Forall (fun c => Decoder.is_atom_char c = true) w ->
    ends_atom post -> length w <= fuel ->
    Decoder.atom_loop (pre ++ w ++ post) fuel (length pre) = Ok tt (length pre + length w).
Proof.
  induction w as [|x w IH]; intros pre post fuel Hw Hpost Hfuel.
  - simpl app. rewrite Nat.add_0_r.
    destruct post as [|c post].
    + rewrite app_nil_r.
      destruct fuel; simpl; unfold Decoder.end_; rewrite Nat.ltb_irrefl; reflexivity.
    + simpl in Hpost.
      assert (Hlt : (length pre <? Decoder.end_ (pre ++ c :: post)) = true).
      { apply Nat.ltb_lt. rewrite end_app. simpl. lia. }
      destruct fuel; simpl; rewrite Hlt, index_here, Hpost; reflexivity.
  - inversion Hw as [|? ? Hx Hw']; subst. simpl in Hfuel.
    destruct fuel as [|fuel]; [lia|]. simpl app.
    assert (Hlt : (length pre <? Decoder.end_ (pre ++ x :: w ++ post)) = true).
    { apply Nat.ltb_lt. rewrite end_app. simpl. lia. }
    cbn [Decoder.atom_loop]. rewrite Hlt, index_here, Hx.
    rewrite snoc_app, <- length_snoc with (c := x).
    rewrite IH by (auto; lia). f_equal. rewrite length_snoc. simpl. lia.
Qed.

(** [atom] reads a bareword that is followed by the end of the input or by
    a byte that is not of a bareword. *)
Lemma atom_here (pre : list byte) c (w post : list byte) :
  Decoder.is_atom_start c = true ->
  Forall (fun c => Decoder.is_atom_char c = true) w ->
  ends_atom post ->
  Decoder.atom (pre ++ c :: w ++ post) (length pre) =
  Ok (String c (string_of_list_ascii w)) (length pre + S (length w)).
Proof.
  intros Hc Hw Hpost. unfold Decoder.atom.
  assert (Hlt : (length pre <? Decoder.end_ (pre ++ c :: w ++ post)) = true).
  { apply Nat.ltb_lt. rewrite end_app. simpl. lia. }
  rewrite Hlt, index_here, Hc.
  rewrite snoc_app, <- length_snoc with (c := c).
  rewrite atom_loop_here; auto.
  2:{ rewrite end_app, !length_app. simpl. lia. }
  rewrite <- snoc_app.
  change (pre ++ c :: w ++ post) with (pre ++ (c :: w) ++ post).
  replace (length (pre ++ [c]) + length w) with (length pre + length (c :: w))
    by (rewrite length_snoc; simpl; lia).
  rewrite slice_here. simpl. reflexivity.
Qed.

(** *** The text between brackets *)

Lemma bracket_raw_here (txt : list byte) :
  forall pre0 pre post fuel,
    Forall (fun c => Ascii.eqb c ")" = false) txt ->
    length txt <= fuel ->
    Decoder.bracket_raw (pre0 ++ pre ++ txt ++ ")"%char :: post) fuel (length pre0)
                        (length pre0 + length pre) =
    Ok (string_of_list_ascii (pre ++ txt)) (length pre0 + length pre + S (length txt)).
Proof.
  induction txt as [|x txt IH]; intros pre0 pre post fuel Htxt Hfuel.
  - simpl app.
    assert (Hlt : (length pre0 + length pre <?
                  Decoder.end_ (pre0 ++ pre ++ ")"%char :: post)) = true).
    { apply Nat.ltb_lt. rewrite end_app, length_app. simpl. lia. }
    assert (Hidx : forall p, Decoder.index (pre0 ++ pre ++ ")"%char :: post)
                     (length pre0 + length pre) p = Ok ")"%char p).
    { intros p. rewrite app_assoc, <- length_app. apply index_here. }
    assert (Hsl : Decoder.slice (pre0 ++ pre ++ ")"%char :: post) (length pre0)
                    (length pre0 + length pre) (length pre0 + length pre) =
                  Ok pre (length pre0 + length pre)).
    { apply (slice_here pre0 pre (")"%char :: post)). }
    destruct fuel; cbn [Decoder.bracket_raw]; rewrite Hlt, Hidx; simpl Ascii.eqb;
      cbv iota; rewrite Hsl, app_nil_r; f_equal; simpl; lia.
  - inversion Htxt as [|? ? Hx Htxt']; subst. simpl in Hfuel.
    destruct fuel as [|fuel]; [lia|]. simpl app.
    assert (Hlt : (length pre0 + length pre <?
                  Decoder.end_ (pre0 ++ pre ++ x :: txt ++ ")"%char :: post)) = true).
    { apply Nat.ltb_lt. rewrite end_app, length_app. simpl. lia. }
    assert (Hidx : forall p, Decoder.index (pre0 ++ pre ++ x :: txt ++ ")"%char :: post)
                     (length pre0 + length pre) p = Ok x p).
    { intros p. rewrite app_assoc, <- length_app. apply index_here. }
    cbn [Decoder.bracket_raw]. rewrite Hlt, Hidx, Hx.
    rewrite (snoc_app pre x).
    replace (S (length pre0 + length pre)) with (length pre0 + length (pre ++ [x]))
      by (rewrite length_snoc; lia).
    rewrite IH by (auto; lia). rewrite <- app_assoc. simpl.
    f_equal. rewrite length_snoc. lia.
Qed.

(** *** Strings without escapes *)

(** A byte that [string] takes as it is and that does not set [unquote]:
    printable ASCII other than the quote and the backslash. *)
Definition plain_byte (c : byte) : bool :=
  negb (Ascii.eqb c QUOTE) && negb (Ascii.eqb c BACKSLASH)
  && (32 <=? code c)%N && (code c <=? 127)%N.

Lemma plain_byte_scan c :
  plain_byte c = true ->
  Ascii.eqb c QUOTE = false /\ Ascii.eqb c BACKSLASH = false /\
  (code c <? 32)%N = false /\ (127 <? code c)%N = false.
Proof.
  unfold plain_byte. rewrite !andb_true_iff, !negb_true_iff.
  intros [[[H1 H2] H3] H4]. repeat split; auto.
  - apply N.ltb_ge. now apply N.leb_le.
  - apply N.ltb_ge. now apply N.leb_le.
Qed.

Lemma string_scan_here (s : list byte) :
  forall pre0 pre post fuel,
    Forall (fun c => plain_byte c = true) s ->
    length s <= fuel ->
    Decoder.string_scan (pre0 ++ pre ++ s ++ QUOTE :: post) fuel false (length pre0)
                        (length pre0 + length pre) =
    Ok (string_of_list_ascii (pre ++ s)) (length pre0 + length pre + S (length s)).
Proof.
  induction s as [|x s IH]; intros pre0 pre post fuel Hs Hfuel.
  - simpl app.
    assert (Hlt : (Decoder.end_ (pre0 ++ pre ++ QUOTE :: post) <=?
                  length pre0 + length pre) = false).
    { apply Nat.leb_gt. rewrite end_app, length_app. simpl. lia. }
    assert (Hidx : forall p, Decoder.index (pre0 ++ pre ++ QUOTE :: post)
                     (length pre0 + length pre) p = Ok QUOTE p).
    { intros p. rewrite app_assoc, <- length_app. apply index_here. }
    assert (Hsl : Decoder.slice (pre0 ++ pre ++ QUOTE :: post) (length pre0)
                    (length pre0 + length pre) (length pre0 + length pre) =
                  Ok pre (length pre0 + length pre)).
    { apply (slice_here pre0 pre (QUOTE :: post)). }
    destruct fuel; cbn [Decoder.string_scan]; rewrite Hlt, Hidx;
      change (Ascii.eqb QUOTE QUOTE) with true; cbv iota;
      rewrite Hsl, app_nil_r; f_equal; simpl; lia.
  - inversion Hs as [|? ? Hx Hs']; subst. simpl in Hfuel.
    destruct fuel as [|fuel]; [lia|]. simpl app.
    assert (Hlt : (Decoder.end_ (pre0 ++ pre ++ x :: s ++ QUOTE :: post) <=?
                  length pre0 + length pre) = false).
    { apply Nat.leb_gt. rewrite end_app, length_app. simpl. lia. }
    assert (Hidx : forall p, Decoder.index (pre0 ++ pre ++ x :: s ++ QUOTE :: post)
                     (length pre0 + length pre) p = Ok x p).
    { intros p. rewrite app_assoc, <- length_app. apply index_here. }
    destruct (plain_byte_scan x Hx) as (H1 & H2 & H3 & H4).
    cbn [Decoder.string_scan]. rewrite Hlt, Hidx, H1, H2, H3, H4. cbn [orb].
    rewrite (snoc_app pre x).
    replace (S (length pre0 + length pre)) with (length pre0 + length (pre ++ [x]))
      by (rewrite length_snoc; lia).
    rewrite IH by (auto; lia). rewrite <- app_assoc. simpl.
    f_equal. rewrite length_snoc. lia.
Qed.

(** [string] reads a quoted text of plain bytes. *)
Lemma string_here (pre s post : list byte) :
  Forall (fun c => plain_byte c = true) s ->
  Decoder.string (pre ++ QUOTE :: s ++ QUOTE :: post) (length pre) =
  Ok (string_of_list_ascii s) (length pre + S (S (length s))).
Proof.
  intros Hs. unfold Decoder.string.
  set (fuel := Decoder.end_ _ - S (length pre)).
  assert (Hf : length s <= fuel).
  { subst fuel. rewrite end_app. simpl. rewrite length_app. simpl. lia. }
  pose proof (string_scan_here s (pre ++ [QUOTE]) [] post fuel Hs Hf) as H.
  simpl in H. rewrite <- snoc_app, length_snoc, Nat.add_0_r in H.
  rewrite H. f_equal. lia.
Qed.

End Context.

(** ** Integers: parsing reads back formatting *)

Module strconv_facts.
Import strconv.

Lemma digit_char (d : Z) :
  (0 <= d < 10)%Z ->
  is_digit (ascii_of_N (code "0" + Z.to_N d)) = true /\
  Z.of_N (code (ascii_of_N (code "0" + Z.to_N d)) - code "0") = d.
Proof.
  intros Hd. unfold code at 2 3. unfold is_digit, inrange, code.
  rewrite N_ascii_embedding.
  2:{ change (N_of_ascii "0") with 48%N. lia. }
  change (N_of_ascii "0") with 48%N. change (N_of_ascii "9") with 57%N.
  split.
  - apply andb_true_iff. split; apply N.leb_le; lia.
  - lia.
Qed.

Lemma is_digit_not_sign c :
  is_digit c = true -> Ascii.eqb c "+" = false /\ Ascii.eqb c "-" = false.
Proof.
  intros H. split.
  - destruct (Ascii.eqb_spec c "+"); [subst; discriminate|reflexivity].
  - destruct (Ascii.eqb_spec c "-"); [subst; discriminate|reflexivity].
Qed.

Lemma digits_fuel_S fuel n acc :
  digits_fuel (S fuel) n acc =
  if (n <? 10)%Z
  then String (ascii_of_N (code "0" + Z.to_N (n mod 10))) acc
  else digits_fuel fuel (n / 10)
         (String (ascii_of_N (code "0" + Z.to_N (n mod 10))) acc).
Proof. reflexivity. Qed.

(** The digits that [digits_fuel] writes in front of [acc] are read by the
    loop of ParseUint, started at 0, as the number they denote. *)
Lemma uint_loop_digits (M : Z) :
  (0 <= M < 2 ^ 64)%Z ->
  forall fuel n acc,
    (0 <= n < 10 ^ Z.of_nat (S fuel))%Z ->
    uint_loop M (digits_fuel (S fuel) n acc) 0 =
    if (n <=? M)%Z then uint_loop M acc n else inr ErrRange.
Proof.
  intros HM.
  assert (Hstep : forall x d acc, (0 <= x)%Z -> (0 <= d < 10)%Z ->
    (if (x <=? M)%Z
     then uint_loop M (String (ascii_of_N (code "0" + Z.to_N d)) acc) x
     else inr ErrRange) =
    if (x * 10 + d <=? M)%Z then uint_loop M acc (x * 10 + d) else inr ErrRange).
  { intros x d acc Hx Hd. cbn [uint_loop].
    destruct (digit_char d Hd) as [Hdig Hval]. rewrite Hdig, Hval.
    assert (Hcut : ((2 ^ 64 - 1) / 10 + 1 = 1844674407370955162)%Z) by reflexivity.
    rewrite Hcut.
    destruct (Z.leb_spec x M).
    - destruct (Z.geb_spec x 1844674407370955162).
      + destruct (Z.leb_spec (x * 10 + d) M); [lia|reflexivity].
      + destruct (Z.geb_spec (x * 10 + d) (2 ^ 64)); simpl.
        * destruct (Z.leb_spec (x * 10 + d) M); [lia|reflexivity].
        * destruct (Z.gtb_spec (x * 10 + d) M);
            destruct (Z.leb_spec (x * 10 + d) M); try lia; reflexivity.
    - destruct (Z.leb_spec (x * 10 + d) M); [lia|reflexivity]. }
  induction fuel as [|fuel IH]; intros n acc Hn.
  - rewrite digits_fuel_S. change (10 ^ Z.of_nat 1)%Z with 10%Z in Hn.
    destruct (Z.ltb_spec n 10); [|lia].
    rewrite Z.mod_small by lia.
    specialize (Hstep 0%Z n acc ltac:(lia) ltac:(lia)).
    destruct (Z.leb_spec 0 M); [|lia]. simpl Z.add in Hstep. exact Hstep.
  - rewrite digits_fuel_S.
    destruct (Z.ltb_spec n 10).
    + rewrite Z.mod_small by lia.
      specialize (Hstep 0%Z n acc ltac:(lia) ltac:(lia)).
      destruct (Z.leb_spec 0 M); [|lia]. simpl Z.add in Hstep. exact Hstep.
    + assert (Hq : (0 <= n / 10 < 10 ^ Z.of_nat (S fuel))%Z).
      { split; [apply Z.div_pos; lia|].
        apply Z.div_lt_upper_bound; [lia|].
        replace (Z.of_nat (S (S fuel))) with (Z.of_nat (S fuel) + 1)%Z in Hn by lia.
        rewrite Z.pow_add_r, Z.pow_1_r in Hn by lia. lia. }
      rewrite (IH (n / 10)%Z _ Hq).
      rewrite (Hstep (n / 10)%Z (n mod 10)%Z acc);
        [|lia|apply Z.mod_pos_bound; lia].
      replace (n / 10 * 10 + n mod 10)%Z with n
        by (rewrite (Z.div_mod n 10) at 1; lia).
      reflexivity.
Qed.

Lemma digits_fuel_head fuel n acc :
  (0 <= n)%Z ->
  exists c s, digits_fuel (S fuel) n acc = String c s /\ is_digit c = true.
Proof.
  revert n acc. induction fuel as [|fuel IH]; intros n acc Hn.
  - rewrite digits_fuel_S.
    destruct (digit_char (n mod 10)%Z) as [Hd _]; [apply Z.mod_pos_bound; lia|].
    destruct (n <? 10)%Z; simpl; eauto.
  - rewrite digits_fuel_S.
    destruct (digit_char (n mod 10)%Z) as [Hd _]; [apply Z.mod_pos_bound; lia|].
    destruct (n <? 10)%Z; eauto.
    apply IH. apply Z.div_pos; lia.
Qed.

Lemma FormatUint_fuel n :
  (0 <= n)%Z -> (0 <= n < 10 ^ Z.of_nat (S (Z.to_nat (Z.log2 n))))%Z.
Proof.
  intros Hn. split; [exact Hn|].
  destruct (Z.eq_dec n 0) as [->|Hne]; [reflexivity|].
  assert (H := Z.log2_spec n ltac:(lia)).
  assert (Hl := Z.log2_nonneg n).
  replace (Z.of_nat (S (Z.to_nat (Z.log2 n)))) with (Z.succ (Z.log2 n)) by lia.
  eapply Z.lt_le_trans; [apply H|].
  apply Z.pow_le_mono_l. lia.
Qed.

(** ParseUint reads the decimal text of a natural number as that number,
    or reports that it is out of range. *)
Lemma parse_uint_FormatUint n bitSize :
  (0 <= n)%Z -> (0 < bitSize <= 64)%Z ->
  parse_uint (FormatUint n) bitSize =
  if (n <? 2 ^ bitSize)%Z then inl n else inr ErrRange.
Proof.
  intros Hn Hb. unfold parse_uint, FormatUint.
  destruct (digits_fuel_head (Z.to_nat (Z.log2 n)) n "" Hn) as (c & s & Hs & _).
  rewrite Hs, <- Hs.
  assert (HM : (0 <= 2 ^ bitSize - 1 < 2 ^ 64)%Z).
  { assert (0 < 2 ^ bitSize)%Z by (apply Z.pow_pos_nonneg; lia).
    assert (2 ^ bitSize <= 2 ^ 64)%Z by (apply Z.pow_le_mono_r; lia). lia. }
  rewrite (uint_loop_digits _ HM) by (apply FormatUint_fuel; exact Hn).
  cbn [uint_loop].
  destruct (Z.leb_spec n (2 ^ bitSize - 1)); destruct (Z.ltb_spec n (2 ^ bitSize));
    try lia; reflexivity.
Qed.

(** ParseInt, and Atoi, read the decimal text of an integer as that
    integer, or report that it is out of range. *)
Lemma parse_int_FormatInt fn n bitSize :
  (2 <= bitSize <= 64)%Z ->
  parse_int fn (FormatInt n) bitSize =
  if ((- 2 ^ (bitSize - 1) <=? n) && (n <? 2 ^ (bitSize - 1)))%Z%bool
  then inl n else inr (NumError fn (FormatInt n) ErrRange).
Proof.
  intros Hb.
  assert (Hpow : (2 ^ bitSize = 2 * 2 ^ (bitSize - 1))%Z).
  { replace bitSize with (Z.succ (bitSize - 1)) at 1 by lia.
    apply Z.pow_succ_r. lia. }
  assert (Hpos : (0 < 2 ^ (bitSize - 1))%Z) by (apply Z.pow_pos_nonneg; lia).
  assert (Hgt1 : (1 < 2 ^ (bitSize - 1))%Z).
  { change 1%Z with (2 ^ 0)%Z. apply Z.pow_lt_mono_r; lia. }
  unfold FormatInt. destruct (Z.ltb_spec n 0) as [Hneg|Hnn].
  - (* a minus sign, then the digits of [- n] *)
    unfold parse_int. change (Ascii.eqb "-" "-") with true.
    change (Ascii.eqb "-" "+") with false. cbn [orb negb andb].
    rewrite parse_uint_FormatUint by lia.
    destruct (Z.ltb_spec (- n) (2 ^ bitSize)).
    + destruct (Z.gtb_spec (- n) (2 ^ (bitSize - 1)));
        destruct (Z.leb_spec (- 2 ^ (bitSize - 1)) n);
        destruct (Z.ltb_spec n (2 ^ (bitSize - 1))); try lia; cbn [andb];
        try reflexivity.
      f_equal. lia.
    + destruct (Z.gtb_spec (2 ^ bitSize - 1) (2 ^ (bitSize - 1))); [|lia].
      destruct (Z.leb_spec (- 2 ^ (bitSize - 1)) n); [lia|]. reflexivity.
  - (* the digits of [n] *)
    destruct (digits_fuel_head (Z.to_nat (Z.log2 n)) n "" Hnn) as (c & s & Hs & Hd).
    fold (FormatUint n) in Hs.
    destruct (is_digit_not_sign c Hd) as [Hplus Hminus].
    unfold parse_int. rewrite Hs, Hplus, Hminus, <- Hs. cbn [orb negb andb].
    rewrite parse_uint_FormatUint by lia.
    destruct (Z.leb_spec (- 2 ^ (bitSize - 1)) n); [|lia]. cbn [andb].
    destruct (Z.ltb_spec n (2 ^ bitSize)).
    + destruct (Z.geb_spec n (2 ^ (bitSize - 1)));
        destruct (Z.ltb_spec n (2 ^ (bitSize - 1))); try lia; reflexivity.
    + destruct (Z.geb_spec (2 ^ bitSize - 1) (2 ^ (bitSize - 1))); [|lia].
      destruct (Z.ltb_spec n (2 ^ (bitSize - 1))); [lia|]. reflexivity.
Qed.

(** The characters of a decimal text: digits, after an optional minus
    sign. *)
Definition decimal_byte (c : byte) : bool := is_digit c || Ascii.eqb c "-".

Lemma digits_fuel_digits fuel n acc :
  Forall (fun c => decimal_byte c = true) (list_ascii_of_string acc) ->
  Forall (fun c => decimal_byte c = true) (list_ascii_of_string (digits_fuel fuel n acc)).
Proof.
  revert n acc. induction fuel as [|fuel IH]; intros n acc Hacc;
    [exact Hacc|rewrite digits_fuel_S].
  assert (Hc : Forall (fun c => decimal_byte c = true)
    (list_ascii_of_string (String (ascii_of_N (code "0" + Z.to_N (n mod 10))) acc))).
  { destruct (digit_char (n mod 10)%Z) as [Hd _]; [apply Z.mod_pos_bound; lia|].
    cbn [list_ascii_of_string]. constructor; [|exact Hacc].
    unfold decimal_byte. now rewrite Hd. }
  destruct (n <? 10)%Z; auto.
Qed.

Lemma FormatInt_decimal n :
  Forall (fun c => decimal_byte c = true) (list_ascii_of_string (FormatInt n)).
Proof.
  unfold FormatInt, FormatUint. destruct (n <? 0)%Z.
  - cbn [list_ascii_of_string]. constructor; [reflexivity|].
    apply digits_fuel_digits. constructor.
  - apply digits_fuel_digits. constructor.
Qed.

End strconv_facts.

(** ** Typed integer literals *)

(** The text [name(arg)] of a typed literal. *)
Definition literal (name arg : list byte) : list byte :=
  (name ++ "("%char :: arg ++ [")"%char])%list.

(** An argument that is written without quotes: it has no closing bracket
    in it and does not begin with a space or a quote. *)
Definition raw_argument (arg : list byte) : Prop :=
  Forall (fun c => Ascii.eqb c ")" = false) arg /\
  match arg with
  | [] => True
  | c :: _ => Decoder.is_space c = false /\ Ascii.eqb c QUOTE = false
  end.

(** The name under which the parser of each type reports its errors. *)
Definition parser_name (k : ikind) : gostring :=
  match k with
  | KInt => "Atoi"
  | KInt8 | KInt16 | KInt32 | KInt64 => "ParseInt"
  | _ => "ParseUint"
  end.

Definition fitsb (k : ikind) (n : Z) : bool :=
  if signed k then ((- 2 ^ (bits k - 1) <=? n) && (n <? 2 ^ (bits k - 1)))%Z
  else ((0 <=? n) && (n <? 2 ^ bits k))%Z.

Lemma fitsb_spec k n : fitsb k n = true <-> fits k n.
Proof.
  unfold fitsb, fits. destruct (signed k);
    rewrite andb_true_iff, Z.leb_le, Z.ltb_lt; tauto.
Qed.

Section IntegerLiterals.
Context {L : GoLib}.
Local Open Scope list_scope.

Lemma decimal_raw_argument n : raw_argument (bytes_of (strconv.FormatInt n)).
Proof.
  pose proof (strconv_facts.FormatInt_decimal n) as H.
  fold (bytes_of (strconv.FormatInt n)) in H. split.
  - eapply Forall_impl; [|exact H]. intros c Hc. cbv beta in Hc.
    unfold strconv_facts.decimal_byte in Hc. apply orb_true_iff in Hc.
    destruct Hc as [Hc|Hc].
    + destruct (Ascii.eqb_spec c ")"); [subst; discriminate|reflexivity].
    + apply Ascii.eqb_eq in Hc. subst. reflexivity.
  - destruct (bytes_of (strconv.FormatInt n)) as [|c rest]; [exact I|].
    inversion H as [|? ? Hc _]; subst.
    unfold strconv_facts.decimal_byte in Hc. apply orb_true_iff in Hc.
    destruct Hc as [Hc|Hc].
    + split.
      * unfold Decoder.is_space.
        destruct (Ascii.eqb_spec c SPACE); [subst; discriminate|].
        destruct (Ascii.eqb_spec c TAB); [subst; discriminate|].
        destruct (Ascii.eqb_spec c LF); [subst; discriminate|].
        destruct (Ascii.eqb_spec c CR); [subst; discriminate|]. reflexivity.
      * destruct (Ascii.eqb_spec c QUOTE); [subst; discriminate|reflexivity].
    + apply Ascii.eqb_eq in Hc. subst. split; reflexivity.
Qed.

(** [bracketExpr] on an argument without quotes: the text up to the closing
    bracket; the cursor is left after that bracket. *)
Lemma bracketExpr_raw_here (pre arg post : list byte) :
  raw_argument arg ->
  Decoder.bracketExpr (pre ++ "("%char :: arg ++ ")"%char :: post) (length pre) =
  Ok (string_of_list_ascii arg) (length pre + S (S (length arg))).
Proof.
  intros [Hno Hhead]. unfold Decoder.bracketExpr.
  rewrite skipSpaces_here by reflexivity.
  change (negb (Ascii.eqb "(" "(")) with false. cbv iota.
  rewrite snoc_app, <- length_snoc with (c := "("%char).
  set (pre' := pre ++ ["("%char]).
  assert (Hraw : forall fuel, length arg <= fuel ->
            Decoder.bracket_raw (pre' ++ arg ++ ")"%char :: post) fuel
              (length pre') (length pre') =
            Ok (string_of_list_ascii arg) (length pre' + S (length arg))).
  { intros fuel Hf.
    pose proof (bracket_raw_here arg pre' [] post fuel Hno Hf) as H.
    simpl in H. rewrite Nat.add_0_r in H. exact H. }
  assert (Hfuel : length arg <=
            Decoder.end_ (pre' ++ arg ++ ")"%char :: post) - length pre').
  { rewrite end_app, length_app. simpl. lia. }
  assert (Hlen : length pre' + S (length arg) = length pre + S (S (length arg))).
  { subst pre'. rewrite length_snoc. lia. }
  destruct arg as [|c arg].
  - simpl app. rewrite skipSpaces_here by reflexivity.
    change (Ascii.eqb ")" QUOTE) with false. cbv iota.
    rewrite <- Hlen. apply (Hraw _ Hfuel).
  - destruct Hhead as [Hsp Hq]. simpl app.
    rewrite skipSpaces_here by exact Hsp. rewrite Hq.
    rewrite <- Hlen. apply (Hraw _ Hfuel).
Qed.

(** [bracketExpr] on a quoted argument of plain bytes. *)
Lemma bracketExpr_quoted_here (pre s post : list byte) :
  Forall (fun c => plain_byte c = true) s ->
  Decoder.bracketExpr
    (pre ++ "("%char :: QUOTE :: s ++ QUOTE :: ")"%char :: post) (length pre) =
  Ok (string_of_list_ascii s) (length pre + S (S (S (S (length s))))).
Proof.
  intros Hs. unfold Decoder.bracketExpr.
  rewrite skipSpaces_here by reflexivity.
  change (negb (Ascii.eqb "(" "(")) with false. cbv iota.
  rewrite snoc_app, <- length_snoc with (c := "("%char).
  set (pre' := pre ++ ["("%char]).
  rewrite skipSpaces_here by reflexivity.
  change (Ascii.eqb QUOTE QUOTE) with true. cbv iota.
  rewrite string_here by exact Hs.
  assert (Hdata : pre' ++ QUOTE :: s ++ QUOTE :: ")"%char :: post =
                  (pre' ++ QUOTE :: s ++ [QUOTE]) ++ ")"%char :: post).
  { rewrite <- app_assoc. simpl. rewrite <- app_assoc. reflexivity. }
  assert (Hpos : length pre' + S (S (length s)) = length (pre' ++ QUOTE :: s ++ [QUOTE])).
  { rewrite !length_app. simpl. rewrite length_app. simpl. lia. }
  rewrite Hdata, Hpos, skipSpaces_here by reflexivity.
  change (negb (Ascii.eqb ")" ")")) with false. cbv iota.
  f_equal. rewrite <- Hpos. subst pre'. rewrite length_snoc. lia.
Qed.

Lemma typed_literal_type_name (data : list byte) k :
  Decoder.typed_literal data (type_name k) = Some (Decoder.integer data k).
Proof. destruct k; reflexivity. Qed.

(** [any] on the name of an integer type calls the method of that type,
    with the cursor after the name. *)
Lemma any_integer_here k (pre rest : list byte) fuel :
  ends_atom rest ->
  Decoder.any (pre ++ bytes_of (type_name k) ++ rest) (S fuel) (length pre) =
  Decoder.integer (pre ++ bytes_of (type_name k) ++ rest) k
    (length pre + length (bytes_of (type_name k))).
Proof.
  intros Hrest. rewrite any_S. cbv zeta.
  assert (Hname : exists c w, bytes_of (type_name k) = c :: w /\
            Decoder.is_atom_start c = true /\
            Forall (fun c => Decoder.is_atom_char c = true) w /\
            Ascii.eqb c QUOTE = false /\ is_digit c = false /\
            Ascii.eqb c "-" = false /\ Ascii.eqb c "[" = false /\
            Ascii.eqb c "{" = false).
  { destruct k; eexists; eexists; (split; [reflexivity|]);
      repeat split; repeat constructor. }
  destruct Hname as (c & w & Hcw & Hc & Hw & H1 & H2 & H3 & H4 & H5).
  assert (Hs : String c (string_of_list_ascii w) = type_name k).
  { change (String c (string_of_list_ascii w)) with (string_of_list_ascii (c :: w)).
    rewrite <- Hcw. apply string_of_list_ascii_of_string. }
  rewrite Hcw. simpl app.
  assert (Hlt : (Decoder.end_ (pre ++ c :: w ++ rest) <=? length pre) = false).
  { apply Nat.leb_gt. rewrite end_app. simpl. lia. }
  rewrite Hlt, index_here, H1, H2, H3, H4, H5.
  rewrite atom_here by assumption.
  rewrite Hs, typed_literal_type_name.
  destruct k; reflexivity.
Qed.

(** A typed integer literal with an argument without quotes, in any
    context: the parser of the type is applied to the argument, and its
    failure becomes a syntax error at the position after the closing
    bracket. *)
Lemma any_integer_literal k (pre arg post : list byte) fuel :
  raw_argument arg ->
  Decoder.any (pre ++ literal (bytes_of (type_name k)) arg ++ post) (S fuel)
    (length pre) =
  let after := length pre + length (literal (bytes_of (type_name k)) arg) in
  match Decoder.parse_integer k (string_of_list_ascii arg) with
  | inl n => Ok (VInteger k n) after
  | inr msg => Err (SyntaxError msg (Z.of_nat after)) after
  end.
Proof.
  intros Harg.
  assert (Hd : literal (bytes_of (type_name k)) arg ++ post =
               bytes_of (type_name k) ++ "("%char :: arg ++ ")"%char :: post).
  { unfold literal. rewrite <- app_assoc. simpl. rewrite <- app_assoc. reflexivity. }
  rewrite Hd, any_integer_here by reflexivity.
  unfold Decoder.integer, literal. rewrite app_assoc, <- length_app.
  rewrite bracketExpr_raw_here by exact Harg. cbv zeta.
  replace (length (pre ++ bytes_of (type_name k)) + S (S (length arg)))
    with (length pre + length (bytes_of (type_name k) ++ "("%char :: arg ++ [")"%char]))
    by (repeat (rewrite !length_app; simpl); lia).
  reflexivity.
Qed.

(** The same for a quoted argument of plain bytes. *)
Lemma any_integer_quoted k (pre s post : list byte) fuel :
  Forall (fun c => plain_byte c = true) s ->
  Decoder.any
    (pre ++ literal (bytes_of (type_name k)) (QUOTE :: s ++ [QUOTE]) ++ post)
    (S fuel) (length pre) =
  let after :=
    length pre + length (literal (bytes_of (type_name k)) (QUOTE :: s ++ [QUOTE])) in
  match Decoder.parse_integer k (string_of_list_ascii s) with
  | inl n => Ok (VInteger k n) after
  | inr msg => Err (SyntaxError msg (Z.of_nat after)) after
  end.
Proof.
  intros Hs.
  assert (Hd : literal (bytes_of (type_name k)) (QUOTE :: s ++ [QUOTE]) ++ post =
               bytes_of (type_name k) ++
               "("%char :: QUOTE :: s ++ QUOTE :: ")"%char :: post).
  { unfold literal. rewrite <- app_assoc. simpl. rewrite <- !app_assoc. reflexivity. }
  rewrite Hd, any_integer_here by reflexivity.
  unfold Decoder.integer, literal. rewrite app_assoc, <- length_app.
  rewrite bracketExpr_quoted_here by exact Hs. cbv zeta.
  replace (length (pre ++ bytes_of (type_name k)) + S (S (S (S (length s)))))
    with (length pre +
          length (bytes_of (type_name k) ++ "("%char :: (QUOTE :: s ++ [QUOTE]) ++ [")"%char]))
    by (repeat (rewrite !length_app; simpl); lia).
  reflexivity.
Qed.

(** What the parser of each type makes of the decimal text of an integer:
    the integer if it fits the type; if not, a range error, or a syntax
    error where the text has a minus sign and the type is unsigned. *)
Lemma parse_integer_decimal k n :
  Decoder.parse_integer k (strconv.FormatInt n) =
  if fitsb k n then inl n
  else inr (strconv.NumError (parser_name k) (strconv.FormatInt n)
              (if negb (signed k) && (n <? 0)%Z
               then strconv.ErrSyntax else strconv.ErrRange)).
Proof.
  assert (Hsigned : forall fn b, (2 <= b <= 64)%Z ->
    strconv.parse_int fn (strconv.FormatInt n) b =
    if ((- 2 ^ (b - 1) <=? n) && (n <? 2 ^ (b - 1)))%Z
    then inl n else inr (strconv.NumError fn (strconv.FormatInt n) strconv.ErrRange)).
  { intros fn b Hb. apply strconv_facts.parse_int_FormatInt. exact Hb. }
  assert (Hunsigned : forall b, (0 < b <= 64)%Z ->
    strconv.ParseUint (strconv.FormatInt n) b =
    if ((0 <=? n) && (n <? 2 ^ b))%Z then inl n
    else inr (strconv.NumError "ParseUint" (strconv.FormatInt n)
                (if (n <? 0)%Z then strconv.ErrSyntax else strconv.ErrRange))).
  { intros b Hb. unfold strconv.ParseUint, strconv.FormatInt.
    destruct (Z.ltb_spec n 0) as [Hneg|Hnn].
    - destruct (Z.leb_spec 0 n); [lia|]. reflexivity.
    - rewrite strconv_facts.parse_uint_FormatUint by assumption.
      destruct (Z.leb_spec 0 n); [|lia]. cbn [andb].
      destruct (n <? 2 ^ b)%Z; reflexivity. }
  destruct k; unfold Decoder.parse_integer, fitsb, strconv.Atoi, strconv.ParseInt;
    cbn [signed bits parser_name negb andb];
    first [apply Hsigned; lia | apply Hunsigned; lia].
Qed.

End IntegerLiterals.

Section IntegerLiteralDecode.
Context {L : GoLib}.
Local Open Scope list_scope.

(** Decode on an input that begins with a typed integer literal. *)
Lemma Decode_integer_literal k (arg post : list byte) :
  raw_argument arg ->
  let text := literal (bytes_of (type_name k)) arg in
  Decode (text ++ post) =
  finish (text ++ post) VNil
    match Decoder.parse_integer k (string_of_list_ascii arg) with
    | inl n => Ok (VInteger k n) (length text)
    | inr msg => Err (SyntaxError msg (Z.of_nat (length text))) (length text)
    end.
Proof.
  intros Harg text. unfold Decode, Decode_fuel.
  assert (Hsk : Decoder.skipSpaces (text ++ post) 0 =
                Ok (hd NUL (text ++ post)) 0).
  { subst text. unfold literal.
    destruct k; simpl; (apply (skipSpaces_here []); reflexivity). }
  rewrite Hsk.
  destruct (enough (text ++ post)) as [|fuel] eqn:E; [unfold enough in E; lia|].
  f_equal. exact (any_integer_literal k [] arg post fuel Harg).
Qed.

(** The same for a quoted argument of plain bytes. *)
Lemma Decode_integer_quoted k (s post : list byte) :
  Forall (fun c => plain_byte c = true) s ->
  let text := literal (bytes_of (type_name k)) (QUOTE :: s ++ [QUOTE]) in
  Decode (text ++ post) =
  finish (text ++ post) VNil
    match Decoder.parse_integer k (string_of_list_ascii s) with
    | inl n => Ok (VInteger k n) (length text)
    | inr msg => Err (SyntaxError msg (Z.of_nat (length text))) (length text)
    end.
Proof.
  intros Hs text. unfold Decode, Decode_fuel.
  assert (Hsk : Decoder.skipSpaces (text ++ post) 0 =
                Ok (hd NUL (text ++ post)) 0).
  { subst text. unfold literal.
    destruct k; simpl; (apply (skipSpaces_here []); reflexivity). }
  rewrite Hsk.
  destruct (enough (text ++ post)) as [|fuel] eqn:E; [unfold enough in E; lia|].
  f_equal. exact (any_integer_quoted k [] s post fuel Hs).
Qed.

Lemma finish_at_end {A} (data : list byte) (nil v : A) :
  finish data nil (Ok v (length data)) = Returns v None.
Proof.
  unfold finish. rewrite skipSpaces_at_end.
  unfold Decoder.end_. now rewrite Nat.ltb_irrefl.
Qed.

End IntegerLiteralDecode.

(** C7.  For each of the types int, int8, int16, int32, int64, uint, uint8,
    uint16, uint32 and uint64 and every integer [n], Decode on the literal
    [type(d)], with [d] the decimal text of [n], returns the value [n] of
    that type when [n] fits the width of the type; when it does not fit,
    Decode returns a SyntaxError whose message is the failure description of
    the numeric parser of the type (value out of range; invalid syntax for a
    minus sign given to an unsigned type) and whose Offset is the position
    after the closing bracket, here the length of the literal.  For every
    argument without quotes that the parser rejects the error is the
    parser's description at the position after the closing bracket, whatever
    follows the literal; an argument that the parser accepts gives the
    parser's value.  The same holds for an argument between quotes, made of
    printable ASCII bytes other than the quote and the backslash. *)
Theorem typed_integer_literal :
  forall (L : GoLib) (k : ikind),
    (forall n : Z, fits k n ->
       Decode (literal (bytes_of (type_name k)) (bytes_of (strconv.FormatInt n))) =
       Returns (VInteger k n) None) /\
    (forall n : Z, ~ fits k n ->
       let text := literal (bytes_of (type_name k)) (bytes_of (strconv.FormatInt n)) in
       Decode text =
       Returns VNil (Some (SyntaxError
         (strconv.NumError (parser_name k) (strconv.FormatInt n)
            (if negb (signed k) && (n <? 0)%Z
             then strconv.ErrSyntax else strconv.ErrRange))
         (Z.of_nat (length text))))) /\
    (forall (arg post : list byte) (msg : gostring),
       raw_argument arg ->
       Decoder.parse_integer k (string_of_list_ascii arg) = inr msg ->
       let text := literal (bytes_of (type_name k)) arg in
       Decode (text ++ post)%list =
       Returns VNil (Some (SyntaxError msg (Z.of_nat (length text))))) /\
    (forall (arg : list byte) (n : Z),
       raw_argument arg ->
       Decoder.parse_integer k (string_of_list_ascii arg) = inl n ->
       Decode (literal (bytes_of (type_name k)) arg) = Returns (VInteger k n) None) /\
    (forall (s post : list byte),
       Forall (fun c => plain_byte c = true) s ->
       let text := literal (bytes_of (type_name k)) (QUOTE :: s ++ [QUOTE]) in
       match Decoder.parse_integer k (string_of_list_ascii s) with
       | inl n => Decode text = Returns (VInteger k n) None
       | inr msg =>
           Decode (text ++ post)%list =
           Returns VNil (Some (SyntaxError msg (Z.of_nat (length text))))
       end).
Proof.
  intros L k.
  assert (Hfail : forall (arg post : list byte) (msg : gostring),
    raw_argument arg ->
    Decoder.parse_integer k (string_of_list_ascii arg) = inr msg ->
    Decode (literal (bytes_of (type_name k)) arg ++ post)%list =
    Returns VNil (Some (SyntaxError msg
      (Z.of_nat (length (literal (bytes_of (type_name k)) arg)))))).
  { intros arg post msg Harg Hp.
    rewrite (Decode_integer_literal k arg post Harg). cbv zeta.
    rewrite Hp. reflexivity. }
  assert (Hok : forall (arg : list byte) (n : Z),
    raw_argument arg ->
    Decoder.parse_integer k (string_of_list_ascii arg) = inl n ->
    Decode (literal (bytes_of (type_name k)) arg) = Returns (VInteger k n) None).
  { intros arg n Harg Hp.
    rewrite <- (app_nil_r (literal (bytes_of (type_name k)) arg)) at 1.
    rewrite (Decode_integer_literal k arg [] Harg). cbv zeta.
    rewrite Hp, app_nil_r. apply finish_at_end. }
  assert (Htext : forall n,
    string_of_list_ascii (bytes_of (strconv.FormatInt n)) = strconv.FormatInt n).
  { intros n. apply string_of_list_ascii_of_string. }
  split; [|split; [|split; [|split]]].
  - intros n Hn. apply Hok; [apply decimal_raw_argument|].
    rewrite Htext, parse_integer_decimal.
    apply fitsb_spec in Hn. now rewrite Hn.
  - intros n Hn text. subst text.
    rewrite <- (app_nil_r (literal _ _)) at 1.
    apply Hfail; [apply decimal_raw_argument|].
    rewrite Htext, parse_integer_decimal.
    destruct (fitsb k n) eqn:E; [|reflexivity].
    apply fitsb_spec in E. contradiction.
  - exact Hfail.
  - exact Hok.
  - intros s post Hs text. subst text.
    destruct (Decoder.parse_integer k (string_of_list_ascii s)) as [n|msg] eqn:Hp.
    + rewrite <- (app_nil_r (literal _ _)) at 1.
      rewrite (Decode_integer_quoted k s [] Hs). cbv zeta.
      rewrite Hp, app_nil_r. apply finish_at_end.
    + rewrite (Decode_integer_quoted k s post Hs). cbv zeta.
      rewrite Hp. reflexivity.
Qed.

(** [typed_integer_literal] at [int8(-128)], [int8(-500)], [uint8(255)] and
    [uint8(-1)], at [int16(1x)] followed by other text, and at the largest
    int64 between quotes. *)
Lemma typed_integer_literal_witness :
  Decode (L := GoRef.lib) (bytes_of "int8(-128)") =
    Returns (VInteger KInt8 (-128)) None /\
  Decode (L := GoRef.lib) (bytes_of "int8(-500)") =
    Returns VNil (Some (SyntaxError
      (strconv.NumError "ParseInt" "-500" strconv.ErrRange) 10)) /\
  Decode (L := GoRef.lib) (bytes_of "uint8(255)") =
    Returns (VInteger KUint8 255) None /\
  Decode (L := GoRef.lib) (bytes_of "uint8(-1)") =
    Returns VNil (Some (SyntaxError
      (strconv.NumError "ParseUint" "-1" strconv.ErrSyntax) 9)) /\
  Decode (L := GoRef.lib) (bytes_of "int16(1x) true") =
    Returns VNil (Some (SyntaxError
      (strconv.NumError "ParseInt" "1x" strconv.ErrSyntax) 9)) /\
  Decode (L := GoRef.lib)
    (bytes_of "int64(" ++ quoted_text "9223372036854775807" ++ QUOTE :: bytes_of ")")%list =
    Returns (VInteger KInt64 9223372036854775807) None.
Proof.
  destruct (typed_integer_literal GoRef.lib KInt8) as (Hfit & Hnot & _).
  destruct (typed_integer_literal GoRef.lib KUint8) as (Hfit' & Hnot' & _).
  destruct (typed_integer_literal GoRef.lib KInt16) as (_ & _ & Hraw & _).
  destruct (typed_integer_literal GoRef.lib KInt64) as (_ & _ & _ & _ & Hquo).
  split; [|split; [|split; [|split; [|split]]]].
  - apply (Hfit (-128)%Z). unfold fits. simpl. lia.
  - apply (Hnot (-500)%Z). unfold fits. simpl. lia.
  - apply (Hfit' 255%Z). unfold fits. simpl. lia.
  - apply (Hnot' (-1)%Z). unfold fits. simpl. lia.
  - apply (Hraw (bytes_of "1x") (bytes_of " true")).
    + split; [repeat constructor|split; reflexivity].
    + reflexivity.
  - apply (Hquo (bytes_of "9223372036854775807") []). repeat constructor.
Defined.

(** ** More fuel does not change a result *)

Section Fuel.
Context {L : GoLib}.
Variable data : list byte.

(** A call that returns with some fuel returns the same with more. *)
Lemma fuel_mono fuel :
  (forall pos fuel', fuel <= fuel' ->
     Decoder.any data fuel pos <> OutOfFuel ->
     Decoder.any data fuel' pos = Decoder.any data fuel pos) /\
  (forall arr pos fuel', fuel <= fuel' ->
     Decoder.array_scan data fuel arr pos <> OutOfFuel ->
     Decoder.array_scan data fuel' arr pos = Decoder.array_scan data fuel arr pos) /\
  (forall obj pos fuel', fuel <= fuel' ->
     Decoder.object_scan data fuel obj pos <> OutOfFuel ->
     Decoder.object_scan data fuel' obj pos = Decoder.object_scan data fuel obj pos).
Proof.
  induction fuel as [|fuel (IHany & IHarr & IHobj)].
  { repeat split; intros; simpl in *; congruence. }
  repeat split.
  - intros pos [|fuel'] Hle Hne; [lia|].
    rewrite !any_S in *. cbv zeta in *.
    destruct (Decoder.end_ data <=? pos); [reflexivity|].
    destruct (Decoder.index data pos pos) as [c p| | |]; try reflexivity.
    destruct (Ascii.eqb c QUOTE); [reflexivity|].
    destruct (is_digit c); [reflexivity|].
    destruct (Ascii.eqb c "-"); [reflexivity|].
    destruct (Ascii.eqb c "[").
    { rewrite (IHarr [] (S p) fuel'); [reflexivity|lia|].
      intros E. apply Hne. rewrite E. reflexivity. }
    destruct (Ascii.eqb c "{"); [|reflexivity].
    rewrite (IHobj [] (S p) fuel'); [reflexivity|lia|].
    intros E. apply Hne. rewrite E. reflexivity.
  - intros arr pos [|fuel'] Hle Hne; [lia|].
    rewrite !array_scan_S in *. cbv zeta in *.
    destruct (Decoder.skipSpaces data pos) as [c p| | |]; try reflexivity.
    destruct (Ascii.eqb c "]"); [reflexivity|].
    assert (Hany : Decoder.any data fuel p <> OutOfFuel).
    { intros E. apply Hne. rewrite E. reflexivity. }
    rewrite (IHany p fuel' ltac:(lia) Hany).
    destruct (Decoder.any data fuel p) as [v p1| | |]; try reflexivity.
    destruct (Decoder.skipSpaces data p1) as [c1 p2| | |]; try reflexivity.
    destruct (Ascii.eqb c1 ","); [|reflexivity].
    apply IHarr; [lia|exact Hne].
  - intros obj pos [|fuel'] Hle Hne; [lia|].
    rewrite !object_scan_S in *. cbv zeta in *.
    destruct (Decoder.skipSpaces data pos) as [c p| | |]; try reflexivity.
    destruct (Ascii.eqb c "}"); [reflexivity|].
    destruct (Decoder.objectKey data p) as [k p1| | |]; try reflexivity.
    destruct (Decoder.skipSpaces data p1) as [c1 p2| | |]; try reflexivity.
    destruct (negb (Ascii.eqb c1 ":")); [reflexivity|].
    destruct (Decoder.skipSpaces data (S p2)) as [c2 p3| | |]; try reflexivity.
    assert (Hany : Decoder.any data fuel p3 <> OutOfFuel).
    { intros E. apply Hne. rewrite E. reflexivity. }
    rewrite (IHany p3 fuel' ltac:(lia) Hany).
    destruct (Decoder.any data fuel p3) as [v p4| | |]; try reflexivity.
    destruct (Decoder.skipSpaces data p4) as [c3 p5| | |]; try reflexivity.
    destruct (Ascii.eqb c3 "}"); [reflexivity|].
    destruct (Ascii.eqb c3 ","); [|reflexivity].
    apply IHobj; [lia|exact Hne].
Qed.

(** What [any] returns with some fuel, Decode's parse returns with its
    own. *)
Lemma any_enough fuel pos v p :
  pos <= Decoder.end_ data ->
  Decoder.any data fuel pos = Ok v p ->
  Decoder.any data (enough data) pos = Ok v p.
Proof.
  intros Hpos H.
  pose proof (any_total data (enough data) pos Hpos (enough_any data pos)) as Ht.
  assert (Hne : Decoder.any data (enough data) pos <> OutOfFuel).
  { intros E. rewrite E in Ht. exact Ht. }
  destruct (fuel_mono (enough data)) as (Hup & _).
  destruct (fuel_mono fuel) as (Hup' & _).
  rewrite <- (Hup pos (Nat.max fuel (enough data)) ltac:(lia) Hne).
  rewrite (Hup' pos (Nat.max fuel (enough data)) ltac:(lia)); [exact H|].
  rewrite H. discriminate.
Qed.

(** A value does not begin with a space or a delimiter. *)
Lemma any_Ok_head fuel pos v p :
  Decoder.any data fuel pos = Ok v p ->
  exists c, nth_error data pos = Some c /\
            Decoder.is_space c = false /\ delimiter c = false.
Proof.
  destruct fuel as [|fuel]; [discriminate|].
  rewrite any_S. cbv zeta.
  destruct (Decoder.end_ data <=? pos) eqn:E.
  { unfold Decoder.error. destruct (pos <? Decoder.end_ data); discriminate. }
  apply Nat.leb_gt in E.
  destruct (index_some data pos pos E) as (c & Hc & Hi). rewrite Hi.
  intros H. exists c. split; [exact Hc|].
  destruct (Decoder.is_space c || delimiter c) eqn:Esd;
    [|apply orb_false_iff in Esd; exact Esd].
  exfalso.
  assert (Hc' : Ascii.eqb c QUOTE = false /\ is_digit c = false /\
                Ascii.eqb c "-" = false /\ Ascii.eqb c "[" = false /\
                Ascii.eqb c "{" = false /\ Decoder.is_atom_start c = false).
  { apply orb_true_iff in Esd. destruct Esd as [Hsd|Hsd].
    - unfold Decoder.is_space in Hsd. rewrite !orb_true_iff, !Ascii.eqb_eq in Hsd.
      destruct Hsd as [[[->| ->]| ->]| ->]; repeat split; reflexivity.
    - destruct (delimiter_cases c Hsd) as [->|[->|[->|[->| ->]]]];
        repeat split; reflexivity. }
  destruct Hc' as (H1 & H2 & H3 & H4 & H5 & H6).
  rewrite H1, H2, H3, H4, H5 in H. unfold Decoder.atom in H.
  destruct (Nat.ltb_spec pos (Decoder.end_ data)); [|lia].
  rewrite Hi, H6 in H. unfold Decoder.error in H.
  destruct (pos <? Decoder.end_ data); discriminate.
Qed.

End Fuel.

(** ** Scalars and keys that are read back *)

(** The encoder of Marshal. *)
Definition compact : Encoder.config :=
  {| Encoder.pretty := false; Encoder.prefix := ""; Encoder.indent := "" |}.

Section ReadBack.
Context {L : GoLib}.
Local Open Scope list_scope.

(** The decoder reads the value back from its encoding, wherever the
    encoding stands, when the end of the input or a delimiter follows. *)
Definition reads_back (v : value) : Prop :=
  exists out, Marshal v = EOk out /\
    forall pre post fuel, stops post ->
      Decoder.any (pre ++ out ++ post) (S fuel) (length pre) =
      Ok v (length pre + length out).

(** The decoder reads the key back from its encoding in front of a
    colon. *)
Definition key_reads_back (k : gostring) : Prop :=
  forall pre post,
    Decoder.objectKey (pre ++ Encoder.encodeKey k ++ ":"%char :: post) (length pre) =
    Ok k (length pre + length (Encoder.encodeKey k)).

Lemma atom_start_not_special c :
  Decoder.is_atom_start c = true ->
  Ascii.eqb c QUOTE = false /\ is_digit c = false /\ Ascii.eqb c "-" = false /\
  Ascii.eqb c "[" = false /\ Ascii.eqb c "{" = false.
Proof.
  intros H.
  assert (Hd : is_digit c = false).
  { destruct (is_digit c) eqn:E; [exfalso|reflexivity].
    destruct (Ascii.eqb_spec c "_") as [->|Hne]; [discriminate|].
    unfold Decoder.is_atom_start, is_lower, is_upper, is_digit, inrange in *.
    apply Ascii.eqb_neq in Hne. rewrite Hne in H.
    rewrite orb_false_r, orb_true_iff, !andb_true_iff, !N.leb_le in H.
    rewrite andb_true_iff, !N.leb_le in E.
    change (code "a") with 97%N in H. change (code "z") with 122%N in H.
    change (code "A") with 65%N in H. change (code "Z") with 90%N in H.
    change (code "0") with 48%N in E. change (code "9") with 57%N in E. lia. }
  repeat split; try exact Hd;
    match goal with
    | |- Ascii.eqb c ?x = false =>
        destruct (Ascii.eqb_spec c x); [subst; discriminate|reflexivity]
    end.
Qed.

(** [any] on a bareword. *)
Lemma any_word_here c (w pre post : list byte) fuel :
  Decoder.is_atom_start c = true ->
  Forall (fun c => Decoder.is_atom_char c = true) w ->
  ends_atom post ->
  Decoder.any (pre ++ c :: w ++ post) (S fuel) (length pre) =
  let atom := String c (string_of_list_ascii w) in
  let pos := length pre + S (length w) in
  if String.eqb atom "true" then Ok (VBool true) pos
  else if String.eqb atom "false" then Ok (VBool false) pos
  else if String.eqb atom "null" then Ok VNil pos
  else
    match Decoder.typed_literal (pre ++ c :: w ++ post) atom with
    | Some method => method pos
    | None =>
        Decoder.error (pre ++ c :: w ++ post) c "looking for beginning of value" pos
    end.
Proof.
  intros Hc Hw Hpost. rewrite any_S. cbv zeta.
  destruct (atom_start_not_special c Hc) as (H1 & H2 & H3 & H4 & H5).
  assert (Hlt : (Decoder.end_ (pre ++ c :: w ++ post) <=? length pre) = false).
  { apply Nat.leb_gt. rewrite end_app. simpl. lia. }
  rewrite Hlt, index_here, H1, H2, H3, H4, H5.
  rewrite atom_here by assumption. reflexivity.
Qed.



(** *** Integers *)

(** Whether the encoder puts the digits of the integer between quotes. *)
Definition quoted (k : ikind) (n : Z) : bool :=
  match k with
  | KInt64 => (n >? MAX_SAFE_INTEGER)%Z || (n <? MIN_SAFE_INTEGER)%Z
  | KUint64 => (n >? MAX_SAFE_INTEGER)%Z
  | _ => false
  end.

Lemma encodeInteger_fits k n :
  fits k n ->
  Encoder.encodeInteger k n =
  literal (bytes_of (type_name k))
    (if quoted k n then QUOTE :: bytes_of (strconv.FormatInt n) ++ [QUOTE]
     else bytes_of (strconv.FormatInt n)).
Proof.
  intros Hfit.
  assert (Hu : signed k = false -> strconv.FormatUint n = strconv.FormatInt n).
  { intros Hs. unfold fits in Hfit. rewrite Hs in Hfit.
    unfold strconv.FormatInt. destruct (Z.ltb_spec n 0); [lia|reflexivity]. }
  destruct k; cbn [Encoder.encodeInteger quoted];
    try reflexivity; try (unfold Encoder.encodeUInt, Encoder.encodeUInt8,
      Encoder.encodeUInt16, Encoder.encodeUInt32; rewrite Hu by reflexivity;
      reflexivity).
  - unfold Encoder.encodeInt64, literal.
    destruct ((n >? MAX_SAFE_INTEGER)%Z || (n <? MIN_SAFE_INTEGER)%Z); simpl.
    + now rewrite <- app_assoc.
    + reflexivity.
  - unfold Encoder.encodeUInt64, literal. rewrite Hu by reflexivity.
    destruct (n >? MAX_SAFE_INTEGER)%Z; simpl.
    + now rewrite <- app_assoc.
    + reflexivity.
Qed.

Lemma decimal_plain n :
  Forall (fun c => plain_byte c = true) (bytes_of (strconv.FormatInt n)).
Proof.
  pose proof (strconv_facts.FormatInt_decimal n) as H.
  eapply Forall_impl; [|exact H]. intros c Hc. cbv beta in Hc.
  unfold strconv_facts.decimal_byte in Hc. apply orb_true_iff in Hc.
  destruct Hc as [Hc|Hc].
  - unfold is_digit, inrange in Hc. apply andb_true_iff in Hc.
    rewrite !N.leb_le in Hc.
    change (code "0") with 48%N in Hc. change (code "9") with 57%N in Hc.
    unfold plain_byte.
    destruct (Ascii.eqb_spec c QUOTE) as [->|_];
      [change (code QUOTE) with 34%N in Hc; lia|].
    destruct (Ascii.eqb_spec c BACKSLASH) as [->|_];
      [change (code BACKSLASH) with 92%N in Hc; lia|].
    cbn [negb andb]. apply andb_true_iff. split; apply N.leb_le; lia.
  - apply Ascii.eqb_eq in Hc. subst. reflexivity.
Qed.


(** *** Strings of plain bytes *)

Lemma runes_fuel_plain s :
  Forall (fun c => plain_byte c = true) (bytes_of s) ->
  forall fuel, String.length s <= fuel ->
    utf8.runes_fuel fuel s = map code (bytes_of s).
Proof.
  induction s as [|c s IH]; intros Hs fuel Hf.
  - destruct fuel; reflexivity.
  - simpl in Hf. destruct fuel as [|fuel]; [lia|].
    inversion Hs as [|? ? Hc Hs']; subst.
    destruct (plain_byte_scan c Hc) as (_ & _ & _ & H127).
    assert (Hlt : (code c <? 128)%N = true).
    { apply N.ltb_lt. apply N.ltb_ge in H127. lia. }
    cbn [utf8.runes_fuel utf8.DecodeRune]. cbv zeta. rewrite Hlt.
    cbn [fst snd utf8.drop bytes_of list_ascii_of_string map].
    f_equal. apply IH; [exact Hs'|lia].
Qed.

Lemma encodeRune_plain c :
  plain_byte c = true -> Encoder.encodeRune (code c) = [c].
Proof.
  intros Hc. destruct (plain_byte_scan c Hc) as (H1 & H2 & H3 & H4).
  apply N.ltb_ge in H3, H4.
  assert (Hq : code c <> 34%N).
  { intros E. apply Ascii.eqb_neq in H1. apply H1.
    rewrite <- (ascii_N_embedding c). unfold code in E. now rewrite E. }
  assert (Hb : code c <> 92%N).
  { intros E. apply Ascii.eqb_neq in H2. apply H2.
    rewrite <- (ascii_N_embedding c). unfold code in E. now rewrite E. }
  unfold Encoder.encodeRune.
  destruct (N.eqb_spec (code c) 92); [contradiction|].
  destruct (N.eqb_spec (code c) 34); [contradiction|].
  destruct (N.eqb_spec (code c) 13); [lia|].
  destruct (N.eqb_spec (code c) 10); [lia|].
  destruct (N.eqb_spec (code c) 12); [lia|].
  destruct (N.eqb_spec (code c) 9); [lia|].
  cbn [orb app]. unfold utf8.EncodeRune.
  destruct (N.leb_spec (code c) 127); [|lia].
  unfold utf8.byte_of, code. now rewrite ascii_N_embedding.
Qed.

(** encodeString puts a string of plain bytes between quotes as it is. *)
Lemma encodeString_plain s :
  Forall (fun c => plain_byte c = true) (bytes_of s) ->
  Encoder.encodeString s = QUOTE :: bytes_of s ++ [QUOTE].
Proof.
  intros Hs. unfold Encoder.encodeString, utf8.runes.
  rewrite (runes_fuel_plain s Hs) by lia. do 2 f_equal.
  induction Hs as [|c l Hc Hl IH]; [reflexivity|].
  cbn [map flat_map]. rewrite (encodeRune_plain c Hc), IH. reflexivity.
Qed.



End ReadBack.

(** ** Arrays and objects *)

Section Loops.
Context {L : GoLib}.
Local Open Scope list_scope.








(** [m[k] = v] for a key that the map does not have. *)
Lemma map_set_fresh (obj : list (gostring * value)) k v :
  ~ In k (map fst obj) -> map_set obj k v = obj ++ [(k, v)].
Proof.
  induction obj as [|[k' v'] obj IH]; intros Hk; [reflexivity|].
  cbn [map_set]. destruct (String.eqb_spec k' k) as [->|Hne].
  - exfalso. apply Hk. now left.
  - cbn [app]. f_equal. apply IH. intros Hin. apply Hk. now right.
Qed.


End Loops.

(** ** Encoding, then decoding *)


Section RoundTrip.
Context {L : GoLib}.
Local Open Scope list_scope.

(** The values that are neither arrays nor maps. *)
Definition scalar (v : value) : Prop :=
  match v with
  | VArray _ | VMap _ => False
  | _ => True
  end.

(** The value trees whose scalars and keys are read back, and whose maps
    have one entry per key, as the maps of Go have. *)
Inductive readable : value -> Prop :=
| readable_scalar v : scalar v -> reads_back v -> readable v
| readable_array a : Forall readable a -> readable (VArray a)
| readable_map m :
    NoDup (map fst m) ->
    Forall (fun kv => key_reads_back (fst kv) /\ readable (snd kv)) m ->
    readable (VMap m).


Lemma scalar_canon v : scalar v -> canon v = v.
Proof. destruct v; intros H; try reflexivity; contradiction. Qed.


Lemma any_array_here (pre rest : list byte) fuel :
  Decoder.any (pre ++ "["%char :: rest) (S fuel) (length pre) =
  fmap VArray (Decoder.array_scan (pre ++ "["%char :: rest) fuel [] (S (length pre))).
Proof.
  rewrite any_S. cbv zeta.
  assert (Hlt : (Decoder.end_ (pre ++ "["%char :: rest) <=? length pre) = false).
  { apply Nat.leb_gt. rewrite end_app. simpl. lia. }
  rewrite Hlt, index_here. reflexivity.
Qed.

Lemma any_object_here (pre rest : list byte) fuel :
  Decoder.any (pre ++ "{"%char :: rest) (S fuel) (length pre) =
  fmap VMap (Decoder.object_scan (pre ++ "{"%char :: rest) fuel [] (S (length pre))).
Proof.
  rewrite any_S. cbv zeta.
  assert (Hlt : (Decoder.end_ (pre ++ "{"%char :: rest) <=? length pre) = false).
  { apply Nat.leb_gt. rewrite end_app. simpl. lia. }
  rewrite Hlt, index_here. reflexivity.
Qed.











End RoundTrip.

(** ** Trees of plain scalars, and the trees that the decoder builds *)

Section Trees.
Context {L : GoLib}.
Local Open Scope list_scope.

(** The value trees of null, booleans, integers that fit their type and
    strings of plain bytes, whose maps have keys of plain bytes and one
    entry per key. *)
Inductive plain_value : value -> Prop :=
| plain_nil : plain_value VNil
| plain_bool b : plain_value (VBool b)
| plain_integer k n : fits k n -> plain_value (VInteger k n)
| plain_string s :
    Forall (fun c => plain_byte c = true) (bytes_of s) -> plain_value (VString s)
| plain_array a : Forall plain_value a -> plain_value (VArray a)
| plain_map m :
    NoDup (map fst m) ->
    Forall (fun kv => Forall (fun c => plain_byte c = true) (bytes_of (fst kv)) /\
                      plain_value (snd kv)) m ->
    plain_value (VMap m).


(** The value trees whose maps have one entry per key. *)
Inductive distinct_keys : value -> Prop :=
| distinct_scalar v : scalar v -> distinct_keys v
| distinct_array a : Forall distinct_keys a -> distinct_keys (VArray a)
| distinct_map m :
    NoDup (map fst m) -> Forall (fun kv => distinct_keys (snd kv)) m ->
    distinct_keys (VMap m).

Lemma readable_distinct_keys v : readable v -> distinct_keys v.
Proof.
  induction v as [ | | | | a IH | m IH | | | | | | ] using value_ind';
    intros Hr; try (apply distinct_scalar; exact I).
  - inversion Hr as [v Hs _|a' Ha|]; subst; [contradiction|].
    apply distinct_array. apply Forall_forall. intros x Hx.
    rewrite Forall_forall in *. auto.
  - inversion Hr as [v Hs _| |m' Hnd Hm]; subst; [contradiction|].
    apply distinct_map; [exact Hnd|]. apply Forall_forall. intros kv Hkv.
    rewrite Forall_forall in *. destruct (Hm kv Hkv). auto.
Qed.











End Trees.




(** * Further properties *)

(** ** White space *)

(** A run of the four bytes that [skipSpaces] skips. *)
Definition blank (ws : list byte) : Prop :=
  Forall (fun c => Decoder.is_space c = true) ws.

(** What [skipSpaces] stops at: the end of the input or a byte that is not
    a space. *)
Definition starts_nonspace (rest : list byte) : Prop :=
  match rest with
  | [] => True
  | c :: _ => Decoder.is_space c = false
  end.

Section Blank.
Context {L : GoLib}.
Local Open Scope list_scope.

Lemma skipSpaces_loop_run (ws : list byte) :
  forall pre rest fuel,
    blank ws -> starts_nonspace rest -> length ws <= fuel ->
    Decoder.skipSpaces_loop (pre ++ ws ++ rest) fuel (length pre) =
    Ok (hd NUL rest) (length pre + length ws).
Proof.
  induction ws as [|w ws IH]; intros pre rest fuel Hws Hrest Hfuel.
  - cbn [app length]. rewrite Nat.add_0_r. destruct rest as [|c rest].
    + rewrite app_nil_r.
      destruct fuel; simpl; unfold Decoder.end_; rewrite Nat.eqb_refl; reflexivity.
    + simpl in Hrest.
      assert (Hne : (length pre =? Decoder.end_ (pre ++ c :: rest)) = false).
      { apply Nat.eqb_neq. rewrite end_app. simpl. lia. }
      destruct fuel; simpl; rewrite Hne, index_here, Hrest; reflexivity.
  - inversion Hws as [|? ? Hw Hws']; subst. simpl in Hfuel.
    destruct fuel as [|fuel]; [lia|]. cbn [app].
    assert (Hne : (length pre =? Decoder.end_ (pre ++ w :: ws ++ rest)) = false).
    { apply Nat.eqb_neq. rewrite end_app. simpl. lia. }
    cbn [Decoder.skipSpaces_loop]. rewrite Hne, index_here, Hw.
    rewrite snoc_app, <- length_snoc with (c := w).
    rewrite IH by (auto; lia). f_equal. rewrite length_snoc. simpl. lia.
Qed.

(** [skipSpaces] over a run of spaces. *)
Lemma skipSpaces_run (pre ws rest : list byte) :
  blank ws -> starts_nonspace rest ->
  Decoder.skipSpaces (pre ++ ws ++ rest) (length pre) =
  Ok (hd NUL rest) (length pre + length ws).
Proof.
  intros Hws Hrest. unfold Decoder.skipSpaces.
  apply skipSpaces_loop_run; auto.
  rewrite end_app, length_app. lia.
Qed.

Lemma skipSpaces_blank (ws : list byte) :
  blank ws -> Decoder.skipSpaces ws 0 = Ok NUL (length ws).
Proof.
  intros Hws.
  pose proof (skipSpaces_run [] ws [] Hws I) as H.
  rewrite app_nil_r in H. exact H.
Qed.

End Blank.

(** X1.  On an input that is empty or holds only spaces, tabs, line feeds
    and carriage returns, Decode, DecodeObject and DecodeArray return no
    value and the error of an unexpected end of the input. *)
Theorem blank_input_is_unexpected_end :
  forall (L : GoLib) (ws : list byte),
    blank ws ->
    Decode ws = Returns VNil (Some ErrUnexpectedEOF) /\
    DecodeObject ws = Returns None (Some ErrUnexpectedEOF) /\
    DecodeArray ws = Returns None (Some ErrUnexpectedEOF).
Proof.
  intros L ws Hws.
  assert (Hend : (length ws <? Decoder.end_ ws) = false).
  { apply Nat.ltb_irrefl. }
  assert (Hle : (Decoder.end_ ws <=? length ws) = true).
  { apply Nat.leb_refl. }
  split; [|split].
  - unfold Decode, Decode_fuel. rewrite (skipSpaces_blank ws Hws).
    destruct (enough ws) as [|fuel] eqn:E; [unfold enough in E; lia|].
    rewrite any_S. cbv zeta. rewrite Hle. unfold Decoder.error. rewrite Hend.
    reflexivity.
  - unfold DecodeObject, DecodeObject_fuel. rewrite (skipSpaces_blank ws Hws).
    change (negb (Ascii.eqb NUL "{")) with true. cbv iota.
    unfold Decoder.error. rewrite Hend. reflexivity.
  - unfold DecodeArray, DecodeArray_fuel. rewrite (skipSpaces_blank ws Hws).
    change (negb (Ascii.eqb NUL "[")) with true. cbv iota.
    unfold Decoder.error. rewrite Hend. reflexivity.
Qed.

(** [blank_input_is_unexpected_end] at a line feed, a space and a tab. *)
Lemma blank_input_is_unexpected_end_witness :
  Decode (L := GoRef.lib) [LF; SPACE; TAB] = Returns VNil (Some ErrUnexpectedEOF) /\
  DecodeObject (L := GoRef.lib) [LF; SPACE; TAB] = Returns None (Some ErrUnexpectedEOF) /\
  DecodeArray (L := GoRef.lib) [LF; SPACE; TAB] = Returns None (Some ErrUnexpectedEOF).
Proof.
  apply (blank_input_is_unexpected_end GoRef.lib [LF; SPACE; TAB]).
  unfold blank.
  apply Forall_cons; [reflexivity|].
  apply Forall_cons; [reflexivity|].
  apply Forall_cons; [reflexivity|apply Forall_nil].
Defined.

(** ** The errors of the parser *)

(** The errors that the methods of the decoder make: every error but
    ExtraDataError, which only the exported functions make, and the error of
    the encoder. *)
Definition parse_error (e : goerror) : Prop :=
  match e with
  | ExtraDataError _ | UnsupportedType _ => False
  | _ => True
  end.

Definition clean {A} (r : res A) : Prop :=
  match r with
  | Err e _ => parse_error e
  | _ => True
  end.

Create HintDb cleandb.

Ltac clean_tac :=
  repeat match goal with
         | |- clean (Ok _ _) => exact I
         | |- clean (Err _ _) => first [exact I | assumption]
         | |- clean Panic => exact I
         | |- clean OutOfFuel => exact I
         | |- clean (if ?b then _ else _) => destruct b
         | |- clean (match ?x with _ => _ end) =>
             let H := fresh "Hclean" in
             first [ assert (H : clean x) by (solve [auto with cleandb | clean_tac]);
                     destruct x; simpl in H
                   | destruct x ]
         | |- clean _ => solve [auto with cleandb]
         end.

Section ErrorKinds.
Context {L : GoLib}.
Variable data : list byte.

Lemma error_clean {A} c ctx pos : clean (@Decoder.error L data A c ctx pos).
Proof. unfold Decoder.error. clean_tac. Qed.

Lemma index_clean i pos : clean (Decoder.index data i pos).
Proof. unfold Decoder.index. clean_tac. Qed.

Lemma slice_clean a b pos : clean (Decoder.slice data a b pos).
Proof. unfold Decoder.slice. clean_tac. Qed.

Lemma next_clean pos : clean (Decoder.next data pos).
Proof. unfold Decoder.next, Decoder.index. clean_tac. Qed.

Hint Resolve error_clean index_clean slice_clean next_clean : cleandb.

Lemma skipSpaces_clean pos : clean (Decoder.skipSpaces data pos).
Proof.
  unfold Decoder.skipSpaces. generalize (Decoder.end_ data - pos). intros fuel.
  revert pos. induction fuel as [|fuel IH]; intros pos;
    cbn [Decoder.skipSpaces_loop]; clean_tac; apply IH.
Qed.

Lemma atom_loop_clean fuel pos : clean (Decoder.atom_loop data fuel pos).
Proof.
  revert pos. induction fuel as [|fuel IH]; intros pos;
    cbn [Decoder.atom_loop]; clean_tac; apply IH.
Qed.

Hint Resolve skipSpaces_clean atom_loop_clean : cleandb.

Lemma atom_clean pos : clean (Decoder.atom data pos).
Proof. unfold Decoder.atom. clean_tac. Qed.

Lemma escape_u_clean i pos : clean (Decoder.escape_u data i pos).
Proof.
  revert pos. induction i as [|i IH]; intros pos;
    cbn [Decoder.escape_u]; clean_tac; apply IH.
Qed.

Hint Resolve atom_clean escape_u_clean : cleandb.

Lemma string_scan_clean fuel unquote start pos :
  clean (Decoder.string_scan data fuel unquote start pos).
Proof.
  revert unquote pos. induction fuel as [|fuel IH]; intros unquote pos;
    cbn [Decoder.string_scan]; cbv zeta; clean_tac; apply IH.
Qed.

Hint Resolve string_scan_clean : cleandb.

Lemma string_clean pos : clean (Decoder.string data pos).
Proof. unfold Decoder.string. auto with cleandb. Qed.

Lemma digits_loop_clean fuel n c pos : clean (Decoder.digits_loop data fuel n c pos).
Proof.
  revert n c pos. induction fuel as [|fuel IH]; intros n c pos;
    cbn [Decoder.digits_loop]; cbv zeta; clean_tac; apply IH.
Qed.

Lemma skip_digits_clean fuel c pos : clean (Decoder.skip_digits data fuel c pos).
Proof.
  revert c pos. induction fuel as [|fuel IH]; intros c pos;
    cbn [Decoder.skip_digits]; clean_tac; apply IH.
Qed.

Hint Resolve string_clean digits_loop_clean skip_digits_clean : cleandb.

Lemma number_digits_clean c pos : clean (Decoder.number_digits data c pos).
Proof. unfold Decoder.number_digits. clean_tac. Qed.

Lemma number_fraction_clean c pos : clean (Decoder.number_fraction data c pos).
Proof. unfold Decoder.number_fraction. cbv zeta. clean_tac. Qed.

Lemma exponent_sign_clean (c : byte) pos :
  clean (if Ascii.eqb c "+" || Ascii.eqb c "-"
         then
           let* (c, pos) := Decoder.next data pos in
           if (code c <? code "0")%N || (code "9" <? code c)%N
           then Decoder.error data c "in exponent of numeric literal" pos
           else Ok tt pos
         else Ok tt pos).
Proof. clean_tac. Qed.

Hint Resolve number_digits_clean number_fraction_clean exponent_sign_clean : cleandb.

Lemma number_exponent_clean isFloat c pos :
  clean (Decoder.number_exponent data isFloat c pos).
Proof. unfold Decoder.number_exponent. clean_tac. Qed.

Hint Resolve number_exponent_clean : cleandb.

Lemma number_scan_clean pos : clean (Decoder.number_scan data pos).
Proof. unfold Decoder.number_scan. clean_tac. Qed.

Hint Resolve number_scan_clean : cleandb.

Lemma number_clean pos : clean (Decoder.number data pos).
Proof. unfold Decoder.number. cbv zeta. clean_tac. Qed.

Lemma bracket_raw_clean fuel start pos : clean (Decoder.bracket_raw data fuel start pos).
Proof.
  revert pos. induction fuel as [|fuel IH]; intros pos;
    cbn [Decoder.bracket_raw]; clean_tac; apply IH.
Qed.

Hint Resolve number_clean bracket_raw_clean : cleandb.

Lemma bracketExpr_clean pos : clean (Decoder.bracketExpr data pos).
Proof. unfold Decoder.bracketExpr. cbv zeta. clean_tac. Qed.

Hint Resolve bracketExpr_clean : cleandb.

Lemma integer_clean k pos : clean (Decoder.integer data k pos).
Proof. unfold Decoder.integer. clean_tac. Qed.

Lemma datetime_clean pos : clean (Decoder.datetime data pos).
Proof. unfold Decoder.datetime. clean_tac. Qed.

Lemma ip_clean pos : clean (Decoder.ip data pos).
Proof. unfold Decoder.ip. clean_tac. Qed.

Lemma ipport_clean pos : clean (Decoder.ipport data pos).
Proof. unfold Decoder.ipport. cbv zeta. clean_tac. Qed.

Lemma objectKey_clean pos : clean (Decoder.objectKey data pos).
Proof. unfold Decoder.objectKey. clean_tac. Qed.

Hint Resolve integer_clean datetime_clean ip_clean ipport_clean objectKey_clean
  : cleandb.

Lemma typed_literal_clean a method pos :
  Decoder.typed_literal data a = Some method -> clean (method pos).
Proof.
  unfold Decoder.typed_literal, Decoder.int, Decoder.int8, Decoder.int16,
    Decoder.int32, Decoder.int64, Decoder.uint, Decoder.uint8, Decoder.uint16,
    Decoder.uint32, Decoder.uint64.
  repeat match goal with
         | |- (if ?x then _ else _) = _ -> _ => destruct x
         end;
    intros [= <-]; auto with cleandb.
Qed.

Lemma parse_clean fuel :
  (forall pos, clean (Decoder.any data fuel pos)) /\
  (forall arr pos, clean (Decoder.array_scan data fuel arr pos)) /\
  (forall obj pos, clean (Decoder.object_scan data fuel obj pos)).
Proof.
  induction fuel as [|fuel (IHany & IHarr & IHobj)]; [repeat split; intros; exact I|].
  split; [|split].
  - intros pos. rewrite any_S. cbv zeta. unfold fmap.
    destruct (Decoder.end_ data <=? pos); [apply error_clean|].
    destruct (Decoder.index data pos pos) as [c p| | |] eqn:Ei; try exact I.
    { destruct (Ascii.eqb c QUOTE); [clean_tac|].
      destruct (is_digit c); [clean_tac|].
      destruct (Ascii.eqb c "-"); [clean_tac|].
      destruct (Ascii.eqb c "[").
      { pose proof (IHarr [] (S p)) as H. destruct (Decoder.array_scan _ _ _ _);
          simpl in *; auto. }
      destruct (Ascii.eqb c "{").
      { pose proof (IHobj [] (S p)) as H. destruct (Decoder.object_scan _ _ _ _);
          simpl in *; auto. }
      pose proof (atom_clean p) as Ha.
      destruct (Decoder.atom data p) as [a p1| | |]; simpl in Ha; auto.
      destruct (String.eqb a "true"); [exact I|].
      destruct (String.eqb a "false"); [exact I|].
      destruct (String.eqb a "null"); [exact I|].
      destruct (Decoder.typed_literal data a) as [method|] eqn:Em.
      - exact (typed_literal_clean a method p1 Em).
      - apply error_clean. }
    pose proof (index_clean pos pos) as H. rewrite Ei in H. exact H.
  - intros arr pos. rewrite array_scan_S. cbv zeta. clean_tac; auto.
  - intros obj pos. rewrite object_scan_S. cbv zeta. clean_tac; auto.
Qed.

Lemma any_clean fuel pos : clean (Decoder.any data fuel pos).
Proof. apply parse_clean. Qed.

Lemma array_scan_clean fuel arr pos : clean (Decoder.array_scan data fuel arr pos).
Proof. apply parse_clean. Qed.

Lemma object_scan_clean fuel obj pos : clean (Decoder.object_scan data fuel obj pos).
Proof. apply parse_clean. Qed.

End ErrorKinds.

(** ** Progress *)

Section Progress.
Context {L : GoLib}.
Variable data : list byte.

(** A value takes at least one byte, and the cursor stays in the input,
    whatever the fuel. *)
Lemma any_progress fuel pos v p :
  Decoder.any data fuel pos = Ok v p -> pos < p <= length data.
Proof.
  intros H.
  assert (Hpos : pos < Decoder.end_ data).
  { destruct (any_Ok_head data fuel pos v p H) as (c & Hc & _).
    apply nth_error_Some. congruence. }
  set (big := Nat.max fuel (2 * (Decoder.end_ data - pos) + 1)).
  destruct (fuel_mono data fuel) as (Hup & _).
  assert (Hbig : Decoder.any data big pos = Ok v p).
  { rewrite (Hup pos big); [exact H|subst big; lia|rewrite H; discriminate]. }
  pose proof (any_total data big pos ltac:(lia) ltac:(subst big; lia)) as Ht.
  rewrite Hbig in Ht. unfold advanced in Ht. simpl in Ht.
  unfold Decoder.end_ in Ht. lia.
Qed.

End Progress.

(** X2.  Every value that the decoder reads takes at least one byte and
    ends inside the input.  So when Decode returns a value together with an
    ExtraDataError, the Offset is greater than 0 and less than the length of
    the input, and the byte there is not a space: the rest of the input,
    from Offset on, is not empty and is shorter than the input. *)
Theorem extra_data_offset_in_range :
  forall (L : GoLib) (data : list byte),
    (forall fuel pos v p,
        Decoder.any data fuel pos = Ok v p -> pos < p <= length data) /\
    (forall v off,
        Decode data = Returns v (Some (ExtraDataError off)) ->
        exists p c, off = Z.of_nat p /\ 0 < p < length data /\
                    nth_error data p = Some c /\ Decoder.is_space c = false /\
                    0 < length (skipn p data) < length data).
Proof.
  intros L data. split; [apply any_progress|].
  intros v off. unfold Decode, Decode_fuel, finish.
  destruct (skipSpaces_spec data 0 ltac:(lia)) as (c0 & p0 & -> & Hp0 & _).
  destruct (Decoder.any data (enough data) p0) as [val p1| | |] eqn:Ev;
    try discriminate.
  - pose proof (any_progress data _ _ _ _ Ev) as Hp1.
    destruct (skipSpaces_spec data p1 ltac:(unfold Decoder.end_; lia))
      as (c & p & -> & Hp & _ & Hc).
    destruct (Nat.ltb_spec p (Decoder.end_ data)) as [Hlt|Hge]; [|discriminate].
    intros [= _ <-]. unfold Decoder.end_ in *.
    destruct Hc as [[-> _]|(_ & Hc & Hns)]; [lia|].
    exists p, c. repeat split; auto; try lia; rewrite length_skipn; lia.
  - pose proof (any_clean data (enough data) p0) as Hc. rewrite Ev in Hc.
    intros [= _ ->]. exact (False_ind _ Hc).
Qed.

(** [extra_data_offset_in_range] at the input [ 42 x]. *)
Lemma extra_data_offset_in_range_witness :
  exists p c, 4%Z = Z.of_nat p /\ 0 < p < length (bytes_of " 42 x") /\
              nth_error (bytes_of " 42 x") p = Some c /\ Decoder.is_space c = false /\
              0 < length (skipn p (bytes_of " 42 x")) < length (bytes_of " 42 x").
Proof.
  destruct (extra_data_offset_in_range GoRef.lib (bytes_of " 42 x")) as (_ & H).
  apply (H (VFloat64 (f64_of_Z 42)) 4%Z). reflexivity.
Defined.

(** ** DecodeArray and DecodeObject *)

Section Exported.
Context {L : GoLib}.
Variable data : list byte.

Lemma skipSpaces_stop c p (x : byte) :
  Decoder.skipSpaces data 0 = Ok c p -> c = x -> x <> NUL ->
  p < length data /\ nth_error data p = Some x.
Proof.
  intros Hs -> Hx.
  destruct (skipSpaces_spec data 0 ltac:(lia)) as (c' & p' & Hs' & _ & _ & Hc).
  rewrite Hs in Hs'. injection Hs' as <- <-.
  destruct Hc as [[_ ->]|(Hlt & Hc & _)]; [contradiction|].
  unfold Decoder.end_ in Hlt. auto.
Qed.

(** The loops of [array] and [object] started by Decode, with one unit of
    fuel less than DecodeArray and DecodeObject give them, return the
    same. *)
Lemma array_scan_enough p :
  S p <= length data ->
  Decoder.array_scan data (enough data) [] (S p) =
  Decoder.array_scan data (2 * length data + 1) [] (S p).
Proof.
  intros Hp. destruct (fuel_mono data (2 * length data + 1)) as (_ & Hup & _).
  apply Hup; [unfold enough; lia|].
  destruct (parse_bounded data (2 * length data + 1)) as (_ & Hb & _).
  specialize (Hb [] (S p)). unfold Decoder.end_ in Hb.
  intros E. rewrite E in Hb. apply Hb; lia.
Qed.

Lemma object_scan_enough p :
  S p <= length data ->
  Decoder.object_scan data (enough data) [] (S p) =
  Decoder.object_scan data (2 * length data + 1) [] (S p).
Proof.
  intros Hp. destruct (fuel_mono data (2 * length data + 1)) as (_ & _ & Hup).
  apply Hup; [unfold enough; lia|].
  destruct (parse_bounded data (2 * length data + 1)) as (_ & _ & Hb).
  specialize (Hb [] (S p)). unfold Decoder.end_ in Hb.
  intros E. rewrite E in Hb. apply Hb; lia.
Qed.

Lemma enough_S : enough data = S (2 * length data + 1).
Proof. unfold enough. lia. Qed.

Lemma DecodeArray_of_Decode p :
  Decoder.skipSpaces data 0 = Ok "["%char p ->
  DecodeArray data =
  match Decode data with
  | Returns (VArray a) err => Returns (Some a) err
  | Returns _ err => Returns None err
  | Panics => Panics
  | Exhausted => Exhausted
  end.
Proof.
  intros Hs.
  destruct (skipSpaces_stop _ _ "["%char Hs eq_refl ltac:(discriminate)) as [Hlt Hc].
  unfold DecodeArray, DecodeArray_fuel, Decode, Decode_fuel, Decoder.array.
  rewrite Hs. change (negb (Ascii.eqb "[" "[")) with false. cbv iota.
  rewrite array_scan_enough by lia. rewrite enough_S, any_S. cbv zeta.
  destruct (Nat.leb_spec (Decoder.end_ data) p); [unfold Decoder.end_ in *; lia|].
  unfold Decoder.index. rewrite Hc.
  change (Ascii.eqb "[" QUOTE) with false. change (is_digit "[") with false.
  change (Ascii.eqb "[" "-") with false. change (Ascii.eqb "[" "[") with true.
  cbv iota.
  destruct (Decoder.array_scan data (2 * length data + 1) [] (S p)) as [a q|e q| |];
    try reflexivity.
  unfold fmap, finish.
  destruct (Decoder.skipSpaces data q) as [c1 q1|e1 q1| |]; try reflexivity.
  destruct (q1 <? Decoder.end_ data); reflexivity.
Qed.

Lemma DecodeObject_of_Decode p :
  Decoder.skipSpaces data 0 = Ok "{"%char p ->
  DecodeObject data =
  match Decode data with
  | Returns (VMap m) err => Returns (Some m) err
  | Returns _ err => Returns None err
  | Panics => Panics
  | Exhausted => Exhausted
  end.
Proof.
  intros Hs.
  destruct (skipSpaces_stop _ _ "{"%char Hs eq_refl ltac:(discriminate)) as [Hlt Hc].
  unfold DecodeObject, DecodeObject_fuel, Decode, Decode_fuel, Decoder.object.
  rewrite Hs. change (negb (Ascii.eqb "{" "{")) with false. cbv iota.
  rewrite object_scan_enough by lia. rewrite enough_S, any_S. cbv zeta.
  destruct (Nat.leb_spec (Decoder.end_ data) p); [unfold Decoder.end_ in *; lia|].
  unfold Decoder.index. rewrite Hc.
  change (Ascii.eqb "{" QUOTE) with false. change (is_digit "{") with false.
  change (Ascii.eqb "{" "-") with false. change (Ascii.eqb "{" "[") with false.
  change (Ascii.eqb "{" "{") with true. cbv iota.
  destruct (Decoder.object_scan data (2 * length data + 1) [] (S p)) as [a q|e q| |];
    try reflexivity.
  unfold fmap, finish.
  destruct (Decoder.skipSpaces data q) as [c1 q1|e1 q1| |]; try reflexivity.
  destruct (q1 <? Decoder.end_ data); reflexivity.
Qed.

End Exported.

(** X3.  On an input whose first byte after the leading spaces is [[],
    DecodeArray returns what Decode returns: the same array with the same
    error (none, or extra data), or no array and the same error.  On any
    other input it returns no array and an error at that byte: a SyntaxError
    "looking for beginning of array" whose Offset is the position of the byte
    plus one, or the unexpected end if there is no byte.  DecodeObject does
    the same for [{] and maps. *)
Theorem DecodeArray_DecodeObject_agree_with_Decode :
  forall (L : GoLib) (data : list byte) (c : byte) (p : nat),
    Decoder.skipSpaces data 0 = Ok c p ->
    (c = "["%char ->
     DecodeArray data =
     match Decode data with
     | Returns (VArray a) err => Returns (Some a) err
     | Returns _ err => Returns None err
     | Panics => Panics
     | Exhausted => Exhausted
     end) /\
    (c <> "["%char ->
     DecodeArray data =
     Returns None (Some
       (if p <? length data
        then SyntaxError ("invalid character " ++ quoteChar c ++
                          " looking for beginning of array") (Z.of_nat p + 1)
        else ErrUnexpectedEOF))) /\
    (c = "{"%char ->
     DecodeObject data =
     match Decode data with
     | Returns (VMap m) err => Returns (Some m) err
     | Returns _ err => Returns None err
     | Panics => Panics
     | Exhausted => Exhausted
     end) /\
    (c <> "{"%char ->
     DecodeObject data =
     Returns None (Some
       (if p <? length data
        then SyntaxError ("invalid character " ++ quoteChar c ++
                          " looking for beginning of object") (Z.of_nat p + 1)
        else ErrUnexpectedEOF))).
Proof.
  intros L data c p Hs. split; [|split; [|split]].
  - intros ->. apply (DecodeArray_of_Decode data p Hs).
  - intros Hc. unfold DecodeArray, DecodeArray_fuel. rewrite Hs.
    destruct (Ascii.eqb_spec c "["); [contradiction|]. cbn [negb].
    unfold Decoder.error, Decoder.end_. destruct (p <? length data); reflexivity.
  - intros ->. apply (DecodeObject_of_Decode data p Hs).
  - intros Hc. unfold DecodeObject, DecodeObject_fuel. rewrite Hs.
    destruct (Ascii.eqb_spec c "{"); [contradiction|]. cbn [negb].
    unfold Decoder.error, Decoder.end_. destruct (p <? length data); reflexivity.
Qed.

(** [DecodeArray_DecodeObject_agree_with_Decode] at the inputs [ [true] x]
    and [ 5]. *)
Lemma DecodeArray_DecodeObject_agree_with_Decode_witness :
  DecodeArray (L := GoRef.lib) (bytes_of " [true] x") =
    Returns (Some [VBool true]) (Some (ExtraDataError 8)) /\
  DecodeObject (L := GoRef.lib) (bytes_of " 5") =
    Returns None (Some (SyntaxError
      "invalid character '5' looking for beginning of object" 2)).
Proof.
  destruct (DecodeArray_DecodeObject_agree_with_Decode GoRef.lib
              (bytes_of " [true] x") "["%char 1 eq_refl) as (H1 & _).
  destruct (DecodeArray_DecodeObject_agree_with_Decode GoRef.lib
              (bytes_of " 5") "5"%char 1 eq_refl) as (_ & _ & _ & H4).
  split.
  - rewrite (H1 eq_refl). reflexivity.
  - rewrite H4 by discriminate. reflexivity.
Defined.

(** ** The JSON type of a value *)

(** ValueType identifies the type of a parsed value. *)
Module ValueType.

Inductive t := Null | Bool | String | Number | Object | Array | Unknown.

(** [types[v]], the method String of ValueType *)
Definition String_ (v : t) : gostring :=
  match v with
  | Null => "null"
  | Bool => "boolean"
  | String => "string"
  | Number => "number"
  | Object => "object"
  | Array => "array"
  | Unknown => "unknown"
  end.

End ValueType.

Section TypeOf.
Context {L : GoLib}.

(** Type returns the JSON-type of the given value ([Type] is reserved, hence [Type_]) *)
Definition Type_ (v : value) : ValueType.t :=
  match v with
  | VNil => ValueType.Null
  | VBool _ => ValueType.Bool
  | VString _ => ValueType.String
  | VFloat64 _ => ValueType.Number
  | VArray _ => ValueType.Array
  | VMap _ => ValueType.Object
  | _ => ValueType.Unknown
  end.

Ltac unknown_result :=
  cbv zeta;
  repeat match goal with
         | |- (match ?x with _ => _ end) = _ -> _ => destruct x
         end;
  intros H; try discriminate H; injection H as <- _; reflexivity.

Lemma integer_unknown data k pos v p :
  Decoder.integer data k pos = Ok v p -> Type_ v = ValueType.Unknown.
Proof. unfold Decoder.integer. unknown_result. Qed.

Lemma datetime_unknown data pos v p :
  Decoder.datetime data pos = Ok v p -> Type_ v = ValueType.Unknown.
Proof. unfold Decoder.datetime. unknown_result. Qed.

Lemma ip_unknown data pos v p :
  Decoder.ip data pos = Ok v p -> Type_ v = ValueType.Unknown.
Proof. unfold Decoder.ip, Decoder.error. unknown_result. Qed.

Lemma ipport_unknown data pos v p :
  Decoder.ipport data pos = Ok v p -> Type_ v = ValueType.Unknown.
Proof. unfold Decoder.ipport, Decoder.error. unknown_result. Qed.

Lemma typed_literal_unknown data a method pos v p :
  Decoder.typed_literal data a = Some method -> method pos = Ok v p ->
  Type_ v = ValueType.Unknown.
Proof.
  unfold Decoder.typed_literal, Decoder.int, Decoder.int8, Decoder.int16,
    Decoder.int32, Decoder.int64, Decoder.uint, Decoder.uint8, Decoder.uint16,
    Decoder.uint32, Decoder.uint64.
  repeat match goal with
         | |- (if ?x then _ else _) = _ -> _ => destruct x
         end;
    intros [= <-];
    first [apply integer_unknown | apply datetime_unknown | apply ip_unknown
          | apply ipport_unknown].
Qed.

(** The type of what [any] returns, by the byte it starts at. *)
Lemma any_Type data fuel pos c v p :
  nth_error data pos = Some c ->
  Decoder.any data fuel pos = Ok v p ->
  Type_ v =
  if Ascii.eqb c QUOTE then ValueType.String
  else if is_digit c || Ascii.eqb c "-" then ValueType.Number
  else if Ascii.eqb c "[" then ValueType.Array
  else if Ascii.eqb c "{" then ValueType.Object
  else match v with
       | VNil => ValueType.Null
       | VBool _ => ValueType.Bool
       | _ => ValueType.Unknown
       end.
Proof.
  intros Hc. destruct fuel as [|fuel]; [discriminate|].
  rewrite any_S. cbv zeta.
  assert (Hlt : pos < Decoder.end_ data).
  { apply nth_error_Some. congruence. }
  destruct (Nat.leb_spec (Decoder.end_ data) pos); [lia|].
  unfold Decoder.index. rewrite Hc.
  destruct (Ascii.eqb c QUOTE).
  { destruct (Decoder.string data pos); try discriminate. now intros [= <- _]. }
  destruct (is_digit c); cbn [orb].
  { destruct (Decoder.number data pos); try discriminate. now intros [= <- _]. }
  destruct (Ascii.eqb c "-").
  { destruct (_ <=? _); [discriminate|].
    destruct (nth_error data (S pos)); [|discriminate].
    destruct (_ && _)%bool.
    { unfold Decoder.error. destruct (_ <? _); discriminate. }
    destruct (Decoder.number data (S pos)); try discriminate. now intros [= <- _]. }
  destruct (Ascii.eqb c "[").
  { destruct (Decoder.array_scan _ _ _ _); try discriminate. now intros [= <- _]. }
  destruct (Ascii.eqb c "{").
  { destruct (Decoder.object_scan _ _ _ _); try discriminate. now intros [= <- _]. }
  destruct (Decoder.atom data pos) as [a p1| | |]; try discriminate.
  destruct (String.eqb a "true"); [now intros [= <- _]|].
  destruct (String.eqb a "false"); [now intros [= <- _]|].
  destruct (String.eqb a "null"); [now intros [= <- _]|].
  destruct (Decoder.typed_literal data a) as [method|] eqn:Em.
  - intros Hm. pose proof (typed_literal_unknown _ _ _ _ _ _ Em Hm) as Hu.
    destruct v; try discriminate Hu; reflexivity.
  - unfold Decoder.error. destruct (_ <? _); discriminate.
Qed.

End TypeOf.

(** X4.  The JSON type that Type reports for a value returned by Decode
    follows from the first byte of the input after the leading spaces: a
    quote gives a string, a digit or a minus sign a number, [[] an array and
    [{] an object; any other byte starts a bareword, and then the type is
    unknown unless the value is a boolean or null.  So all the typed
    literals ([int8(1)], [datetime(...)], [ip(...)], ...) are of unknown
    type, not numbers or strings. *)
Theorem Type_of_decoded_value :
  forall (L : GoLib) (data : list byte) (c : byte) (p : nat) (v : value)
         (err : option goerror),
    Decoder.skipSpaces data 0 = Ok c p ->
    Decode data = Returns v err ->
    (err = None \/ exists off, err = Some (ExtraDataError off)) ->
    Type_ v =
    if Ascii.eqb c QUOTE then ValueType.String
    else if is_digit c || Ascii.eqb c "-" then ValueType.Number
    else if Ascii.eqb c "[" then ValueType.Array
    else if Ascii.eqb c "{" then ValueType.Object
    else match v with
         | VNil => ValueType.Null
         | VBool _ => ValueType.Bool
         | _ => ValueType.Unknown
         end.
Proof.
  intros L data c p v err Hs. unfold Decode, Decode_fuel, finish. rewrite Hs.
  destruct (Decoder.any data (enough data) p) as [val p1|e p1| |] eqn:Ev;
    try discriminate.
  - destruct (any_Ok_head data _ _ _ _ Ev) as (c' & Hc' & _).
    assert (Hc : nth_error data p = Some c).
    { destruct (skipSpaces_spec data 0 ltac:(lia)) as (c1 & p1' & Hs' & _ & _ & H).
      rewrite Hs in Hs'. injection Hs' as <- <-.
      destruct H as [[-> _]|(_ & H & _)]; [|exact H].
      assert (Decoder.end_ data < length data); [|unfold Decoder.end_ in *; lia].
      apply nth_error_Some. congruence. }
    pose proof (any_Type data _ _ _ _ _ Hc Ev) as Ht.
    pose proof (skipSpaces_clean data p1) as Hcl.
    destruct (Decoder.skipSpaces data p1) as [c1 q|e q| |]; try discriminate.
    + destruct (q <? Decoder.end_ data); intros [= <- _] _; exact Ht.
    + intros [= <- <-] [H|[off H]]; [discriminate H|].
      injection H as ->. exact (False_ind _ Hcl).
  - pose proof (any_clean data (enough data) p) as Hcl. rewrite Ev in Hcl.
    intros [= <- <-] [H|[off H]]; [discriminate H|].
    injection H as ->. exact (False_ind _ Hcl).
Qed.

(** [Type_of_decoded_value] at the inputs [ int8(1)] and [12 x]. *)
Lemma Type_of_decoded_value_witness :
  Type_ (L := GoRef.lib) (VInteger KInt8 1) = ValueType.Unknown /\
  Type_ (L := GoRef.lib) (VFloat64 (f64_of_Z 12)) = ValueType.Number.
Proof.
  split.
  - apply (Type_of_decoded_value GoRef.lib (bytes_of " int8(1)") "i"%char 1
             (VInteger KInt8 1) None eq_refl eq_refl).
    left. reflexivity.
  - apply (Type_of_decoded_value GoRef.lib (bytes_of "12 x") "1"%char 0
             (VFloat64 (f64_of_Z 12)) (Some (ExtraDataError 3)) eq_refl eq_refl).
    right. exists 3%Z. reflexivity.
Defined.

(** ** The errors of the encoder *)

Section EncoderErrors.
Context {L : GoLib}.

(** No value of a type outside the cases of [encodeValue] anywhere in the
    tree. *)
Fixpoint supported (v : value) : bool :=
  match v with
  | VUnsupported _ => false
  | VArray a => forallb supported a
  | VMap m =>
      (fix entries (m : list (gostring * value)) : bool :=
         match m with
         | [] => true
         | (_, v) :: m' => supported v && entries m'
         end) m
  | _ => true
  end.

Lemma supported_VMap m :
  supported (VMap m) = forallb (fun kv => supported (snd kv)) m.
Proof.
  cbn [supported]. induction m as [|[k v] m IH]; [reflexivity|].
  cbn [forallb snd]. now rewrite IH.
Qed.

Lemma elements_succeed e level items :
  Forall (fun item => exists o, item = EOk o) items ->
  forall first, exists outs, Encoder.elements e level first items = EOk outs.
Proof.
  induction 1 as [|item items (o & ->) _ IH]; intros first.
  - now exists [].
  - cbn [Encoder.elements]. destruct (IH false) as (outs & ->). eauto.
Qed.

(** The encoder accepts every tree of supported values. *)
Lemma supported_encodes v :
  supported v = true ->
  forall e level, exists out, Encoder.encodeValue e level v = EOk out.
Proof.
  induction v as [ | | | | a IH | m IH | | | | | | T] using value_ind';
    intros Hs e level; try (cbn [Encoder.encodeValue]; eauto; fail).
  - cbn [supported] in Hs. rewrite forallb_forall in Hs.
    rewrite encodeValue_VArray. unfold Encoder.bracketed.
    destruct (elements_succeed e (S level) (map (Encoder.encodeValue e (S level)) a))
      with (first := true) as (outs & ->); [|eauto].
    apply Forall_forall. intros item Hitem. apply in_map_iff in Hitem.
    destruct Hitem as (x & <- & Hx). rewrite Forall_forall in IH. auto.
  - rewrite supported_VMap, forallb_forall in Hs.
    rewrite encodeValue_VMap. unfold Encoder.bracketed.
    match goal with
    | |- context [Encoder.elements e (S level) true ?items] =>
        destruct (elements_succeed e (S level) items) with (first := true)
          as (outs & ->); [|eauto]
    end.
    apply Forall_forall. intros item Hitem. apply in_map_iff in Hitem.
    destruct Hitem as (k & <- & Hk).
    assert (Hin : In (k, map_get m k) m).
    { apply map_get_In. eapply Permutation_in;
        [apply Permutation_sym, Strings_perm|exact Hk]. }
    rewrite Forall_forall in IH.
    destruct (IH _ Hin (Hs _ Hin) e (S level)) as (o & Ho). cbn [snd] in Ho.
    unfold Encoder.pair. rewrite Ho. eauto.
  - discriminate Hs.
Qed.

End EncoderErrors.

(** *** The type switch of encodeValue on every value *)

(** What a method of the encoder does when any value may be passed to it:
    it leaves bytes in the buffer of Marshal, returns an error, or panics
    on a nil pointer. *)
Inductive written :=
| Written (out : list byte)
| Failed (e : goerror)
| Panicked.

(** The result of the encoder on the values of the decoder, among the
    results on every value. *)
Definition written_of (r : eres) : written :=
  match r with
  | EOk out => Written out
  | EErr e => Failed e
  end.

Section EveryValue.
Context {L : GoLib}.

(** What the [interface{}] passed to the encoder holds, as far as
    [encodeValue] tells values apart: a value of one of the types of its
    type switch, where a pointer to an address may be nil; a slice of any
    other type, with the elements as [s.Index(i).Interface()] gives them;
    or a value of a type [T] that is none of these. *)
Inductive any_value :=
| ANil
| ABool (b : bool)
| AFloat64 (f : float64)
| AString (s : gostring)
| AArray (a : list any_value)                  (* []interface{} *)
| AMap (m : list (gostring * any_value))       (* map[string]interface{} *)
| AInteger (k : ikind) (n : Z)                 (* int, int8, ..., uint64 *)
| ATime (t : Time)                             (* time.Time *)
| AIP (ip : IP)                                (* net.IP *)
| ATCPAddr (ip : IP) (port : Z)                (* net.TCPAddr *)
| ATCPAddrPtr (a : option (IP * Z))            (* *net.TCPAddr, [None] is nil *)
| AUDPAddr (ip : IP) (port : Z)                (* net.UDPAddr *)
| AUDPAddrPtr (a : option (IP * Z))            (* *net.UDPAddr, [None] is nil *)
| ABytes (b : list byte)                       (* []byte *)
| ASlice (s : list any_value)                  (* reflect.Slice *)
| AOther (T : gostring).

(** [m[k]]: the entry of the key, [nil] when there is none. *)
Fixpoint any_get (m : list (gostring * any_value)) (k : gostring) : any_value :=
  match m with
  | [] => ANil
  | (k', v) :: m' => if String.eqb k' k then v else any_get m' k
  end.

(** A value of the decoder as one of these values; the type of an
    unsupported value is then no slice. *)
Fixpoint any_of (v : value) : any_value :=
  match v with
  | VNil => ANil
  | VBool b => ABool b
  | VFloat64 f => AFloat64 f
  | VString s => AString s
  | VArray a => AArray (map any_of a)
  | VMap m =>
      AMap ((fix entries (m : list (gostring * value)) :=
               match m with
               | [] => []
               | (k, v) :: m' => (k, any_of v) :: entries m'
               end) m)
  | VInteger k n => AInteger k n
  | VTime t => ATime t
  | VIP ip => AIP ip
  | VTCPAddr ip port => ATCPAddr ip port
  | VBytes b => ABytes b
  | VUnsupported T => AOther T
  end.

(** The type names of the values of unhandled types in the tree. *)
Fixpoint other_types (v : any_value) : list gostring :=
  match v with
  | AOther T => [T]
  | AArray a | ASlice a => flat_map other_types a
  | AMap m =>
      (fix entries (m : list (gostring * any_value)) : list gostring :=
         match m with
         | [] => []
         | (_, v) :: m' => other_types v ++ entries m'
         end)%list m
  | _ => []
  end.

(** There is a nil pointer to an address in the tree. *)
Fixpoint nil_pointer (v : any_value) : bool :=
  match v with
  | ATCPAddrPtr None | AUDPAddrPtr None => true
  | AArray a | ASlice a => existsb nil_pointer a
  | AMap m =>
      (fix entries (m : list (gostring * any_value)) : bool :=
         match m with
         | [] => false
         | (_, v) :: m' => nil_pointer v || entries m'
         end) m
  | _ => false
  end.

End EveryValue.

Module AnyEncoder.
Section Methods.
Context {L : GoLib}.
Variable e : Encoder.config.

(** The loop shared by [encodeMap], [encodeArray] and [encodeSlice]: the
    first element that fails or panics ends the loop. *)
Fixpoint elements (level : nat) (first : bool) (items : list written) : written :=
  match items with
  | [] => Written []
  | item :: rest =>
      let sep := if first then []
                 else (","%char :: (if Encoder.pretty e
                                    then Encoder.writeIndent e level else []))%list in
      match item with
      | Written out =>
          match elements level false rest with
          | Written outs => Written (sep ++ out ++ outs)%list
          | stop => stop
          end
      | stop => stop
      end
  end.

(** An opening bracket, the elements one level deeper, a closing bracket. *)
Definition bracketed (level : nat) (open close : byte) (items : list written)
  : written :=
  match elements (S level) true items with
  | Written outs =>
      Written (open :: (if Encoder.pretty e
                        then Encoder.writeIndent e (S level) else []) ++ outs ++
               (if Encoder.pretty e then Encoder.writeIndent e level else []) ++
               [close])%list
  | stop => stop
  end.

(** One [key: value] pair of [encodeMap], given the encoding of the value. *)
Definition pair (k : gostring) (v : written) : written :=
  match v with
  | Written out =>
      Written (Encoder.encodeKey k ++
               ":"%char :: (if Encoder.pretty e then [SPACE] else []) ++ out)%list
  | stop => stop
  end.

(** [encodeMap], given for each key the encoding of [m[k]]. *)
Definition encodeMap_with (encode_at : gostring -> written) (level : nat)
    (range_keys : list gostring) : written :=
  let keys := sort.Strings range_keys in
  bracketed level "{" "}" (map (fun k => pair k (encode_at k)) keys).

(** [encodeArray], given the encodings of the elements. *)
Definition encodeArray_with (level : nat) (items : list written) : written :=
  bracketed level "[" "]" items.

(** [encodeSlice], given the encodings of [s.Index(i).Interface()]. *)
Definition encodeSlice_with (level : nat) (items : list written) : written :=
  bracketed level "[" "]" items.

(** [v.IP] and [v.Port] of a pointer to an address: a nil pointer panics. *)
Definition encodeIPPort_at (a : option (IP * Z)) : written :=
  match a with
  | Some (ip, port) => Written (Encoder.encodeIPPort ip port)
  | None => Panicked
  end.

(** [encodeValue] with every case of its type switch; [level] is [e.level]
    on entry. *)
Fixpoint encodeValue (level : nat) (v : any_value) {struct v} : written :=
  match v with
  | AString s => Written (Encoder.encodeString s)
  | AMap m =>
      encodeMap_with
        ((fix encode_at (m : list (gostring * any_value)) (k : gostring) : written :=
            match m with
            | [] => Written (bytes_of "null")
            | (k', v) :: m' =>
                if String.eqb k' k then encodeValue (S level) v else encode_at m' k
            end) m)
        level (map fst m)
  | AArray a => encodeArray_with level (map (encodeValue (S level)) a)
  | ABytes b => Written (Encoder.encodeBytes b)
  | AInteger k n => Written (Encoder.encodeInteger k n)
  | ANil => Written (bytes_of "null")
  | ABool b => Written (bytes_of (if b then "true" else "false"))
  | ATime t => Written (Encoder.encodeTime t)
  | AIP ip => Written (Encoder.encodeIP ip)
  | ATCPAddr ip port => Written (Encoder.encodeIPPort ip port)
  | ATCPAddrPtr a => encodeIPPort_at a
  | AUDPAddr ip port => Written (Encoder.encodeIPPort ip port)
  | AUDPAddrPtr a => encodeIPPort_at a
  | AFloat64 f => Written (Encoder.encodeFloat64 f)
  | ASlice s => encodeSlice_with level (map (encodeValue (S level)) s)
  | AOther T => Failed (UnsupportedType ("Unsupported value type: " ++ T))
  end.

End Methods.

Section Marshal.
Context {L : GoLib}.

Definition Marshal (v : any_value) : written :=
  encodeValue
    {| Encoder.pretty := false; Encoder.prefix := ""; Encoder.indent := "" |} 0 v.

Definition MarshalIndent (v : any_value) (prefix indent : gostring) : written :=
  encodeValue
    {| Encoder.pretty := true; Encoder.prefix := prefix; Encoder.indent := indent |}
    0 v.

End Marshal.
End AnyEncoder.

(** Two runs of the encoder that end alike: both write, both fail with one
    error, or both panic. *)
Definition alike (r r' : written) : Prop :=
  match r, r' with
  | Written _, Written _ => True
  | Failed err, Failed err' => err = err'
  | Panicked, Panicked => True
  | _, _ => False
  end.

(** What a run of the encoder on a tree can end with, given the type names
    of the unhandled values of the tree and whether it holds a nil
    pointer. *)
Definition ends_within (others : list gostring) (nil : bool) (r : written) : Prop :=
  match r with
  | Written _ => True
  | Failed err =>
      exists T, In T others /\ err = UnsupportedType ("Unsupported value type: " ++ T)
  | Panicked => nil = true
  end.

Section EveryValueEncoded.
Context {L : GoLib}.

(** Induction on values, with the hypothesis for every element of an
    array or slice and every entry of a map. *)
Lemma any_value_ind' (P : any_value -> Prop) :
  P ANil -> (forall b, P (ABool b)) -> (forall f, P (AFloat64 f)) ->
  (forall s, P (AString s)) ->
  (forall a, Forall P a -> P (AArray a)) ->
  (forall m, Forall (fun kv => P (snd kv)) m -> P (AMap m)) ->
  (forall k n, P (AInteger k n)) -> (forall t, P (ATime t)) ->
  (forall ip, P (AIP ip)) -> (forall ip port, P (ATCPAddr ip port)) ->
  (forall a, P (ATCPAddrPtr a)) -> (forall ip port, P (AUDPAddr ip port)) ->
  (forall a, P (AUDPAddrPtr a)) ->
  (forall b, P (ABytes b)) -> (forall s, Forall P s -> P (ASlice s)) ->
  (forall T, P (AOther T)) ->
  forall v, P v.
Proof.
  intros Hnil Hbool Hf Hs Ha Hm Hi Ht Hip Htcp Htcpp Hudp Hudpp Hb Hsl Hu.
  fix IH 1.
  intros [ | b | f | s | a | m | k n | t | ip | ip port | a | ip port | a | b | s | T].
  - exact Hnil.
  - apply Hbool.
  - apply Hf.
  - apply Hs.
  - apply Ha. induction a as [|v a IHa]; constructor; [apply IH|exact IHa].
  - apply Hm. induction m as [|[k v] m IHm]; constructor; [apply IH|exact IHm].
  - apply Hi.
  - apply Ht.
  - apply Hip.
  - apply Htcp.
  - apply Htcpp.
  - apply Hudp.
  - apply Hudpp.
  - apply Hb.
  - apply Hsl. induction s as [|v s IHs]; constructor; [apply IH|exact IHs].
  - apply Hu.
Qed.

Lemma other_types_AMap m :
  other_types (AMap m) = flat_map (fun kv => other_types (snd kv)) m.
Proof.
  cbn [other_types]. induction m as [|[k v] m IH]; [reflexivity|].
  cbn [flat_map snd]. now rewrite IH.
Qed.

Lemma nil_pointer_AMap m :
  nil_pointer (AMap m) = existsb (fun kv => nil_pointer (snd kv)) m.
Proof.
  cbn [nil_pointer]. induction m as [|[k v] m IH]; [reflexivity|].
  cbn [existsb snd]. now rewrite IH.
Qed.

Lemma any_get_In m k : In k (map fst m) -> In (k, any_get m k) m.
Proof.
  induction m as [|[k' v] m IH]; simpl; [tauto|].
  destruct (String.eqb_spec k' k) as [->|Hne]; [now left|].
  intros [H|H]; [congruence|right; auto].
Qed.

Lemma any_encodeValue_AMap e level m :
  AnyEncoder.encodeValue e level (AMap m) =
  AnyEncoder.bracketed e level "{" "}"
    (map (fun k => AnyEncoder.pair e k
                     (AnyEncoder.encodeValue e (S level) (any_get m k)))
         (sort.Strings (map fst m))).
Proof.
  cbn [AnyEncoder.encodeValue]. unfold AnyEncoder.encodeMap_with. f_equal.
  apply map_ext. intros k. f_equal.
  induction m as [|[k' v] m IH]; simpl; [reflexivity|].
  destruct (String.eqb k' k); auto.
Qed.

Lemma any_elements_alike e e' level level' items items' :
  Forall2 alike items items' ->
  forall first first',
    alike (AnyEncoder.elements e level first items)
          (AnyEncoder.elements e' level' first' items').
Proof.
  induction 1 as [|item item' items items' Hi _ IH]; intros first first'.
  - exact I.
  - cbn [AnyEncoder.elements]. specialize (IH false false).
    destruct item, item'; try contradiction; try exact Hi.
    destruct (AnyEncoder.elements e level false items),
      (AnyEncoder.elements e' level' false items'); try contradiction; auto.
Qed.

Lemma any_bracketed_alike e e' level level' o c items items' :
  Forall2 alike items items' ->
  alike (AnyEncoder.bracketed e level o c items)
        (AnyEncoder.bracketed e' level' o c items').
Proof.
  intros H. unfold AnyEncoder.bracketed.
  pose proof (any_elements_alike e e' (S level) (S level') _ _ H true true) as Ha.
  destruct (AnyEncoder.elements e (S level) true items),
    (AnyEncoder.elements e' (S level') true items'); try contradiction; auto.
Qed.

Lemma Forall2_map_alike {A} (f g : A -> written) l :
  Forall (fun x => alike (f x) (g x)) l -> Forall2 alike (map f l) (map g l).
Proof. induction 1; simpl; constructor; auto. Qed.

(** How a run ends does not depend on the configuration or on the level. *)
Lemma any_encodeValue_alike v :
  forall e e' level level',
    alike (AnyEncoder.encodeValue e level v) (AnyEncoder.encodeValue e' level' v).
Proof.
  induction v as [ | | | | a IH | m IH | | | | | [[ip port]|] | | [[ip port]|] | | s IH | ]
    using any_value_ind';
    intros e e' level level'; try exact I; try reflexivity.
  - cbn [AnyEncoder.encodeValue]. apply any_bracketed_alike.
    apply Forall2_map_alike. eapply Forall_impl; [|exact IH]. auto.
  - rewrite !any_encodeValue_AMap. apply any_bracketed_alike.
    apply Forall2_map_alike. apply Forall_forall. intros k Hk.
    assert (Hin : In (k, any_get m k) m).
    { apply any_get_In. eapply Permutation_in;
        [apply Permutation_sym, Strings_perm|exact Hk]. }
    rewrite Forall_forall in IH.
    specialize (IH _ Hin e e' (S level) (S level')). cbn [snd] in IH.
    unfold AnyEncoder.pair.
    destruct (AnyEncoder.encodeValue e (S level) (any_get m k)),
      (AnyEncoder.encodeValue e' (S level') (any_get m k)); auto.
  - cbn [AnyEncoder.encodeValue]. apply any_bracketed_alike.
    apply Forall2_map_alike. eapply Forall_impl; [|exact IH]. auto.
Qed.

Lemma any_elements_ends e level others nil items :
  Forall (ends_within others nil) items ->
  forall first, ends_within others nil (AnyEncoder.elements e level first items).
Proof.
  induction 1 as [|item items Hi _ IH]; intros first.
  - exact I.
  - cbn [AnyEncoder.elements]. specialize (IH false).
    destruct item; [|exact Hi|exact Hi].
    destruct (AnyEncoder.elements e level false items); [exact I|exact IH|exact IH].
Qed.

Lemma any_bracketed_ends e level o c others nil items :
  Forall (ends_within others nil) items ->
  ends_within others nil (AnyEncoder.bracketed e level o c items).
Proof.
  intros H. unfold AnyEncoder.bracketed.
  pose proof (any_elements_ends e (S level) _ _ _ H true) as Hu.
  destruct (AnyEncoder.elements e (S level) true items); [exact I|exact Hu|exact Hu].
Qed.

Lemma ends_within_more others others' nil nil' r :
  (forall T, In T others -> In T others') -> (nil = true -> nil' = true) ->
  ends_within others nil r -> ends_within others' nil' r.
Proof.
  intros Ho Hn. destruct r; simpl; auto.
  intros (T & HT & ->). exists T. auto.
Qed.

(** The only error of the encoder is the one of the default case, for a
    value of the tree; its only panic is on a nil pointer of the tree. *)
Lemma any_encodeValue_ends v :
  forall e level,
    ends_within (other_types v) (nil_pointer v) (AnyEncoder.encodeValue e level v).
Proof.
  induction v as [ | | | | a IH | m IH | | | | | [[ip port]|] | | [[ip port]|] | | s IH | T]
    using any_value_ind';
    intros e level; try exact I; try reflexivity.
  - cbn [AnyEncoder.encodeValue]. apply any_bracketed_ends.
    apply Forall_map. rewrite Forall_forall in *. intros x Hx.
    apply (ends_within_more (other_types x) _ (nil_pointer x)); [| |apply IH; auto].
    + intros T HT. cbn [other_types]. apply in_flat_map. eauto.
    + intros Hn. cbn [nil_pointer]. apply existsb_exists. eauto.
  - rewrite any_encodeValue_AMap. apply any_bracketed_ends.
    apply Forall_map. apply Forall_forall. intros k Hk.
    assert (Hin : In (k, any_get m k) m).
    { apply any_get_In. eapply Permutation_in;
        [apply Permutation_sym, Strings_perm|exact Hk]. }
    rewrite Forall_forall in IH. specialize (IH _ Hin e (S level)).
    cbn [snd] in IH.
    assert (Hmore : ends_within (other_types (AMap m)) (nil_pointer (AMap m))
                      (AnyEncoder.encodeValue e (S level) (any_get m k))).
    { revert IH. apply ends_within_more.
      - intros T HT. rewrite other_types_AMap. apply in_flat_map.
        exists (k, any_get m k). auto.
      - intros Hn. rewrite nil_pointer_AMap. apply existsb_exists.
        exists (k, any_get m k). auto. }
    unfold AnyEncoder.pair.
    destruct (AnyEncoder.encodeValue e (S level) (any_get m k));
      [exact I|exact Hmore|exact Hmore].
  - cbn [AnyEncoder.encodeValue]. apply any_bracketed_ends.
    apply Forall_map. rewrite Forall_forall in *. intros x Hx.
    apply (ends_within_more (other_types x) _ (nil_pointer x)); [| |apply IH; auto].
    + intros T HT. cbn [other_types]. apply in_flat_map. eauto.
    + intros Hn. cbn [nil_pointer]. apply existsb_exists. eauto.
  - exists T. split; [now left|reflexivity].
Qed.

(** A tree of handled values without a nil pointer is written. *)
Lemma any_encodeValue_written v e level :
  other_types v = [] -> nil_pointer v = false ->
  exists out, AnyEncoder.encodeValue e level v = Written out.
Proof.
  intros Ho Hn. pose proof (any_encodeValue_ends v e level) as H.
  rewrite Ho, Hn in H.
  destruct (AnyEncoder.encodeValue e level v) as [out|err|]; simpl in H.
  - eauto.
  - destruct H as (T & [] & _).
  - discriminate.
Qed.

Lemma any_elements_of e level items :
  forall first,
    AnyEncoder.elements e level first (map written_of items) =
    written_of (Encoder.elements e level first items).
Proof.
  induction items as [|item items IH]; intros first; [reflexivity|].
  cbn [map AnyEncoder.elements Encoder.elements]. rewrite IH.
  destruct item; [|reflexivity].
  cbn [written_of]. destruct (Encoder.elements e level false items); reflexivity.
Qed.

Lemma any_bracketed_of e level o c items :
  AnyEncoder.bracketed e level o c (map written_of items) =
  written_of (Encoder.bracketed e level o c items).
Proof.
  unfold AnyEncoder.bracketed, Encoder.bracketed. rewrite any_elements_of.
  destruct (Encoder.elements e (S level) true items); reflexivity.
Qed.

Lemma any_of_VMap m :
  any_of (VMap m) = AMap (map (fun kv => (fst kv, any_of (snd kv))) m).
Proof.
  cbn [any_of]. f_equal. induction m as [|[k v] m IH]; [reflexivity|].
  cbn [map fst snd]. now rewrite IH.
Qed.

Lemma any_get_of m k :
  any_get (map (fun kv => (fst kv, any_of (snd kv))) m) k = any_of (map_get m k).
Proof.
  induction m as [|[k' v] m IH]; [reflexivity|].
  cbn [map fst snd any_get map_get]. destruct (String.eqb k' k); auto.
Qed.

(** On the values of the decoder the type switch is the one of
    [Encoder.encodeValue]. *)
Lemma any_encodeValue_of v :
  forall e level,
    AnyEncoder.encodeValue e level (any_of v) =
    written_of (Encoder.encodeValue e level v).
Proof.
  induction v as [ | | | | a IH | m IH | | | | | | T] using value_ind';
    intros e level; try reflexivity.
  - rewrite encodeValue_VArray, <- any_bracketed_of.
    cbn [any_of AnyEncoder.encodeValue]. unfold AnyEncoder.encodeArray_with.
    f_equal. rewrite !map_map. apply map_ext_Forall.
    eapply Forall_impl; [|exact IH]. auto.
  - rewrite encodeValue_VMap, <- any_bracketed_of, any_of_VMap.
    rewrite any_encodeValue_AMap. f_equal.
    rewrite !map_map. cbn [fst].
    apply map_ext_in. intros k Hk. rewrite any_get_of.
    assert (Hin : In (k, map_get m k) m).
    { apply map_get_In. eapply Permutation_in;
        [apply Permutation_sym, Strings_perm|exact Hk]. }
    rewrite Forall_forall in IH. specialize (IH _ Hin e (S level)).
    cbn [snd] in IH. rewrite IH.
    unfold AnyEncoder.pair, Encoder.pair.
    destruct (Encoder.encodeValue e (S level) (map_get m k)); reflexivity.
Qed.

End EveryValueEncoded.

(** X5.  Marshal and MarshalIndent on any value: a tree whose values all
    have a type of the type switch of encodeValue, or are slices, and that
    holds no nil pointer to an address, is written, whatever the strings,
    numbers, prefix and indent.  When one of the two fails, the error is
    "Unsupported value type:" followed by the type of a value of the tree
    that is neither; when one panics, the tree holds a nil pointer.
    MarshalIndent fails exactly when Marshal does, with the same error,
    and panics exactly when Marshal does.  On the values of the decoder
    the two are [Marshal] and [MarshalIndent] of above. *)
Theorem Marshal_fails_only_on_unsupported_type :
  forall (L : GoLib) (v : any_value) (prefix indent : gostring),
    (other_types v = [] -> nil_pointer v = false ->
     exists out out',
       AnyEncoder.Marshal v = Written out /\
       AnyEncoder.MarshalIndent v prefix indent = Written out') /\
    (forall err,
       AnyEncoder.Marshal v = Failed err \/
       AnyEncoder.MarshalIndent v prefix indent = Failed err ->
       exists T, In T (other_types v) /\
                 err = UnsupportedType ("Unsupported value type: " ++ T)) /\
    (AnyEncoder.Marshal v = Panicked \/
     AnyEncoder.MarshalIndent v prefix indent = Panicked ->
     nil_pointer v = true) /\
    (forall err,
       AnyEncoder.Marshal v = Failed err <->
       AnyEncoder.MarshalIndent v prefix indent = Failed err) /\
    (AnyEncoder.Marshal v = Panicked <->
     AnyEncoder.MarshalIndent v prefix indent = Panicked) /\
    (forall w : value,
       AnyEncoder.Marshal (any_of w) = written_of (Marshal w) /\
       AnyEncoder.MarshalIndent (any_of w) prefix indent =
         written_of (MarshalIndent w prefix indent)).
Proof.
  intros L v prefix indent. unfold AnyEncoder.Marshal, AnyEncoder.MarshalIndent.
  set (c := {| Encoder.pretty := false; Encoder.prefix := EmptyString;
               Encoder.indent := EmptyString |}).
  set (p := {| Encoder.pretty := true; Encoder.prefix := prefix;
               Encoder.indent := indent |}).
  pose proof (any_encodeValue_ends v c 0) as Hc.
  pose proof (any_encodeValue_ends v p 0) as Hp.
  pose proof (any_encodeValue_alike v c p 0 0) as Ha.
  split; [|split; [|split; [|split; [|split]]]].
  - intros Ho Hn.
    destruct (any_encodeValue_written v c 0 Ho Hn) as (out & ->).
    destruct (any_encodeValue_written v p 0 Ho Hn) as (out' & ->). eauto.
  - intros err [H|H]; rewrite H in *; assumption.
  - intros [H|H]; rewrite H in *; assumption.
  - intros err.
    destruct (AnyEncoder.encodeValue c 0 v), (AnyEncoder.encodeValue p 0 v);
      try contradiction; try (split; discriminate).
    cbn [alike] in Ha. subst. reflexivity.
  - destruct (AnyEncoder.encodeValue c 0 v), (AnyEncoder.encodeValue p 0 v);
      try contradiction; try (split; discriminate).
    split; reflexivity.
  - intros w. unfold Marshal, MarshalIndent. split; apply any_encodeValue_of.
Qed.

(** [Marshal_fails_only_on_unsupported_type] at a map with a slice of
    strings and a pointer to an address, at an array that holds a channel
    and at a slice that holds a nil pointer. *)
Lemma Marshal_fails_only_on_unsupported_type_witness :
  (exists out out',
     AnyEncoder.Marshal (L := GoRef.lib)
       (AMap [("a", ASlice [AString "x"; AString "y"]);
              ("b", ATCPAddrPtr (Some ("127.0.0.1" : @IP GoRef.lib, 80%Z)))]) = Written out /\
     AnyEncoder.MarshalIndent (L := GoRef.lib)
       (AMap [("a", ASlice [AString "x"; AString "y"]);
              ("b", ATCPAddrPtr (Some ("127.0.0.1" : @IP GoRef.lib, 80%Z)))])
       " " "  " = Written out') /\
  (exists T, In T (other_types (L := GoRef.lib) (AArray [ANil; AOther "chan int"])) /\
             UnsupportedType "Unsupported value type: chan int" =
             UnsupportedType ("Unsupported value type: " ++ T)) /\
  nil_pointer (L := GoRef.lib) (ASlice [AUDPAddrPtr None]) = true.
Proof.
  split; [|split].
  - apply (Marshal_fails_only_on_unsupported_type GoRef.lib
             (AMap [("a", ASlice [AString "x"; AString "y"]);
                    ("b", ATCPAddrPtr (Some ("127.0.0.1" : @IP GoRef.lib, 80%Z)))])
             " " "  "); reflexivity.
  - apply (Marshal_fails_only_on_unsupported_type GoRef.lib
             (AArray [ANil; AOther "chan int"]) "" "").
    left. reflexivity.
  - apply (Marshal_fails_only_on_unsupported_type GoRef.lib
             (ASlice [AUDPAddrPtr None]) "" "").
    left. reflexivity.
Defined.

(** ** Edges of the number scanner *)

Section NumberEdges.
Context {L : GoLib}.
Variable data : list byte.

Lemma digit_is_not (c x : byte) :
  is_digit c = true -> is_digit x = false -> Ascii.eqb c x = false.
Proof.
  intros Hc Hx. destruct (Ascii.eqb_spec c x) as [->|]; [congruence|reflexivity].
Qed.

Lemma next_in_range pos c :
  nth_error data (S pos) = Some c -> Decoder.next data pos = Ok c (S pos).
Proof.
  intros Hc. unfold Decoder.next.
  assert (Hlt : S pos < Decoder.end_ data) by (apply nth_error_Some; congruence).
  destruct (Nat.ltb_spec pos (Decoder.end_ data)); [|lia].
  destruct (Nat.ltb_spec (S pos) (Decoder.end_ data)); [|lia].
  unfold Decoder.index. now rewrite Hc.
Qed.

(** A literal that starts with 0 ends after the 0, unless a point or an
    exponent follows it. *)
Lemma number_zero pos c :
  nth_error data pos = Some "0"%char ->
  nth_error data (S pos) = Some c ->
  (Ascii.eqb c "." || Ascii.eqb c "e" || Ascii.eqb c "E")%bool = false ->
  Decoder.number data pos = Ok f64_zero (S pos).
Proof.
  intros H0 Hc Hn.
  apply orb_false_iff in Hn. destruct Hn as [Hn HE].
  apply orb_false_iff in Hn. destruct Hn as [Hp He].
  unfold Decoder.number, Decoder.number_scan, Decoder.index. rewrite H0.
  cbv beta iota. unfold Decoder.number_digits.
  change (Ascii.eqb "0" "0") with true. cbv iota.
  rewrite (next_in_range pos c Hc). cbn [snd fst].
  unfold Decoder.number_fraction. rewrite Hp. cbn [snd fst].
  unfold Decoder.number_exponent. rewrite He, HE. reflexivity.
Qed.

Lemma skip_digits_ok fuel c pos :
  pos <= Decoder.end_ data -> S (Decoder.end_ data - pos) <= fuel ->
  exists c' p, Decoder.skip_digits data fuel c pos = Ok c' p /\
               pos <= p <= Decoder.end_ data.
Proof.
  revert c pos. induction fuel as [|fuel IH]; intros c pos Hle Hfuel; [lia|].
  cbn [Decoder.skip_digits]. destruct (is_digit c) eqn:Hd; [|eauto].
  destruct (next_spec data pos Hle) as (c' & p & -> & Hp & Hnext & Hin & Hend).
  destruct (Nat.eq_dec pos (Decoder.end_ data)) as [->|Hne].
  - assert (p = Decoder.end_ data) by lia. subst p. rewrite (Hend eq_refl).
    destruct fuel; cbn [Decoder.skip_digits];
      change (is_digit NUL) with false; cbv iota; eauto.
  - rewrite Hnext in * by lia.
    destruct (IH c' (S pos)) as (c2 & p2 & -> & Hp2); [lia|lia|].
    exists c2, p2. split; [reflexivity|lia].
Qed.

(** The phase of the fraction fails only at the end of the input: its
    guard holds for no byte, and the byte after the point is passed over
    whatever it is. *)
Lemma number_fraction_passes pos c :
  nth_error data pos = Some "."%char ->
  nth_error data (S pos) = Some c ->
  exists c' p, Decoder.number_fraction data "." pos = Ok (true, c') p /\
               S (S pos) <= p <= length data.
Proof.
  intros Hp Hc. unfold Decoder.number_fraction.
  change (Ascii.eqb "." ".") with true. cbv iota zeta.
  assert (Hlt : S pos < Decoder.end_ data) by (apply nth_error_Some; congruence).
  destruct (Nat.leb_spec (Decoder.end_ data) (S pos)); [lia|].
  unfold Decoder.index. rewrite Hc. cbv beta iota.
  rewrite sign_guard_never_holds.
  destruct (next_spec data (S pos) ltac:(lia)) as (c1 & p1 & -> & Hp1 & Hn1 & _).
  cbv beta iota. specialize (Hn1 Hlt). subst p1.
  destruct (skip_digits_ok (S (Decoder.end_ data - S (S pos))) c1 (S (S pos))
              ltac:(lia) (le_n _)) as (c' & p & -> & Hb).
  exists c', p. split; [reflexivity|exact Hb].
Qed.

Lemma number_fraction_error c pos e p :
  Decoder.number_fraction data c pos = Err e p ->
  c = "."%char /\ e = ErrUnexpectedEOF /\ p = S pos /\ length data <= S pos.
Proof.
  unfold Decoder.number_fraction.
  destruct (Ascii.eqb_spec c "."); [subst c|discriminate]. cbv zeta.
  destruct (Nat.leb_spec (Decoder.end_ data) (S pos)) as [Hle|Hlt].
  { intros [= <- <-]. auto. }
  destruct (index_some data (S pos) (S pos) Hlt) as (c1 & _ & ->). cbv beta iota.
  rewrite sign_guard_never_holds.
  destruct (next_spec data (S pos) ltac:(lia)) as (c2 & p2 & -> & Hp2 & _).
  cbv beta iota.
  destruct (skip_digits_ok (S (Decoder.end_ data - p2)) c2 p2
              ltac:(lia) (le_n _)) as (c' & p' & -> & _).
  discriminate.
Qed.

End NumberEdges.

(** X6.  A numeric literal that starts with 0 is the number 0 and ends
    right after the 0 when a digit follows: the digit is not part of the
    literal.  At the top level the input then decodes to 0 together with an
    ExtraDataError at offset 1, so [012] is not the number 12. *)
Theorem leading_zero_ends_the_number :
  forall (L : GoLib) (data : list byte) (fuel pos : nat) (c : byte),
    nth_error data pos = Some "0"%char ->
    nth_error data (S pos) = Some c ->
    is_digit c = true ->
    Decoder.any data (S fuel) pos = Ok (VFloat64 f64_zero) (S pos) /\
    (pos = 0 ->
     Decode data = Returns (VFloat64 f64_zero) (Some (ExtraDataError 1))).
Proof.
  intros L data fuel pos c H0 Hc Hd.
  assert (Hany : forall fuel,
            Decoder.any data (S fuel) pos = Ok (VFloat64 f64_zero) (S pos)).
  { intros f. rewrite any_S. cbv zeta.
    assert (Hlt : pos < Decoder.end_ data) by (apply nth_error_Some; congruence).
    destruct (Nat.leb_spec (Decoder.end_ data) pos); [lia|].
    unfold Decoder.index. rewrite H0. cbv beta iota.
    change (Ascii.eqb "0" QUOTE) with false. change (is_digit "0") with true.
    cbv iota. rewrite (number_zero data pos c H0 Hc); [reflexivity|].
    rewrite !(digit_is_not c) by (assumption || reflexivity). reflexivity. }
  split; [apply Hany|]. intros ->.
  assert (Hsp : Decoder.is_space c = false).
  { unfold Decoder.is_space.
    rewrite !(digit_is_not c) by (assumption || reflexivity). reflexivity. }
  destruct data as [|z [|c' rest]]; try discriminate.
  injection H0 as ->. injection Hc as ->.
  pose proof (skipSpaces_here [] "0"%char (c :: rest) eq_refl) as Hs0.
  pose proof (skipSpaces_here ["0"%char] c rest Hsp) as Hs1.
  cbn [app length] in Hs0, Hs1.
  unfold Decode, Decode_fuel. rewrite Hs0.
  unfold enough. cbn [length Nat.mul Nat.add]. rewrite Hany.
  unfold finish. rewrite Hs1. reflexivity.
Qed.

(** [leading_zero_ends_the_number] at the input [012]. *)
Lemma leading_zero_ends_the_number_witness :
  Decoder.any (L := GoRef.lib) (bytes_of "012") 1 0 = Ok (VFloat64 f64_zero) 1 /\
  (0 = 0 ->
   Decode (L := GoRef.lib) (bytes_of "012") =
   Returns (VFloat64 f64_zero) (Some (ExtraDataError 1))).
Proof.
  exact (leading_zero_ends_the_number GoRef.lib (bytes_of "012") 0 0 "1"%char
           eq_refl eq_refl eq_refl).
Defined.

(** X7.  After a decimal point the scanner checks nothing: when a byte
    follows the point, the phase of the fraction succeeds and passes over
    that byte whatever it is, and its only failure is the unexpected end of
    input when the point is the last byte.  The error "after decimal point
    in numeric literal" is never returned; a literal such as [1.]] in an
    array is rejected, or not, by the float parser, which is given the text
    with the byte after the point in it. *)
Theorem byte_after_point_is_not_checked :
  forall (L : GoLib) (data : list byte) (pos : nat) (c : byte),
    nth_error data pos = Some "."%char ->
    nth_error data (S pos) = Some c ->
    (exists c' p, Decoder.number_fraction data "." pos = Ok (true, c') p /\
                  S (S pos) <= p <= length data) /\
    (forall b e p, Decoder.number_fraction data b pos = Err e p ->
                   e = ErrUnexpectedEOF) /\
    (forall d, is_digit d = true -> data = [d; "."%char; c] ->
       Decode data =
       match ParseFloat (String d (String "." (String c EmptyString))) with
       | inl f => Returns (VFloat64 f) None
       | inr msg => Returns VNil (Some (SyntaxError msg 3))
       end).
Proof.
  intros L data pos c Hp Hc. split; [|split].
  - exact (number_fraction_passes data pos c Hp Hc).
  - intros b e p H. apply number_fraction_error in H. tauto.
  - intros d Hd ->.
    assert (Hscan : exists n, Decoder.number_scan [d; "."%char; c] 0 = Ok (n, true) 3).
    { unfold Decoder.number_scan, Decoder.index. cbn [nth_error].
      assert (Hdig : exists n, Decoder.number_digits [d; "."%char; c] d 0 =
                               Ok (n, "."%char) 1).
      { unfold Decoder.number_digits.
        destruct (Ascii.eqb_spec d "0") as [|Hz]; [eexists; reflexivity|].
        destruct (inrange "1" "9" d) eqn:Hr.
        - cbn [Decoder.digits_loop Decoder.end_ length Nat.sub]. rewrite Hd.
          cbn [Decoder.next Decoder.end_ length Nat.ltb Nat.leb Decoder.index
                 nth_error].
          change (is_digit ".") with false. cbv iota. eexists; reflexivity.
        - exfalso. destruct (digit_cases d Hd) as [H|H]; [|congruence].
          apply Ascii.eqb_eq in H. contradiction. }
      destruct Hdig as (n & ->). cbn [snd fst].
      exists n. unfold Decoder.number_fraction.
      change (Ascii.eqb "." ".") with true. cbv iota zeta.
      cbn [Decoder.end_ length Nat.leb Decoder.index nth_error].
      rewrite sign_guard_never_holds.
      cbn [Decoder.next Decoder.end_ length Nat.ltb Nat.leb Nat.sub
             Decoder.skip_digits].
      change (is_digit NUL) with false. cbv iota. cbn [snd fst].
      reflexivity. }
    destruct Hscan as (n & Hscan).
    assert (Hsp : Decoder.is_space d = false).
    { unfold Decoder.is_space.
      rewrite !(digit_is_not d) by (assumption || reflexivity). reflexivity. }
    assert (Hq : Ascii.eqb d QUOTE = false) by (apply digit_is_not; auto).
    pose proof (skipSpaces_here [] d ["."%char; c] Hsp) as Hs0.
    cbn [app length] in Hs0.
    unfold Decode, Decode_fuel. rewrite Hs0.
    unfold enough. cbn [length Nat.mul Nat.add]. rewrite any_S. cbv zeta.
    cbn [Decoder.end_ length Nat.leb Decoder.index nth_error].
    rewrite Hq, Hd. rewrite (number_of_scan _ _ _ _ _ Hscan).
    cbn [Nat.sub skipn firstn string_of_list_ascii].
    destruct (ParseFloat _); [|reflexivity].
    cbn [fmap finish].
    change 3 with (length [d; "."%char; c]). rewrite skipSpaces_at_end.
    cbn [length Decoder.end_]. reflexivity.
Qed.

(** [byte_after_point_is_not_checked] at the input [1.]]. *)
Lemma byte_after_point_is_not_checked_witness :
  (exists c' p,
     Decoder.number_fraction (L := GoRef.lib) (bytes_of "1.]") "." 1 = Ok (true, c') p /\
     3 <= p <= 3) /\
  Decode (L := GoRef.lib) (bytes_of "1.]") =
  Returns VNil
    (Some (SyntaxError (strconv.NumError "ParseFloat" "1.]" strconv.ErrSyntax) 3)).
Proof.
  destruct (byte_after_point_is_not_checked GoRef.lib (bytes_of "1.]") 1 "]"%char
              eq_refl eq_refl) as (H1 & _ & H3).
  split; [exact H1|exact (H3 "1"%char eq_refl eq_refl)].
Defined.

(** ** Layout *)

(** What may stand after a value: the end of the input, a space or a
    delimiter. *)
Definition follows (post : list byte) : Prop :=
  match post with
  | [] => True
  | c :: _ => Decoder.is_space c = true \/ delimiter c = true
  end.

(** The input holds [s] from the position [p] on. *)
Definition at_ (data : list byte) (p : nat) (s : list byte) : Prop :=
  exists pre, data = (pre ++ s)%list /\ length pre = p.

Section Layout.
Context {L : GoLib}.
Local Open Scope list_scope.

(** [obj[k] = v] for the pairs of a list, from the first to the last. *)
Definition assign (obj kvs : list (gostring * value)) : list (gostring * value) :=
  fold_left (fun m kv => map_set m (fst kv) (snd kv)) kvs obj.

(** [any] reads the value [v] from the text [txt], wherever the text
    stands. *)
Definition reads (txt : list byte) (v : value) : Prop :=
  forall pre post, follows post ->
  exists fuel0, forall fuel, fuel0 <= fuel ->
    Decoder.any (pre ++ txt ++ post) fuel (length pre) =
    Ok v (length pre + length txt).

(** [objectKey] reads the key [k] from the text [txt]. *)
Definition reads_key (txt : list byte) (k : gostring) : Prop :=
  forall pre post, ends_atom post ->
    Decoder.objectKey (pre ++ txt ++ post) (length pre) =
    Ok k (length pre + length txt).

(** The text of an array after its opening bracket, or after a comma, with
    the values of its elements: spaces may stand around every element, and
    a comma may stand after the last one. *)
Inductive array_rest : list byte -> list value -> Prop :=
| rest_close ws :
    blank ws -> array_rest (ws ++ ["]"%char]) []
| rest_last ws t v ws' :
    blank ws -> reads t v -> blank ws' ->
    array_rest (ws ++ t ++ ws' ++ ["]"%char]) [v]
| rest_more ws t v ws' txt vs :
    blank ws -> reads t v -> blank ws' -> array_rest txt vs ->
    array_rest (ws ++ t ++ ws' ++ ","%char :: txt) (v :: vs).

(** The text of an object after its opening brace, or after a comma, with
    its keys and values in the order of the text. *)
Inductive object_rest : list byte -> list (gostring * value) -> Prop :=
| orest_close ws :
    blank ws -> object_rest (ws ++ ["}"%char]) []
| orest_last ws kt k ws1 ws2 t v ws3 :
    blank ws -> reads_key kt k -> blank ws1 -> blank ws2 -> reads t v ->
    blank ws3 ->
    object_rest (ws ++ kt ++ ws1 ++ ":"%char :: ws2 ++ t ++ ws3 ++ ["}"%char])
                [(k, v)]
| orest_more ws kt k ws1 ws2 t v ws3 txt kvs :
    blank ws -> reads_key kt k -> blank ws1 -> blank ws2 -> reads t v ->
    blank ws3 -> object_rest txt kvs ->
    object_rest (ws ++ kt ++ ws1 ++ ":"%char :: ws2 ++ t ++ ws3 ++ ","%char :: txt)
                ((k, v) :: kvs).

Lemma at_app data p a b : at_ data p (a ++ b) -> at_ data (p + length a) b.
Proof.
  intros (pre & -> & <-). exists (pre ++ a). split.
  - now rewrite <- app_assoc.
  - apply length_app.
Qed.

Lemma at_cons data p c b : at_ data p (c :: b) -> at_ data (S p) b.
Proof.
  intros H. replace (S p) with (p + length [c]) by (simpl; lia).
  apply at_app. exact H.
Qed.

Lemma at_bound data p s : at_ data p s -> p + length s = length data.
Proof. intros (pre & -> & <-). now rewrite length_app. Qed.

Lemma skipSpaces_at data p ws rest :
  at_ data p (ws ++ rest) -> blank ws -> starts_nonspace rest ->
  Decoder.skipSpaces data p = Ok (hd NUL rest) (p + length ws).
Proof.
  intros (pre & -> & <-) Hws Hrest. now apply skipSpaces_run.
Qed.

Lemma reads_at txt v data p post :
  reads txt v -> at_ data p (txt ++ post) -> follows post ->
  exists fuel0, forall fuel, fuel0 <= fuel ->
    Decoder.any data fuel p = Ok v (p + length txt).
Proof. intros Hr (pre & -> & <-) Hpost. now apply Hr. Qed.

Lemma reads_key_at txt k data p post :
  reads_key txt k -> at_ data p (txt ++ post) -> ends_atom post ->
  Decoder.objectKey data p = Ok k (p + length txt).
Proof. intros Hr (pre & -> & <-) Hpost. now apply Hr. Qed.

(** A text that is read is not empty, and begins with neither a space nor
    a delimiter. *)
Lemma reads_head txt v :
  reads txt v ->
  exists c t, txt = c :: t /\ Decoder.is_space c = false /\ delimiter c = false.
Proof.
  intros Hr. destruct (Hr [] [] I) as (f0 & Hf0).
  specialize (Hf0 f0 (le_n _)). rewrite app_nil_r in Hf0. cbn [app length] in Hf0.
  destruct (any_Ok_head _ _ _ _ _ Hf0) as (c & Hc & Hsp & Hdel).
  destruct txt as [|c0 t]; [discriminate|]. injection Hc as ->. eauto.
Qed.

(** The text of a key is not empty, and begins with a quote or with the
    first byte of a bareword. *)
Lemma reads_key_head txt k :
  reads_key txt k ->
  exists c t, txt = c :: t /\ Decoder.is_space c = false /\ Ascii.eqb c "}" = false.
Proof.
  intros Hr. specialize (Hr [] [] I). rewrite app_nil_r in Hr.
  cbn [app length] in Hr. unfold Decoder.objectKey in Hr.
  destruct (Decoder.end_ txt <=? 0) eqn:E; [discriminate|].
  destruct txt as [|c t]; [discriminate|]. exists c, t. split; [reflexivity|].
  unfold Decoder.index in Hr. cbn [nth_error] in Hr.
  destruct (Ascii.eqb_spec c QUOTE) as [->|Hq]; [split; reflexivity|].
  unfold Decoder.atom in Hr.
  destruct (0 <? Decoder.end_ (c :: t)); [|unfold Decoder.error in Hr;
    destruct (_ <? _); discriminate].
  unfold Decoder.index in Hr. cbn [nth_error] in Hr.
  destruct (Decoder.is_atom_start c) eqn:Hs;
    [|unfold Decoder.error in Hr; destruct (_ <? _); discriminate].
  split.
  - destruct (Decoder.is_space c) eqn:Es; [exfalso|reflexivity].
    unfold Decoder.is_space in Es. rewrite !orb_true_iff, !Ascii.eqb_eq in Es.
    destruct Es as [[[->| ->]| ->]| ->]; discriminate.
  - destruct (Ascii.eqb_spec c "}"); [subst; discriminate|reflexivity].
Qed.

Lemma follows_blank ws d post :
  blank ws -> delimiter d = true -> follows (ws ++ d :: post).
Proof.
  intros Hws Hd. destruct ws as [|w ws]; simpl; [now right|].
  inversion Hws; subst. now left.
Qed.

Lemma blank_ends_atom ws d post :
  blank ws -> delimiter d = true -> ends_atom (ws ++ d :: post).
Proof.
  intros Hws Hd. destruct ws as [|w ws]; simpl.
  - now apply delimiter_not_atom_char.
  - inversion Hws as [|? ? Hw _]; subst.
    unfold Decoder.is_space in Hw. rewrite !orb_true_iff, !Ascii.eqb_eq in Hw.
    destruct Hw as [[[->| ->]| ->]| ->]; reflexivity.
Qed.

Lemma starts_nonspace_cons c rest :
  Decoder.is_space c = false -> starts_nonspace (c :: rest).
Proof. intros H. exact H. Qed.

(** The loop of [array] on the text of an array. *)
Lemma array_rest_scan txt vs :
  array_rest txt vs ->
  forall data p post acc,
    at_ data p (txt ++ post) ->
    exists fuel0, forall fuel, fuel0 <= fuel ->
      Decoder.array_scan data fuel acc p = Ok (acc ++ vs) (p + length txt).
Proof.
  induction 1 as [ws Hws|ws t v ws' Hws Ht Hws'|ws t v ws' txt vs Hws Ht Hws' Hrest IH];
    intros data p post acc Hat.
  - rewrite <- app_assoc in Hat. cbn [app] in Hat.
    exists 1. intros [|fuel] Hle; [lia|].
    rewrite array_scan_S; cbv zeta.
    rewrite (skipSpaces_at _ _ _ _ Hat Hws) by reflexivity. cbn [hd].
    change (Ascii.eqb "]" "]") with true. cbv iota.
    rewrite app_nil_r, length_app. cbn [length]. f_equal. lia.
  - rewrite <- !app_assoc in Hat. cbn [app] in Hat.
    destruct (reads_head t v Ht) as (c & t' & Et & Hsp & Hdel).
    assert (Hc : Ascii.eqb c "]" = false).
    { unfold delimiter in Hdel. rewrite !orb_false_iff in Hdel. tauto. }
    pose proof (at_app _ _ _ _ Hat) as Hat1.
    destruct (reads_at t v data _ _ Ht Hat1) as (f0 & Hf0).
    { apply follows_blank; [exact Hws'|reflexivity]. }
    pose proof (at_app _ _ _ _ Hat1) as Hat2.
    exists (S f0). intros [|fuel] Hle; [lia|].
    rewrite array_scan_S; cbv zeta.
    rewrite (skipSpaces_at _ _ _ _ Hat Hws) by (rewrite Et; exact Hsp).
    rewrite Et at 1. cbn [hd app]. rewrite Hc, (Hf0 fuel ltac:(lia)).
    rewrite (skipSpaces_at _ _ _ _ Hat2 Hws') by reflexivity. cbn [hd].
    change (Ascii.eqb "]" ",") with false. change (Ascii.eqb "]" "]") with true.
    cbv iota. f_equal. repeat (rewrite !length_app; cbn [length]). lia.
  - rewrite <- !app_assoc in Hat. cbn [app] in Hat.
    destruct (reads_head t v Ht) as (c & t' & Et & Hsp & Hdel).
    assert (Hc : Ascii.eqb c "]" = false).
    { unfold delimiter in Hdel. rewrite !orb_false_iff in Hdel. tauto. }
    pose proof (at_app _ _ _ _ Hat) as Hat1.
    destruct (reads_at t v data _ _ Ht Hat1) as (f0 & Hf0).
    { apply follows_blank; [exact Hws'|reflexivity]. }
    pose proof (at_app _ _ _ _ Hat1) as Hat2.
    pose proof (at_cons _ _ _ _ (at_app _ _ _ _ Hat2)) as Hat3.
    destruct (IH data _ post (acc ++ [v]) Hat3) as (f1 & Hf1).
    exists (S (Nat.max f0 f1)). intros [|fuel] Hle; [lia|].
    rewrite array_scan_S; cbv zeta.
    rewrite (skipSpaces_at _ _ _ _ Hat Hws) by (rewrite Et; exact Hsp).
    rewrite Et at 1. cbn [hd app]. rewrite Hc, (Hf0 fuel ltac:(lia)).
    rewrite (skipSpaces_at _ _ _ _ Hat2 Hws') by reflexivity. cbn [hd].
    change (Ascii.eqb "," ",") with true. cbv iota.
    rewrite (Hf1 fuel ltac:(lia)). rewrite <- app_assoc. cbn [app].
    f_equal. repeat (rewrite !length_app; cbn [length]). lia.
Qed.

(** The loop of [object] on the text of an object. *)
Lemma object_rest_scan txt kvs :
  object_rest txt kvs ->
  forall data p post obj,
    at_ data p (txt ++ post) ->
    exists fuel0, forall fuel, fuel0 <= fuel ->
      Decoder.object_scan data fuel obj p = Ok (assign obj kvs) (p + length txt).
Proof.
  induction 1 as [ws Hws
                 |ws kt k ws1 ws2 t v ws3 Hws Hkt Hws1 Hws2 Ht Hws3
                 |ws kt k ws1 ws2 t v ws3 txt kvs Hws Hkt Hws1 Hws2 Ht Hws3 Hrest IH];
    intros data p post obj Hat.
  - rewrite <- app_assoc in Hat. cbn [app] in Hat.
    exists 1. intros [|fuel] Hle; [lia|].
    rewrite object_scan_S; cbv zeta.
    rewrite (skipSpaces_at _ _ _ _ Hat Hws) by reflexivity. cbn [hd].
    change (Ascii.eqb "}" "}") with true. cbv iota.
    rewrite length_app. cbn [length assign fold_left]. f_equal. lia.
  - assert (Hat0 : at_ data p (ws ++ kt ++ ws1 ++ ":"%char :: ws2 ++ t ++ ws3 ++
                                 "}"%char :: post)).
    { repeat (rewrite <- ?app_assoc in Hat; cbn [app] in Hat). exact Hat. }
    destruct (reads_key_head kt k Hkt) as (c0 & kt' & Ekt & Hsp0 & Hbr0).
    destruct (reads_head t v Ht) as (c & t' & Et & Hsp & Hdel).
    pose proof (at_app _ _ _ _ Hat0) as Hat1.
    pose proof (at_app _ _ _ _ Hat1) as Hat2.
    pose proof (at_cons _ _ _ _ (at_app _ _ _ _ Hat2)) as Hat3.
    pose proof (at_app _ _ _ _ Hat3) as Hat4.
    pose proof (at_app _ _ _ _ Hat4) as Hat5.
    destruct (reads_at t v data _ _ Ht Hat4) as (f0 & Hf0).
    { apply follows_blank; [exact Hws3|reflexivity]. }
    exists (S f0). intros [|fuel] Hle; [lia|].
    rewrite object_scan_S; cbv zeta.
    rewrite (skipSpaces_at _ _ _ _ Hat0 Hws) by (rewrite Ekt; exact Hsp0).
    rewrite Ekt at 1. cbn [hd app]. rewrite Hbr0.
    rewrite (reads_key_at kt k data _ _ Hkt Hat1)
      by (apply blank_ends_atom; [exact Hws1|reflexivity]).
    rewrite (skipSpaces_at _ _ _ _ Hat2 Hws1) by reflexivity. cbn [hd].
    change (negb (Ascii.eqb ":" ":")) with false. cbv iota.
    rewrite (skipSpaces_at _ _ _ _ Hat3 Hws2) by (rewrite Et; exact Hsp).
    rewrite (Hf0 fuel ltac:(lia)).
    rewrite (skipSpaces_at _ _ _ _ Hat5 Hws3) by reflexivity. cbn [hd].
    change (Ascii.eqb "}" "}") with true. cbv iota.
    cbn [assign fold_left fst snd]. f_equal.
    repeat (rewrite !length_app; cbn [length]). lia.
  - assert (Hat0 : at_ data p (ws ++ kt ++ ws1 ++ ":"%char :: ws2 ++ t ++ ws3 ++
                                 ","%char :: txt ++ post)).
    { repeat (rewrite <- ?app_assoc in Hat; cbn [app] in Hat). exact Hat. }
    destruct (reads_key_head kt k Hkt) as (c0 & kt' & Ekt & Hsp0 & Hbr0).
    destruct (reads_head t v Ht) as (c & t' & Et & Hsp & Hdel).
    pose proof (at_app _ _ _ _ Hat0) as Hat1.
    pose proof (at_app _ _ _ _ Hat1) as Hat2.
    pose proof (at_cons _ _ _ _ (at_app _ _ _ _ Hat2)) as Hat3.
    pose proof (at_app _ _ _ _ Hat3) as Hat4.
    pose proof (at_app _ _ _ _ Hat4) as Hat5.
    pose proof (at_cons _ _ _ _ (at_app _ _ _ _ Hat5)) as Hat6.
    destruct (reads_at t v data _ _ Ht Hat4) as (f0 & Hf0).
    { apply follows_blank; [exact Hws3|reflexivity]. }
    destruct (IH data _ post (map_set obj k v) Hat6) as (f1 & Hf1).
    exists (S (Nat.max f0 f1)). intros [|fuel] Hle; [lia|].
    rewrite object_scan_S; cbv zeta.
    rewrite (skipSpaces_at _ _ _ _ Hat0 Hws) by (rewrite Ekt; exact Hsp0).
    rewrite Ekt at 1. cbn [hd app]. rewrite Hbr0.
    rewrite (reads_key_at kt k data _ _ Hkt Hat1)
      by (apply blank_ends_atom; [exact Hws1|reflexivity]).
    rewrite (skipSpaces_at _ _ _ _ Hat2 Hws1) by reflexivity. cbn [hd].
    change (negb (Ascii.eqb ":" ":")) with false. cbv iota.
    rewrite (skipSpaces_at _ _ _ _ Hat3 Hws2) by (rewrite Et; exact Hsp).
    rewrite (Hf0 fuel ltac:(lia)).
    rewrite (skipSpaces_at _ _ _ _ Hat5 Hws3) by reflexivity. cbn [hd].
    change (Ascii.eqb "," "}") with false. change (Ascii.eqb "," ",") with true.
    cbv iota. rewrite (Hf1 fuel ltac:(lia)).
    cbn [assign fold_left fst snd]. f_equal.
    repeat (rewrite !length_app; cbn [length]). lia.
Qed.

(** An array is read from its text. *)
Lemma reads_array txt vs :
  array_rest txt vs -> reads ("["%char :: txt) (VArray vs).
Proof.
  intros Hrest pre post Hpost.
  assert (Hat : at_ (pre ++ ("["%char :: txt) ++ post) (S (length pre)) (txt ++ post)).
  { exists (pre ++ ["["%char]). split.
    - rewrite <- app_assoc. reflexivity.
    - apply length_snoc. }
  destruct (array_rest_scan txt vs Hrest _ _ post [] Hat) as (f0 & Hf0).
  exists (S f0). intros [|fuel] Hle; [lia|].
  cbn [app]. rewrite any_array_here.
  cbn [app] in Hf0. rewrite (Hf0 fuel ltac:(lia)). cbn [fmap app length].
  f_equal. lia.
Qed.

(** An object is read from its text: the pairs are assigned to the map one
    after the other. *)
Lemma reads_object txt kvs :
  object_rest txt kvs -> reads ("{"%char :: txt) (VMap (assign [] kvs)).
Proof.
  intros Hrest pre post Hpost.
  assert (Hat : at_ (pre ++ ("{"%char :: txt) ++ post) (S (length pre)) (txt ++ post)).
  { exists (pre ++ ["{"%char]). split.
    - rewrite <- app_assoc. reflexivity.
    - apply length_snoc. }
  destruct (object_rest_scan txt kvs Hrest _ _ post [] Hat) as (f0 & Hf0).
  exists (S f0). intros [|fuel] Hle; [lia|].
  cbn [app]. rewrite any_object_here.
  cbn [app] in Hf0. rewrite (Hf0 fuel ltac:(lia)). cbn [fmap app length].
  f_equal. lia.
Qed.

(** Decode on a text that is read, with spaces before and after it. *)
Lemma Decode_reads txt v ws1 ws2 :
  reads txt v -> blank ws1 -> blank ws2 ->
  Decode (ws1 ++ txt ++ ws2) = Returns v None.
Proof.
  intros Hr Hws1 Hws2.
  destruct (reads_head txt v Hr) as (c & t & Et & Hsp & _).
  assert (Hat : at_ (ws1 ++ txt ++ ws2) 0 (ws1 ++ txt ++ ws2)).
  { exists []. split; reflexivity. }
  pose proof (at_app _ _ _ _ Hat) as Hat1.
  pose proof (at_app _ _ _ _ Hat1) as Hat2.
  destruct (reads_at txt v _ _ _ Hr Hat1) as (f0 & Hf0).
  { destruct ws2 as [|w ws2]; simpl; [exact I|]. inversion Hws2; subst. now left. }
  specialize (Hf0 f0 (le_n _)).
  apply any_enough in Hf0.
  2:{ pose proof (at_bound _ _ _ Hat1). unfold Decoder.end_. lia. }
  unfold Decode, Decode_fuel.
  rewrite (skipSpaces_at _ _ _ _ Hat Hws1) by (rewrite Et; exact Hsp).
  rewrite Hf0. unfold finish.
  assert (Hat2' : at_ (ws1 ++ txt ++ ws2) (0 + length ws1 + length txt) (ws2 ++ [])).
  { rewrite app_nil_r. exact Hat2. }
  rewrite (skipSpaces_at _ _ _ _ Hat2' Hws2) by exact I.
  pose proof (at_bound _ _ _ Hat2) as Hb.
  unfold Decoder.end_.
  destruct (Nat.ltb_spec (0 + length ws1 + length txt + length ws2)
              (length (ws1 ++ txt ++ ws2))); [lia|reflexivity].
Qed.

End Layout.

(** ** Texts of scalars and keys *)

(** The value that the loop of [number] accumulates over the digits of an
    integer literal, [n = 10*n + float64(c-'0')] from the first digit to the
    last, each operation rounded to a float64. *)
Definition digits_value (ds : list byte) : float64 :=
  fold_left (fun n c => f64_add (f64_mul (f64_of_Z 10) n)
                                (f64_of_Z (Z.of_N (code c - code "0"))))
            ds f64_zero.

Section Texts.
Context {L : GoLib}.
Local Open Scope list_scope.

Lemma space_not_atom_char c :
  Decoder.is_space c = true -> Decoder.is_atom_char c = false.
Proof.
  unfold Decoder.is_space. rewrite !orb_true_iff, !Ascii.eqb_eq.
  intros [[[->| ->]| ->]| ->]; reflexivity.
Qed.

Lemma space_not_digit c : Decoder.is_space c = true -> is_digit c = false.
Proof.
  unfold Decoder.is_space. rewrite !orb_true_iff, !Ascii.eqb_eq.
  intros [[[->| ->]| ->]| ->]; reflexivity.
Qed.

Lemma follows_ends_atom post : follows post -> ends_atom post.
Proof.
  destruct post as [|c post]; simpl; [auto|].
  intros [H|H]; [now apply space_not_atom_char|now apply delimiter_not_atom_char].
Qed.

(** What ends the digits of an integer literal. *)
Lemma follows_ends_number post :
  follows post ->
  is_digit (hd NUL post) = false /\ Ascii.eqb (hd NUL post) "." = false /\
  Ascii.eqb (hd NUL post) "e" = false /\ Ascii.eqb (hd NUL post) "E" = false.
Proof.
  destruct post as [|c post]; simpl; [repeat split|].
  intros [H|H].
  - unfold Decoder.is_space in H. rewrite !orb_true_iff, !Ascii.eqb_eq in H.
    destruct H as [[[->| ->]| ->]| ->]; repeat split.
  - destruct (delimiter_cases _ H) as [->|[->|[->|[->| ->]]]]; repeat split.
Qed.

Lemma reads_null : reads (bytes_of "null") VNil.
Proof.
  intros pre post Hpost. exists 1. intros [|fuel] Hle; [lia|].
  apply (any_word_here "n" (bytes_of "ull") pre post fuel);
    [reflexivity|repeat constructor|apply follows_ends_atom, Hpost].
Qed.

Lemma reads_bool (b : bool) :
  reads (bytes_of (if b then "true" else "false")) (VBool b).
Proof.
  intros pre post Hpost. exists 1. intros [|fuel] Hle; [lia|]. destruct b.
  - apply (any_word_here "t" (bytes_of "rue") pre post fuel);
      [reflexivity|repeat constructor|apply follows_ends_atom, Hpost].
  - apply (any_word_here "f" (bytes_of "alse") pre post fuel);
      [reflexivity|repeat constructor|apply follows_ends_atom, Hpost].
Qed.

(** A string of plain bytes between quotes. *)
Lemma reads_quoted (s : list byte) :
  Forall (fun c => plain_byte c = true) s ->
  reads (QUOTE :: s ++ [QUOTE]) (VString (string_of_list_ascii s)).
Proof.
  intros Hs pre post _. exists 1. intros [|fuel] Hle; [lia|].
  rewrite any_S. cbv zeta.
  assert (Hd : pre ++ (QUOTE :: s ++ [QUOTE]) ++ post =
               pre ++ QUOTE :: s ++ QUOTE :: post).
  { simpl. now rewrite <- app_assoc. }
  rewrite Hd.
  assert (Hlt : (Decoder.end_ (pre ++ QUOTE :: s ++ QUOTE :: post)
                 <=? length pre) = false).
  { apply Nat.leb_gt. rewrite end_app. simpl. lia. }
  rewrite Hlt, index_here. change (Ascii.eqb QUOTE QUOTE) with true. cbv iota.
  rewrite string_here by exact Hs. unfold fmap.
  f_equal. simpl. rewrite length_app. simpl. lia.
Qed.

(** An integer as the encoder writes it. *)
Lemma reads_integer k n :
  fits k n -> reads (Encoder.encodeInteger k n) (VInteger k n).
Proof.
  intros Hfit pre post _. exists 1. intros [|fuel] Hle; [lia|].
  rewrite (encodeInteger_fits k n Hfit).
  assert (Hp : Decoder.parse_integer k
                 (string_of_list_ascii (bytes_of (strconv.FormatInt n))) = inl n).
  { unfold bytes_of. rewrite string_of_list_ascii_of_string, parse_integer_decimal.
    apply fitsb_spec in Hfit. now rewrite Hfit. }
  destruct (quoted k n).
  - rewrite any_integer_quoted by apply decimal_plain.
    cbv zeta. now rewrite Hp.
  - rewrite any_integer_literal by apply decimal_raw_argument.
    cbv zeta. now rewrite Hp.
Qed.

(** A bareword as a key: a letter or an underscore, then letters, digits
    and underscores. *)
Lemma reads_key_bareword c (w : list byte) :
  Decoder.is_atom_start c = true ->
  Forall (fun c => Decoder.is_atom_char c = true) w ->
  reads_key (c :: w) (String c (string_of_list_ascii w)).
Proof.
  intros Hc Hw pre post Hpost. unfold Decoder.objectKey.
  destruct (atom_start_not_special c Hc) as (H1 & _).
  cbn [app].
  assert (Hlt : (Decoder.end_ (pre ++ c :: w ++ post) <=? length pre) = false).
  { apply Nat.leb_gt. rewrite end_app. simpl. lia. }
  rewrite Hlt, index_here, H1.
  rewrite atom_here by auto. reflexivity.
Qed.

(** A key of plain bytes between quotes. *)
Lemma reads_key_quoted (s : list byte) :
  Forall (fun c => plain_byte c = true) s ->
  reads_key (QUOTE :: s ++ [QUOTE]) (string_of_list_ascii s).
Proof.
  intros Hs pre post _. unfold Decoder.objectKey.
  assert (Hd : pre ++ (QUOTE :: s ++ [QUOTE]) ++ post =
               pre ++ QUOTE :: s ++ QUOTE :: post).
  { simpl. now rewrite <- app_assoc. }
  rewrite Hd.
  assert (Hlt : (Decoder.end_ (pre ++ QUOTE :: s ++ QUOTE :: post)
                 <=? length pre) = false).
  { apply Nat.leb_gt. rewrite end_app. simpl. lia. }
  rewrite Hlt, index_here. change (Ascii.eqb QUOTE QUOTE) with true. cbv iota.
  rewrite string_here by exact Hs.
  f_equal. simpl. rewrite length_app. simpl. lia.
Qed.

(** A key of plain bytes as the encoder writes it. *)
Lemma reads_key_encoded k :
  Forall (fun c => plain_byte c = true) (bytes_of k) ->
  reads_key (Encoder.encodeKey k) k.
Proof.
  intros Hk. destruct (plain_key_dec k) as [Hp|[_ He]].
  - rewrite (encodeKey_plain k Hp).
    destruct Hp as (c & rest & -> & Hc & Hrest).
    assert (Hstart : Decoder.is_atom_start c = true).
    { unfold Decoder.is_atom_start. unfold is_letter in Hc. now rewrite Hc. }
    assert (Hchars : Forall (fun c => Decoder.is_atom_char c = true) (bytes_of rest)).
    { eapply Forall_impl; [|exact Hrest]. intros x [Hx|Hx]; unfold Decoder.is_atom_char.
      - unfold is_letter in Hx. now rewrite Hx.
      - rewrite Hx. now rewrite orb_true_r. }
    pose proof (reads_key_bareword c (bytes_of rest) Hstart Hchars) as H.
    unfold bytes_of in H at 2. rewrite string_of_list_ascii_of_string in H. exact H.
  - rewrite He, (encodeString_plain k Hk).
    pose proof (reads_key_quoted (bytes_of k) Hk) as H.
    unfold bytes_of in H at 2. rewrite string_of_list_ascii_of_string in H. exact H.
Qed.

(** *** Integer literals *)

Lemma next_at data p c rest :
  at_ data p (c :: rest) -> Decoder.next data p = Ok (hd NUL rest) (S p).
Proof.
  intros (pre & -> & <-). unfold Decoder.next.
  assert (Hlt : length pre < Decoder.end_ (pre ++ c :: rest)).
  { rewrite end_app. simpl. lia. }
  destruct (Nat.ltb_spec (length pre) (Decoder.end_ (pre ++ c :: rest))); [|lia].
  destruct rest as [|c' rest].
  - destruct (Nat.ltb_spec (S (length pre)) (Decoder.end_ (pre ++ [c]))) as [H'|_];
      [rewrite end_app in H'; simpl in H'; lia|reflexivity].
  - destruct (Nat.ltb_spec (S (length pre)) (Decoder.end_ (pre ++ c :: c' :: rest)))
      as [_|H']; [|rewrite end_app in H'; simpl in H'; lia].
    rewrite snoc_app, <- length_snoc with (c := c). now rewrite index_here.
Qed.

(** The loop over the digits of an integer literal. *)
Lemma digits_loop_at (ds : list byte) :
  forall data p n c post fuel,
    at_ data p (c :: ds ++ post) ->
    Forall (fun c => is_digit c = true) (c :: ds) ->
    is_digit (hd NUL post) = false ->
    S (length ds) <= fuel ->
    Decoder.digits_loop data fuel n c p =
    Ok (fold_left (fun n c => f64_add (f64_mul (f64_of_Z 10) n)
                                      (f64_of_Z (Z.of_N (code c - code "0"))))
                  (c :: ds) n, hd NUL post)
       (p + S (length ds)).
Proof.
  induction ds as [|d ds IH]; intros data p n c post fuel Hat Hds Hpost Hfuel;
    (destruct fuel as [|fuel]; [lia|]);
    inversion Hds as [|? ? Hc Hds']; subst;
    cbn [Decoder.digits_loop]; rewrite Hc; cbv zeta;
    rewrite (next_at _ _ _ _ Hat).
  - cbn [app hd]. destruct fuel; cbn [Decoder.digits_loop]; rewrite Hpost;
      cbn [fold_left length]; f_equal; lia.
  - cbn [app hd]. rewrite (IH data (S p) _ d post fuel);
      [|exact (at_cons _ _ _ _ Hat)|exact Hds'|exact Hpost|simpl in Hfuel; lia].
    cbn [fold_left length]. f_equal. lia.
Qed.

(** [number] on the digits of an integer literal that does not begin with
    a zero. *)
Lemma number_digits_at data p d ds post :
  at_ data p (d :: ds ++ post) ->
  inrange "1" "9" d = true ->
  Forall (fun c => is_digit c = true) ds ->
  follows post ->
  Decoder.number data p = Ok (digits_value (d :: ds)) (p + S (length ds)).
Proof.
  intros Hat Hd Hds Hpost.
  destruct (follows_ends_number post Hpost) as (Hn & Hp & He & HE).
  assert (Hdig : is_digit d = true).
  { unfold is_digit, inrange in *. apply andb_true_iff in Hd. destruct Hd as [H1 H2].
    rewrite H2, andb_true_r. apply N.leb_le in H1. apply N.leb_le.
    change (code "1") with 49%N in H1. change (code "0") with 48%N. lia. }
  assert (Hz : Ascii.eqb d "0" = false).
  { destruct (Ascii.eqb_spec d "0") as [->|]; [discriminate Hd|reflexivity]. }
  unfold Decoder.number, Decoder.number_scan.
  destruct Hat as (pre & Edata & <-).
  assert (Hat : at_ data (length pre) (d :: ds ++ post)) by (exists pre; auto).
  assert (Hi : Decoder.index data (length pre) (length pre) = Ok d (length pre)).
  { rewrite Edata. apply index_here. }
  rewrite Hi. unfold Decoder.number_digits. rewrite Hz, Hd.
  rewrite (digits_loop_at ds data (length pre) f64_zero d post); auto.
  2:{ pose proof (at_bound _ _ _ Hat) as Hb. unfold Decoder.end_.
      simpl in Hb. rewrite length_app in Hb. lia. }
  cbn [fst snd]. unfold Decoder.number_fraction. rewrite Hp.
  cbn [fst snd]. unfold Decoder.number_exponent. rewrite He, HE.
  reflexivity.
Qed.

(** An integer literal without a leading zero is read as the float64 that
    its digits accumulate to. *)
Lemma reads_digits d (ds : list byte) :
  inrange "1" "9" d = true ->
  Forall (fun c => is_digit c = true) ds ->
  reads (d :: ds) (VFloat64 (digits_value (d :: ds))).
Proof.
  intros Hd Hds pre post Hpost. exists 1. intros [|fuel] Hle; [lia|].
  assert (Hat : at_ (pre ++ (d :: ds) ++ post) (length pre) (d :: ds ++ post)).
  { exists pre. split; reflexivity. }
  assert (Hdig : is_digit d = true).
  { unfold is_digit, inrange in *. apply andb_true_iff in Hd. destruct Hd as [H1 H2].
    rewrite H2, andb_true_r. apply N.leb_le in H1. apply N.leb_le.
    change (code "1") with 49%N in H1. change (code "0") with 48%N. lia. }
  rewrite any_S. cbv zeta.
  assert (Hlt : (Decoder.end_ (pre ++ (d :: ds) ++ post) <=? length pre) = false).
  { apply Nat.leb_gt. rewrite end_app. simpl. lia. }
  rewrite Hlt. cbn [app]. rewrite index_here.
  rewrite (digit_is_not d QUOTE Hdig eq_refl), Hdig.
  cbn [app] in Hat. rewrite (number_digits_at _ _ d ds post Hat Hd Hds Hpost).
  reflexivity.
Qed.

(** The same behind a minus sign. *)
Lemma reads_minus_digits d (ds : list byte) :
  inrange "1" "9" d = true ->
  Forall (fun c => is_digit c = true) ds ->
  reads ("-"%char :: d :: ds) (VFloat64 (f64_neg (digits_value (d :: ds)))).
Proof.
  intros Hd Hds pre post Hpost. exists 1. intros [|fuel] Hle; [lia|].
  assert (Hat : at_ (pre ++ ("-"%char :: d :: ds) ++ post) (S (length pre))
                  (d :: ds ++ post)).
  { exists (pre ++ ["-"%char]). split; [now rewrite <- app_assoc|apply length_snoc]. }
  rewrite any_S. cbv zeta.
  assert (Hlt : (Decoder.end_ (pre ++ ("-"%char :: d :: ds) ++ post) <=? length pre)
                = false).
  { apply Nat.leb_gt. rewrite end_app. simpl. lia. }
  assert (Hlt' : (Decoder.end_ (pre ++ ("-"%char :: d :: ds) ++ post) <=? S (length pre))
                 = false).
  { apply Nat.leb_gt. rewrite end_app. simpl. lia. }
  rewrite Hlt. cbn [app]. rewrite index_here.
  change (Ascii.eqb "-" QUOTE) with false. change (is_digit "-") with false.
  change (Ascii.eqb "-" "-") with true. cbv iota.
  cbn [app] in Hlt', Hat. rewrite Hlt'.
  assert (Hi : Decoder.index (pre ++ "-"%char :: d :: ds ++ post) (S (length pre))
                 (S (length pre)) = Ok d (S (length pre))).
  { rewrite snoc_app, <- length_snoc with (c := "-"%char). apply index_here. }
  rewrite Hi, sign_guard_never_holds.
  rewrite (number_digits_at _ _ d ds post Hat Hd Hds Hpost).
  f_equal. simpl. lia.
Qed.

End Texts.

(** ** Arrays, objects and integer literals in any layout *)

Section Assign.
Context {L : GoLib}.
Local Open Scope list_scope.

Lemma map_get_map_set (obj : list (gostring * value)) k v k' :
  map_get (map_set obj k v) k' = if String.eqb k k' then v else map_get obj k'.
Proof.
  induction obj as [|[k0 v0] obj IH]; [reflexivity|].
  cbn [map_set map_get].
  destruct (String.eqb_spec k0 k) as [->|Hne]; cbn [map_get].
  - destruct (String.eqb k k'); reflexivity.
  - rewrite IH. destruct (String.eqb_spec k0 k') as [->|Hne']; [|reflexivity].
    destruct (String.eqb_spec k k') as [->|_]; [contradiction|reflexivity].
Qed.

Lemma find_snoc {A} (f : A -> bool) l x :
  find f (l ++ [x]) =
  match find f l with
  | Some y => Some y
  | None => if f x then Some x else None
  end.
Proof.
  induction l as [|a l IH]; [reflexivity|].
  cbn [app find]. destruct (f a); [reflexivity|exact IH].
Qed.

(** The entry of a key after the assignments: the value of the last pair
    with this key. *)
Lemma map_get_assign kvs :
  forall obj k,
    map_get (assign obj kvs) k =
    match find (fun kv => String.eqb (fst kv) k) (rev kvs) with
    | Some kv => snd kv
    | None => map_get obj k
    end.
Proof.
  induction kvs as [|[k0 v0] kvs IH]; intros obj k; [reflexivity|].
  cbn [assign fold_left rev fst snd]. fold (assign (map_set obj k0 v0) kvs).
  rewrite IH, find_snoc.
  destruct (find _ (rev kvs)); [reflexivity|].
  cbn [fst snd]. rewrite map_get_map_set.
  destruct (String.eqb k0 k); reflexivity.
Qed.

Lemma skipSpaces_first (ws : list byte) c rest :
  blank ws -> Decoder.is_space c = false ->
  Decoder.skipSpaces (ws ++ c :: rest) 0 = Ok c (length ws).
Proof.
  intros Hws Hc.
  exact (skipSpaces_run [] ws (c :: rest) Hws Hc).
Qed.

End Assign.

(** X8.  Decode and DecodeArray read an array in any layout: spaces, tabs
    and line breaks may stand before and after the array, after the opening
    bracket, and before and after every element and comma, and one comma may
    follow the last element.  The result holds the values of the elements in
    the order of the text. *)
Theorem Decode_array_layout :
  forall (L : GoLib) (txt : list byte) (vs : list value) (ws1 ws2 : list byte),
    array_rest txt vs -> blank ws1 -> blank ws2 ->
    Decode (ws1 ++ "["%char :: txt ++ ws2)%list = Returns (VArray vs) None /\
    DecodeArray (ws1 ++ "["%char :: txt ++ ws2)%list = Returns (Some vs) None.
Proof.
  intros L txt vs ws1 ws2 Hrest Hws1 Hws2.
  pose proof (Decode_reads _ _ ws1 ws2 (reads_array txt vs Hrest) Hws1 Hws2) as Hd.
  cbn [app] in Hd. split; [exact Hd|].
  rewrite (DecodeArray_of_Decode _ (length ws1)), Hd; [reflexivity|].
  apply skipSpaces_first; [exact Hws1|reflexivity].
Qed.

(** [Decode_array_layout] at the input [ [ 12 , null,true , ] ] with a line
    feed at its end. *)
Lemma Decode_array_layout_witness :
  Decode (L := GoRef.lib)
    (SPACE :: bytes_of "[ 12 , null,true , ] " ++ [LF])%list =
    Returns (VArray [VFloat64 (f64_of_Z 12); VNil; VBool true]) None /\
  DecodeArray (L := GoRef.lib)
    (SPACE :: bytes_of "[ 12 , null,true , ] " ++ [LF])%list =
    Returns (Some [VFloat64 (f64_of_Z 12); VNil; VBool true]) None.
Proof.
  assert (Hb : forall ws, forallb Decoder.is_space ws = true -> blank ws).
  { intros ws H. apply Forall_forall. rewrite forallb_forall in H. exact H. }
  apply (Decode_array_layout GoRef.lib
           (bytes_of " 12 , null,true , ]")
           [VFloat64 (f64_of_Z 12); VNil; VBool true] [SPACE] [SPACE; LF]).
  - apply (rest_more [SPACE] (bytes_of "12") (VFloat64 (digits_value (bytes_of "12")))
             [SPACE]);
      [apply Hb; reflexivity
      |apply (reads_digits "1" ["2"%char]); [reflexivity|repeat constructor]
      |apply Hb; reflexivity|].
    apply (rest_more [SPACE] (bytes_of "null") VNil []);
      [apply Hb; reflexivity|apply reads_null|apply Hb; reflexivity|].
    apply (rest_more [] (bytes_of "true") (VBool true) [SPACE]);
      [apply Hb; reflexivity|apply (reads_bool true)|apply Hb; reflexivity|].
    apply (rest_close [SPACE]). apply Hb. reflexivity.
  - apply Hb. reflexivity.
  - apply Hb. reflexivity.
Defined.

(** X9.  Decode and DecodeObject read an object in any layout: spaces may
    stand around the object, after the opening brace, and before and after
    every key, colon, value and comma, and one comma may follow the last
    pair.  The pairs are assigned to the map in the order of the text, so
    that a key that occurs more than once keeps the value of its last
    occurrence. *)
Theorem Decode_object_layout :
  forall (L : GoLib) (txt : list byte) (kvs : list (gostring * value))
         (ws1 ws2 : list byte),
    object_rest txt kvs -> blank ws1 -> blank ws2 ->
    Decode (ws1 ++ "{"%char :: txt ++ ws2)%list =
      Returns (VMap (assign [] kvs)) None /\
    DecodeObject (ws1 ++ "{"%char :: txt ++ ws2)%list =
      Returns (Some (assign [] kvs)) None /\
    (forall k,
       map_get (assign [] kvs) k =
       match find (fun kv => String.eqb (fst kv) k) (rev kvs) with
       | Some kv => snd kv
       | None => VNil
       end).
Proof.
  intros L txt kvs ws1 ws2 Hrest Hws1 Hws2.
  pose proof (Decode_reads _ _ ws1 ws2 (reads_object txt kvs Hrest) Hws1 Hws2) as Hd.
  cbn [app] in Hd. split; [exact Hd|split].
  - rewrite (DecodeObject_of_Decode _ (length ws1)), Hd; [reflexivity|].
    apply skipSpaces_first; [exact Hws1|reflexivity].
  - intros k. rewrite map_get_assign. reflexivity.
Qed.

(** [Decode_object_layout] at the input [{ _a_b : false ,"k":null,_a_b:true, }]. *)
Lemma Decode_object_layout_witness :
  Decode (L := GoRef.lib)
    (bytes_of "{ _a_b : false ," ++ QUOTE :: "k"%char :: QUOTE ::
     bytes_of ":null,_a_b:true, }")%list =
    Returns (VMap [("_a_b", VBool true); ("k", VNil)]) None /\
  DecodeObject (L := GoRef.lib)
    (bytes_of "{ _a_b : false ," ++ QUOTE :: "k"%char :: QUOTE ::
     bytes_of ":null,_a_b:true, }")%list =
    Returns (Some [("_a_b", VBool true); ("k", VNil)]) None.
Proof.
  assert (Hb : forall ws, forallb Decoder.is_space ws = true -> blank ws).
  { intros ws H. apply Forall_forall. rewrite forallb_forall in H. exact H. }
  destruct (Decode_object_layout GoRef.lib
              (bytes_of " _a_b : false ," ++ QUOTE :: "k"%char :: QUOTE ::
               bytes_of ":null,_a_b:true, }")%list
              [("_a_b", VBool false); ("k", VNil); ("_a_b", VBool true)] [] [])
    as (H1 & H2 & _).
  - apply (orest_more [SPACE] (bytes_of "_a_b") "_a_b" [SPACE] [SPACE]
             (bytes_of "false") (VBool false) [SPACE]);
      [apply Hb; reflexivity
      |apply (reads_key_bareword "_" (bytes_of "a_b")); [reflexivity|repeat constructor]
      |apply Hb; reflexivity|apply Hb; reflexivity
      |apply (reads_bool false)|apply Hb; reflexivity|].
    apply (orest_more [] [QUOTE; "k"%char; QUOTE] "k" [] []
             (bytes_of "null") VNil []);
      [apply Hb; reflexivity
      |apply (reads_key_quoted ["k"%char]); repeat constructor
      |apply Hb; reflexivity|apply Hb; reflexivity
      |apply reads_null|apply Hb; reflexivity|].
    apply (orest_more [] (bytes_of "_a_b") "_a_b" [] []
             (bytes_of "true") (VBool true) []);
      [apply Hb; reflexivity
      |apply (reads_key_bareword "_" (bytes_of "a_b")); [reflexivity|repeat constructor]
      |apply Hb; reflexivity|apply Hb; reflexivity
      |apply (reads_bool true)|apply Hb; reflexivity|].
    apply (orest_close [SPACE]). apply Hb. reflexivity.
  - apply Hb. reflexivity.
  - apply Hb. reflexivity.
  - split; [exact H1|exact H2].
Defined.

(** X10.  A bare integer literal that does not begin with a zero, with any
    spaces around it, decodes to the float64 that the scanner accumulates
    over its digits, [n = 10*n + digit] rounded at every step; behind a minus
    sign it decodes to the negation of that number.  The float parser has no
    part in it. *)
Theorem integer_literal_value :
  forall (L : GoLib) (d : byte) (ds ws1 ws2 : list byte),
    inrange "1" "9" d = true ->
    Forall (fun c => is_digit c = true) ds ->
    blank ws1 -> blank ws2 ->
    Decode (ws1 ++ (d :: ds) ++ ws2)%list =
      Returns (VFloat64 (digits_value (d :: ds))) None /\
    Decode (ws1 ++ ("-"%char :: d :: ds) ++ ws2)%list =
      Returns (VFloat64 (f64_neg (digits_value (d :: ds)))) None.
Proof.
  intros L d ds ws1 ws2 Hd Hds Hws1 Hws2. split.
  - apply Decode_reads; auto. now apply reads_digits.
  - apply Decode_reads; auto. now apply reads_minus_digits.
Qed.

(** [integer_literal_value] at the literals [9007199254740993] and
    [-9007199254740993], that is 2^53 + 1, which no float64 holds. *)
Lemma integer_literal_value_witness :
  Decode (L := GoRef.lib) (bytes_of " 9007199254740993") =
    Returns (VFloat64 (f64_of_Z 9007199254740992)) None /\
  Decode (L := GoRef.lib) (bytes_of " -9007199254740993") =
    Returns (VFloat64 (f64_neg (f64_of_Z 9007199254740992))) None.
Proof.
  apply (integer_literal_value GoRef.lib "9" (bytes_of "007199254740993")
           [SPACE] []).
  - reflexivity.
  - repeat constructor.
  - repeat constructor.
  - constructor.
Defined.

(** ** Indented output *)

(** The line break and the indentation that the encoder writes in pretty
    mode, nothing otherwise. *)
Definition gap (e : Encoder.config) (level : nat) : list byte :=
  if Encoder.pretty e then Encoder.writeIndent e level else [].

(** The space after the colon in pretty mode. *)
Definition colon_gap (e : Encoder.config) : list byte :=
  if Encoder.pretty e then [SPACE] else [].

(** A prefix and an indent of spaces, tabs and line breaks only. *)
Definition blank_config (e : Encoder.config) : Prop :=
  blank (bytes_of (Encoder.prefix e)) /\ blank (bytes_of (Encoder.indent e)).

Section Indented.
Context {L : GoLib}.
Local Open Scope list_scope.

(** The value trees whose scalars and keys are read from what the encoder
    writes for them, and whose maps have one entry per key. *)
Inductive legible : value -> Prop :=
| legible_scalar v out :
    scalar v -> Marshal v = EOk out -> reads out v -> legible v
| legible_array a : Forall legible a -> legible (VArray a)
| legible_map m :
    NoDup (map fst m) ->
    Forall (fun kv => reads_key (Encoder.encodeKey (fst kv)) (fst kv) /\
                      legible (snd kv)) m ->
    legible (VMap m).

(** The decoder reads the canonical form of the value from what the
    encoder writes for it. *)
Definition lays_out (e : Encoder.config) (v : value) : Prop :=
  forall level out, Encoder.encodeValue e level v = EOk out -> reads out (canon v).

Lemma plain_legible v : plain_value v -> legible v.
Proof.
  induction v as [ | | | | a IH | m IH | | | | | | ] using value_ind';
    intros Hp; inversion Hp; subst.
  - exact (legible_scalar VNil _ I eq_refl reads_null).
  - exact (legible_scalar (VBool b) _ I eq_refl (reads_bool b)).
  - apply (legible_scalar (VString s) (Encoder.encodeString s) I eq_refl).
    rewrite encodeString_plain by assumption.
    pose proof (reads_quoted (bytes_of s) ltac:(assumption)) as H.
    unfold bytes_of in H at 2. now rewrite string_of_list_ascii_of_string in H.
  - apply legible_array. apply Forall_forall. intros x Hx.
    rewrite Forall_forall in *. auto.
  - apply legible_map; [assumption|]. apply Forall_forall. intros kv Hkv.
    rewrite Forall_forall in *.
    match goal with
    | H : forall x, In x m -> _ /\ plain_value _ |- _ => destruct (H kv Hkv) as [Hk Hv]
    end.
    split; [now apply reads_key_encoded|auto].
  - apply (legible_scalar (VInteger k n) (Encoder.encodeInteger k n) I eq_refl).
    now apply reads_integer.
Qed.

Lemma legible_supported v : legible v -> supported v = true.
Proof.
  induction v as [ | | | | a IH | m IH | | | | | | T] using value_ind';
    intros Hl; try reflexivity.
  - inversion Hl as [? ? Hs _ _|a' Ha|]; subst; [contradiction|].
    cbn [supported]. apply forallb_forall. intros x Hx.
    rewrite Forall_forall in IH, Ha. auto.
  - inversion Hl as [? ? Hs _ _| |m' _ Hm]; subst; [contradiction|].
    rewrite supported_VMap. apply forallb_forall. intros kv Hkv.
    rewrite Forall_forall in IH, Hm. apply IH; [exact Hkv|]. now apply Hm.
  - inversion Hl as [? ? _ Hm _| |]; subst. discriminate Hm.
Qed.

Lemma blank_app ws ws' : blank ws -> blank ws' -> blank (ws ++ ws').
Proof. intros H H'. apply Forall_app. now split. Qed.

Lemma gap_blank e level : blank_config e -> blank (gap e level).
Proof.
  intros [Hp Hi]. unfold gap. destruct (Encoder.pretty e); [|constructor].
  unfold Encoder.writeIndent. constructor; [reflexivity|].
  apply blank_app; [exact Hp|].
  induction level as [|level IH]; [constructor|].
  cbn [repeat concat]. now apply blank_app.
Qed.

Lemma colon_gap_blank e : blank (colon_gap e).
Proof.
  unfold colon_gap. destruct (Encoder.pretty e); repeat constructor.
Qed.

Lemma bracketed_gap e level o c items out :
  Encoder.bracketed e level o c items = EOk out ->
  exists outs, Encoder.elements e (S level) true items = EOk outs /\
               out = o :: gap e (S level) ++ outs ++ gap e level ++ [c].
Proof.
  unfold Encoder.bracketed, gap.
  destruct (Encoder.elements e (S level) true items) as [outs|]; [|discriminate].
  intros [= <-]. eauto.
Qed.

Lemma elements_cons_gap e level first item rest out :
  Encoder.elements e level first (item :: rest) = EOk out ->
  exists o outs, item = EOk o /\
    Encoder.elements e level false rest = EOk outs /\
    out = (if first then [] else ","%char :: gap e level) ++ o ++ outs.
Proof.
  cbn [Encoder.elements]. destruct item as [o|]; [|discriminate].
  destruct (Encoder.elements e level false rest) as [outs|]; [|discriminate].
  intros [= <-]. exists o, outs. split; [reflexivity|split; reflexivity].
Qed.

Lemma scalar_encode_any e level v :
  scalar v -> Encoder.encodeValue e level v = Marshal v.
Proof. destruct v; intros H; try reflexivity; contradiction. Qed.

(** The elements after the first one, up to the closing bracket. *)
Lemma elements_array_rest e level vs :
  blank_config e ->
  Forall (lays_out e) vs ->
  forall outs o v,
    Encoder.elements e (S level) false (map (Encoder.encodeValue e (S level)) vs)
      = EOk outs ->
    reads o v ->
    array_rest (gap e (S level) ++ o ++ outs ++ gap e level ++ ["]"%char])
               (v :: map canon vs).
Proof.
  intros He. induction 1 as [|v2 vs Hv2 _ IH]; intros outs o v Houts Ho.
  - injection Houts as <-. cbn [app map].
    apply rest_last; auto using gap_blank.
  - cbn [map] in Houts.
    destruct (elements_cons_gap _ _ _ _ _ _ Houts) as (o2 & outs' & Ho2 & Houts' & ->).
    cbn [map].
    replace (gap e (S level) ++ o ++
             ((","%char :: gap e (S level)) ++ o2 ++ outs') ++ gap e level ++ ["]"%char])
      with (gap e (S level) ++ o ++ [] ++
            ","%char :: (gap e (S level) ++ o2 ++ outs' ++ gap e level ++ ["]"%char])).
    2:{ cbn [app]. rewrite <- !app_assoc. reflexivity. }
    apply rest_more; auto using gap_blank; [constructor|].
    apply IH; [exact Houts'|]. exact (Hv2 _ _ Ho2).
Qed.

Lemma lays_out_array e a :
  blank_config e -> Forall (lays_out e) a -> lays_out e (VArray a).
Proof.
  intros He Ha level out Henc.
  rewrite encodeValue_VArray in Henc.
  destruct (bracketed_gap _ _ _ _ _ _ Henc) as (outs & Houts & ->).
  cbn [canon]. apply reads_array.
  destruct a as [|v1 vs].
  - injection Houts as <-. cbn [app map].
    rewrite app_assoc. apply rest_close. apply blank_app; now apply gap_blank.
  - cbn [map] in Houts.
    destruct (elements_cons_gap _ _ _ _ _ _ Houts) as (o1 & outs' & Ho1 & Houts' & ->).
    inversion Ha as [|? ? Hv1 Hvs]; subst.
    cbn [app map]. rewrite <- app_assoc.
    apply (elements_array_rest e level vs He Hvs outs' o1 (canon v1) Houts').
    exact (Hv1 _ _ Ho1).
Qed.

(** Assignments to keys that are all different and not in the map add the
    pairs at its end. *)
Lemma assign_fresh kvs :
  forall obj : list (gostring * value),
    NoDup (map fst (obj ++ kvs)) -> assign obj kvs = obj ++ kvs.
Proof.
  induction kvs as [|[k v] kvs IH]; intros obj Hnd.
  - now rewrite app_nil_r.
  - cbn [assign fold_left fst snd]. fold (assign (map_set obj k v) kvs).
    assert (Hk : ~ In k (map fst obj)).
    { rewrite map_app in Hnd. cbn [map fst] in Hnd.
      apply NoDup_remove_2 in Hnd. intros Hin. apply Hnd.
      apply in_or_app. now left. }
    rewrite (map_set_fresh obj k v Hk).
    rewrite IH; rewrite <- app_assoc; [reflexivity|exact Hnd].
Qed.

(** The pairs after the first one, up to the closing brace. *)
Lemma elements_object_rest e level (m : list (gostring * value)) ks :
  blank_config e ->
  Forall (fun k => reads_key (Encoder.encodeKey k) k /\ lays_out e (map_get m k)) ks ->
  forall outs k o v,
    Encoder.elements e (S level) false
      (map (fun k => Encoder.pair e k (Encoder.encodeValue e (S level) (map_get m k))) ks)
      = EOk outs ->
    reads_key (Encoder.encodeKey k) k ->
    reads o v ->
    object_rest (gap e (S level) ++ Encoder.encodeKey k ++ ":"%char :: colon_gap e ++
                 o ++ outs ++ gap e level ++ ["}"%char])
                ((k, v) :: map (fun k => (k, canon (map_get m k))) ks).
Proof.
  intros He. induction 1 as [|k2 ks [Hk2 Hv2] _ IH]; intros outs k o v Houts Hk Ho.
  - injection Houts as <-. cbn [app map].
    replace (gap e (S level) ++ Encoder.encodeKey k ++ ":"%char :: colon_gap e ++
             o ++ gap e level ++ ["}"%char])
      with (gap e (S level) ++ Encoder.encodeKey k ++ [] ++ ":"%char :: colon_gap e ++
            o ++ gap e level ++ ["}"%char]) by reflexivity.
    apply orest_last; auto using gap_blank, colon_gap_blank. constructor.
  - cbn [map] in Houts.
    destruct (elements_cons_gap _ _ _ _ _ _ Houts) as (po & outs' & Hpo & Houts' & ->).
    unfold Encoder.pair in Hpo.
    destruct (Encoder.encodeValue e (S level) (map_get m k2)) as [o2|] eqn:Ho2;
      [|discriminate].
    injection Hpo as <-. cbn [map].
    match goal with
    | |- object_rest ?txt _ =>
        replace txt
          with (gap e (S level) ++ Encoder.encodeKey k ++ [] ++ ":"%char :: colon_gap e ++
                o ++ [] ++
                ","%char :: (gap e (S level) ++ Encoder.encodeKey k2 ++
                             ":"%char :: colon_gap e ++ o2 ++ outs' ++
                             gap e level ++ ["}"%char]))
    end.
    2:{ unfold colon_gap. cbn [app]. repeat (rewrite <- ?app_assoc; cbn [app]).
        reflexivity. }
    apply orest_more; auto using gap_blank, colon_gap_blank; try constructor.
    apply IH; [exact Houts'|exact Hk2|]. exact (Hv2 _ _ Ho2).
Qed.

Lemma lays_out_map e m :
  blank_config e ->
  NoDup (map fst m) ->
  Forall (fun kv => reads_key (Encoder.encodeKey (fst kv)) (fst kv) /\
                    lays_out e (snd kv)) m ->
  lays_out e (VMap m).
Proof.
  intros He Hnd Hm level out Henc.
  rewrite encodeValue_VMap in Henc.
  destruct (bracketed_gap _ _ _ _ _ _ Henc) as (outs & Houts & ->).
  pose proof (Strings_perm (map fst m)) as Hperm.
  assert (Hks : Forall (fun k => reads_key (Encoder.encodeKey k) k /\
                                 lays_out e (map_get m k))
                  (sort.Strings (map fst m))).
  { apply Forall_forall. intros k Hk.
    assert (Hin : In k (map fst m)).
    { eapply Permutation_in; [apply Permutation_sym, Hperm|exact Hk]. }
    rewrite Forall_forall in Hm. apply (Hm (k, map_get m k)).
    now apply map_get_In. }
  assert (Hndk : NoDup (sort.Strings (map fst m))).
  { eapply Permutation_NoDup; [exact Hperm|exact Hnd]. }
  assert (Hcanon : canon (VMap m) =
                   VMap (assign [] (map (fun k => (k, canon (map_get m k)))
                                        (sort.Strings (map fst m))))).
  { rewrite canon_VMap. f_equal. rewrite assign_fresh.
    - cbn [app]. apply map_ext_in. intros k Hk. f_equal.
      apply map_get_canon_entries.
      eapply Permutation_in; [apply Permutation_sym, Hperm|exact Hk].
    - cbn [app]. rewrite map_map. cbn [fst]. rewrite map_id. exact Hndk. }
  rewrite Hcanon. apply reads_object. clear Hcanon Hperm Hndk.
  destruct (sort.Strings (map fst m)) as [|k ks].
  - injection Houts as <-. cbn [app map].
    rewrite app_assoc. apply orest_close. apply blank_app; now apply gap_blank.
  - cbn [map] in Houts.
    destruct (elements_cons_gap _ _ _ _ _ _ Houts) as (po & outs' & Hpo & Houts' & ->).
    unfold Encoder.pair in Hpo.
    destruct (Encoder.encodeValue e (S level) (map_get m k)) as [o|] eqn:Ho;
      [|discriminate].
    injection Hpo as <-.
    inversion Hks as [|? ? [Hk Hv] Hks']; subst.
    pose proof (elements_object_rest e level m ks He Hks' outs' k o
                  (canon (map_get m k)) Houts' Hk (Hv _ _ Ho)) as H.
    cbn [map app]. unfold colon_gap in H.
    repeat (rewrite <- ?app_assoc; cbn [app]).
    repeat (rewrite <- ?app_assoc in H; cbn [app] in H). exact H.
Qed.

(** The decoder reads a legible tree from what the encoder writes for it,
    indented or not. *)
Lemma legible_lays_out e v : blank_config e -> legible v -> lays_out e v.
Proof.
  intros He.
  induction v as [ | | | | a IH | m IH | | | | | | ] using value_ind';
    intros Hl;
    try (inversion Hl as [? out0 Hs Hm Hr| |]; subst; intros level out Henc;
         rewrite (scalar_encode_any e level _ Hs), Hm in Henc;
         injection Henc as <-; rewrite (scalar_canon _ Hs); exact Hr).
  - inversion Hl as [? ? Hs _ _|a' Ha|]; subst; [contradiction|].
    apply lays_out_array; [exact He|]. apply Forall_forall. intros x Hx.
    rewrite Forall_forall in IH, Ha. auto.
  - inversion Hl as [? ? Hs _ _| |m' Hnd Hm]; subst; [contradiction|].
    apply lays_out_map; [exact He|exact Hnd|]. apply Forall_forall. intros kv Hkv.
    rewrite Forall_forall in IH, Hm. destruct (Hm kv Hkv) as [Hk Hv].
    split; [exact Hk|]. apply IH; assumption.
Qed.

End Indented.

(** X11.  A tree of null, booleans, integers that fit their type, strings
    of plain bytes, arrays and maps with keys of plain bytes is read back
    from the indented output: MarshalIndent succeeds for every prefix and
    indent, and when the prefix and the indent hold only spaces, tabs and
    line breaks, Decode returns the tree from the output, its maps in the
    order of their keys, with no error.  Marshal and MarshalIndent then
    decode to the same value. *)
Theorem MarshalIndent_Decode_round_trip :
  forall (L : GoLib) (v : value) (prefix indent : gostring),
    plain_value v ->
    blank (bytes_of prefix) -> blank (bytes_of indent) ->
    exists out out',
      MarshalIndent v prefix indent = EOk out /\
      Decode out = Returns (canon v) None /\
      Marshal v = EOk out' /\
      Decode out' = Returns (canon v) None.
Proof.
  intros L v prefix indent Hp Hpre Hind.
  pose proof (plain_legible v Hp) as Hl.
  pose proof (legible_supported v Hl) as Hs.
  unfold Marshal, MarshalIndent.
  set (c := {| Encoder.pretty := false; Encoder.prefix := EmptyString;
               Encoder.indent := EmptyString |}).
  set (p := {| Encoder.pretty := true; Encoder.prefix := prefix;
               Encoder.indent := indent |}).
  destruct (supported_encodes v Hs p 0) as (out & Hout).
  destruct (supported_encodes v Hs c 0) as (out' & Hout').
  exists out, out'.
  assert (Hbp : blank_config p) by (split; assumption).
  assert (Hbc : blank_config c) by (split; constructor).
  pose proof (Decode_reads out (canon v) [] []
                (legible_lays_out p v Hbp Hl 0 out Hout)
                ltac:(constructor) ltac:(constructor)) as Hd.
  pose proof (Decode_reads out' (canon v) [] []
                (legible_lays_out c v Hbc Hl 0 out' Hout')
                ltac:(constructor) ltac:(constructor)) as Hd'.
  cbn [app] in Hd, Hd'. rewrite app_nil_r in Hd, Hd'.
  repeat split; assumption.
Qed.

(** [MarshalIndent_Decode_round_trip] at a map with an array, a string, an
    empty array and an empty map, for the prefix of one space and the indent
    of two. *)
Lemma MarshalIndent_Decode_round_trip_witness :
  exists out out',
    MarshalIndent (L := GoRef.lib)
      (VMap [("b c", VArray [VNil; VBool true; VInteger KInt8 (-5)]);
             ("a", VString "x y");
             ("e", VMap [("_u", VArray [])]);
             ("A", VMap [])]) " " "  " = EOk out /\
    Decode (L := GoRef.lib) out =
    Returns
      (VMap [("A", VMap []);
             ("a", VString "x y");
             ("b c", VArray [VNil; VBool true; VInteger KInt8 (-5)]);
             ("e", VMap [("_u", VArray [])])]) None /\
    Marshal (L := GoRef.lib)
      (VMap [("b c", VArray [VNil; VBool true; VInteger KInt8 (-5)]);
             ("a", VString "x y");
             ("e", VMap [("_u", VArray [])]);
             ("A", VMap [])]) = EOk out' /\
    Decode (L := GoRef.lib) out' =
    Returns
      (VMap [("A", VMap []);
             ("a", VString "x y");
             ("b c", VArray [VNil; VBool true; VInteger KInt8 (-5)]);
             ("e", VMap [("_u", VArray [])])]) None.
Proof.
  apply (MarshalIndent_Decode_round_trip GoRef.lib
           (VMap [("b c", VArray [VNil; VBool true; VInteger KInt8 (-5)]);
                  ("a", VString "x y");
                  ("e", VMap [("_u", VArray [])]);
                  ("A", VMap [])]) " " "  ").
  - apply plain_map.
    + repeat constructor; simpl; intuition discriminate.
    + repeat apply Forall_cons; try apply Forall_nil;
        (split; [repeat constructor|]).
      * apply plain_array. repeat apply Forall_cons; try apply Forall_nil.
        -- apply plain_nil.
        -- apply plain_bool.
        -- apply plain_integer. unfold fits; simpl; lia.
      * apply plain_string. repeat constructor.
      * apply plain_map.
        -- repeat constructor; simpl; intuition discriminate.
        -- repeat apply Forall_cons; try apply Forall_nil.
           split; [repeat constructor|]. apply plain_array. apply Forall_nil.
      * apply plain_map; [constructor|apply Forall_nil].
  - repeat constructor.
  - repeat constructor.
Defined.

(** X12.  The texts that the decoder reads as a value wherever they stand
    in the input, before the end of the input, a space or a delimiter: the
    barewords [null], [true] and [false]; a string of plain bytes between
    quotes; an integer that fits its type, as the encoder writes it; an
    integer literal without a leading zero, with or without a minus sign; an
    array or an object in any layout whose elements are such texts
    themselves.  As a key it reads every bareword, underscores included, and
    every string of plain bytes between quotes. *)
Theorem texts_that_are_read :
  forall (L : GoLib),
    reads (bytes_of "null") VNil /\
    (forall b : bool, reads (bytes_of (if b then "true" else "false")) (VBool b)) /\
    (forall s, Forall (fun c => plain_byte c = true) s ->
       reads (QUOTE :: s ++ [QUOTE])%list (VString (string_of_list_ascii s))) /\
    (forall k n, fits k n -> reads (Encoder.encodeInteger k n) (VInteger k n)) /\
    (forall d ds, inrange "1" "9" d = true ->
       Forall (fun c => is_digit c = true) ds ->
       reads (d :: ds) (VFloat64 (digits_value (d :: ds))) /\
       reads ("-"%char :: d :: ds) (VFloat64 (f64_neg (digits_value (d :: ds))))) /\
    (forall txt vs, array_rest txt vs -> reads ("["%char :: txt) (VArray vs)) /\
    (forall txt kvs, object_rest txt kvs ->
       reads ("{"%char :: txt) (VMap (assign [] kvs))) /\
    (forall c w, Decoder.is_atom_start c = true ->
       Forall (fun c => Decoder.is_atom_char c = true) w ->
       reads_key (c :: w) (String c (string_of_list_ascii w))) /\
    (forall s, Forall (fun c => plain_byte c = true) s ->
       reads_key (QUOTE :: s ++ [QUOTE])%list (string_of_list_ascii s)).
Proof.
  intros L.
  split; [exact reads_null|].
  split; [exact reads_bool|].
  split; [exact reads_quoted|].
  split; [exact reads_integer|].
  split; [intros d ds Hd Hds; split;
          [now apply reads_digits|now apply reads_minus_digits]|].
  split; [exact reads_array|].
  split; [exact reads_object|].
  split; [exact reads_key_bareword|exact reads_key_quoted].
Qed.

(** [texts_that_are_read] at the text [[[7],{_k:null}]] of an array in an
    array, in front of a comma. *)
Lemma texts_that_are_read_witness :
  exists fuel,
    Decoder.any (L := GoRef.lib) (bytes_of "[[7],{_k:null}],") fuel 0 =
    Ok (VArray [VArray [VFloat64 (f64_of_Z 7)]; VMap [("_k", VNil)]]) 15.
Proof.
  destruct (texts_that_are_read GoRef.lib)
    as (Hnull & _ & _ & _ & Hdig & Harr & Hobj & Hkey & _).
  assert (H : reads (L := GoRef.lib) (bytes_of "[[7],{_k:null}]")
                (VArray [VArray [VFloat64 (f64_of_Z 7)]; VMap [("_k", VNil)]])).
  { apply (Harr (bytes_of "[7],{_k:null}]")).
    apply (rest_more [] (bytes_of "[7]") (VArray [VFloat64 (f64_of_Z 7)]) []);
      [constructor| |constructor|].
    - apply (Harr (bytes_of "7]")).
      apply (rest_last [] (bytes_of "7") (VFloat64 (digits_value (bytes_of "7"))) []);
        [constructor| |constructor].
      apply (Hdig "7"%char []); [reflexivity|constructor].
    - apply (rest_last [] (bytes_of "{_k:null}") (VMap [("_k", VNil)]) []);
        [constructor| |constructor].
      apply (Hobj (bytes_of "_k:null}") [("_k", VNil)]).
      apply (orest_last [] (bytes_of "_k") "_k" [] [] (bytes_of "null") VNil []);
        try constructor; [|exact Hnull].
      apply (Hkey "_"%char (bytes_of "k")); [reflexivity|repeat constructor]. }
  destruct (H [] [","%char]) as (f0 & Hf0); [right; reflexivity|].
  exists f0. exact (Hf0 f0 (le_n _)).
Defined.

(** ** Barewords that are no keyword *)

(** The barewords that [any] knows: three constants and the names of the
    typed literals. *)
Definition keyword (a : gostring) : bool :=
  existsb (String.eqb a)
    ["true"; "false"; "null"; "int"; "datetime"; "ip"; "ipport"; "int8"; "int16";
     "int32"; "int64"; "uint"; "uint8"; "uint16"; "uint32"; "uint64"].

Section Barewords.
Context {L : GoLib}.
Local Open Scope list_scope.

Lemma any_unknown_word c (w pre post : list byte) fuel :
  Decoder.is_atom_start c = true ->
  Forall (fun c => Decoder.is_atom_char c = true) w ->
  ends_atom post ->
  keyword (String c (string_of_list_ascii w)) = false ->
  Decoder.any (pre ++ c :: w ++ post) (S fuel) (length pre) =
  Decoder.error (pre ++ c :: w ++ post) c "looking for beginning of value"
    (length pre + S (length w)).
Proof.
  intros Hc Hw Hpost Hk. rewrite any_word_here by assumption. cbv zeta.
  unfold keyword in Hk. cbn [existsb] in Hk. rewrite !orb_false_iff in Hk.
  decompose [and] Hk. clear Hk.
  unfold Decoder.typed_literal.
  repeat match goal with
         | H : String.eqb _ _ = false |- _ => rewrite H; clear H
         end.
  reflexivity.
Qed.

End Barewords.

(** X13.  A bareword that is none of [true], [false], [null] and the names
    of the typed literals is rejected, and the error depends on what follows
    it: at the end of the input the error is the unexpected end of the input;
    otherwise it is a SyntaxError that names the first byte of the word,
    with the offset of the byte after the word plus one.  What Marshal writes
    for a slice of bytes, [bytes("...")], begins with such a word: Decode
    rejects it at offset 6. *)
Theorem unknown_bareword_is_rejected :
  forall (L : GoLib) (c : byte) (w post : list byte),
    Decoder.is_atom_start c = true ->
    Forall (fun c => Decoder.is_atom_char c = true) w ->
    ends_atom post ->
    keyword (String c (string_of_list_ascii w)) = false ->
    Decode (c :: w ++ post)%list =
      Returns VNil
        (Some (match post with
               | [] => ErrUnexpectedEOF
               | _ :: _ =>
                   SyntaxError ("invalid character " ++ quoteChar c ++
                                " looking for beginning of value")
                               (Z.of_nat (S (length w)) + 1)
               end)) /\
    (forall b, exists out,
        Marshal (VBytes b) = EOk out /\
        Decode out =
        Returns VNil
          (Some (SyntaxError ("invalid character " ++ quoteChar "b" ++
                              " looking for beginning of value") 6))).
Proof.
  intros L c w post Hc Hw Hpost Hk.
  assert (Hword : forall c w post,
            Decoder.is_atom_start c = true ->
            Forall (fun c => Decoder.is_atom_char c = true) w ->
            ends_atom post ->
            keyword (String c (string_of_list_ascii w)) = false ->
            Decode (c :: w ++ post)%list =
            Returns VNil
              (Some (match post with
                     | [] => ErrUnexpectedEOF
                     | _ :: _ =>
                         SyntaxError ("invalid character " ++ quoteChar c ++
                                      " looking for beginning of value")
                                     (Z.of_nat (S (length w)) + 1)
                     end))).
  { clear. intros c w post Hc Hw Hpost Hk.
    assert (Hsp : Decoder.is_space c = false).
    { destruct (Decoder.is_space c) eqn:Es; [exfalso|reflexivity].
      apply space_not_atom_char in Es. unfold Decoder.is_atom_start in Hc.
      unfold Decoder.is_atom_char in Es. rewrite Hc in Es. discriminate. }
    pose proof (skipSpaces_here [] c (w ++ post) Hsp) as Hs. cbn [app length] in Hs.
    pose proof (any_unknown_word c w [] post (2 * length (c :: w ++ post) + 1)
                  Hc Hw Hpost Hk) as Ha.
    cbn [app length] in Ha.
    unfold Decode, Decode_fuel, enough. rewrite Hs.
    replace (2 * length (c :: w ++ post) + 2)
      with (S (2 * length (c :: w ++ post) + 1)) by lia.
    cbn [length] in Ha |- *. rewrite Ha. unfold Decoder.error, Decoder.end_.
    cbn [length Nat.add]. rewrite length_app.
    destruct post as [|x post]; cbn [length].
    - destruct (Nat.ltb_spec (S (length w)) (S (length w + 0))); [lia|reflexivity].
    - destruct (Nat.ltb_spec (S (length w)) (S (length w + S (length post))));
        [reflexivity|lia]. }
  split; [now apply Hword|].
  intros b. eexists. split; [reflexivity|].
  unfold Encoder.encodeBytes, Encoder.call_quoted.
  exact (Hword "b"%char (bytes_of "ytes")
           ("("%char :: QUOTE :: bytes_of (base64 b) ++ [QUOTE; ")"%char])
           eq_refl ltac:(repeat constructor) eq_refl eq_refl).
Qed.

(** [unknown_bareword_is_rejected] at the inputs [nul] and [nul,]. *)
Lemma unknown_bareword_is_rejected_witness :
  Decode (L := GoRef.lib) (bytes_of "nul") = Returns VNil (Some ErrUnexpectedEOF) /\
  Decode (L := GoRef.lib) (bytes_of "nul,") =
    Returns VNil
      (Some (SyntaxError "invalid character 'n' looking for beginning of value" 4)).
Proof.
  split.
  - apply (unknown_bareword_is_rejected GoRef.lib "n" (bytes_of "ul") []);
      [reflexivity|repeat constructor|exact I|reflexivity].
  - apply (unknown_bareword_is_rejected GoRef.lib "n" (bytes_of "ul") [","%char]);
      [reflexivity|repeat constructor|reflexivity|reflexivity].
Defined.

(** ** The literals of dates and addresses *)

Section AddressLiterals.
Context {L : GoLib}.
Local Open Scope list_scope.

Lemma any_datetime_here (pre rest : list byte) fuel :
  ends_atom rest ->
  Decoder.any (pre ++ bytes_of "datetime" ++ rest) (S fuel) (length pre) =
  Decoder.datetime (pre ++ bytes_of "datetime" ++ rest)
    (length pre + length (bytes_of "datetime")).
Proof.
  intros H.
  exact (any_word_here "d" (bytes_of "atetime") pre rest fuel eq_refl
           ltac:(repeat constructor) H).
Qed.

Lemma any_ip_here (pre rest : list byte) fuel :
  ends_atom rest ->
  Decoder.any (pre ++ bytes_of "ip" ++ rest) (S fuel) (length pre) =
  Decoder.ip (pre ++ bytes_of "ip" ++ rest) (length pre + length (bytes_of "ip")).
Proof.
  intros H.
  exact (any_word_here "i" (bytes_of "p") pre rest fuel eq_refl
           ltac:(repeat constructor) H).
Qed.

Lemma any_ipport_here (pre rest : list byte) fuel :
  ends_atom rest ->
  Decoder.any (pre ++ bytes_of "ipport" ++ rest) (S fuel) (length pre) =
  Decoder.ipport (pre ++ bytes_of "ipport" ++ rest)
    (length pre + length (bytes_of "ipport")).
Proof.
  intros H.
  exact (any_word_here "i" (bytes_of "pport") pre rest fuel eq_refl
           ltac:(repeat constructor) H).
Qed.

(** The argument between quotes of a literal with the given name. *)
Lemma bracketExpr_of_literal (name pre s post : list byte) :
  Forall (fun c => plain_byte c = true) s ->
  pre ++ literal name (QUOTE :: s ++ [QUOTE]) ++ post =
    pre ++ name ++ "("%char :: QUOTE :: s ++ QUOTE :: ")"%char :: post /\
  Decoder.bracketExpr (pre ++ name ++ "("%char :: QUOTE :: s ++ QUOTE :: ")"%char :: post)
    (length pre + length name) =
  Ok (string_of_list_ascii s)
     (length pre + length (literal name (QUOTE :: s ++ [QUOTE]))).
Proof.
  intros Hs. split.
  - unfold literal. rewrite <- app_assoc. simpl. rewrite <- !app_assoc. reflexivity.
  - rewrite app_assoc, <- length_app.
    rewrite bracketExpr_quoted_here by exact Hs. f_equal.
    unfold literal. repeat (rewrite !length_app; simpl). lia.
Qed.

(** A [datetime] literal in any context: the error of time.Parse is
    returned as it is. *)
Lemma any_datetime_literal (pre s post : list byte) fuel :
  Forall (fun c => plain_byte c = true) s ->
  Decoder.any (pre ++ literal (bytes_of "datetime") (QUOTE :: s ++ [QUOTE]) ++ post)
    (S fuel) (length pre) =
  let after := length pre + length (literal (bytes_of "datetime") (QUOTE :: s ++ [QUOTE])) in
  match time_Parse (string_of_list_ascii s) with
  | inl t => Ok (VTime t) after
  | inr msg => Err (ParseError msg) after
  end.
Proof.
  intros Hs.
  destruct (bracketExpr_of_literal (bytes_of "datetime") pre s post Hs) as [Hd Hb].
  rewrite Hd, any_datetime_here by reflexivity.
  unfold Decoder.datetime. rewrite Hb. reflexivity.
Qed.

(** An [ip] literal in any context. *)
Lemma any_ip_literal (pre s post : list byte) fuel :
  Forall (fun c => plain_byte c = true) s ->
  Decoder.any (pre ++ literal (bytes_of "ip") (QUOTE :: s ++ [QUOTE]) ++ post)
    (S fuel) (length pre) =
  let after := length pre + length (literal (bytes_of "ip") (QUOTE :: s ++ [QUOTE])) in
  match ParseIP (string_of_list_ascii s) with
  | Some ip => Ok (VIP ip) after
  | None =>
      match post with
      | [] => Err ErrUnexpectedEOF after
      | _ :: _ =>
          Err (SyntaxError ("invalid character " ++ quoteChar SPACE ++ " invalid ip")
                           (Z.of_nat after + 1)) after
      end
  end.
Proof.
  intros Hs.
  destruct (bracketExpr_of_literal (bytes_of "ip") pre s post Hs) as [Hd Hb].
  rewrite Hd, any_ip_here by reflexivity.
  unfold Decoder.ip. rewrite Hb. cbv zeta.
  destruct (ParseIP (string_of_list_ascii s)); [reflexivity|].
  unfold Decoder.error. rewrite <- Hd, end_app, length_app.
  destruct post as [|x post]; cbn [length].
  - destruct (Nat.ltb_spec (length pre + length (literal (bytes_of "ip") (QUOTE :: s ++ [QUOTE])))
                (length pre + (length (literal (bytes_of "ip") (QUOTE :: s ++ [QUOTE])) + 0)));
      [lia|reflexivity].
  - destruct (Nat.ltb_spec (length pre + length (literal (bytes_of "ip") (QUOTE :: s ++ [QUOTE])))
                (length pre + (length (literal (bytes_of "ip") (QUOTE :: s ++ [QUOTE])) +
                               S (length post))));
      [reflexivity|lia].
Qed.

(** Decode on an input that is one literal. *)
Lemma Decode_whole (text : list byte) c t (r : res value) :
  text = c :: t -> Decoder.is_space c = false ->
  (forall fuel, Decoder.any ([] ++ text ++ []) (S fuel) 0 = r) ->
  Decode text = finish text VNil r.
Proof.
  intros Et Hc Hany. unfold Decode, Decode_fuel.
  pose proof (skipSpaces_here [] c t Hc) as Hs. cbn [app length] in Hs.
  rewrite Et, Hs, <- Et.
  unfold enough. replace (2 * length text + 2) with (S (2 * length text + 1)) by lia.
  specialize (Hany (2 * length text + 1)). cbn [app] in Hany.
  rewrite app_nil_r in Hany. now rewrite Hany.
Qed.

End AddressLiterals.

(** X14.  The literals [datetime("...")] and [ip("...")] hand the text
    between the quotes to time.Parse and to net.ParseIP.  The error of
    time.Parse is returned as it is, not as a SyntaxError, and carries no
    offset.  A text that is no IP address is reported as an invalid
    character, a space that the input does not hold, at the offset after the
    closing bracket plus one; when the literal ends the input the error is
    the unexpected end of the input instead. *)
Theorem datetime_and_ip_literals :
  forall (L : GoLib) (s pre post : list byte) (fuel : nat),
    Forall (fun c => plain_byte c = true) s ->
    (Decoder.any (pre ++ literal (bytes_of "datetime") (QUOTE :: s ++ [QUOTE]) ++ post)%list
       (S fuel) (length pre) =
     let after := length pre + length (literal (bytes_of "datetime") (QUOTE :: s ++ [QUOTE])) in
     match time_Parse (string_of_list_ascii s) with
     | inl t => Ok (VTime t) after
     | inr msg => Err (ParseError msg) after
     end) /\
    (Decoder.any (pre ++ literal (bytes_of "ip") (QUOTE :: s ++ [QUOTE]) ++ post)%list
       (S fuel) (length pre) =
     let after := length pre + length (literal (bytes_of "ip") (QUOTE :: s ++ [QUOTE])) in
     match ParseIP (string_of_list_ascii s) with
     | Some ip => Ok (VIP ip) after
     | None =>
         match post with
         | [] => Err ErrUnexpectedEOF after
         | _ :: _ =>
             Err (SyntaxError ("invalid character " ++ quoteChar SPACE ++ " invalid ip")
                              (Z.of_nat after + 1)) after
         end
     end) /\
    Decode (literal (bytes_of "datetime") (QUOTE :: s ++ [QUOTE])) =
      match time_Parse (string_of_list_ascii s) with
      | inl t => Returns (VTime t) None
      | inr msg => Returns VNil (Some (ParseError msg))
      end /\
    Decode (literal (bytes_of "ip") (QUOTE :: s ++ [QUOTE])) =
      match ParseIP (string_of_list_ascii s) with
      | Some ip => Returns (VIP ip) None
      | None => Returns VNil (Some ErrUnexpectedEOF)
      end.
Proof.
  intros L s pre post fuel Hs.
  split; [exact (any_datetime_literal pre s post fuel Hs)|].
  split; [exact (any_ip_literal pre s post fuel Hs)|].
  split.
  - rewrite (Decode_whole _ "d"%char _ _ eq_refl eq_refl
               (fun fuel => any_datetime_literal [] s [] fuel Hs)).
    cbv zeta. cbn [length Nat.add].
    destruct (time_Parse (string_of_list_ascii s)); [|reflexivity].
    apply finish_at_end.
  - rewrite (Decode_whole _ "i"%char _ _ eq_refl eq_refl
               (fun fuel => any_ip_literal [] s [] fuel Hs)).
    cbv zeta. cbn [length Nat.add].
    destruct (ParseIP (string_of_list_ascii s)); [|reflexivity].
    apply finish_at_end.
Qed.

(** [datetime_and_ip_literals] at the literals [datetime("2017-12-25T15:00:00Z")]
    and [ip("::1")]. *)
Lemma datetime_and_ip_literals_witness :
  Decode (L := GoRef.lib)
    (literal (bytes_of "datetime") (QUOTE :: bytes_of "2017-12-25T15:00:00Z" ++ [QUOTE])) =
    Returns (VTime (L := GoRef.lib) "2017-12-25T15:00:00Z") None /\
  Decode (L := GoRef.lib)
    (literal (bytes_of "ip") (QUOTE :: bytes_of "::1" ++ [QUOTE])) =
    Returns (VIP (L := GoRef.lib) "::1") None.
Proof.
  split.
  - apply (datetime_and_ip_literals GoRef.lib (bytes_of "2017-12-25T15:00:00Z") [] [] 0).
    repeat constructor.
  - apply (datetime_and_ip_literals GoRef.lib (bytes_of "::1") [] [] 0).
    repeat constructor.
Defined.

(** ** The literal of an address with a port *)

Section IPPort.
Context {L : GoLib}.
Local Open Scope list_scope.

Lemma IndexByte_append host c rest :
  Decoder.IndexByte host c = None ->
  Decoder.IndexByte (host ++ String c rest)%string c = Some (String.length host).
Proof.
  induction host as [|x host IH]; cbn [Decoder.IndexByte String.append String.length].
  - intros _. now rewrite Ascii.eqb_refl.
  - destruct (Ascii.eqb x c); [discriminate|].
    destruct (Decoder.IndexByte host c) eqn:E; [discriminate|].
    intros _. now rewrite IH.
Qed.

Lemma substring_all b : substring 0 (String.length b) b = b.
Proof. induction b as [|x b IH]; cbn; [reflexivity|now rewrite IH]. Qed.

Lemma substring_append_l a b : substring 0 (String.length a) (a ++ b)%string = a.
Proof.
  induction a as [|x a IH]; cbn.
  - destruct b; reflexivity.
  - now rewrite IH.
Qed.

Lemma substring_append_r a b :
  substring (String.length a) (String.length b) (a ++ b)%string = b.
Proof. induction a as [|x a IH]; cbn; [apply substring_all|exact IH]. Qed.

Lemma length_append (a b : gostring) :
  String.length (a ++ b)%string = String.length a + String.length b.
Proof. induction a as [|x a IH]; cbn; [reflexivity|now rewrite IH]. Qed.

Lemma get_append a c b : String.get (String.length a) (a ++ String c b)%string = Some c.
Proof. induction a as [|x a IH]; cbn; [reflexivity|exact IH]. Qed.

Lemma bytes_of_append (a b : gostring) :
  bytes_of (a ++ b)%string = bytes_of a ++ bytes_of b.
Proof. induction a as [|x a IH]; cbn; [reflexivity|]. f_equal. exact IH. Qed.

(** What [ipport] makes of the two parts of its argument. *)
Definition address (host port : gostring) (pos : nat) : res value :=
  match ParseIP host with
  | None => Err (SyntaxError ("malformed IP: " ++ host) (Z.of_nat pos + 1)) pos
  | Some ip =>
      match strconv.Atoi port with
      | inr _ => Err (SyntaxError ("malformed port: " ++ port) (Z.of_nat pos + 1)) pos
      | inl n => Ok (VTCPAddr ip n) pos
      end
  end.

Lemma any_ipport_literal (pre post : list byte) (str : gostring) fuel :
  Forall (fun c => plain_byte c = true) (bytes_of str) ->
  Decoder.any (pre ++ literal (bytes_of "ipport") (QUOTE :: bytes_of str ++ [QUOTE]) ++ post)
    (S fuel) (length pre) =
  Decoder.ipport (pre ++ literal (bytes_of "ipport") (QUOTE :: bytes_of str ++ [QUOTE]) ++ post)
    (length pre + length (bytes_of "ipport")).
Proof.
  intros Hs.
  destruct (bracketExpr_of_literal (bytes_of "ipport") pre (bytes_of str) post Hs)
    as [Hd _].
  rewrite Hd. now rewrite any_ipport_here.
Qed.

(** The form [host:port]. *)
Lemma ipport_v4 (pre post : list byte) host port fuel :
  port <> EmptyString ->
  Decoder.IndexByte host ":" = None ->
  match host with String c _ => Ascii.eqb c "[" | EmptyString => false end = false ->
  Forall (fun c => plain_byte c = true) (bytes_of (host ++ String ":" port)) ->
  Decoder.any
    (pre ++ literal (bytes_of "ipport")
              (QUOTE :: bytes_of (host ++ String ":" port) ++ [QUOTE]) ++ post)
    (S fuel) (length pre) =
  address host port
    (length pre + length (literal (bytes_of "ipport")
                            (QUOTE :: bytes_of (host ++ String ":" port) ++ [QUOTE]))).
Proof.
  intros Hport Hcolon Hhead Hs.
  set (str := (host ++ String ":" port)%string) in *.
  rewrite (any_ipport_literal pre post str fuel Hs).
  destruct (bracketExpr_of_literal (bytes_of "ipport") pre (bytes_of str) post Hs)
    as [Hd Hb].
  assert (Hsb : string_of_list_ascii (bytes_of str) = str)
    by apply string_of_list_ascii_of_string.
  rewrite Hsb in Hb.
  unfold Decoder.ipport. rewrite Hd, Hb. cbv zeta.
  set (after := length pre + length (literal (bytes_of "ipport")
                                        (QUOTE :: bytes_of str ++ [QUOTE]))).
  assert (Hstr : exists c0 r, str = String c0 r /\ Ascii.eqb c0 "[" = false).
  { subst str. destruct host as [|c0 host]; cbn.
    - exists ":"%char, port. split; reflexivity.
    - exists c0, (host ++ String ":" port)%string. split; [reflexivity|exact Hhead]. }
  destruct Hstr as (c0 & r & Hstr & Hc0). rewrite Hstr at 1. rewrite Hc0.
  subst str. rewrite (IndexByte_append host ":" port Hcolon). cbn [fst snd].
  unfold Decoder.substr, Decoder.suffix. rewrite Nat.sub_0_r, substring_append_l.
  rewrite length_append. cbn [String.length].
  assert (Hlen : 0 < String.length port).
  { destruct port; [contradiction|cbn; lia]. }
  destruct (Nat.leb_spec (String.length host + S (String.length port))
              (S (String.length host))); [lia|].
  replace (String.length host + S (String.length port) - S (String.length host))
    with (String.length port) by lia.
  assert (Hsuf : substring (S (String.length host)) (String.length port)
                   (host ++ String ":" port) = port).
  { replace (host ++ String ":" port)%string with ((host ++ ":") ++ port)%string.
    - replace (S (String.length host)) with (String.length (host ++ ":")%string).
      + apply substring_append_r.
      + rewrite length_append. cbn. lia.
    - clear. induction host as [|x host IH]; cbn; [reflexivity|now rewrite IH]. }
  rewrite Hsuf. unfold address.
  destruct (ParseIP host); [|reflexivity].
  destruct (strconv.Atoi port); reflexivity.
Qed.

(** The form [[host]:port]. *)
Lemma ipport_v6 (pre post : list byte) host port fuel :
  port <> EmptyString ->
  Decoder.IndexByte host "]" = None ->
  Forall (fun c => plain_byte c = true)
         (bytes_of (String "[" (host ++ String "]" (String ":" port)))) ->
  Decoder.any
    (pre ++ literal (bytes_of "ipport")
              (QUOTE :: bytes_of (String "[" (host ++ String "]" (String ":" port))) ++
               [QUOTE]) ++ post)
    (S fuel) (length pre) =
  address host port
    (length pre + length (literal (bytes_of "ipport")
                            (QUOTE :: bytes_of (String "[" (host ++ String "]"
                                                  (String ":" port))) ++ [QUOTE]))).
Proof.
  intros Hport Hbr Hs.
  set (str := String "[" (host ++ String "]" (String ":" port))) in *.
  rewrite (any_ipport_literal pre post str fuel Hs).
  destruct (bracketExpr_of_literal (bytes_of "ipport") pre (bytes_of str) post Hs)
    as [Hd Hb].
  assert (Hsb : string_of_list_ascii (bytes_of str) = str)
    by apply string_of_list_ascii_of_string.
  rewrite Hsb in Hb.
  unfold Decoder.ipport. rewrite Hd, Hb. cbv zeta.
  set (after := length pre + length (literal (bytes_of "ipport")
                                        (QUOTE :: bytes_of str ++ [QUOTE]))).
  assert (Hlen : 0 < String.length port).
  { destruct port; [contradiction|cbn; lia]. }
  assert (Hlstr : String.length str = String.length host + 3 + String.length port).
  { subst str. cbn [String.length]. rewrite length_append. cbn [String.length]. lia. }
  assert (Hsuf1 : Decoder.suffix str 1 = (host ++ String "]" (String ":" port))%string).
  { unfold Decoder.suffix. rewrite Hlstr. subst str.
    cbn [substring].
    replace (String.length host + 3 + String.length port - 1)
      with (String.length (host ++ String "]" (String ":" port))%string).
    - apply substring_all.
    - rewrite length_append. cbn [String.length]. lia. }
  unfold str at 1. change (Ascii.eqb "[" "[") with true. cbv iota.
  rewrite Hsuf1, (IndexByte_append host "]" (String ":" port) Hbr).
  assert (Hip : Decoder.substr str 1 (S (String.length host)) = host).
  { unfold Decoder.substr. subst str. cbn [substring Nat.sub].
    rewrite Nat.sub_0_r. apply substring_append_l. }
  assert (Hget : String.get (S (S (String.length host))) str = Some ":"%char).
  { subst str. cbn [String.get].
    replace (host ++ String "]" (String ":" port))%string
      with ((host ++ "]") ++ String ":" port)%string.
    - replace (S (String.length host)) with (String.length (host ++ "]")%string).
      + apply get_append.
      + rewrite length_append. cbn. lia.
    - clear. induction host as [|x host IH]; cbn; [reflexivity|now rewrite IH]. }
  rewrite Hget, Hlstr.
  destruct (Nat.leb_spec (String.length host + 3 + String.length port)
              (S (S (String.length host)))); [lia|].
  change (negb (Ascii.eqb ":" ":")) with false. cbn [orb fst snd].
  rewrite Hip.
  destruct (Nat.leb_spec (String.length host + 3 + String.length port)
              (S (S (S (String.length host))))); [lia|].
  assert (Hsuf : Decoder.suffix str (S (S (S (String.length host)))) = port).
  { unfold Decoder.suffix. rewrite Hlstr. subst str. cbn [substring].
    replace (String.length host + 3 + String.length port - S (S (S (String.length host))))
      with (String.length port) by lia.
    replace (host ++ String "]" (String ":" port))%string
      with ((host ++ "]:") ++ port)%string.
    - replace (S (S (String.length host))) with (String.length (host ++ "]:")%string).
      + apply substring_append_r.
      + rewrite length_append. cbn. lia.
    - clear. induction host as [|x host IH]; cbn; [reflexivity|now rewrite IH]. }
  rewrite Hsuf. unfold address.
  destruct (ParseIP host); [|reflexivity].
  destruct (strconv.Atoi port); reflexivity.
Qed.

End IPPort.

(** X15.  The literal [ipport("...")] splits the text between the quotes:
    at its first colon when it does not begin with [[], and at the first
    closing bracket, which a colon must follow, when it does.  The text
    before the split goes to net.ParseIP and the text after the colon to
    strconv.Atoi; the port is taken as Atoi returns it, with no check of its
    range.  A part that is rejected gives a SyntaxError "malformed IP" or
    "malformed port" whose offset is the position after the closing bracket
    of the literal plus one. *)
Theorem ipport_literal_is_split :
  forall (L : GoLib) (host port : gostring) (pre post : list byte) (fuel : nat),
    port <> EmptyString ->
    (Decoder.IndexByte host ":" = None ->
     match host with String c _ => Ascii.eqb c "[" | EmptyString => false end = false ->
     Forall (fun c => plain_byte c = true) (bytes_of (host ++ String ":" port)) ->
     Decoder.any
       (pre ++ literal (bytes_of "ipport")
                 (QUOTE :: bytes_of (host ++ String ":" port) ++ [QUOTE]) ++ post)%list
       (S fuel) (length pre) =
     address host port
       (length pre + length (literal (bytes_of "ipport")
                               (QUOTE :: bytes_of (host ++ String ":" port) ++ [QUOTE])))) /\
    (Decoder.IndexByte host "]" = None ->
     Forall (fun c => plain_byte c = true)
            (bytes_of (String "[" (host ++ String "]" (String ":" port)))) ->
     Decoder.any
       (pre ++ literal (bytes_of "ipport")
                 (QUOTE :: bytes_of (String "[" (host ++ String "]" (String ":" port))) ++
                  [QUOTE]) ++ post)%list
       (S fuel) (length pre) =
     address host port
       (length pre + length (literal (bytes_of "ipport")
                               (QUOTE :: bytes_of (String "[" (host ++ String "]"
                                                     (String ":" port))) ++ [QUOTE])))).
Proof.
  intros L host port pre post fuel Hport. split.
  - intros Hc Hh Hs. now apply ipport_v4.
  - intros Hb Hs. now apply ipport_v6.
Qed.

(** [ipport_literal_is_split] at the literals [ipport("192.168.100.001:65555")]
    and [ipport("[fd00::abc:1]:65555")]. *)
Lemma ipport_literal_is_split_witness :
  Decoder.any (L := GoRef.lib)
    (literal (bytes_of "ipport") (QUOTE :: bytes_of "192.168.100.001:65555" ++ [QUOTE]))
    1 0 = Ok (VTCPAddr (L := GoRef.lib) "192.168.100.001" 65555) 31 /\
  Decoder.any (L := GoRef.lib)
    (literal (bytes_of "ipport") (QUOTE :: bytes_of "[fd00::abc:1]:65555" ++ [QUOTE]))
    1 0 = Ok (VTCPAddr (L := GoRef.lib) "fd00::abc:1" 65555) 29.
Proof.
  split.
  - destruct (ipport_literal_is_split GoRef.lib "192.168.100.001" "65555" [] [] 0)
      as [H _]; [discriminate|].
    rewrite app_nil_r in H.
    exact (H eq_refl eq_refl ltac:(repeat constructor)).
  - destruct (ipport_literal_is_split GoRef.lib "fd00::abc:1" "65555" [] [] 0)
      as [_ H]; [discriminate|].
    rewrite app_nil_r in H.
    exact (H eq_refl ltac:(repeat constructor)).
Defined.

(** ** The values of the decoder *)

Ltac leaf_result :=
  cbv zeta;
  repeat match goal with
         | |- (match ?x with _ => _ end) = _ -> _ => destruct x
         end;
  let H := fresh "H" in
  intros H; try discriminate H; injection H as <- _; exact I.

Section DecodedValues.
Context {L : GoLib}.
Local Open Scope list_scope.

(** The values that the decoder returns for a text that is neither an
    array nor an object. *)
Definition leaf (v : value) : Prop :=
  match v with
  | VNil | VBool _ | VFloat64 _ | VString _ | VInteger _ _
  | VTime _ | VIP _ | VTCPAddr _ _ => True
  | VArray _ | VMap _ | VBytes _ | VUnsupported _ => False
  end.

Lemma integer_leaf data k pos v p :
  Decoder.integer data k pos = Ok v p -> leaf v.
Proof. unfold Decoder.integer. leaf_result. Qed.

Lemma datetime_leaf data pos v p : Decoder.datetime data pos = Ok v p -> leaf v.
Proof. unfold Decoder.datetime. leaf_result. Qed.

Lemma ip_leaf data pos v p : Decoder.ip data pos = Ok v p -> leaf v.
Proof. unfold Decoder.ip, Decoder.error. leaf_result. Qed.

Lemma ipport_leaf data pos v p : Decoder.ipport data pos = Ok v p -> leaf v.
Proof. unfold Decoder.ipport, Decoder.error. leaf_result. Qed.

Lemma typed_literal_leaf data a method pos v p :
  Decoder.typed_literal data a = Some method -> method pos = Ok v p -> leaf v.
Proof.
  unfold Decoder.typed_literal, Decoder.int, Decoder.int8, Decoder.int16,
    Decoder.int32, Decoder.int64, Decoder.uint, Decoder.uint8, Decoder.uint16,
    Decoder.uint32, Decoder.uint64.
  repeat match goal with
         | |- (if ?x then _ else _) = _ -> _ => destruct x
         end;
    intros [= <-];
    first [apply integer_leaf | apply datetime_leaf | apply ip_leaf
          | apply ipport_leaf].
Qed.

(** A property of values that holds for every such value and is kept by
    arrays and maps. *)
Variable P : value -> Prop.
Hypothesis P_scalar : forall v, leaf v -> P v.
Hypothesis P_array : forall a, Forall P a -> P (VArray a).
Hypothesis P_map : forall m, Forall (fun kv => P (snd kv)) m -> P (VMap m).

Lemma map_set_Forall (obj : list (gostring * value)) k v :
  Forall (fun kv => P (snd kv)) obj -> P v ->
  Forall (fun kv => P (snd kv)) (map_set obj k v).
Proof.
  intros Hobj Hv. induction Hobj as [|[k' v'] obj Hkv Hobj IH]; cbn [map_set].
  - constructor; [exact Hv|constructor].
  - destruct (String.eqb k' k); constructor; auto.
Qed.

(** Such a property holds for every value that the decoder returns. *)
Lemma parse_invariant data fuel :
  (forall pos v p, Decoder.any data fuel pos = Ok v p -> P v) /\
  (forall arr pos a p,
     Forall P arr -> Decoder.array_scan data fuel arr pos = Ok a p -> Forall P a) /\
  (forall obj pos m p,
     Forall (fun kv => P (snd kv)) obj ->
     Decoder.object_scan data fuel obj pos = Ok m p ->
     Forall (fun kv => P (snd kv)) m).
Proof.
  induction fuel as [|fuel (IHany & IHarr & IHobj)].
  { repeat split; intros; discriminate. }
  split; [|split].
  - intros pos v p. rewrite any_S. cbv zeta.
    destruct (Decoder.end_ data <=? pos).
    { unfold Decoder.error. destruct (_ <? _); discriminate. }
    destruct (Decoder.index data pos pos) as [c p0| | |]; try discriminate.
    destruct (Ascii.eqb c QUOTE).
    { destruct (Decoder.string data p0); try discriminate.
      intros [= <- _]. apply P_scalar. exact I. }
    destruct (is_digit c).
    { destruct (Decoder.number data p0); try discriminate.
      intros [= <- _]. apply P_scalar. exact I. }
    destruct (Ascii.eqb c "-").
    { destruct (_ <=? _); [discriminate|].
      destruct (Decoder.index data (S p0) (S p0)); try discriminate.
      destruct (_ && _)%bool.
      { unfold Decoder.error. destruct (_ <? _); discriminate. }
      destruct (Decoder.number data pos0); try discriminate.
      intros [= <- _]. apply P_scalar. exact I. }
    destruct (Ascii.eqb c "[").
    { destruct (Decoder.array_scan data fuel [] (S p0)) as [a p1| | |] eqn:E;
        try discriminate.
      intros [= <- _]. apply P_array. apply (IHarr _ _ _ _ (Forall_nil _) E). }
    destruct (Ascii.eqb c "{").
    { destruct (Decoder.object_scan data fuel [] (S p0)) as [m p1| | |] eqn:E;
        try discriminate.
      intros [= <- _]. apply P_map. apply (IHobj [] _ _ _ (Forall_nil _) E). }
    destruct (Decoder.atom data p0) as [a p1| | |]; try discriminate.
    destruct (String.eqb a "true"); [intros [= <- _]; apply P_scalar; exact I|].
    destruct (String.eqb a "false"); [intros [= <- _]; apply P_scalar; exact I|].
    destruct (String.eqb a "null"); [intros [= <- _]; apply P_scalar; exact I|].
    destruct (Decoder.typed_literal data a) as [method|] eqn:Em.
    + intros H. apply P_scalar. exact (typed_literal_leaf _ _ _ _ _ _ Em H).
    + unfold Decoder.error. destruct (_ <? _); discriminate.
  - intros arr pos a p Harr. rewrite array_scan_S. cbv zeta.
    destruct (Decoder.skipSpaces data pos) as [c p0| | |]; try discriminate.
    destruct (Ascii.eqb c "]"); [intros [= <- _]; exact Harr|].
    destruct (Decoder.any data fuel p0) as [v p1| | |] eqn:Ev; try discriminate.
    assert (Harr' : Forall P (arr ++ [v])).
    { apply Forall_app. split; [exact Harr|].
      apply Forall_cons; [exact (IHany _ _ _ Ev)|apply Forall_nil]. }
    destruct (Decoder.skipSpaces data p1) as [c1 p2| | |]; try discriminate.
    destruct (Ascii.eqb c1 ","); [apply IHarr; exact Harr'|].
    destruct (Ascii.eqb c1 "]"); [intros [= <- _]; exact Harr'|].
    unfold Decoder.error. destruct (_ <? _); discriminate.
  - intros obj pos m p Hobj. rewrite object_scan_S. cbv zeta.
    destruct (Decoder.skipSpaces data pos) as [c p0| | |]; try discriminate.
    destruct (Ascii.eqb c "}"); [intros [= <- _]; auto|].
    destruct (Decoder.objectKey data p0) as [k p1| | |]; try discriminate.
    destruct (Decoder.skipSpaces data p1) as [c1 p2| | |]; try discriminate.
    destruct (negb (Ascii.eqb c1 ":")).
    { unfold Decoder.error. destruct (_ <? _); discriminate. }
    destruct (Decoder.skipSpaces data (S p2)) as [c2 p3| | |]; try discriminate.
    destruct (Decoder.any data fuel p3) as [v p4| | |] eqn:Ev; try discriminate.
    pose proof (map_set_Forall obj k v Hobj (IHany _ _ _ Ev)) as Hobj'.
    destruct (Decoder.skipSpaces data p4) as [c3 p5| | |]; try discriminate.
    destruct (Ascii.eqb c3 "}"); [intros [= <- _]; auto|].
    destruct (Ascii.eqb c3 ","); [apply IHobj; assumption|].
    unfold Decoder.error. destruct (_ <? _); discriminate.
Qed.

Lemma Decode_invariant data v err : Decode data = Returns v err -> P v.
Proof.
  unfold Decode, Decode_fuel, finish.
  destruct (Decoder.skipSpaces data 0) as [c p| | |]; try discriminate.
  - destruct (Decoder.any data (enough data) p) as [val p1|e p1| |] eqn:Ev;
      try discriminate.
    + destruct (Decoder.skipSpaces data p1) as [c1 q|e q| |]; try discriminate.
      * destruct (q <? Decoder.end_ data); intros [= <- _];
          exact (proj1 (parse_invariant data _) _ _ _ Ev).
      * intros [= <- _]. apply P_scalar. exact I.
    + intros [= <- _]. apply P_scalar. exact I.
  - intros [= <- _]. apply P_scalar. exact I.
Qed.

End DecodedValues.

(** X16.  Marshal and MarshalIndent accept every value that Decode
    returns, whatever the input and whether Decode returns an error with it
    or not: the decoder builds its values from the types that the encoder
    handles. *)
Theorem Marshal_accepts_decoded_values :
  forall (L : GoLib) (data : list byte) (v : value) (err : option goerror)
         (prefix indent : gostring),
    Decode data = Returns v err ->
    supported v = true /\
    exists out out',
      Marshal v = EOk out /\ MarshalIndent v prefix indent = EOk out'.
Proof.
  intros L data v err prefix indent Hd.
  assert (Hs : supported v = true).
  { apply (Decode_invariant (fun v => supported v = true)) with (data := data) (err := err);
      [| | |exact Hd].
    - intros w Hw. destruct w; try reflexivity; contradiction.
    - intros a Ha. cbn [supported]. apply forallb_forall.
      rewrite Forall_forall in Ha. exact Ha.
    - intros m Hm. rewrite supported_VMap. apply forallb_forall.
      rewrite Forall_forall in Hm. exact Hm. }
  split; [exact Hs|]. unfold Marshal, MarshalIndent.
  destruct (supported_encodes v Hs
              {| Encoder.pretty := false; Encoder.prefix := EmptyString;
                 Encoder.indent := EmptyString |} 0) as (out & ->).
  destruct (supported_encodes v Hs
              {| Encoder.pretty := true; Encoder.prefix := prefix;
                 Encoder.indent := indent |} 0) as (out' & ->).
  eauto.
Qed.

(** [Marshal_accepts_decoded_values] at the input [{a:[1,int8(2)]} x]. *)
Lemma Marshal_accepts_decoded_values_witness :
  supported (L := GoRef.lib)
    (VMap [("a", VArray [VFloat64 (f64_of_Z 1); VInteger KInt8 2])]) = true /\
  exists out out',
    Marshal (L := GoRef.lib)
      (VMap [("a", VArray [VFloat64 (f64_of_Z 1); VInteger KInt8 2])]) = EOk out /\
    MarshalIndent (L := GoRef.lib)
      (VMap [("a", VArray [VFloat64 (f64_of_Z 1); VInteger KInt8 2])]) "" " " = EOk out'.
Proof.
  apply (Marshal_accepts_decoded_values GoRef.lib (bytes_of "{a:[1,int8(2)]} x")
           (VMap [("a", VArray [VFloat64 (f64_of_Z 1); VInteger KInt8 2])])
           (Some (ExtraDataError 16)) "" " ").
  reflexivity.
Defined.

(** ** One line of output *)

(** The bytes that break a line or move along it: line feed, carriage
    return, tab and form feed, the four that [encodeString] writes as
    escapes. *)
Definition line_byte (b : byte) : bool :=
  Ascii.eqb b LF || Ascii.eqb b CR || Ascii.eqb b TAB || Ascii.eqb b FF.

Definition one_line (out : list byte) : Prop :=
  Forall (fun b => line_byte b = false) out.

(** The bytes of a UTF-8 sequence of more than one byte. *)
Definition high (b : byte) : bool := (128 <=? code b)%N.

Section OneLine.
Context {L : GoLib}.
Local Open Scope list_scope.

(** The value trees of null, booleans, strings of any bytes, integers that
    fit their type, arrays and maps with any keys. *)
Inductive textual : value -> Prop :=
| textual_nil : textual VNil
| textual_bool b : textual (VBool b)
| textual_string s : textual (VString s)
| textual_integer k n : fits k n -> textual (VInteger k n)
| textual_array a : Forall textual a -> textual (VArray a)
| textual_map m : Forall (fun kv => textual (snd kv)) m -> textual (VMap m).

Lemma N_below (P : N -> bool) (n : nat) :
  forallb P (map N.of_nat (seq 0 n)) = true ->
  forall x, (x < N.of_nat n)%N -> P x = true.
Proof.
  intros H x Hx. rewrite forallb_forall in H. apply H.
  apply in_map_iff. exists (N.to_nat x). split; [apply N2Nat.id|].
  apply in_seq. lia.
Qed.

Lemma high_not_line b : high b = true -> line_byte b = false.
Proof.
  unfold high, line_byte. intros H. apply N.leb_le in H.
  destruct (Ascii.eqb_spec b LF) as [->|_];
    [change (code LF) with 10%N in H; lia|].
  destruct (Ascii.eqb_spec b CR) as [->|_];
    [change (code CR) with 13%N in H; lia|].
  destruct (Ascii.eqb_spec b TAB) as [->|_];
    [change (code TAB) with 9%N in H; lia|].
  destruct (Ascii.eqb_spec b FF) as [->|_];
    [change (code FF) with 12%N in H; lia|].
  reflexivity.
Qed.

Lemma plain_not_line b : plain_byte b = true -> line_byte b = false.
Proof.
  intros H. destruct (plain_byte_scan b H) as (_ & _ & H32 & _).
  apply N.ltb_ge in H32. unfold line_byte.
  destruct (Ascii.eqb_spec b LF) as [->|_];
    [change (code LF) with 10%N in H32; lia|].
  destruct (Ascii.eqb_spec b CR) as [->|_];
    [change (code CR) with 13%N in H32; lia|].
  destruct (Ascii.eqb_spec b TAB) as [->|_];
    [change (code TAB) with 9%N in H32; lia|].
  destruct (Ascii.eqb_spec b FF) as [->|_];
    [change (code FF) with 12%N in H32; lia|].
  reflexivity.
Qed.

Lemma one_line_plain (s : list byte) :
  Forall (fun c => plain_byte c = true) s -> one_line s.
Proof. intros H. eapply Forall_impl; [|exact H]. exact plain_not_line. Qed.

Lemma one_line_app a b : one_line a -> one_line b -> one_line (a ++ b).
Proof. intros Ha Hb. apply Forall_app. now split. Qed.

(** A continuation byte. *)
Lemma cont_high x : high (utf8.byte_of (N.lor 128 (N.land x 63))) = true.
Proof.
  assert (Hlt : (N.land x 63 < N.of_nat 64)%N).
  { change 63%N with (N.ones 6). rewrite N.land_ones.
    apply N.mod_lt. discriminate. }
  revert Hlt. generalize (N.land x 63). intros y Hy.
  apply (N_below (fun y => high (utf8.byte_of (N.lor 128 y))) 64); [|exact Hy].
  vm_compute. reflexivity.
Qed.

(** The first byte of a sequence of two, three and four bytes. *)
Lemma lead_high (tag : N) (k : N) (n : nat) r :
  (r < N.of_nat n * 2 ^ k)%N ->
  forallb (fun y => high (utf8.byte_of (N.lor tag y))) (map N.of_nat (seq 0 n)) = true ->
  high (utf8.byte_of (N.lor tag (N.shiftr r k))) = true.
Proof.
  intros Hr Hall.
  apply (N_below (fun y => high (utf8.byte_of (N.lor tag y))) n Hall).
  rewrite N.shiftr_div_pow2. apply N.Div0.div_lt_upper_bound. lia.
Qed.

Lemma EncodeRune_high r :
  (127 < r)%N -> Forall (fun b => high b = true) (utf8.EncodeRune r).
Proof.
  intros Hr. unfold utf8.EncodeRune.
  destruct (N.leb_spec r 127); [lia|].
  destruct (N.leb_spec r 2047).
  { repeat constructor; [|apply cont_high].
    apply (lead_high 192 6 32); [simpl; lia|vm_compute; reflexivity]. }
  cbv zeta.
  set (r' := if ((1114111 <? r)%N || ((55296 <=? r)%N && (r <=? 57343)%N))%bool
             then utf8.RuneError else r).
  assert (Hr' : (r' <= 1114111)%N).
  { subst r'. destruct (N.ltb_spec 1114111 r); cbn [orb].
    - unfold utf8.RuneError. lia.
    - destruct ((55296 <=? r)%N && (r <=? 57343)%N)%bool;
        [unfold utf8.RuneError|]; lia. }
  destruct (N.leb_spec r' 65535).
  - repeat constructor; try apply cont_high.
    apply (lead_high 224 12 16); [simpl; lia|vm_compute; reflexivity].
  - repeat constructor; try apply cont_high.
    apply (lead_high 240 18 8); [simpl; lia|vm_compute; reflexivity].
Qed.

(** What [encodeString] writes for one rune holds none of the four
    bytes. *)
Lemma encodeRune_one_line c : one_line (Encoder.encodeRune c).
Proof.
  unfold Encoder.encodeRune.
  destruct (N.eqb_spec c 13) as [->|H13]; [repeat constructor|].
  destruct (N.eqb_spec c 10) as [->|H10]; [repeat constructor|].
  destruct (N.eqb_spec c 12) as [->|H12]; [repeat constructor|].
  destruct (N.eqb_spec c 9) as [->|H9]; [repeat constructor|].
  apply one_line_app.
  { destruct (_ || _)%bool; repeat constructor. }
  destruct (N.leb_spec c 127) as [Hle|Hgt].
  - unfold utf8.EncodeRune. destruct (N.leb_spec c 127); [|lia].
    constructor; [|constructor].
    assert (Hc : code (utf8.byte_of c) = c).
    { unfold code, utf8.byte_of. apply N_ascii_embedding. lia. }
    unfold line_byte.
    destruct (Ascii.eqb_spec (utf8.byte_of c) LF) as [E|_];
      [rewrite E in Hc; change (code LF) with 10%N in Hc; congruence|].
    destruct (Ascii.eqb_spec (utf8.byte_of c) CR) as [E|_];
      [rewrite E in Hc; change (code CR) with 13%N in Hc; congruence|].
    destruct (Ascii.eqb_spec (utf8.byte_of c) TAB) as [E|_];
      [rewrite E in Hc; change (code TAB) with 9%N in Hc; congruence|].
    destruct (Ascii.eqb_spec (utf8.byte_of c) FF) as [E|_];
      [rewrite E in Hc; change (code FF) with 12%N in Hc; congruence|].
    reflexivity.
  - eapply Forall_impl; [|apply EncodeRune_high; exact Hgt].
    exact high_not_line.
Qed.

Lemma encodeString_one_line s : one_line (Encoder.encodeString s).
Proof.
  unfold Encoder.encodeString. constructor; [reflexivity|].
  apply one_line_app; [|repeat constructor].
  induction (utf8.runes s) as [|c l IH]; [constructor|].
  cbn [flat_map]. apply one_line_app; [apply encodeRune_one_line|exact IH].
Qed.

Lemma letter_or_digit_not_line c :
  is_letter c = true \/ is_digit c = true -> line_byte c = false.
Proof.
  intros H. unfold line_byte.
  destruct (Ascii.eqb_spec c LF) as [->|_]; [destruct H; discriminate|].
  destruct (Ascii.eqb_spec c CR) as [->|_]; [destruct H; discriminate|].
  destruct (Ascii.eqb_spec c TAB) as [->|_]; [destruct H; discriminate|].
  destruct (Ascii.eqb_spec c FF) as [->|_]; [destruct H; discriminate|].
  reflexivity.
Qed.

Lemma encodeKey_one_line k : one_line (Encoder.encodeKey k).
Proof.
  destruct (plain_key_dec k) as [Hp|[_ He]].
  - rewrite (encodeKey_plain k Hp). destruct Hp as (c & rest & -> & Hc & Hrest).
    cbn [bytes_of list_ascii_of_string]. constructor.
    + apply letter_or_digit_not_line. now left.
    + eapply Forall_impl; [|exact Hrest]. exact letter_or_digit_not_line.
  - rewrite He. apply encodeString_one_line.
Qed.

Lemma encodeInteger_one_line k n :
  fits k n -> one_line (Encoder.encodeInteger k n).
Proof.
  intros Hfit. rewrite (encodeInteger_fits k n Hfit). unfold literal.
  apply one_line_app; [destruct k; repeat constructor|].
  constructor; [reflexivity|]. apply one_line_app; [|repeat constructor].
  destruct (quoted k n).
  - constructor; [reflexivity|].
    apply one_line_app; [|repeat constructor]. apply one_line_plain, decimal_plain.
  - apply one_line_plain, decimal_plain.
Qed.

Lemma elements_one_line level items :
  Forall (fun item => forall o, item = EOk o -> one_line o) items ->
  forall first outs,
    Encoder.elements compact level first items = EOk outs -> one_line outs.
Proof.
  induction 1 as [|item items Hitem _ IH]; intros first outs Houts.
  - injection Houts as <-. constructor.
  - destruct (elements_cons_gap _ _ _ _ _ _ Houts) as (o & outs' & Ho & Houts' & ->).
    apply one_line_app; [destruct first; repeat constructor|].
    apply one_line_app; [exact (Hitem o Ho)|exact (IH _ _ Houts')].
Qed.

Lemma bracketed_one_line level o c items out :
  line_byte o = false -> line_byte c = false ->
  Forall (fun item => forall o, item = EOk o -> one_line o) items ->
  Encoder.bracketed compact level o c items = EOk out -> one_line out.
Proof.
  intros Ho Hc Hitems Hb.
  destruct (bracketed_gap _ _ _ _ _ _ Hb) as (outs & Houts & ->).
  constructor; [exact Ho|]. cbn [gap compact Encoder.pretty app].
  apply one_line_app; [exact (elements_one_line _ _ Hitems _ _ Houts)|].
  constructor; [exact Hc|constructor].
Qed.

(** What the encoder writes, not indented, for a tree of such values is
    one line. *)
Lemma textual_one_line v :
  textual v ->
  forall level out, Encoder.encodeValue compact level v = EOk out -> one_line out.
Proof.
  induction v as [ | | | | a IH | m IH | | | | | | ] using value_ind';
    intros Ht level out Henc; inversion Ht; subst.
  - injection Henc as <-. repeat constructor.
  - injection Henc as <-. destruct b; repeat constructor.
  - injection Henc as <-. apply encodeString_one_line.
  - rewrite encodeValue_VArray in Henc.
    refine (bracketed_one_line level "["%char "]"%char _ out eq_refl eq_refl _ Henc).
    apply Forall_forall. intros item Hitem o Ho. apply in_map_iff in Hitem.
    destruct Hitem as (x & Hx & Hin). subst item.
    rewrite Forall_forall in IH. apply (IH x Hin) with (level := S level); [|exact Ho].
    match goal with H : Forall textual a |- _ => rewrite Forall_forall in H; auto end.
  - rewrite encodeValue_VMap in Henc.
    refine (bracketed_one_line level "{"%char "}"%char _ out eq_refl eq_refl _ Henc).
    apply Forall_forall. intros item Hitem o Ho. apply in_map_iff in Hitem.
    destruct Hitem as (k & Hk & Hin). subst item.
    assert (Hkv : In (k, map_get m k) m).
    { apply map_get_In. eapply Permutation_in;
        [apply Permutation_sym, Strings_perm|exact Hin]. }
    unfold Encoder.pair in Ho.
    destruct (Encoder.encodeValue compact (S level) (map_get m k)) as [ov|] eqn:Ev;
      [|discriminate].
    injection Ho as <-. cbn [compact Encoder.pretty app].
    apply one_line_app; [apply encodeKey_one_line|].
    constructor; [reflexivity|].
    rewrite Forall_forall in IH. apply (IH _ Hkv) with (level := S level); [|exact Ev].
    match goal with
    | H : Forall (fun kv => textual (snd kv)) m |- _ =>
        rewrite Forall_forall in H; exact (H _ Hkv)
    end.
  - injection Henc as <-. now apply encodeInteger_one_line.
Qed.

End OneLine.

(** X17.  What Marshal writes for a tree of null, booleans, strings,
    integers that fit their type, arrays and maps holds no line feed, no
    carriage return, no tab and no form feed, whatever bytes the strings and
    the keys hold: the output is one line.  encodeString and encodeKey write
    none of the four bytes for any string. *)
Theorem Marshal_writes_one_line :
  forall (L : GoLib) (v : value) (out : list byte),
    textual v -> Marshal v = EOk out ->
    one_line out /\
    (forall s, one_line (Encoder.encodeString s)) /\
    (forall k, one_line (Encoder.encodeKey k)).
Proof.
  intros L v out Ht Hm. split; [|split].
  - exact (textual_one_line v Ht 0 out Hm).
  - exact encodeString_one_line.
  - exact encodeKey_one_line.
Qed.

(** [Marshal_writes_one_line] at an array with a string of a line feed and
    a tab. *)
Lemma Marshal_writes_one_line_witness :
  one_line ("["%char :: QUOTE :: BACKSLASH :: "n"%char :: BACKSLASH :: "t"%char ::
            QUOTE :: bytes_of ",int8(5)]")%list /\
  (forall s, one_line (Encoder.encodeString s)) /\
  (forall k, one_line (Encoder.encodeKey k)).
Proof.
  apply (Marshal_writes_one_line GoRef.lib
           (VArray [VString (String LF (String TAB EmptyString)); VInteger KInt8 5])).
  - apply textual_array. repeat apply Forall_cons; try apply Forall_nil.
    + apply textual_string.
    + apply textual_integer. unfold fits; simpl; lia.
  - reflexivity.
Defined.

(** ** Dates and addresses, written and read *)

Section WrittenLiterals.
Context {L : GoLib}.
Local Open Scope list_scope.

Lemma call_quoted_literal name text :
  Encoder.call_quoted name text =
  literal (bytes_of name) (QUOTE :: bytes_of text ++ [QUOTE]).
Proof.
  unfold Encoder.call_quoted, literal. cbn [app]. now rewrite <- app_assoc.
Qed.

Lemma FormatInt_not_empty n :
  (- 2 ^ 63 <= n < 2 ^ 63)%Z -> strconv.FormatInt n <> EmptyString.
Proof.
  intros Hn E.
  pose proof (strconv_facts.parse_int_FormatInt "Atoi" n 64 ltac:(lia)) as H.
  rewrite E in H.
  destruct (Z.leb_spec (- 2 ^ (64 - 1)) n); [|lia].
  destruct (Z.ltb_spec n (2 ^ (64 - 1))); [|lia].
  discriminate H.
Qed.

Lemma Atoi_FormatInt n :
  (- 2 ^ 63 <= n < 2 ^ 63)%Z -> strconv.Atoi (strconv.FormatInt n) = inl n.
Proof.
  intros Hn. unfold strconv.Atoi.
  rewrite strconv_facts.parse_int_FormatInt by lia.
  destruct (Z.leb_spec (- 2 ^ (64 - 1)) n); [|lia].
  destruct (Z.ltb_spec n (2 ^ (64 - 1))); [|lia].
  reflexivity.
Qed.

(** Decode on an input that is one literal with an address and a port. *)
Lemma finish_address text host port :
  finish text VNil (address host port (length text)) =
  match ParseIP host with
  | None =>
      Returns VNil
        (Some (SyntaxError ("malformed IP: " ++ host) (Z.of_nat (length text) + 1)))
  | Some ip =>
      match strconv.Atoi port with
      | inr _ =>
          Returns VNil
            (Some (SyntaxError ("malformed port: " ++ port)
                               (Z.of_nat (length text) + 1)))
      | inl n => Returns (VTCPAddr ip n) None
      end
  end.
Proof.
  unfold address. destruct (ParseIP host); [|reflexivity].
  destruct (strconv.Atoi port); [apply finish_at_end|reflexivity].
Qed.

End WrittenLiterals.

(** X18.  What Marshal writes for a time, an IP address and a TCP address
    is read by Decode through the text of the value: a time [t] comes back
    as time.Parse of [t.Format], an address as net.ParseIP of its String,
    and a TCP address with the same port and the address that net.ParseIP
    makes of the String of the 4-byte form, or of the address itself between
    brackets when it has no 4-byte form.  This holds when the text has only
    printable ASCII bytes other than the quote and the backslash, and the
    address text has no colon, or no closing bracket in the form with
    brackets. *)
Theorem dates_and_addresses_round_trip :
  forall (L : GoLib),
    (forall t, Forall (fun c => plain_byte c = true) (bytes_of (time_Format t)) ->
       exists out, Marshal (VTime t) = EOk out /\
         Decode out =
         match time_Parse (time_Format t) with
         | inl t' => Returns (VTime t') None
         | inr msg => Returns VNil (Some (ParseError msg))
         end) /\
    (forall ip, Forall (fun c => plain_byte c = true) (bytes_of (IP_String ip)) ->
       exists out, Marshal (VIP ip) = EOk out /\
         Decode out =
         match ParseIP (IP_String ip) with
         | Some ip' => Returns (VIP ip') None
         | None => Returns VNil (Some ErrUnexpectedEOF)
         end) /\
    (forall ip ip4 port,
       IP_To4 ip = Some ip4 ->
       Forall (fun c => plain_byte c = true) (bytes_of (IP_String ip4)) ->
       Decoder.IndexByte (IP_String ip4) ":" = None ->
       match IP_String ip4 with
       | String c _ => Ascii.eqb c "["
       | EmptyString => false
       end = false ->
       (- 2 ^ 63 <= port < 2 ^ 63)%Z ->
       exists out, Marshal (VTCPAddr ip port) = EOk out /\
         Decode out =
         match ParseIP (IP_String ip4) with
         | Some ip' => Returns (VTCPAddr ip' port) None
         | None =>
             Returns VNil
               (Some (SyntaxError ("malformed IP: " ++ IP_String ip4)
                                  (Z.of_nat (length out) + 1)))
         end) /\
    (forall ip port,
       IP_To4 ip = None ->
       Forall (fun c => plain_byte c = true) (bytes_of (IP_String ip)) ->
       Decoder.IndexByte (IP_String ip) "]" = None ->
       (- 2 ^ 63 <= port < 2 ^ 63)%Z ->
       exists out, Marshal (VTCPAddr ip port) = EOk out /\
         Decode out =
         match ParseIP (IP_String ip) with
         | Some ip' => Returns (VTCPAddr ip' port) None
         | None =>
             Returns VNil
               (Some (SyntaxError ("malformed IP: " ++ IP_String ip)
                                  (Z.of_nat (length out) + 1)))
         end).
Proof.
  intros L. split; [|split; [|split]].
  - intros t Ht. eexists. split; [reflexivity|].
    unfold Encoder.encodeTime. rewrite call_quoted_literal.
    rewrite (Decode_whole _ "d"%char _ _ eq_refl eq_refl
               (fun fuel => any_datetime_literal [] _ [] fuel Ht)).
    cbv zeta. cbn [length Nat.add].
    unfold bytes_of at 2. rewrite string_of_list_ascii_of_string.
    destruct (time_Parse (time_Format t)); [apply finish_at_end|reflexivity].
  - intros ip Hip. eexists. split; [reflexivity|].
    unfold Encoder.encodeIP. rewrite call_quoted_literal.
    rewrite (Decode_whole _ "i"%char _ _ eq_refl eq_refl
               (fun fuel => any_ip_literal [] _ [] fuel Hip)).
    cbv zeta. cbn [length Nat.add].
    unfold bytes_of at 2. rewrite string_of_list_ascii_of_string.
    destruct (ParseIP (IP_String ip)); [apply finish_at_end|reflexivity].
  - intros ip ip4 port H4 Hpl Hcolon Hhead Hport. eexists. split; [reflexivity|].
    unfold Encoder.encodeIPPort. rewrite H4, call_quoted_literal.
    assert (Hs : Forall (fun c => plain_byte c = true)
                   (bytes_of (IP_String ip4 ++ String ":" (strconv.FormatInt port)))).
    { rewrite bytes_of_append. apply Forall_app. split; [exact Hpl|].
      cbn [bytes_of list_ascii_of_string]. constructor; [reflexivity|].
      apply decimal_plain. }
    change (IP_String ip4 ++ ":" ++ strconv.FormatInt port)%string
      with (IP_String ip4 ++ String ":" (strconv.FormatInt port))%string.
    rewrite (Decode_whole _ "i"%char _ _ eq_refl eq_refl
               (fun fuel => ipport_v4 [] [] (IP_String ip4) (strconv.FormatInt port) fuel
                              (FormatInt_not_empty port Hport) Hcolon Hhead Hs)).
    cbn [length Nat.add]. rewrite finish_address, (Atoi_FormatInt port Hport).
    reflexivity.
  - intros ip port H4 Hpl Hbr Hport. eexists. split; [reflexivity|].
    unfold Encoder.encodeIPPort. rewrite H4, call_quoted_literal.
    assert (Hs : Forall (fun c => plain_byte c = true)
                   (bytes_of (String "[" (IP_String ip ++
                                String "]" (String ":" (strconv.FormatInt port)))))).
    { cbn [bytes_of list_ascii_of_string]. constructor; [reflexivity|].
      fold (bytes_of (IP_String ip ++ String "]" (String ":" (strconv.FormatInt port)))).
      rewrite bytes_of_append. apply Forall_app. split; [exact Hpl|].
      cbn [bytes_of list_ascii_of_string].
      constructor; [reflexivity|]. constructor; [reflexivity|].
      apply decimal_plain. }
    change ("[" ++ IP_String ip ++ "]:" ++ strconv.FormatInt port)%string
      with (String "[" (IP_String ip ++
              String "]" (String ":" (strconv.FormatInt port)))).
    rewrite (Decode_whole _ "i"%char _ _ eq_refl eq_refl
               (fun fuel => ipport_v6 [] [] (IP_String ip) (strconv.FormatInt port) fuel
                              (FormatInt_not_empty port Hport) Hbr Hs)).
    cbn [length Nat.add]. rewrite finish_address, (Atoi_FormatInt port Hport).
    reflexivity.
Qed.

(** [dates_and_addresses_round_trip] at the TCP addresses 192.168.1.2:65000
    and [::1]:65000. *)
Lemma dates_and_addresses_round_trip_witness :
  (exists out,
     Marshal (L := GoRef.lib) (VTCPAddr (L := GoRef.lib) "192.168.1.2" 65000) = EOk out /\
     Decode (L := GoRef.lib) out =
     Returns (VTCPAddr (L := GoRef.lib) "192.168.1.2" 65000) None) /\
  (exists out,
     Marshal (L := GoRef.lib) (VTCPAddr (L := GoRef.lib) "::1" 65000) = EOk out /\
     Decode (L := GoRef.lib) out =
     Returns (VTCPAddr (L := GoRef.lib) "::1" 65000) None).
Proof.
  destruct (dates_and_addresses_round_trip GoRef.lib) as (_ & _ & H4 & H6).
  split.
  - exact (H4 "192.168.1.2" "192.168.1.2" 65000%Z eq_refl
             ltac:(repeat constructor) eq_refl eq_refl ltac:(lia)).
  - exact (H6 "::1" 65000%Z eq_refl ltac:(repeat constructor) eq_refl ltac:(lia)).
Defined.

(** ** The escape [\u] *)

(** X19.  After [\u] the scanner of strings checks three hexadecimal
    digits, not four: the byte in the fourth place is scanned as any other
    byte of the string.  A string literal of [\u], three hexadecimal digits
    and one more byte, or no more byte, is therefore accepted by the scanner
    and handed to unquoteBytes, whose refusal is the error ErrStringEscape
    with no offset; the SyntaxError "in \u hexadecimal character escape" is
    made for the first three places only. *)
Theorem escape_u_checks_three_digits :
  forall (L : GoLib) (h1 h2 h3 c : byte),
    Decoder.is_hex h1 = true -> Decoder.is_hex h2 = true -> Decoder.is_hex h3 = true ->
    Ascii.eqb c QUOTE = false -> Ascii.eqb c BACKSLASH = false ->
    (code c <? 32)%N = false ->
    Decode [QUOTE; BACKSLASH; "u"%char; h1; h2; h3; c; QUOTE] =
      match unquoteBytes [BACKSLASH; "u"%char; h1; h2; h3; c] with
      | Some b => Returns (VString (string_of_list_ascii b)) None
      | None => Returns VNil (Some ErrStringEscape)
      end /\
    Decode [QUOTE; BACKSLASH; "u"%char; h1; h2; h3; QUOTE] =
      match unquoteBytes [BACKSLASH; "u"%char; h1; h2; h3] with
      | Some b => Returns (VString (string_of_list_ascii b)) None
      | None => Returns VNil (Some ErrStringEscape)
      end /\
    Decode [QUOTE; BACKSLASH; "u"%char; h1; h2; c; h3; QUOTE] =
      (if Decoder.is_hex c
       then match unquoteBytes [BACKSLASH; "u"%char; h1; h2; c; h3] with
            | Some b => Returns (VString (string_of_list_ascii b)) None
            | None => Returns VNil (Some ErrStringEscape)
            end
       else Returns VNil
              (Some (SyntaxError ("invalid character " ++ quoteChar c ++
                                  " in \u hexadecimal character escape") 6))).
Proof.
  intros L h1 h2 h3 c H1 H2 H3 Hq Hb Hc.
  assert (Hx : forall h, Decoder.is_hex h = true ->
            Ascii.eqb h QUOTE = false /\ Ascii.eqb h BACKSLASH = false /\
            (code h <? 32)%N = false /\ (127 <? code h)%N = false).
  { intros h Hh. unfold Decoder.is_hex, is_digit, inrange in Hh.
    assert (Hr : (48 <= code h <= 102)%N).
    { change (code "0") with 48%N in Hh. change (code "9") with 57%N in Hh.
      change (code "a") with 97%N in Hh. change (code "f") with 102%N in Hh.
      change (code "A") with 65%N in Hh. change (code "F") with 70%N in Hh.
      rewrite !orb_true_iff, !andb_true_iff, !N.leb_le in Hh. lia. }
    repeat split.
    - destruct (Ascii.eqb_spec h QUOTE) as [->|]; [|reflexivity].
      change (code QUOTE) with 34%N in Hr. lia.
    - destruct (Ascii.eqb_spec h BACKSLASH) as [->|]; [|reflexivity].
      change (code BACKSLASH) with 92%N in Hr.
      unfold Decoder.is_hex in Hh. discriminate Hh.
    - apply N.ltb_ge. lia.
    - apply N.ltb_ge. lia. }
  destruct (Hx h3 H3) as (Hq3 & Hb3 & Hc3 & Hh3).
  assert (Hscan : forall data fuel unquote start pos,
            Decoder.string_scan data fuel unquote start pos =
            if Decoder.end_ data <=? pos then Err ErrUnexpectedEOF pos
            else
              let continue unquote pos :=
                match fuel with
                | O => OutOfFuel
                | S fuel' => Decoder.string_scan data fuel' unquote start pos
                end in
              let* (c, pos) := Decoder.index data pos pos in
              if Ascii.eqb c QUOTE then
                let* (raw, pos) := Decoder.slice data start pos pos in
                if unquote then
                  match unquoteBytes raw with
                  | None => Err ErrStringEscape pos
                  | Some b => Ok (string_of_list_ascii b) (S pos)
                  end
                else Ok (string_of_list_ascii raw) (S pos)
              else if Ascii.eqb c BACKSLASH then
                let pos := S pos in
                if Decoder.end_ data <=? pos then Err ErrUnexpectedEOF pos
                else
                  let* (c, pos) := Decoder.index data pos pos in
                  if Ascii.eqb c "u" then
                    let* (_, pos) := Decoder.escape_u data 3 (S pos) in
                    continue true pos
                  else if Decoder.is_simple_escape c then continue true (S pos)
                  else Decoder.error data c "in string escape code" pos
              else if (code c <? 32)%N then Decoder.error data c "in string literal" pos
              else continue (unquote || (127 <? code c)%N)%bool (S pos)).
  { intros data fuel unquote start pos. destruct fuel; reflexivity. }
  split; [|split].
  - unfold Decode, Decode_fuel, enough, finish.
    rewrite (skipSpaces_here [] QUOTE _ eq_refl : Decoder.skipSpaces (QUOTE :: _) 0 = _).
    cbn [length Nat.mul Nat.add]. rewrite any_S. cbv zeta.
    cbn [Decoder.end_ length Nat.leb Decoder.index nth_error].
    change (Ascii.eqb QUOTE QUOTE) with true. cbv iota.
    unfold Decoder.string. cbn [Decoder.end_ length Nat.sub].
    rewrite Hscan. cbv zeta.
    cbn [Decoder.end_ length Nat.leb Decoder.index nth_error Decoder.escape_u Nat.ltb].
    change (Ascii.eqb BACKSLASH QUOTE) with false.
    change (Ascii.eqb BACKSLASH BACKSLASH) with true.
    change (Ascii.eqb "u" "u") with true. cbv iota.
    rewrite H1, H2, H3. cbv iota.
    rewrite Hscan. cbv zeta.
    cbn [Decoder.end_ length Nat.leb Decoder.index nth_error].
    rewrite Hq, Hb, Hc. cbv iota.
    rewrite Hscan. cbv zeta.
    cbn [Decoder.end_ length Nat.leb Decoder.index nth_error orb].
    change (Ascii.eqb QUOTE QUOTE) with true. cbv iota.
    unfold Decoder.slice. cbn [Nat.leb length andb Nat.sub skipn firstn fmap].
    destruct (unquoteBytes _); [|reflexivity].
    exact (finish_at_end [QUOTE; BACKSLASH; "u"%char; h1; h2; h3; c; QUOTE] VNil _).
  - unfold Decode, Decode_fuel, enough, finish.
    rewrite (skipSpaces_here [] QUOTE _ eq_refl : Decoder.skipSpaces (QUOTE :: _) 0 = _).
    cbn [length Nat.mul Nat.add]. rewrite any_S. cbv zeta.
    cbn [Decoder.end_ length Nat.leb Decoder.index nth_error].
    change (Ascii.eqb QUOTE QUOTE) with true. cbv iota.
    unfold Decoder.string. cbn [Decoder.end_ length Nat.sub].
    rewrite Hscan. cbv zeta.
    cbn [Decoder.end_ length Nat.leb Decoder.index nth_error Decoder.escape_u Nat.ltb].
    change (Ascii.eqb BACKSLASH QUOTE) with false.
    change (Ascii.eqb BACKSLASH BACKSLASH) with true.
    change (Ascii.eqb "u" "u") with true. cbv iota.
    rewrite H1, H2, H3. cbv iota.
    rewrite Hscan. cbv zeta.
    cbn [Decoder.end_ length Nat.leb Decoder.index nth_error orb].
    change (Ascii.eqb QUOTE QUOTE) with true. cbv iota.
    unfold Decoder.slice. cbn [Nat.leb length andb Nat.sub skipn firstn fmap].
    destruct (unquoteBytes _); [|reflexivity].
    exact (finish_at_end [QUOTE; BACKSLASH; "u"%char; h1; h2; h3; QUOTE] VNil _).
  - unfold Decode, Decode_fuel, enough, finish.
    rewrite (skipSpaces_here [] QUOTE _ eq_refl : Decoder.skipSpaces (QUOTE :: _) 0 = _).
    cbn [length Nat.mul Nat.add]. rewrite any_S. cbv zeta.
    cbn [Decoder.end_ length Nat.leb Decoder.index nth_error].
    change (Ascii.eqb QUOTE QUOTE) with true. cbv iota.
    unfold Decoder.string. cbn [Decoder.end_ length Nat.sub].
    rewrite Hscan. cbv zeta.
    cbn [Decoder.end_ length Nat.leb Decoder.index nth_error Decoder.escape_u Nat.ltb].
    change (Ascii.eqb BACKSLASH QUOTE) with false.
    change (Ascii.eqb BACKSLASH BACKSLASH) with true.
    change (Ascii.eqb "u" "u") with true. cbv iota.
    rewrite H1, H2. cbv iota.
    destruct (Decoder.is_hex c) eqn:Hhc.
    + rewrite Hscan. cbv zeta.
      cbn [Decoder.end_ length Nat.leb Decoder.index nth_error].
      rewrite Hq3, Hb3, Hc3. cbv iota.
      rewrite Hscan. cbv zeta.
      cbn [Decoder.end_ length Nat.leb Decoder.index nth_error orb].
      change (Ascii.eqb QUOTE QUOTE) with true. cbv iota.
      unfold Decoder.slice. cbn [Nat.leb length andb Nat.sub skipn firstn fmap].
      destruct (unquoteBytes _); [|reflexivity].
      exact (finish_at_end [QUOTE; BACKSLASH; "u"%char; h1; h2; c; h3; QUOTE] VNil _).
    + unfold Decoder.error. cbn [Decoder.end_ length Nat.ltb Nat.leb fmap].
      reflexivity.
Qed.

(** [escape_u_checks_three_digits] at the string literals with the bodies
    [\u123x], [\u123] and [\u12x3]. *)
Lemma escape_u_checks_three_digits_witness :
  Decode (L := GoRef.lib)
    [QUOTE; BACKSLASH; "u"%char; "1"%char; "2"%char; "3"%char; "x"%char; QUOTE] =
    Returns VNil (Some ErrStringEscape) /\
  Decode (L := GoRef.lib)
    [QUOTE; BACKSLASH; "u"%char; "1"%char; "2"%char; "3"%char; QUOTE] =
    Returns VNil (Some ErrStringEscape) /\
  Decode (L := GoRef.lib)
    [QUOTE; BACKSLASH; "u"%char; "1"%char; "2"%char; "x"%char; "3"%char; QUOTE] =
    Returns VNil
      (Some (SyntaxError "invalid character 'x' in \u hexadecimal character escape" 6)).
Proof.
  exact (escape_u_checks_three_digits GoRef.lib "1" "2" "3" "x"
           eq_refl eq_refl eq_refl eq_refl eq_refl eq_refl).
Defined.
